(** * Recommendation engine data structures: a shallow embedding

    The Python sources under [src/] are embedded as executable definitions:
    - [optimized_hash_table.py]   -> Module [HashTable]
    - [bitmap_index.py]           -> Module [Bitmap]
    - [optimized_recommender.py]  -> Modules [Cache], [Similarity], [Recommender]
    - [user.py], [product.py], [linked_list.py] -> Module [Stores]
    - [skip_list.py]              -> Module [SkipList]

    Conventions.  Python [str] is [string]; Python [int] is [Z]; a Python
    [float] used only for sums, products, quotients and comparisons is a
    rational [Q]; a [dict] whose iteration order is observable is an
    association list in insertion order ([odict]); exceptions are the
    [Raise] results of the [res] monad. *)

From Stdlib Require Import ZArith List String Ascii Bool Lia QArith Lqa
  Permutation Sorted Reals Qreals Lra.
From stdpp Require Import gmap strings list fin_maps pretty.
Import ListNotations.

Local Open Scope string_scope.
Local Open Scope list_scope.
Local Open Scope Z_scope.

(** ** Python results: a value, a raised exception, or an exhausted budget *)

Inductive exn : Type :=
| ValueError | KeyError | IndexError | ZeroDivisionError | AttributeError | TypeError.

Inductive res (A : Type) : Type :=
| Ok (a : A)
| Raise (e : exn)
| OutOfFuel.
Arguments Ok {A} a.
Arguments Raise {A} e.
Arguments OutOfFuel {A}.

Definition rbind {A B} (m : res A) (k : A -> res B) : res B :=
  match m with
  | Ok a => k a
  | Raise e => Raise e
  | OutOfFuel => OutOfFuel
  end.

Notation "'let*' x ':=' m 'in' k" := (rbind m (fun x => k))
  (at level 10, x pattern, m at level 100, k at level 200).

(** [for x in l: acc = f acc x], stopping at the first exception. *)
Fixpoint foldM {A B} (f : A -> B -> res A) (l : list B) (acc : A) : res A :=
  match l with
  | [] => Ok acc
  | x :: l' => let* acc' := f acc x in foldM f l' acc'
  end.

(** Python list indexing with an [int]: negative indices count from the end,
    anything else out of range is an [IndexError]. *)
Definition py_norm_index (len : nat) (i : Z) : res nat :=
  if (0 <=? i) && (i <? Z.of_nat len) then Ok (Z.to_nat i)
  else if (i <? 0) && (- Z.of_nat len <=? i) then Ok (Z.to_nat (Z.of_nat len + i))
  else Raise IndexError.

(** Strict comparison of two rationals, as a boolean. *)
Definition Qltb (x y : Q) : bool := negb (Qle_bool y x).


(** ** Python dictionaries in insertion order *)

Module ODict.
Section WithTypes.
Context {K V : Type} `{EqDecision K}.

Definition odict : Type := list (K * V).

(** [d.get(key)] *)
Fixpoint get (key : K) (d : odict) : option V :=
  match d with
  | [] => None
  | (k, v) :: rest => if decide (k = key) then Some v else get key rest
  end.

(** [key in d] *)
Definition mem (key : K) (d : odict) : bool :=
  match get key d with Some _ => true | None => false end.

(** [d[key] = value]: an existing key keeps its position, a new key goes to
    the end. *)
Fixpoint set (key : K) (value : V) (d : odict) : odict :=
  match d with
  | [] => [(key, value)]
  | (k, v) :: rest =>
      if decide (k = key) then (k, value) :: rest else (k, v) :: set key value rest
  end.

(** [d.pop(key, None)] *)
Fixpoint remove (key : K) (d : odict) : odict :=
  match d with
  | [] => []
  | (k, v) :: rest => if decide (k = key) then rest else (k, v) :: remove key rest
  end.

Definition keys (d : odict) : list K := d.*1.
Definition values (d : odict) : list V := d.*2.

End WithTypes.
Arguments odict K V : clear implicits.
End ODict.
Abbreviation odict := ODict.odict.

(** ** optimized_hash_table.py: OptimizedHashTable *)

Module HashTable.
Section WithValues.

(** Stored values are arbitrary Python objects; [None] of [pyval] is Python's
    [None], [Some v] is any other object. *)
Variable V : Type.
Definition pyval : Type := option V.

Record OptimizedHashTable : Type := mkTable {
  capacity : Z;
  size : Z;
  buckets : list (list (string * pyval))
}.

(** [__init__]: [range(initial_capacity)] is empty for a negative capacity. *)
Definition init (initial_capacity : Z) : OptimizedHashTable :=
  {| capacity := initial_capacity;
     size := 0;
     buckets := replicate (Z.to_nat initial_capacity) [] |}.

Definition ord (c : ascii) : Z := Z.of_nat (nat_of_ascii c).

(** The FNV-1a loop of [_hash], before the reduction modulo the capacity. *)
Definition fnv1a (key : string) : Z :=
  fold_left (fun hash_value char =>
               Z.land (Z.lxor hash_value (ord char) * 16777619) 0xffffffff)
            (list_ascii_of_string key) 2166136261.

Definition _hash (self : OptimizedHashTable) (key : string) : res Z :=
  if decide (key = "") then Ok 0
  else if capacity self =? 0 then Raise ZeroDivisionError
  else Ok (fnv1a key mod capacity self).

(** [self.size / self.capacity > self.load_factor_threshold] *)
Definition load_factor_threshold : Q := 75 # 100.

Definition get_load_factor (self : OptimizedHashTable) : res Q :=
  if capacity self =? 0 then Raise ZeroDivisionError
  else Ok (inject_Z (size self) / inject_Z (capacity self))%Q.

(** Position of the first pair of the bucket whose key is [key]. *)
Fixpoint find_key (key : string) (bucket : list (string * pyval)) : option nat :=
  match bucket with
  | [] => None
  | (existing_key, _) :: rest =>
      if decide (existing_key = key) then Some O
      else option_map S (find_key key rest)
  end.

(** [_resize], given the [insert] it calls back into. *)
Definition _resize_with
    (insert : OptimizedHashTable -> string -> pyval -> res (OptimizedHashTable * bool))
    (self : OptimizedHashTable) : res OptimizedHashTable :=
  let old_buckets := buckets self in
  let old_capacity := capacity self in
  let self := {| capacity := old_capacity * 2;
                 size := 0;
                 buckets := replicate (Z.to_nat (old_capacity * 2)) [] |} in
  foldM (fun self bucket =>
           foldM (fun self kv =>
                    let* r := insert self (fst kv) (snd kv) in Ok (fst r))
                 bucket self)
        old_buckets self.

(** [insert] and [_resize] call each other; [fuel] bounds the depth of that
    mutual recursion (one unit per nested call of [insert]). *)
Fixpoint insert (fuel : nat) (self : OptimizedHashTable) (key : string)
    (value : pyval) : res (OptimizedHashTable * bool) :=
  match fuel with
  | O => OutOfFuel
  | S fuel' =>
      if decide (key = "") then Raise ValueError
      else
        let* lf := get_load_factor self in
        let* self := (if Qltb load_factor_threshold lf
                      then _resize_with (insert fuel') self
                      else Ok self) in
        let* index := _hash self key in
        let* pos := py_norm_index (length (buckets self)) index in
        match buckets self !! pos with
        | None => Raise IndexError
        | Some bucket =>
            match find_key key bucket with
            | Some i =>
                Ok ({| capacity := capacity self;
                       size := size self;
                       buckets := <[pos := <[i := (key, value)]> bucket]> (buckets self) |},
                    false)
            | None =>
                Ok ({| capacity := capacity self;
                       size := size self + 1;
                       buckets := <[pos := bucket ++ [(key, value)]]> (buckets self) |},
                    true)
            end
        end
  end.

Definition _resize (fuel : nat) (self : OptimizedHashTable) : res OptimizedHashTable :=
  _resize_with (insert fuel) self.

Fixpoint bucket_get (key : string) (bucket : list (string * pyval)) : pyval :=
  match bucket with
  | [] => None
  | (existing_key, value) :: rest =>
      if decide (existing_key = key) then value else bucket_get key rest
  end.

Definition get (self : OptimizedHashTable) (key : string) : res pyval :=
  if decide (key = "") then Ok None
  else
    let* index := _hash self key in
    let* pos := py_norm_index (length (buckets self)) index in
    match buckets self !! pos with
    | None => Raise IndexError
    | Some bucket => Ok (bucket_get key bucket)
    end.

Definition delete (self : OptimizedHashTable) (key : string)
  : res (OptimizedHashTable * bool) :=
  if decide (key = "") then Ok (self, false)
  else
    let* index := _hash self key in
    let* pos := py_norm_index (length (buckets self)) index in
    match buckets self !! pos with
    | None => Raise IndexError
    | Some bucket =>
        match find_key key bucket with
        | Some i =>
            Ok ({| capacity := capacity self;
                   size := size self - 1;
                   buckets := <[pos := base.delete i bucket]> (buckets self) |},
                true)
        | None => Ok (self, false)
        end
    end.

Definition contains (self : OptimizedHashTable) (key : string) : res bool :=
  let* value := get self key in
  Ok (match value with None => false | Some _ => true end).

Definition keys (self : OptimizedHashTable) : list string :=
  fst <$> concat (buckets self).

Definition items (self : OptimizedHashTable) : list (string * pyval) :=
  concat (buckets self).

Definition __len__ (self : OptimizedHashTable) : Z := size self.

Definition __getitem__ (self : OptimizedHashTable) (key : string) : res V :=
  let* value := get self key in
  match value with
  | None => Raise KeyError
  | Some v => Ok v
  end.

(** *** Operation sequences and the state invariant *)

Inductive op : Type :=
| Insert (key : string) (value : pyval)
| Delete (key : string).

Definition apply_op (fuel : nat) (self : OptimizedHashTable) (o : op)
  : res OptimizedHashTable :=
  match o with
  | Insert key value => let* r := insert fuel self key value in Ok (fst r)
  | Delete key => let* r := delete self key in Ok (fst r)
  end.

Definition run (fuel : nat) (ops : list op) (self : OptimizedHashTable)
  : res OptimizedHashTable :=
  foldM (apply_op fuel) ops self.

(** [insert] rejects the empty key with [ValueError]. *)
Definition accepted (o : op) : Prop :=
  match o with
  | Insert key _ => key <> ""
  | Delete _ => True
  end.

(** What the most recent [Insert]/[Delete] of [key] left behind: the value
    inserted last, or [None] after a delete or when there was no insert. *)
Definition record_op (key : string) (acc : pyval) (o : op) : pyval :=
  match o with
  | Insert k v => if decide (k = key) then v else acc
  | Delete k => if decide (k = key) then None else acc
  end.

Definition latest (key : string) (ops : list op) : pyval :=
  fold_left (record_op key) ops None.

(** First pair stored under [key] in a list of pairs. *)
Fixpoint assoc (key : string) (l : list (string * pyval)) : option pyval :=
  match l with
  | [] => None
  | (k, v) :: rest => if decide (k = key) then Some v else assoc key rest
  end.

(** Every key sits in the bucket its hash selects, no key is stored twice,
    [size] counts the stored pairs. *)
Record table_ok (self : OptimizedHashTable) : Prop := mkTableOk {
  ok_capacity : 0 < capacity self;
  ok_length : length (buckets self) = Z.to_nat (capacity self);
  ok_home : forall i bucket k v,
      buckets self !! i = Some bucket -> (k, v) ∈ bucket ->
      k <> "" /\ Z.to_nat (fnv1a k mod capacity self) = i;
  ok_nodup : NoDup (keys self);
  ok_size : size self = Z.of_nat (length (items self))
}.

(** [insert] leaves the load factor at most one pair above the threshold. *)
Definition load_ok (self : OptimizedHashTable) : Prop :=
  4 * size self <= 3 * capacity self + 4.

End WithValues.

Arguments capacity {V} _.
Arguments size {V} _.
Arguments buckets {V} _.
Arguments init {V} _.
Arguments _hash {V} _ _.
Arguments get_load_factor {V} _.
Arguments find_key {V} _ _.
Arguments _resize_with {V} _ _.
Arguments insert {V} _ _ _ _.
Arguments _resize {V} _ _.
Arguments bucket_get {V} _ _.
Arguments get {V} _ _.
Arguments delete {V} _ _.
Arguments contains {V} _ _.
Arguments keys {V} _.
Arguments items {V} _.
Arguments __len__ {V} _.
Arguments __getitem__ {V} _ _.
Arguments Insert {V} _ _.
Arguments Delete {V} _.
Arguments apply_op {V} _ _ _.
Arguments run {V} _ _ _.
Arguments accepted {V} _.
Arguments record_op {V} _ _ _.
Arguments latest {V} _ _.
Arguments assoc {V} _ _.
Arguments table_ok {V} _.
Arguments load_ok {V} _.
End HashTable.

(** ** bitmap_index.py: BitmapIndex *)

Module Bitmap.

Record BitmapIndex : Type := mkIndex {
  bitmaps : gmap string (gset Z);
  item_to_index : gmap string Z;
  index_to_item : gmap Z string;
  index_counter : Z;
  total_items : Z
}.

Definition empty : BitmapIndex :=
  {| bitmaps := ∅; item_to_index := ∅; index_to_item := ∅;
     index_counter := 0; total_items := 0 |}.

Definition add_item (self : BitmapIndex) (category item_id : string)
  : BitmapIndex * bool :=
  (* get or create the handle of the item *)
  let '(self, item_index) :=
    match item_to_index self !! item_id with
    | Some item_index => (self, item_index)
    | None =>
        ({| bitmaps := bitmaps self;
            item_to_index := <[item_id := index_counter self]> (item_to_index self);
            index_to_item := <[index_counter self := item_id]> (index_to_item self);
            index_counter := index_counter self + 1;
            total_items := total_items self + 1 |},
         index_counter self)
    end in
  (* add to the category bitmap *)
  let bitmap := default ∅ (bitmaps self !! category) in
  let is_new := bool_decide (item_index ∉ bitmap) in
  ({| bitmaps := <[category := {[item_index]} ∪ bitmap]> (bitmaps self);
      item_to_index := item_to_index self;
      index_to_item := index_to_item self;
      index_counter := index_counter self;
      total_items := total_items self |},
   is_new).

Definition remove_item (self : BitmapIndex) (category item_id : string)
  : BitmapIndex * bool :=
  match item_to_index self !! item_id with
  | None => (self, false)
  | Some item_index =>
      match bitmaps self !! category with
      | Some bitmap =>
          if bool_decide (item_index ∈ bitmap) then
            let bitmap' := bitmap ∖ {[item_index]} in
            ({| bitmaps := if bool_decide (bitmap' = ∅)
                           then delete category (bitmaps self)
                           else <[category := bitmap']> (bitmaps self);
                item_to_index := item_to_index self;
                index_to_item := index_to_item self;
                index_counter := index_counter self;
                total_items := total_items self |},
             true)
          else (self, false)
      | None => (self, false)
      end
  end.

(** [[self.index_to_item[idx] for idx in indices]]: a missing handle is a
    [KeyError]. *)
Fixpoint resolve_list (self : BitmapIndex) (indices : list Z) : res (list string) :=
  match indices with
  | [] => Ok []
  | idx :: rest =>
      match index_to_item self !! idx with
      | None => Raise KeyError
      | Some item => let* items := resolve_list self rest in Ok (item :: items)
      end
  end.

(** Iterating a set of handles visits each handle once, in the order of
    [elements]. *)
Definition resolve (self : BitmapIndex) (indices : gset Z) : res (list string) :=
  resolve_list self (elements indices).

Definition get_items (self : BitmapIndex) (category : string) : res (list string) :=
  match bitmaps self !! category with
  | None => Ok []
  | Some bitmap => resolve self bitmap
  end.

(** The loop of [get_items_intersection] over [categories[1:]]; [None] is the
    early [return []] taken at a category without a bitmap. *)
Fixpoint intersect_rest (self : BitmapIndex) (result_indices : gset Z)
    (categories : list string) : option (gset Z) :=
  match categories with
  | [] => Some result_indices
  | category :: rest =>
      match bitmaps self !! category with
      | None => None
      | Some bitmap => intersect_rest self (result_indices ∩ bitmap) rest
      end
  end.

Definition get_items_intersection (self : BitmapIndex) (categories : list string)
  : res (list string) :=
  match categories with
  | [] => Ok []
  | first :: rest =>
      let result_indices := default ∅ (bitmaps self !! first) in
      match intersect_rest self result_indices rest with
      | None => Ok []
      | Some result_indices => resolve self result_indices
      end
  end.

Definition union_indices (self : BitmapIndex) (categories : list string) : gset Z :=
  fold_left (fun result_indices category =>
               match bitmaps self !! category with
               | Some bitmap => result_indices ∪ bitmap
               | None => result_indices
               end) categories ∅.

Definition get_items_union (self : BitmapIndex) (categories : list string)
  : res (list string) :=
  match categories with
  | [] => Ok []
  | _ => resolve self (union_indices self categories)
  end.

(** *** Operation sequences *)

Inductive op : Type :=
| Add (category item_id : string)
| Remove (category item_id : string).

Definition apply_op (self : BitmapIndex) (o : op) : BitmapIndex :=
  match o with
  | Add category item_id => fst (add_item self category item_id)
  | Remove category item_id => fst (remove_item self category item_id)
  end.

Definition run (ops : list op) : BitmapIndex := fold_left apply_op ops empty.

(** Handles and identifiers are in bijection, handles are below the counter and
    every handle in a bitmap resolves. *)
Record index_ok (self : BitmapIndex) : Prop := mkIndexOk {
  ok_inverse : forall item idx,
      item_to_index self !! item = Some idx <-> index_to_item self !! idx = Some item;
  ok_counter : forall idx item,
      index_to_item self !! idx = Some item -> idx < index_counter self;
  ok_known : forall category bitmap idx,
      bitmaps self !! category = Some bitmap -> idx ∈ bitmap ->
      is_Some (index_to_item self !! idx)
}.

(** The identifiers a category holds, as a mathematical set. *)
Definition members (self : BitmapIndex) (category : string) : gset string :=
  match get_items self category with
  | Ok items => list_to_set items
  | _ => ∅
  end.

End Bitmap.

(** ** optimized_recommender.py: the time-boxed caches *)

Module Cache.

(** [time.time()] is an argument [now] of every operation; times and the
    time-to-live are rationals (seconds). *)
Record caches : Type := mkCaches {
  similarity_cache : gmap (string * string) Q;
  recommendation_cache : gmap string (list string);
  user_preference_cache : gmap string (list (string * Q));
  precomputed_similarities : gmap string (list (string * Q));
  cache_ttl : Q;
  cache_timestamps : gmap string Q
}.

(** [__init__]: empty caches, one hour to live. *)
Definition init : caches :=
  {| similarity_cache := ∅; recommendation_cache := ∅;
     user_preference_cache := ∅; precomputed_similarities := ∅;
     cache_ttl := 3600; cache_timestamps := ∅ |}.

Definition _is_cache_valid (self : caches) (now : Q) (key : string) : bool :=
  match cache_timestamps self !! key with
  | None => false
  | Some timestamp => Qltb (now - timestamp) (cache_ttl self)
  end.

Definition _update_cache_timestamp (self : caches) (now : Q) (key : string) : caches :=
  {| similarity_cache := similarity_cache self;
     recommendation_cache := recommendation_cache self;
     user_preference_cache := user_preference_cache self;
     precomputed_similarities := precomputed_similarities self;
     cache_ttl := cache_ttl self;
     cache_timestamps := <[key := now]> (cache_timestamps self) |}.

Definition expired_keys (self : caches) (current_time : Q) : list string :=
  (List.filter (fun kt => Qle_bool (cache_ttl self) (current_time - snd kt))
               (map_to_list (cache_timestamps self))).*1.

(** One round of the [for key in expired_keys] loop.  [similarity_cache] is
    keyed by pairs of user identifiers, so popping a string key leaves it
    as it is. *)
Definition pop_key (self : caches) (key : string) : caches :=
  {| similarity_cache := similarity_cache self;
     recommendation_cache := delete key (recommendation_cache self);
     user_preference_cache := delete key (user_preference_cache self);
     precomputed_similarities := precomputed_similarities self;
     cache_ttl := cache_ttl self;
     cache_timestamps := delete key (cache_timestamps self) |}.

Definition _clean_cache (self : caches) (current_time : Q) : caches :=
  fold_left pop_key (expired_keys self current_time) self.

Definition clear_cache (self : caches) : caches :=
  {| similarity_cache := ∅; recommendation_cache := ∅;
     user_preference_cache := ∅; precomputed_similarities := ∅;
     cache_ttl := cache_ttl self; cache_timestamps := ∅ |}.

(** The lookup that opens every [recommend_*] method:
    [if cache_key in self.recommendation_cache and self._is_cache_valid(cache_key):
         return self.recommendation_cache[cache_key]]. *)
Definition cache_lookup (self : caches) (now : Q) (cache_key : string)
  : option (list string) :=
  match recommendation_cache self !! cache_key with
  | Some result => if _is_cache_valid self now cache_key then Some result else None
  | None => None
  end.

(** The store that closes every [recommend_*] method:
    [self.recommendation_cache[cache_key] = result;
     self._update_cache_timestamp(cache_key)]. *)
Definition cache_store (self : caches) (now : Q) (cache_key : string)
    (result : list string) : caches :=
  _update_cache_timestamp
    {| similarity_cache := similarity_cache self;
       recommendation_cache := <[cache_key := result]> (recommendation_cache self);
       user_preference_cache := user_preference_cache self;
       precomputed_similarities := precomputed_similarities self;
       cache_ttl := cache_ttl self;
       cache_timestamps := cache_timestamps self |}
    now cache_key.

End Cache.

(** ** linked_list.py, user.py, product.py: the stores *)

Module Stores.

(** A purchase record ([purchase_data]): the optional numeric entry
    ['total_amount'] and the remaining, textual entries. *)
Record purchase_record : Type := mkPurchase {
  total_amount : option Q;
  other_fields : odict string string
}.

Definition empty_record : purchase_record :=
  {| total_amount := None; other_fields := [] |}.

(** Truth value of [purchase_data]: [None] and the empty dict are false. *)
Definition truthy (purchase_data : option purchase_record) : bool :=
  match purchase_data with
  | None => false
  | Some r =>
      match total_amount r, other_fields r with
      | None, [] => false
      | _, _ => true
      end
  end.

(** *** LinkedPurchaseHistory *)

Record LinkedPurchaseHistory : Type := mkHistory {
  head : list (string * purchase_record);   (* nodes from the head on *)
  size : Z
}.

Definition empty_history : LinkedPurchaseHistory := {| head := []; size := 0 |}.

(** [Node.__init__] stores [purchase_data or {}]; the node becomes the head. *)
Definition history_add_purchase (self : LinkedPurchaseHistory) (item_id : string)
    (purchase_data : option purchase_record) : LinkedPurchaseHistory :=
  let data := if truthy purchase_data then default empty_record purchase_data
              else empty_record in
  {| head := (item_id, data) :: head self; size := size self + 1 |}.

Definition to_list (self : LinkedPurchaseHistory) : list string := (head self).*1.

(** *** User *)

Record User : Type := mkUser {
  user_id : string;
  info : odict string string;
  purchase_history : LinkedPurchaseHistory;
  preferences : odict string Q;
  category_spending : odict string Q;
  total_spent : Q
}.

Definition new_user (user_id : string) (info : option (odict string string)) : User :=
  {| user_id := user_id;
     info := default [] info;
     purchase_history := empty_history;
     preferences := [];
     category_spending := [];
     total_spent := 0 |}.

(** [d[key] += amount] on a [defaultdict(float)]. *)
Definition bump (key : string) (amount : Q) (d : odict string Q) : odict string Q :=
  ODict.set key (default 0%Q (ODict.get key d) + amount)%Q d.

(** [amount = purchase_data.get('total_amount', 0) if purchase_data else 1.0] *)
Definition purchase_amount (purchase_data : option purchase_record) : Q :=
  if truthy purchase_data
  then match purchase_data with
       | Some r => default 0%Q (total_amount r)
       | None => 0%Q
       end
  else 1%Q.

Definition user_add_purchase (self : User) (item_id category : string)
    (purchase_data : option purchase_record) : User :=
  let amount := purchase_amount purchase_data in
  {| user_id := user_id self;
     info := info self;
     purchase_history := history_add_purchase (purchase_history self) item_id purchase_data;
     preferences := bump category amount (preferences self);
     category_spending := bump category amount (category_spending self);
     total_spent := (total_spent self + amount)%Q |}.

Definition user_set_preference (self : User) (category : string) (score : Q) : User :=
  {| user_id := user_id self; info := info self;
     purchase_history := purchase_history self;
     preferences := ODict.set category score (preferences self);
     category_spending := category_spending self;
     total_spent := total_spent self |}.

Definition get_items (self : User) : list string := to_list (purchase_history self).

Definition Qsum (l : list Q) : Q := fold_left Qplus l 0%Q.

(** [get_preferences(normalized=True)]: dividing by a zero total raises. *)
Definition get_preferences (self : User) : res (odict string Q) :=
  match preferences self with
  | [] => Ok []
  | prefs =>
      let total := Qsum (ODict.values prefs) in
      if Qeq_bool total 0 then Raise ZeroDivisionError
      else Ok (map (fun cs => (fst cs, (snd cs / total)%Q)) prefs)
  end.

(** *** UserStore *)

Record UserStore : Type := mkUserStore {
  users : odict string User;
  user_categories : odict string (list string)
}.

Definition empty_user_store : UserStore := {| users := []; user_categories := [] |}.

Definition add_user (self : UserStore) (user_id : string)
    (info : option (odict string string)) : UserStore :=
  if ODict.mem user_id (users self) then self
  else {| users := ODict.set user_id (new_user user_id info) (users self);
          user_categories := user_categories self |}.

(** [self.users[user_id]] right after [add_user] always finds the user; the
    [defaultdict(list)] lookup creates the empty category list on first
    sight. *)
Definition add_purchase (self : UserStore) (user_id item_id category : string)
    (purchase_data : option purchase_record) : UserStore :=
  let self := add_user self user_id None in
  let user := default (new_user user_id None) (ODict.get user_id (users self)) in
  let user := user_add_purchase user item_id category purchase_data in
  let categories := default [] (ODict.get user_id (user_categories self)) in
  {| users := ODict.set user_id user (users self);
     user_categories :=
       ODict.set user_id
         (if bool_decide (category ∈ categories) then categories
          else categories ++ [category])
         (user_categories self) |}.

Definition set_preference (self : UserStore) (user_id category : string) (score : Q)
  : UserStore :=
  let self := add_user self user_id None in
  let user := default (new_user user_id None) (ODict.get user_id (users self)) in
  {| users := ODict.set user_id (user_set_preference user category score) (users self);
     user_categories := user_categories self |}.

(** [get_similar_users(user_id, min_common_categories=2)] *)
Definition get_similar_users (self : UserStore) (user_id : string) : list string :=
  if negb (ODict.mem user_id (users self)) then []
  else
    let target_categories : gset string :=
      list_to_set (default [] (ODict.get user_id (user_categories self))) in
    (List.filter
       (fun oc => negb (bool_decide (fst oc = user_id)) &&
                  (2 <=? Z.of_nat (base.size (target_categories ∩ list_to_set (snd oc)))))
       (user_categories self)).*1.

(** *** Product and ProductStore *)

(** A product's [info] dict: the entries the engine reads, each optional,
    and the remaining textual entries. *)
Record product_info : Type := mkInfo {
  brand : option string;
  price : option Q;
  stock : option Z;
  availability : option string;
  other_info : odict string string
}.

Definition empty_info : product_info :=
  {| brand := None; price := None; stock := None; availability := None;
     other_info := [] |}.

Definition info_truthy (info : option product_info) : bool :=
  match info with
  | None => false
  | Some i =>
      match brand i, price i, stock i, availability i, other_info i with
      | None, None, None, None, [] => false
      | _, _, _, _, _ => true
      end
  end.

Record Product : Type := mkProduct {
  item_id : string;
  category : string;
  product_details : product_info     (* [self.info = info or {}] *)
}.

Definition new_product (item_id category : string) (info : option product_info) : Product :=
  {| item_id := item_id; category := category;
     product_details := if info_truthy info then default empty_info info else empty_info |}.

Record ProductStore : Type := mkProductStore {
  items : odict string Product;
  category_index : odict string (list string);
  brand_index : odict string (list string);
  price_range_index : odict string (list string)
}.

Definition empty_product_store : ProductStore :=
  {| items := []; category_index := []; brand_index := []; price_range_index := [] |}.

Definition _get_price_range (price : Q) : string :=
  if Qltb price 50 then "0-50"
  else if Qltb price 100 then "50-100"
  else if Qltb price 200 then "100-200"
  else "200+".

(** [index[key].append(item_id)] on a [defaultdict(list)]. *)
Definition index_append (key item_id : string) (index : odict string (list string))
  : odict string (list string) :=
  ODict.set key (default [] (ODict.get key index) ++ [item_id]) index.

Definition add_product (self : ProductStore) (item_id category : string)
    (info : option product_info) : ProductStore :=
  let product := new_product item_id category info in
  let items := ODict.set item_id product (items self) in
  let category_index := index_append category item_id (category_index self) in
  if info_truthy info then
    let i := default empty_info info in
    let brand := default "unknown" (brand i) in
    let price := default 0%Q (price i) in
    {| items := items; category_index := category_index;
       brand_index := index_append brand item_id (brand_index self);
       price_range_index :=
         index_append (_get_price_range price) item_id (price_range_index self) |}
  else
    {| items := items; category_index := category_index;
       brand_index := brand_index self;
       price_range_index := price_range_index self |}.

Definition get_product (self : ProductStore) (item_id : string) : option Product :=
  ODict.get item_id (items self).

Definition get_items_by_category (self : ProductStore) (category : string) : list string :=
  default [] (ODict.get category (category_index self)).

End Stores.

(** ** recommender.py and optimized_recommender.py: the recommendation engine *)

Module Recommender.
Import Stores.

(** *** Sorting and top-k selection *)

(** [sorted(l, key=..., reverse=True)]: descending and stable, elements with
    equal keys keep their order.  [geb x y] says that the key of [x] is at
    least the key of [y]. *)
Fixpoint insert_desc {A} (geb : A -> A -> bool) (x : A) (l : list A) : list A :=
  match l with
  | [] => [x]
  | y :: ys => if geb x y then x :: y :: ys else y :: insert_desc geb x ys
  end.

Definition sort_desc {A} (geb : A -> A -> bool) (l : list A) : list A :=
  foldr (insert_desc geb) [] l.

(** [heapq.nlargest(n, l, key=...)], which is
    [sorted(l, key=..., reverse=True)[:n]]; nothing for [n <= 0]. *)
Definition nlargest {A} (geb : A -> A -> bool) (n : Z) (l : list A) : list A :=
  take (Z.to_nat n) (sort_desc geb l).

(** [l[:n]] for a Python [int] [n]. *)
Definition py_prefix {A} (n : Z) (l : list A) : list A :=
  if 0 <=? n then take (Z.to_nat n) l
  else take (length l - Z.to_nat (- n)) l.

(** Keys: a score, or the pair (score, identifier) compared as a tuple. *)
Definition by_score (x y : string * Q) : bool := Qle_bool (snd y) (snd x).

Definition by_score_then_id (x y : string * Q) : bool :=
  Qltb (snd y) (snd x) || (Qeq_bool (snd x) (snd y) && String.leb (fst y) (fst x)).

(** *** RecommenderSystem (recommender.py) *)

Record RecommenderSystem : Type := mkRecommender {
  user_store : UserStore;
  product_store : ProductStore
}.

Definition _is_item_available (self : RecommenderSystem) (item_id : string) : bool :=
  match get_product (product_store self) item_id with
  | None => false
  | Some product =>
      let stock := stock (product_details product) in
      let availability := availability (product_details product) in
      match stock with None => true | Some s => 0 <? s end
      && negb (bool_decide (availability = Some "out_of_stock"))
  end.

(** The test guarding [recommendations.append(item)]. *)
Definition wanted (self : RecommenderSystem) (user_items recommendations : list string)
    (item : string) : bool :=
  negb (bool_decide (item ∈ user_items))
  && negb (bool_decide (item ∈ recommendations))
  && _is_item_available self item.

(** The inner loop, over the items of one category. *)
Fixpoint scan_items (self : RecommenderSystem) (top_k : Z) (user_items : list string)
    (items_in_category recommendations : list string) : list string :=
  match items_in_category with
  | [] => recommendations
  | item :: rest =>
      let recommendations :=
        if wanted self user_items recommendations item
        then recommendations ++ [item] else recommendations in
      if top_k <=? Z.of_nat (length recommendations) then recommendations
      else scan_items self top_k user_items rest recommendations
  end.

(** The outer loop, over the categories by decreasing preference. *)
Fixpoint scan_categories (self : RecommenderSystem) (top_k : Z) (user_items : list string)
    (sorted_categories : list (string * Q)) (recommendations : list string) : list string :=
  match sorted_categories with
  | [] => recommendations
  | (category, _) :: rest =>
      if top_k <=? Z.of_nat (length recommendations) then recommendations
      else
        let items_in_category := get_items_by_category (product_store self) category in
        scan_categories self top_k user_items rest
          (scan_items self top_k user_items items_in_category recommendations)
  end.

Definition recommend_by_category (self : RecommenderSystem) (user_id : string)
    (top_k : Z) : res (list string) :=
  match ODict.get user_id (users (user_store self)) with
  | None => Ok []
  | Some user =>
      let user_items := get_items user in
      let* preferences := get_preferences user in
      let sorted_categories := sort_desc by_score preferences in
      Ok (py_prefix top_k (scan_categories self top_k user_items sorted_categories []))
  end.

(** [for item in other_items - user_items: if available: item_scores[item] += weight];
    the set difference is visited once per item. *)
Definition score_items (self : RecommenderSystem) (user_items other_items : list string)
    (weight : Q) (item_scores : odict string Q) : odict string Q :=
  fold_left (fun scores item =>
               if _is_item_available self item then bump item weight scores else scores)
            (list_difference (remove_dups other_items) user_items) item_scores.

(** The loop over the similar users, each with the weight it contributes. *)
Fixpoint score_similar (self : RecommenderSystem) (user_items : list string)
    (similar_users : list (string * Q)) (item_scores : odict string Q)
  : res (odict string Q) :=
  match similar_users with
  | [] => Ok item_scores
  | (other_id, weight) :: rest =>
      match ODict.get other_id (users (user_store self)) with
      | None => Raise KeyError
      | Some other_user =>
          score_similar self user_items rest
            (score_items self user_items (get_items other_user) weight item_scores)
      end
  end.

(** The end of both collaborative methods: nothing for an empty score table,
    otherwise the [top_k] largest by (score, identifier). *)
Definition top_scored (top_k : Z) (item_scores : odict string Q) : list string :=
  match item_scores with
  | [] => []
  | _ => (nlargest by_score_then_id top_k item_scores).*1
  end.

Definition recommend_by_similar_users (self : RecommenderSystem) (user_id : string)
    (top_k : Z) : res (list string) :=
  match ODict.get user_id (users (user_store self)) with
  | None => Ok []
  | Some user =>
      let user_items := get_items user in
      let similar_users := get_similar_users (user_store self) user_id in
      let* item_scores :=
        score_similar self user_items (map (fun other_id => (other_id, 1%Q)) similar_users) [] in
      Ok (top_scored top_k item_scores)
  end.

(** [for i, item in enumerate(recs): scored_items[item] += weight * (1.0 - i / len(recs))] *)
Definition add_position_scores (weight : Q) (recs : list string)
    (scored_items : odict string Q) : odict string Q :=
  fold_left (fun scored ix =>
               bump (snd ix)
                    (weight * (1 - inject_Z (Z.of_nat (fst ix))
                                   / inject_Z (Z.of_nat (length recs))))%Q
                    scored)
            (imap (fun i item => (i, item)) recs) scored_items.

(** The merge shared by [recommend_hybrid] and [recommend_hybrid_optimized]. *)
Definition hybrid_merge (top_k : Z) (content_weight collab_weight : Q)
    (content_recs collab_recs : list string) : list string :=
  let scored_items := add_position_scores content_weight content_recs [] in
  let scored_items := add_position_scores collab_weight collab_recs scored_items in
  (nlargest by_score top_k scored_items).*1.

Definition recommend_hybrid (self : RecommenderSystem) (user_id : string) (top_k : Z)
    (content_weight collab_weight : Q) : res (list string) :=
  let* content_recs := recommend_by_category self user_id (top_k * 2) in
  let* collab_recs := recommend_by_similar_users self user_id (top_k * 2) in
  Ok (hybrid_merge top_k content_weight collab_weight content_recs collab_recs).

(** *** OptimizedRecommenderSystem (optimized_recommender.py) *)

Section Optimized.

(** [_compute_cosine_similarity_cached] as the recommender sees it: for every
    pair of user identifiers a number, or the exception the computation
    raises ([ZeroDivisionError] when the preference weights of one of the
    two users add up to 0).  (Module [Similarity] embeds the computation
    itself, which needs a square root.) *)
Variable cosine : string -> string -> res Q.

Record OptimizedRecommenderSystem : Type := mkOptimized {
  base : RecommenderSystem;
  caches : Cache.caches;
  similarity_matrix : option (odict (string * string) Q)
}.

Definition with_caches (self : OptimizedRecommenderSystem) (c : Cache.caches)
  : OptimizedRecommenderSystem :=
  {| base := base self; caches := c; similarity_matrix := similarity_matrix self |}.

(** [f"{prefix}_{user_id}_{n}"] *)
Definition cache_key (prefix user_id : string) (n : Z) : string :=
  prefix +:+ "_" +:+ user_id +:+ "_" +:+ pretty n.

(** [for other_id in users: if other_id == user_id: continue;
     similarity = ...; if similarity > 0: similarities.append(...)];
    the first exception ends the loop. *)
Fixpoint positive_similarities (user_id : string) (others : list string)
    (similarity_of : string -> res Q) : res (list (string * Q)) :=
  match others with
  | [] => Ok []
  | other_id :: rest =>
      if bool_decide (other_id = user_id)
      then positive_similarities user_id rest similarity_of
      else
        let* similarity := similarity_of other_id in
        let* similarities := positive_similarities user_id rest similarity_of in
        Ok (if Qltb 0 similarity then (other_id, similarity) :: similarities
            else similarities)
  end.

(** [time.time()] is the argument [now]. *)
Definition get_similar_users_cached (self : OptimizedRecommenderSystem) (now : Q)
    (user_id : string) (top_n : Z)
  : res (list (string * Q) * OptimizedRecommenderSystem) :=
  let key := cache_key "similar_users" user_id top_n in
  let c := caches self in
  match Cache.precomputed_similarities c !! key, Cache._is_cache_valid c now key with
  | Some cached, true => Ok (py_prefix top_n cached, self)
  | _, _ =>
      let* positives :=
        positive_similarities user_id
          (ODict.keys (users (user_store (base self)))) (cosine user_id) in
      let similarities := sort_desc by_score positives in
      Ok (py_prefix top_n similarities,
          with_caches self
            (Cache._update_cache_timestamp
               {| Cache.similarity_cache := Cache.similarity_cache c;
                  Cache.recommendation_cache := Cache.recommendation_cache c;
                  Cache.user_preference_cache := Cache.user_preference_cache c;
                  Cache.precomputed_similarities :=
                    <[key := similarities]> (Cache.precomputed_similarities c);
                  Cache.cache_ttl := Cache.cache_ttl c;
                  Cache.cache_timestamps := Cache.cache_timestamps c |}
               now key))
  end.

Definition get_similar_users_fast (self : OptimizedRecommenderSystem) (now : Q)
    (user_id : string) (top_n : Z)
  : res (list (string * Q) * OptimizedRecommenderSystem) :=
  match similarity_matrix self with
  | None | Some [] => get_similar_users_cached self now user_id top_n
  | Some matrix =>
      let* positives :=
        positive_similarities user_id
          (ODict.keys (users (user_store (base self))))
          (fun other_id => Ok (default 0%Q (ODict.get (user_id, other_id) matrix))) in
      let similarities := sort_desc by_score positives in
      Ok (py_prefix top_n similarities, self)
  end.

Definition recommend_by_similar_users_cached (self : OptimizedRecommenderSystem)
    (now : Q) (user_id : string) (top_k : Z)
  : res (list string * OptimizedRecommenderSystem) :=
  let key := cache_key "collab" user_id top_k in
  match Cache.cache_lookup (caches self) now key with
  | Some cached => Ok (cached, self)
  | None =>
      match ODict.get user_id (users (user_store (base self))) with
      | None => Ok ([], self)
      | Some user =>
          let user_items := get_items user in
          let* similar :=
            match similarity_matrix self with
            | None | Some [] => get_similar_users_cached self now user_id 20
            | Some _ => get_similar_users_fast self now user_id 20
            end in
          let similar_users := fst similar in
          let self := snd similar in
          let* item_scores := score_similar (base self) user_items similar_users [] in
          match item_scores with
          | [] => Ok ([], self)
          | _ =>
              let result := top_scored top_k item_scores in
              Ok (result, with_caches self (Cache.cache_store (caches self) now key result))
          end
      end
  end.

End Optimized.

End Recommender.

(** ** optimized_recommender.py: cosine similarity of two users *)

Module Similarity.
Import Stores.

(** [set(prefs1.keys()) & set(prefs2.keys())] *)
Definition common_categories (prefs1 prefs2 : odict string Q) : list string :=
  List.filter (fun cat => ODict.mem cat prefs2) (ODict.keys prefs1).

(** [prefs[cat]] for a category among the keys. *)
Definition weight (prefs : odict string Q) (cat : string) : Q :=
  default 0%Q (ODict.get cat prefs).

(** The body of [_compute_cosine_similarity_cached].  The sums are exact
    rationals; the square roots and the quotient are real numbers. *)
Definition cosine_similarity (self : UserStore) (user1_id user2_id : string) : res R :=
  match ODict.get user1_id (users self), ODict.get user2_id (users self) with
  | Some user1, Some user2 =>
      let* prefs1 := get_preferences user1 in
      let* prefs2 := get_preferences user2 in
      let common_cats := common_categories prefs1 prefs2 in
      match common_cats with
      | [] => Ok 0%R
      | _ =>
          let dot_product :=
            Qsum (map (fun cat => weight prefs1 cat * weight prefs2 cat)%Q common_cats) in
          let magnitude1 :=
            sqrt (Q2R (Qsum (map (fun cat => weight prefs1 cat * weight prefs1 cat)%Q
                                 common_cats))) in
          let magnitude2 :=
            sqrt (Q2R (Qsum (map (fun cat => weight prefs2 cat * weight prefs2 cat)%Q
                                 common_cats))) in
          if Req_EM_T magnitude1 0 then Ok 0%R
          else if Req_EM_T magnitude2 0 then Ok 0%R
          else Ok (Q2R dot_product / (magnitude1 * magnitude2))%R
      end
  | _, _ => Ok 0%R
  end.

(** [@lru_cache(maxsize=1000)]: results by argument pair, most recently used
    first; an exception is not cached. *)
Definition lru : Type := odict (string * string) R.

Definition _compute_cosine_similarity_cached (self : UserStore) (cache : lru)
    (user1_id user2_id : string) : res R * lru :=
  match ODict.get (user1_id, user2_id) cache with
  | Some similarity =>
      (Ok similarity,
       ((user1_id, user2_id), similarity) :: ODict.remove (user1_id, user2_id) cache)
  | None =>
      match cosine_similarity self user1_id user2_id with
      | Ok similarity =>
          (Ok similarity, take 1000 (((user1_id, user2_id), similarity) :: cache))
      | failure => (failure, cache)
      end
  end.

End Similarity.

(** ** skip_list.py: SkipListPurchaseHistory *)

Module SkipList.
Import Stores.

(** Nodes live in a heap and are named by their address; [None] in a
    [forward] slot is Python's [None].  The header is the node whose
    [item_id] is [None]. *)
Record SkipListNode : Type := mkNode {
  item_id : option string;
  purchase_data : purchase_record;
  forward : list (option nat);
  node_level : nat
}.

(** [SkipListNode.__init__]: [forward = [None] * (level + 1)]. *)
Definition _create_node (level : nat) (item_id : option string)
    (purchase_data : purchase_record) : SkipListNode :=
  {| item_id := item_id; purchase_data := purchase_data;
     forward := replicate (S level) None; node_level := level |}.

Record SkipListPurchaseHistory : Type := mkSkipList {
  max_level : nat;
  header : nat;
  level : nat;
  size : Z;
  heap : gmap nat SkipListNode;
  next_object : nat          (* the address the next new node gets *)
}.

(** [__init__]; the header's [purchase_data] is [None] in the source and is
    never read. *)
Definition init (max_level : nat) : SkipListPurchaseHistory :=
  {| max_level := max_level;
     header := 0%nat;
     level := 0%nat;
     size := 0;
     heap := {[ 0%nat := _create_node max_level None empty_record ]};
     next_object := 1%nat |}.

(** [_random_level]: [rng n] tells whether the [n]-th call of
    [random.random()] falls below [self.probability]; the call is made
    before [level < self.max_level] is tested.  Returns the level and the
    number of the next call. *)
Fixpoint random_level_loop (rng : nat -> bool) (calls : nat) (remaining level : nat)
  : nat * nat :=
  match remaining with
  | O => (level, S calls)
  | S remaining' =>
      if rng calls then random_level_loop rng (S calls) remaining' (S level)
      else (level, S calls)
  end.

Definition _random_level (self : SkipListPurchaseHistory) (rng : nat -> bool) (calls : nat)
  : nat * nat :=
  random_level_loop rng calls (max_level self) 0%nat.

Definition deref (h : gmap nat SkipListNode) (a : nat) : res SkipListNode :=
  match h !! a with
  | Some node => Ok node
  | None => Raise AttributeError
  end.

(** [l[i]] and [l[i] = x] for a natural number [i]. *)
Definition index {A} (l : list A) (i : nat) : res A :=
  match l !! i with
  | Some x => Ok x
  | None => Raise IndexError
  end.

Definition assign {A} (l : list A) (i : nat) (x : A) : res (list A) :=
  if decide (i < length l)%nat then Ok (<[i := x]> l) else Raise IndexError.

(** [node.forward[i] = target] *)
Definition set_forward (h : gmap nat SkipListNode) (a i : nat) (target : option nat)
  : res (gmap nat SkipListNode) :=
  let* node := deref h a in
  let* forward' := assign (forward node) i target in
  Ok (<[a := {| item_id := item_id node; purchase_data := purchase_data node;
                forward := forward'; node_level := node_level node |}]> h).

(** [while current.forward[i] and current.forward[i].item_id < item_id:
        current = current.forward[i]] *)
Fixpoint advance (fuel : nat) (h : gmap nat SkipListNode) (i : nat) (item_id : string)
    (current : nat) : res nat :=
  match fuel with
  | O => OutOfFuel
  | S fuel' =>
      let* node := deref h current in
      let* next := index (forward node) i in
      match next with
      | None => Ok current
      | Some a =>
          let* next_node := deref h a in
          match SkipList.item_id next_node with
          | None => Raise TypeError
          | Some next_id =>
              if String.ltb next_id item_id then advance fuel' h i item_id a
              else Ok current
          end
      end
  end.

(** [for i in range(self.level, -1, -1): <advance>; update[i] = current],
    from level [i] down. *)
Fixpoint find_path (fuel : nat) (h : gmap nat SkipListNode) (item_id : string)
    (i : nat) (current : nat) (update : list (option nat))
  : res (nat * list (option nat)) :=
  let* current := advance fuel h i item_id current in
  let* update := assign update i (Some current) in
  match i with
  | O => Ok (current, update)
  | S i' => find_path fuel h item_id i' current update
  end.

(** A [while] loop over the nodes runs at most once per node. *)
Definition loop_fuel (self : SkipListPurchaseHistory) : nat := S (base.size (heap self)).

(** [current = current.forward[0]], then
    [current and current.item_id == item_id]: the address of the node
    holding [item_id], if the level-0 successor is that node. *)
Definition successor_with (h : gmap nat SkipListNode) (current : nat) (item_id : string)
  : res (option nat) :=
  let* node := deref h current in
  let* next := index (forward node) 0 in
  match next with
  | None => Ok None
  | Some a =>
      let* next_node := deref h a in
      if bool_decide (SkipList.item_id next_node = Some item_id) then Ok (Some a)
      else Ok None
  end.

(** One round of [for i in range(new_level + 1)]. *)
Definition splice (new_node : nat) (update : list (option nat))
    (h : gmap nat SkipListNode) (i : nat) : res (gmap nat SkipListNode) :=
  let* slot := index update i in
  match slot with
  | None => Raise AttributeError
  | Some before =>
      let* before_node := deref h before in
      let* next := index (forward before_node) i in
      let* h := set_forward h new_node i next in
      set_forward h before i (Some new_node)
  end.

Definition add_purchase (self : SkipListPurchaseHistory) (rng : nat -> bool) (calls : nat)
    (item_id : string) (purchase_data : option purchase_record)
  : res (SkipListPurchaseHistory * nat) :=
  let purchase_data := default empty_record purchase_data in
  let update := replicate (S (max_level self)) None in
  let* found := find_path (loop_fuel self) (heap self) item_id (level self)
                          (header self) update in
  let '(current, update) := found in
  let* existing := successor_with (heap self) current item_id in
  match existing with
  | Some a =>
      let* node := deref (heap self) a in
      Ok ({| max_level := max_level self; header := header self; level := level self;
             size := size self;
             heap := <[a := {| item_id := SkipList.item_id node;
                               purchase_data := purchase_data;
                               forward := forward node;
                               node_level := node_level node |}]> (heap self);
             next_object := next_object self |},
          calls)
  | None =>
      let '(new_level, calls) := _random_level self rng calls in
      let new_node := next_object self in
      let h := <[new_node := _create_node new_level (Some item_id) purchase_data]>
                 (heap self) in
      let* update :=
        (if (level self <? new_level)%nat
         then foldM (fun update i => assign update i (Some (header self)))
                    (seq (S (level self)) (new_level - level self)) update
         else Ok update) in
      let* h := foldM (splice new_node update) (seq 0 (S new_level)) h in
      Ok ({| max_level := max_level self; header := header self;
             level := if (level self <? new_level)%nat then new_level else level self;
             size := size self + 1;
             heap := h;
             next_object := S (next_object self) |},
          calls)
  end.

(** The same descent without the [update] list, as [search_purchase] has it. *)
Fixpoint descend (fuel : nat) (h : gmap nat SkipListNode) (item_id : string)
    (i : nat) (current : nat) : res nat :=
  let* current := advance fuel h i item_id current in
  match i with
  | O => Ok current
  | S i' => descend fuel h item_id i' current
  end.

Definition search_purchase (self : SkipListPurchaseHistory) (item_id : string)
  : res (option purchase_record) :=
  let* current := descend (loop_fuel self) (heap self) item_id (level self)
                          (header self) in
  let* existing := successor_with (heap self) current item_id in
  match existing with
  | Some a => let* node := deref (heap self) a in Ok (Some (purchase_data node))
  | None => Ok None
  end.

(** [for i in range(self.level + 1)] with its [break], over the levels [levels]. *)
Fixpoint unlink (current : nat) (update : list (option nat)) (levels : list nat)
    (h : gmap nat SkipListNode) : res (gmap nat SkipListNode) :=
  match levels with
  | [] => Ok h
  | i :: rest =>
      let* slot := index update i in
      match slot with
      | None => Raise AttributeError
      | Some before =>
          let* before_node := deref h before in
          let* next := index (forward before_node) i in
          if bool_decide (next = Some current) then
            let* node := deref h current in
            let* after := index (forward node) i in
            let* h := set_forward h before i after in
            unlink current update rest h
          else Ok h
      end
  end.

(** [while self.level > 0 and self.header.forward[self.level] is None:
        self.level -= 1] *)
Fixpoint lower_level (header_forward : list (option nat)) (level : nat) : res nat :=
  match level with
  | O => Ok O
  | S level' =>
      let* top := index header_forward level in
      match top with
      | None => lower_level header_forward level'
      | Some _ => Ok level
      end
  end.

Definition delete_purchase (self : SkipListPurchaseHistory) (item_id : string)
  : res (SkipListPurchaseHistory * bool) :=
  let update := replicate (S (max_level self)) None in
  let* found := find_path (loop_fuel self) (heap self) item_id (level self)
                          (header self) update in
  let '(current, update) := found in
  let* existing := successor_with (heap self) current item_id in
  match existing with
  | Some a =>
      let* h := unlink a update (seq 0 (S (level self))) (heap self) in
      let* header_node := deref h (header self) in
      let* level' := lower_level (forward header_node) (level self) in
      Ok ({| max_level := max_level self; header := header self; level := level';
             size := size self - 1; heap := h; next_object := next_object self |},
          true)
  | None => Ok (self, false)
  end.

(** [while current: items.append(current.item_id); current = current.forward[0]] *)
Fixpoint collect (fuel : nat) (h : gmap nat SkipListNode) (current : option nat)
  : res (list (option string)) :=
  match current with
  | None => Ok []
  | Some a =>
      match fuel with
      | O => OutOfFuel
      | S fuel' =>
          let* node := deref h a in
          let* next := index (forward node) 0 in
          let* items := collect fuel' h next in
          Ok (item_id node :: items)
      end
  end.

Definition to_list (self : SkipListPurchaseHistory) : res (list (option string)) :=
  let* header_node := deref (heap self) (header self) in
  let* first := index (forward header_node) 0 in
  collect (loop_fuel self) (heap self) first.

Definition __len__ (self : SkipListPurchaseHistory) : Z := size self.

(** *** Operation sequences *)

Inductive op : Type :=
| Add (item_id : string) (purchase_data : option purchase_record)
| Delete (item_id : string).

Definition apply_op (rng : nat -> bool) (state : SkipListPurchaseHistory * nat) (o : op)
  : res (SkipListPurchaseHistory * nat) :=
  match o with
  | Add item_id purchase_data => add_purchase (fst state) rng (snd state) item_id purchase_data
  | Delete item_id =>
      let* r := delete_purchase (fst state) item_id in Ok (fst r, snd state)
  end.

Definition run (max_level : nat) (rng : nat -> bool) (ops : list op)
  : res (SkipListPurchaseHistory * nat) :=
  foldM (apply_op rng) ops (init max_level, 0%nat).

End SkipList.

(** ** optimized_hash_table.py: the remaining methods of OptimizedHashTable *)

Module HashTableMore.
Import HashTable.
Section WithValues.
Variable V : Type.

Definition values (self : OptimizedHashTable V) : list (pyval V) :=
  snd <$> concat (buckets self).

(** [clear]: as many empty buckets as the current capacity. *)
Definition clear (self : OptimizedHashTable V) : OptimizedHashTable V :=
  {| capacity := capacity self;
     size := 0;
     buckets := replicate (Z.to_nat (capacity self)) [] |}.

Definition __contains__ (self : OptimizedHashTable V) (key : string) : res bool :=
  contains self key.

Definition __setitem__ (fuel : nat) (self : OptimizedHashTable V) (key : string)
    (value : pyval V) : res (OptimizedHashTable V) :=
  let* r := insert fuel self key value in Ok (fst r).

Definition __delitem__ (self : OptimizedHashTable V) (key : string)
  : res (OptimizedHashTable V) :=
  let* r := delete self key in
  if snd r then Ok (fst r) else Raise KeyError.

(** [max(bucket_sizes) if bucket_sizes else 0] *)
Definition max_or_zero (l : list Z) : Z :=
  match l with
  | [] => 0
  | x :: rest => fold_left Z.max rest x
  end.

Definition sum (l : list Z) : Z := fold_left Z.add l 0.

(** The dictionary returned by [get_stats]. *)
Record stats : Type := mkStats {
  stat_size : Z;
  stat_capacity : Z;
  stat_load_factor : Q;
  stat_max_bucket_size : Z;
  stat_avg_bucket_size : Q;
  stat_empty_buckets : Z
}.

Definition get_stats (self : OptimizedHashTable V) : res stats :=
  let bucket_sizes := (fun bucket => Z.of_nat (length bucket)) <$> buckets self in
  let max_bucket_size := max_or_zero bucket_sizes in
  let avg_bucket_size :=
    match bucket_sizes with
    | [] => 0%Q
    | _ => (inject_Z (sum bucket_sizes) / inject_Z (Z.of_nat (length bucket_sizes)))%Q
    end in
  let* load_factor := get_load_factor self in
  Ok {| stat_size := size self;
        stat_capacity := capacity self;
        stat_load_factor := load_factor;
        stat_max_bucket_size := max_bucket_size;
        stat_avg_bucket_size := avg_bucket_size;
        stat_empty_buckets :=
          sum ((fun _ => 1) <$> List.filter (fun bucket => match bucket with [] => true | _ => false end)
                                            (buckets self)) |}.

(** Whether the most recent [Insert]/[Delete] of [key] was an [Insert]. *)
Definition stored_op (key : string) (acc : bool) (o : op V) : bool :=
  match o with
  | Insert k _ => if decide (k = key) then true else acc
  | Delete k => if decide (k = key) then false else acc
  end.

Definition live (key : string) (ops : list (op V)) : bool :=
  fold_left (stored_op key) ops false.

End WithValues.

Arguments values {V} _.
Arguments clear {V} _.
Arguments __contains__ {V} _ _.
Arguments __setitem__ {V} _ _ _ _.
Arguments __delitem__ {V} _ _.
Arguments get_stats {V} _.
Arguments stored_op {V} _ _ _.
Arguments live {V} _ _.
End HashTableMore.

(** ** bitmap_index.py: the remaining queries of BitmapIndex *)

Module BitmapQueries.
Import Bitmap.

(** [indices1 - indices2], with the empty set for a [category2] without
    bitmap; nothing for a [category1] without bitmap. *)
Definition get_items_difference (self : BitmapIndex) (category1 category2 : string)
  : res (list string) :=
  match bitmaps self !! category1 with
  | None => Ok []
  | Some indices1 =>
      let indices2 := default ∅ (bitmaps self !! category2) in
      resolve self (indices1 ∖ indices2)
  end.

(** [len(self.bitmaps.get(category, set()))] *)
Definition get_category_count (self : BitmapIndex) (category : string) : Z :=
  Z.of_nat (base.size (default (∅ : gset Z) (bitmaps self !! category))).

Definition get_total_items (self : BitmapIndex) : Z := total_items self.

End BitmapQueries.

(** ** linked_list.py, user.py, product.py: the remaining queries *)

Module StoresQueries.
Import Stores Recommender.

(** *** LinkedPurchaseHistory *)

(** [while current: if current.item_id == item_id: return current.purchase_data] *)
Fixpoint search_nodes (item_id : string) (nodes : list (string * purchase_record))
  : option purchase_record :=
  match nodes with
  | [] => None
  | (id, data) :: rest =>
      if decide (id = item_id) then Some data else search_nodes item_id rest
  end.

Definition search_purchase (self : LinkedPurchaseHistory) (item_id : string)
  : option purchase_record :=
  search_nodes item_id (head self).

(** [while current and len(recent) < count: recent.append(current.item_id)] *)
Fixpoint recent_nodes (count : Z) (nodes : list (string * purchase_record))
    (recent : list string) : list string :=
  match nodes with
  | [] => recent
  | (id, _) :: rest =>
      if Z.of_nat (length recent) <? count then recent_nodes count rest (recent ++ [id])
      else recent
  end.

Definition get_recent_purchases (self : LinkedPurchaseHistory) (count : Z) : list string :=
  recent_nodes count (head self) [].

Definition __len__ (self : LinkedPurchaseHistory) : Z := size self.

(** *** User *)

(** [return self.purchase_history.search_purchase(item_id) is not None] *)
Definition has_purchased (self : User) (item_id : string) : bool :=
  match search_purchase (purchase_history self) item_id with
  | Some _ => true
  | None => false
  end.

Definition user_get_recent_purchases (self : User) (count : Z) : list string :=
  get_recent_purchases (purchase_history self) count.

(** [sorted(self.preferences.items(), key=lambda x: x[1], reverse=True)[:n]] *)
Definition get_top_categories (self : User) (n : Z) : list string :=
  (py_prefix n (sort_desc by_score (preferences self))).*1.

Definition set_info (self : User) (key value : string) : User :=
  {| user_id := user_id self;
     info := ODict.set key value (info self);
     purchase_history := purchase_history self;
     preferences := preferences self;
     category_spending := category_spending self;
     total_spent := total_spent self |}.

Definition get_info (self : User) (key : string) : option string :=
  ODict.get key (info self).

(** *** UserStore *)

Definition update_user_info (self : UserStore) (user_id key value : string) : UserStore :=
  let self := add_user self user_id None in
  let user := default (new_user user_id None) (ODict.get user_id (users self)) in
  {| users := ODict.set user_id (set_info user key value) (users self);
     user_categories := user_categories self |}.

Definition get_user_info (self : UserStore) (user_id key : string) : option string :=
  match ODict.get user_id (users self) with
  | Some user => get_info user key
  | None => None
  end.

Definition get_user_items (self : UserStore) (user_id : string) : list string :=
  match ODict.get user_id (users self) with
  | Some user => get_items user
  | None => []
  end.

(** [get_user_preferences(user_id)], with [normalized=True]. *)
Definition get_user_preferences (self : UserStore) (user_id : string)
  : res (odict string Q) :=
  match ODict.get user_id (users self) with
  | Some user => get_preferences user
  | None => Ok []
  end.

Definition get_users_by_category (self : UserStore) (category : string) : list string :=
  (List.filter (fun uc => bool_decide (category ∈ snd uc)) (user_categories self)).*1.

Definition user_store_contains (self : UserStore) (user_id : string) : bool :=
  ODict.mem user_id (users self).

(** Calls that build a user store; every [info] is a dict of its own, not
    one shared between two calls. *)
Inductive op : Type :=
| AddUser (user_id : string) (info : option (odict string string))
| AddPurchase (user_id item_id category : string) (purchase_data : option purchase_record)
| SetPreference (user_id category : string) (score : Q)
| UpdateUserInfo (user_id key value : string).

Definition apply_op (self : UserStore) (o : op) : UserStore :=
  match o with
  | AddUser user_id info => add_user self user_id info
  | AddPurchase user_id item_id category purchase_data =>
      add_purchase self user_id item_id category purchase_data
  | SetPreference user_id category score => set_preference self user_id category score
  | UpdateUserInfo user_id key value => update_user_info self user_id key value
  end.

Definition run (ops : list op) : UserStore := fold_left apply_op ops empty_user_store.

(** *** ProductStore *)

Definition get_category (self : ProductStore) (item_id : string) : string :=
  match ODict.get item_id (items self) with
  | Some product => category product
  | None => "unknown"
  end.

Definition get_items_by_brand (self : ProductStore) (brand : string) : list string :=
  default [] (ODict.get brand (brand_index self)).

Definition get_all_categories (self : ProductStore) : list string :=
  ODict.keys (category_index self).

Definition product_store_contains (self : ProductStore) (item_id : string) : bool :=
  ODict.mem item_id (items self).

(** Calls of [add_product] that build a product store. *)
Definition load_products (calls : list (string * string * option product_info))
  : ProductStore :=
  fold_left (fun self c => add_product self (fst (fst c)) (snd (fst c)) (snd c))
            calls empty_product_store.

End StoresQueries.

(** ** skip_list.py: the queries of SkipListPurchaseHistory *)

Module SkipListQueries.
Import Stores SkipList.

(** [while current and len(recent) < count:
        recent.append(current.item_id); current = current.forward[0]] *)
Fixpoint recent_loop (fuel : nat) (h : gmap nat SkipListNode) (count : Z)
    (current : option nat) (recent : list (option string))
  : res (list (option string)) :=
  match current with
  | None => Ok recent
  | Some a =>
      if Z.of_nat (length recent) <? count then
        match fuel with
        | O => OutOfFuel
        | S fuel' =>
            let* node := deref h a in
            let* next := index (forward node) 0 in
            recent_loop fuel' h count next (recent ++ [item_id node])
        end
      else Ok recent
  end.

Definition get_recent_purchases (self : SkipListPurchaseHistory) (count : Z)
  : res (list (option string)) :=
  let* header_node := deref (heap self) (header self) in
  let* first := index (forward header_node) 0 in
  recent_loop (loop_fuel self) (heap self) count first [].

(** [while current and current.item_id <= end_item:
        items.append(current.item_id); current = current.forward[0]] *)
Fixpoint range_loop (fuel : nat) (h : gmap nat SkipListNode) (end_item : string)
    (current : option nat) (items : list (option string))
  : res (list (option string)) :=
  match current with
  | None => Ok items
  | Some a =>
      match fuel with
      | O => OutOfFuel
      | S fuel' =>
          let* node := deref h a in
          match item_id node with
          | None => Raise TypeError
          | Some id =>
              if String.leb id end_item then
                let* next := index (forward node) 0 in
                range_loop fuel' h end_item next (items ++ [Some id])
              else Ok items
          end
      end
  end.

Definition get_purchases_in_range (self : SkipListPurchaseHistory)
    (start_item end_item : string) : res (list (option string)) :=
  let* current := descend (loop_fuel self) (heap self) start_item (level self)
                          (header self) in
  let* node := deref (heap self) current in
  let* first := index (forward node) 0 in
  range_loop (loop_fuel self) (heap self) end_item first [].

(** [return self.search_purchase(item_id) is not None] *)
Definition __contains__ (self : SkipListPurchaseHistory) (item_id : string) : res bool :=
  let* found := search_purchase self item_id in
  Ok (match found with Some _ => true | None => false end).

(** What the calls on one item id leave behind: the data stored by the last
    [add_purchase] ([{}] for [None]), nothing after a [delete_purchase] or
    without any call. *)
Definition record_op (item_id : string) (acc : option purchase_record) (o : op)
  : option purchase_record :=
  match o with
  | Add k d => if decide (k = item_id) then Some (default empty_record d) else acc
  | Delete k => if decide (k = item_id) then None else acc
  end.

Definition latest (item_id : string) (ops : list op) : option purchase_record :=
  fold_left (record_op item_id) ops None.

End SkipListQueries.

(** ** recommender.py: recommendations from the favourite categories *)

Module RecommenderMore.
Import Stores Recommender StoresQueries.

(** [for i in range(1, 4): category = user.get_info(f'Favorite_Category_{i}');
        if category: preferred_categories.append(category)] *)
Definition preferred_categories (user : User) : list string :=
  omap (fun key =>
          match get_info user key with
          | Some category => if decide (category = "") then None else Some category
          | None => None
          end)
       ["Favorite_Category_1"; "Favorite_Category_2"; "Favorite_Category_3"].

(** The outer loop of [recommend_based_on_preferences], over the preferred
    categories; the inner loop is that of [recommend_by_category]. *)
Fixpoint scan_preferred (self : RecommenderSystem) (top_k : Z) (user_items : list string)
    (preferred : list string) (recommendations : list string) : list string :=
  match preferred with
  | [] => recommendations
  | category :: rest =>
      if top_k <=? Z.of_nat (length recommendations) then recommendations
      else
        let items_in_category := get_items_by_category (product_store self) category in
        scan_preferred self top_k user_items rest
          (scan_items self top_k user_items items_in_category recommendations)
  end.

Definition recommend_based_on_preferences (self : RecommenderSystem) (user_id : string)
    (top_k : Z) : list string :=
  match ODict.get user_id (users (user_store self)) with
  | None => []
  | Some user =>
      py_prefix top_k
        (scan_preferred self top_k (get_items user) (preferred_categories user) [])
  end.

End RecommenderMore.

(** ** optimized_hash_table.py: OptimizedProductStore *)

Module OptimizedStores.
Import Stores.

(** The four tables of the store; the index tables hold lists of item
    identifiers. *)
Record OptimizedProductStore : Type := mkOptimizedProductStore {
  items : HashTable.OptimizedHashTable Product;
  category_index : HashTable.OptimizedHashTable (list string);
  brand_index : HashTable.OptimizedHashTable (list string);
  price_index : HashTable.OptimizedHashTable (list string)
}.

Definition init (initial_capacity : Z) : OptimizedProductStore :=
  {| items := HashTable.init initial_capacity;
     category_index := HashTable.init initial_capacity;
     brand_index := HashTable.init initial_capacity;
     price_index := HashTable.init initial_capacity |}.

Definition _get_price_range (price : Q) : string :=
  if Qltb price 10 then "0-10"
  else if Qltb price 50 then "10-50"
  else if Qltb price 100 then "50-100"
  else if Qltb price 500 then "100-500"
  else "500+".

(** The body shared by [_update_category_index], [_update_brand_index] and
    [_update_price_index]: [existing.append(item_id)] followed by
    [index.insert(key, existing)] stores the extended list. *)
Definition update_index (fuel : nat) (index : HashTable.OptimizedHashTable (list string))
    (key item_id : string) : res (HashTable.OptimizedHashTable (list string)) :=
  let* existing := HashTable.get index key in
  match existing with
  | None =>
      let* r := HashTable.insert fuel index key (Some [item_id]) in Ok (fst r)
  | Some existing =>
      if bool_decide (item_id ∈ existing) then Ok index
      else
        let* r := HashTable.insert fuel index key (Some (existing ++ [item_id])) in
        Ok (fst r)
  end.

Definition _update_category_index (fuel : nat) (self : OptimizedProductStore)
    (category item_id : string) : res OptimizedProductStore :=
  let* index := update_index fuel (category_index self) category item_id in
  Ok {| items := items self; category_index := index;
        brand_index := brand_index self; price_index := price_index self |}.

Definition _update_brand_index (fuel : nat) (self : OptimizedProductStore)
    (brand item_id : string) : res OptimizedProductStore :=
  let* index := update_index fuel (brand_index self) brand item_id in
  Ok {| items := items self; category_index := category_index self;
        brand_index := index; price_index := price_index self |}.

Definition _update_price_index (fuel : nat) (self : OptimizedProductStore)
    (price : Q) (item_id : string) : res OptimizedProductStore :=
  let price_range := _get_price_range price in
  let* index := update_index fuel (price_index self) price_range item_id in
  Ok {| items := items self; category_index := category_index self;
        brand_index := brand_index self; price_index := index |}.

(** [add_product]: [item_id not in self.items] is [contains], that is
    [get(item_id) is not None]. *)
Definition add_product (fuel : nat) (self : OptimizedProductStore)
    (item_id category : string) (info : option product_info)
  : res OptimizedProductStore :=
  let* present := HashTable.contains (items self) item_id in
  if present then Ok self
  else
    let product := new_product item_id category info in
    let* r := HashTable.insert fuel (items self) item_id (Some product) in
    let self := {| items := fst r; category_index := category_index self;
                   brand_index := brand_index self; price_index := price_index self |} in
    let* self := _update_category_index fuel self category item_id in
    let* self :=
      (if info_truthy info then
         match brand (default empty_info info) with
         | Some b => _update_brand_index fuel self b item_id
         | None => Ok self
         end
       else Ok self) in
    if info_truthy info then
      match price (default empty_info info) with
      | Some p => _update_price_index fuel self p item_id
      | None => Ok self
      end
    else Ok self.

Definition get_product (self : OptimizedProductStore) (item_id : string)
  : res (option Product) :=
  HashTable.get (items self) item_id.

(** [result if result else []] *)
Definition or_empty (result : option (list string)) : list string :=
  match result with
  | Some (x :: rest) => x :: rest
  | _ => []
  end.

Definition get_items_by_category (self : OptimizedProductStore) (category : string)
  : res (list string) :=
  let* result := HashTable.get (category_index self) category in Ok (or_empty result).

Definition get_items_by_brand (self : OptimizedProductStore) (brand : string)
  : res (list string) :=
  let* result := HashTable.get (brand_index self) brand in Ok (or_empty result).

(** [items.remove(item_id)]: the first occurrence goes. *)
Fixpoint list_remove (item_id : string) (l : list string) : list string :=
  match l with
  | [] => []
  | x :: rest => if decide (x = item_id) then rest else x :: list_remove item_id rest
  end.

Definition _remove_from_index (fuel : nat) (index : HashTable.OptimizedHashTable (list string))
    (key item_id : string) : res (HashTable.OptimizedHashTable (list string)) :=
  let* items := HashTable.get index key in
  match items with
  | Some (x :: rest) =>
      if bool_decide (item_id ∈ x :: rest) then
        match list_remove item_id (x :: rest) with
        | [] => let* r := HashTable.delete index key in Ok (fst r)
        | remaining =>
            let* r := HashTable.insert fuel index key (Some remaining) in Ok (fst r)
        end
      else Ok index
  | _ => Ok index
  end.

Definition delete_product (fuel : nat) (self : OptimizedProductStore) (item_id : string)
  : res (OptimizedProductStore * bool) :=
  let* product := get_product self item_id in
  match product with
  | None => Ok (self, false)
  | Some product =>
      let* categories :=
        _remove_from_index fuel (category_index self) (category product) item_id in
      let details := product_details product in
      let* brands :=
        (if info_truthy (Some details) then
           match brand details with
           | Some b =>
               if decide (b = "") then Ok (brand_index self)
               else _remove_from_index fuel (brand_index self) b item_id
           | None => Ok (brand_index self)
           end
         else Ok (brand_index self)) in
      let* prices :=
        (if info_truthy (Some details) then
           match price details with
           | Some p =>
               if Qeq_bool p 0 then Ok (price_index self)
               else _remove_from_index fuel (price_index self) (_get_price_range p) item_id
           | None => Ok (price_index self)
           end
         else Ok (price_index self)) in
      let* r := HashTable.delete (items self) item_id in
      Ok ({| items := fst r; category_index := categories;
             brand_index := brands; price_index := prices |}, snd r)
  end.

(** *** Sequences of calls and the catalogue they describe *)

Inductive op : Type :=
| AddProduct (item_id category : string) (info : option product_info)
| DeleteProduct (item_id : string).

Definition apply_op (fuel : nat) (self : OptimizedProductStore) (o : op)
  : res OptimizedProductStore :=
  match o with
  | AddProduct item_id category info => add_product fuel self item_id category info
  | DeleteProduct item_id =>
      let* r := delete_product fuel self item_id in Ok (fst r)
  end.

Definition run (fuel : nat) (ops : list op) (self : OptimizedProductStore)
  : res OptimizedProductStore :=
  foldM (apply_op fuel) ops self.

(** The table [insert] rejects an empty key: an empty identifier, category
    or brand makes [add_product] raise [ValueError]. *)
Definition accepted (o : op) : Prop :=
  match o with
  | AddProduct item_id category info =>
      item_id <> "" /\ category <> "" /\
      match info with
      | Some i => brand i <> Some ""
      | None => True
      end
  | DeleteProduct _ => True
  end.

(** The products a sequence of calls leaves, in the order they were added:
    adding an identifier that is there changes nothing. *)
Definition catalog_op (cat : odict string Product) (o : op) : odict string Product :=
  match o with
  | AddProduct item_id category info =>
      if ODict.mem item_id cat then cat
      else cat ++ [(item_id, new_product item_id category info)]
  | DeleteProduct item_id => ODict.remove item_id cat
  end.

Definition catalog (ops : list op) : odict string Product :=
  fold_left catalog_op ops [].

Definition by_category (c : string) (cat : odict string Product) : list string :=
  (List.filter (fun kv => bool_decide (category (snd kv) = c)) cat).*1.

Definition by_brand (b : string) (cat : odict string Product) : list string :=
  (List.filter (fun kv => bool_decide (brand (product_details (snd kv)) = Some b)) cat).*1.

End OptimizedStores.

(** ** optimized_recommender.py: content-based recommendations with caching *)

Module RecommenderCached.
Import Stores Recommender.

(** [self.user_preference_cache[user_id] = preferences] *)
Definition store_preferences (c : Cache.caches) (user_id : string)
    (preferences : odict string Q) : Cache.caches :=
  {| Cache.similarity_cache := Cache.similarity_cache c;
     Cache.recommendation_cache := Cache.recommendation_cache c;
     Cache.user_preference_cache := <[user_id := preferences]> (Cache.user_preference_cache c);
     Cache.precomputed_similarities := Cache.precomputed_similarities c;
     Cache.cache_ttl := Cache.cache_ttl c;
     Cache.cache_timestamps := Cache.cache_timestamps c |}.

(** The "Get cached preferences" step: the cached dict while its
    [prefs_<user_id>] timestamp is valid, else the user's normalised
    preferences, which are then cached and stamped. *)
Definition cached_preferences (c : Cache.caches) (now : Q) (user_id : string)
    (user : User) : res (odict string Q * Cache.caches) :=
  match Cache.user_preference_cache c !! user_id,
        Cache._is_cache_valid c now ("prefs_" +:+ user_id) with
  | Some preferences, true => Ok (preferences, c)
  | _, _ =>
      let* preferences := get_preferences user in
      Ok (preferences,
          Cache._update_cache_timestamp (store_preferences c user_id preferences)
            now ("prefs_" +:+ user_id))
  end.

(** [time.time()] is the argument [now]. *)
Definition recommend_by_category_cached (self : OptimizedRecommenderSystem) (now : Q)
    (user_id : string) (top_k : Z) : res (list string * OptimizedRecommenderSystem) :=
  let key := cache_key "content" user_id top_k in
  match Cache.cache_lookup (caches self) now key with
  | Some cached => Ok (cached, self)
  | None =>
      match ODict.get user_id (users (user_store (base self))) with
      | None => Ok ([], self)
      | Some user =>
          let user_items := get_items user in
          let* r := cached_preferences (caches self) now user_id user in
          let sorted_categories := sort_desc by_score (fst r) in
          let result :=
            py_prefix top_k
              (scan_categories (base self) top_k user_items sorted_categories []) in
          Ok (result, with_caches self (Cache.cache_store (snd r) now key result))
      end
  end.

End RecommenderCached.

(** ** optimized_recommender.py: hybrid recommendations with caching *)

Module RecommenderHybrid.
Import Stores Recommender RecommenderCached.

Section Hybrid.

(** [_compute_cosine_similarity_cached], as in [Recommender]. *)
Variable cosine : string -> string -> res Q.

(** [f"{content_weight}"]: the text Python prints for a weight. *)
Variable str_weight : Q -> string.

(** [f"hybrid_{user_id}_{top_k}_{content_weight}_{collab_weight}"] *)
Definition hybrid_key (user_id : string) (top_k : Z) (content_weight collab_weight : Q)
  : string :=
  "hybrid_" +:+ user_id +:+ "_" +:+ pretty top_k +:+ "_" +:+ str_weight content_weight
            +:+ "_" +:+ str_weight collab_weight.

(** The clock is read four times: [now] by the method's own validity check,
    [at_content] and [at_collab] by the two cached methods it calls, and
    [at_store] when the result is stamped. *)
Definition recommend_hybrid_optimized (self : OptimizedRecommenderSystem)
    (now at_content at_collab at_store : Q) (user_id : string) (top_k : Z)
    (content_weight collab_weight : Q)
  : res (list string * OptimizedRecommenderSystem) :=
  let key := hybrid_key user_id top_k content_weight collab_weight in
  match Cache.cache_lookup (caches self) now key with
  | Some cached => Ok (cached, self)
  | None =>
      let* content := recommend_by_category_cached self at_content user_id (top_k * 2) in
      let content_recs := fst content in
      let self := snd content in
      let* collab :=
        recommend_by_similar_users_cached cosine self at_collab user_id (top_k * 2) in
      let collab_recs := fst collab in
      let self := snd collab in
      let result := hybrid_merge top_k content_weight collab_weight content_recs collab_recs in
      Ok (result, with_caches self (Cache.cache_store (caches self) at_store key result))
  end.

End Hybrid.

End RecommenderHybrid.

(** * Proofs: the hash table *)

Module HashTableProofs.
Import HashTable.
Section WithValues.
Context {V : Type}.
Implicit Types (self t : OptimizedHashTable V) (key k : string)
  (value v : pyval V) (l : list (string * pyval V)).

Lemma rbind_ok {A B} (m : res A) (f : A -> res B) (b : B) :
  rbind m f = Ok b -> exists a, m = Ok a /\ f a = Ok b.
Proof. destruct m; simpl; intros H; try discriminate. eauto. Qed.

Lemma py_norm_index_nonneg (len : nat) (i : Z) :
  0 <= i < Z.of_nat len -> py_norm_index len i = Ok (Z.to_nat i).
Proof.
  intros [H1 H2]. unfold py_norm_index.
  destruct (Z.leb_spec 0 i); [|lia]. destruct (Z.ltb_spec i (Z.of_nat len)); [|lia].
  reflexivity.
Qed.

(** The float comparison of [insert] is the integer test 3*capacity < 4*size. *)
Lemma load_check (s c : Z) :
  0 < c ->
  Qltb load_factor_threshold (inject_Z s / inject_Z c) = true <-> 3 * c < 4 * s.
Proof.
  intros Hc. unfold Qltb, load_factor_threshold.
  rewrite negb_true_iff, <- not_true_iff_false, Qle_bool_iff.
  assert (Hq : (0 < inject_Z c)%Q) by (unfold Qlt; simpl; lia).
  split.
  - intros Hn. destruct (Z_lt_le_dec (3 * c) (4 * s)) as [|Hle]; [assumption|].
    exfalso. apply Hn. apply Qle_shift_div_r; [exact Hq|].
    unfold Qle, Qmult, inject_Z; simpl. lia.
  - intros Hlt Hle.
    assert (E : (inject_Z c * (inject_Z s / inject_Z c) == inject_Z s)%Q).
    { apply Qmult_div_r. intros H0. rewrite H0 in Hq. discriminate. }
    apply (Qmult_le_l _ _ (inject_Z c)) in Hle; [|exact Hq].
    rewrite E in Hle. unfold Qle, Qmult, inject_Z in Hle; simpl in Hle. lia.
Qed.

(** *** Association lists *)

Lemma assoc_not_in k l : k ∉ l.*1 -> assoc k l = None.
Proof.
  induction l as [|[k0 v0] l IH]; simpl; [reflexivity|].
  rewrite elem_of_cons. intros H. destruct (decide (k0 = k)); [subst; tauto|].
  apply IH. tauto.
Qed.

Lemma assoc_Some_in k v l : assoc k l = Some v -> (k, v) ∈ l.
Proof.
  induction l as [|[k0 v0] l IH]; simpl; [discriminate|].
  destruct (decide (k0 = k)) as [->|Hne].
  - intros [= ->]. apply elem_of_cons. tauto.
  - intros H. apply elem_of_cons. right. auto.
Qed.

Lemma assoc_in k v l : NoDup l.*1 -> (k, v) ∈ l <-> assoc k l = Some v.
Proof.
  intros Hnd. split; [|apply assoc_Some_in].
  induction l as [|[k0 v0] l IH]; simpl in *.
  - intros H. apply elem_of_nil in H. tauto.
  - apply NoDup_cons in Hnd as [Hni Hnd]. rewrite elem_of_cons.
    destruct (decide (k0 = k)) as [->|Hne].
    + intros [Heq|Hin]; [congruence|].
      exfalso. apply Hni. apply (list_elem_of_fmap_2 fst) in Hin. exact Hin.
    + intros [?|?]; [congruence|auto].
Qed.

Lemma assoc_app k l1 l2 :
  assoc k (l1 ++ l2) = match assoc k l1 with Some v => Some v | None => assoc k l2 end.
Proof.
  induction l1 as [|[k0 v0] l1 IH]; simpl; [reflexivity|].
  destruct (decide (k0 = k)); [reflexivity|exact IH].
Qed.

Lemma assoc_perm k l1 l2 :
  NoDup l1.*1 -> l1 ≡ₚ l2 -> assoc k l1 = assoc k l2.
Proof.
  intros Hnd Hp.
  assert (Hnd2 : NoDup l2.*1) by (rewrite <- Hp; exact Hnd).
  destruct (assoc k l1) as [v|] eqn:E1.
  - symmetry. apply assoc_in; [assumption|].
    rewrite <- Hp. apply assoc_in; assumption.
  - destruct (assoc k l2) as [v|] eqn:E2; [|reflexivity].
    apply assoc_in in E2; [|assumption].
    rewrite <- Hp in E2. apply assoc_in in E2; [congruence|assumption].
Qed.

(** *** Buckets *)

Lemma bucket_get_assoc k l :
  bucket_get k l = match assoc k l with Some v => v | None => None end.
Proof.
  induction l as [|[k0 v0] l IH]; simpl; [reflexivity|].
  destruct (decide (k0 = k)); [reflexivity|exact IH].
Qed.

Lemma find_key_None k l : find_key k l = None -> k ∉ l.*1.
Proof.
  induction l as [|[k0 v0] l IH]; simpl; [intros _; apply not_elem_of_nil|].
  destruct (decide (k0 = k)); [discriminate|].
  destruct (find_key k l); simpl; [discriminate|]. intros _.
  rewrite elem_of_cons. intros [?|?]; [congruence|].
  apply IH; [reflexivity|assumption].
Qed.

Lemma find_key_Some k l i :
  find_key k l = Some i ->
  exists l1 v0 l2, l = l1 ++ (k, v0) :: l2 /\ length l1 = i /\ k ∉ l1.*1.
Proof.
  revert i. induction l as [|[k0 v0] l IH]; simpl; intros i; [discriminate|].
  destruct (decide (k0 = k)) as [->|Hne].
  - intros [= <-]. exists [], v0, l. simpl. split; [reflexivity|].
    split; [reflexivity|apply not_elem_of_nil].
  - destruct (find_key k l) as [j|] eqn:E; simpl; [|discriminate].
    intros [= <-]. destruct (IH j eq_refl) as (l1 & w & l2 & -> & Hlen & Hni).
    exists ((k0, v0) :: l1), w, l2. simpl. repeat split; [congruence|].
    rewrite elem_of_cons. intros [?|?]; [congruence|tauto].
Qed.

Lemma insert_middle {A} (l1 l2 : list A) (x y : A) :
  <[length l1 := y]> (l1 ++ x :: l2) = l1 ++ y :: l2.
Proof. induction l1 as [|a l1 IH]; simpl; [reflexivity|]. f_equal. exact IH. Qed.

Lemma elem_of_concat {A} (x : A) (ls : list (list A)) :
  x ∈ concat ls <-> exists bk, bk ∈ ls /\ x ∈ bk.
Proof.
  rewrite list_elem_of_In, in_concat. split; intros (bk & H1 & H2); exists bk;
    rewrite ?list_elem_of_In in *; tauto.
Qed.

Lemma fnv1a_pos t k :
  0 < capacity t ->
  0 <= fnv1a k mod capacity t < Z.of_nat (Z.to_nat (capacity t)).
Proof. intros H. pose proof (Z.mod_pos_bound (fnv1a k) (capacity t) H). lia. Qed.

(** The bucket a key hashes to splits the bucket array; the key occurs in no
    other bucket. *)
Lemma home_split t k :
  table_ok t -> k <> "" ->
  exists bs1 b bs2,
    buckets t = bs1 ++ b :: bs2 /\
    length bs1 = Z.to_nat (fnv1a k mod capacity t) /\
    (k ∉ fst <$> concat bs1) /\ (k ∉ fst <$> concat bs2).
Proof.
  intros Hok Hk. destruct Hok as [Hcap Hlen Hhome _ _].
  pose proof (fnv1a_pos t k Hcap) as Hpos.
  set (pos := Z.to_nat (fnv1a k mod capacity t)) in *.
  assert (Hlt : (pos < length (buckets t))%nat) by (rewrite Hlen; unfold pos; lia).
  destruct (lookup_lt_is_Some_2 _ _ Hlt) as [b Hb].
  destruct (list_elem_of_split_length _ _ _ Hb) as (bs1 & bs2 & Heq & Hl1).
  exists bs1, b, bs2. split; [exact Heq|]. split; [symmetry; exact Hl1|].
  split; intros Hin; apply list_elem_of_fmap in Hin as ([k0 v0] & Hk0 & Hin);
    simpl in Hk0; subst k0; apply elem_of_concat in Hin as (b' & Hb' & Hin);
    apply list_elem_of_lookup in Hb' as [j Hj].
  - assert (Hj' : buckets t !! j = Some b').
    { rewrite Heq. rewrite lookup_app_l; [exact Hj|]. eapply lookup_lt_Some; exact Hj. }
    destruct (Hhome _ _ _ _ Hj' Hin) as [_ Hp].
    apply lookup_lt_Some in Hj. fold pos in Hp. lia.
  - assert (Hj' : buckets t !! (length bs1 + S j)%nat = Some b').
    { rewrite Heq. rewrite lookup_app_r by lia.
      replace (length bs1 + S j - length bs1)%nat with (S j) by lia. exact Hj. }
    destruct (Hhome _ _ _ _ Hj' Hin) as [_ Hp]. fold pos in Hp. lia.
Qed.

Lemma assoc_replace k k' v (A B : list (string * pyval V)) :
  k ∉ A.*1 ->
  assoc k' (A ++ (k, v) :: B) = if decide (k' = k) then Some v else assoc k' (A ++ B).
Proof.
  intros Hni. rewrite !assoc_app. simpl.
  destruct (decide (k' = k)) as [->|Hne].
  - rewrite (assoc_not_in _ _ Hni). destruct (decide (k = k)); congruence.
  - destruct (decide (k = k')); [congruence|reflexivity].
Qed.

(** The part of [insert] that follows the resize check. *)
Definition put t k v : res (OptimizedHashTable V * bool) :=
  let* index := _hash t k in
  let* pos := py_norm_index (length (buckets t)) index in
  match buckets t !! pos with
  | None => Raise IndexError
  | Some bucket =>
      match find_key k bucket with
      | Some i =>
          Ok ({| capacity := capacity t; size := size t;
                 buckets := <[pos := <[i := (k, v)]> bucket]> (buckets t) |}, false)
      | None =>
          Ok ({| capacity := capacity t; size := size t + 1;
                 buckets := <[pos := bucket ++ [(k, v)]]> (buckets t) |}, true)
      end
  end.

Lemma insert_unfold fuel t k v :
  insert (S fuel) t k v =
  if decide (k = "") then Raise ValueError
  else let* lf := get_load_factor t in
       let* t1 := (if Qltb load_factor_threshold lf
                   then _resize fuel t else Ok t) in
       put t1 k v.
Proof. reflexivity. Qed.

Definition home_ok t : Prop :=
  forall i bucket k v,
    buckets t !! i = Some bucket -> (k, v) ∈ bucket ->
    k <> "" /\ Z.to_nat (fnv1a k mod capacity t) = i.

Lemma home_ok_update t t' k (bs1 bs2 : list (list (string * pyval V))) b b' :
  home_ok t -> k <> "" ->
  buckets t = bs1 ++ b :: bs2 -> buckets t' = bs1 ++ b' :: bs2 ->
  capacity t' = capacity t ->
  length bs1 = Z.to_nat (fnv1a k mod capacity t) ->
  (forall k0 v0, (k0, v0) ∈ b' -> k0 = k \/ (k0, v0) ∈ b) ->
  home_ok t'.
Proof.
  intros Hhome Hk Hb Hb' Hcap Hl1 Hsub i bucket k0 v0 Hi Hin.
  rewrite Hcap. rewrite Hb' in Hi.
  destruct (decide (i = length bs1)) as [->|Hne].
  - rewrite list_lookup_middle in Hi by reflexivity. injection Hi as <-.
    destruct (Hsub _ _ Hin) as [->|Hold]; [split; [assumption|congruence]|].
    apply (Hhome (length bs1) b k0 v0); [|exact Hold].
    rewrite Hb. apply list_lookup_middle. reflexivity.
  - apply (Hhome i bucket k0 v0); [|exact Hin]. rewrite Hb.
    destruct (decide (i < length bs1)%nat).
    + rewrite lookup_app_l in Hi |- * by lia. exact Hi.
    + rewrite lookup_app_r in Hi |- * by lia.
      destruct (i - length bs1)%nat eqn:E; [lia|]. exact Hi.
Qed.

Lemma table_ok_home t : table_ok t -> home_ok t.
Proof. intros [_ _ H _ _]. exact H. Qed.

Lemma not_elem_of_app_keys k (A B : list (string * pyval V)) :
  k ∉ A.*1 -> k ∉ B.*1 -> k ∉ (A ++ B).*1.
Proof. intros HA HB. rewrite fmap_app, elem_of_app. tauto. Qed.

Lemma lookup_home t k bs1 bk bs2 :
  0 < capacity t -> k <> "" ->
  length (buckets t) = Z.to_nat (capacity t) ->
  buckets t = bs1 ++ bk :: bs2 ->
  length bs1 = Z.to_nat (fnv1a k mod capacity t) ->
  (let* index := _hash t k in py_norm_index (length (buckets t)) index)
    = Ok (length bs1) /\ buckets t !! length bs1 = Some bk.
Proof.
  intros Hcap Hk Hlen Hb Hl1. unfold _hash.
  destruct (decide (k = "")); [contradiction|].
  destruct (Z.eqb_spec (capacity t) 0); [lia|]. simpl.
  rewrite py_norm_index_nonneg by (rewrite Hlen; apply fnv1a_pos; exact Hcap).
  rewrite Hl1. split; [reflexivity|].
  rewrite <- Hl1, Hb. apply list_lookup_middle. reflexivity.
Qed.

Lemma put_shape t k v :
  table_ok t -> k <> "" ->
  exists t' b A B,
    put t k v = Ok (t', b) /\
    capacity t' = capacity t /\
    length (buckets t') = length (buckets t) /\
    home_ok t' /\
    (k ∉ A.*1) /\
    items t' = A ++ (k, v) :: B /\
    ((b = false /\ (exists v0, items t = A ++ (k, v0) :: B) /\ size t' = size t) \/
     (b = true /\ items t = A ++ B /\ (k ∉ B.*1) /\ size t' = size t + 1)).
Proof.
  intros Hok Hk.
  destruct (home_split t k Hok Hk) as (bs1 & bk & bs2 & Hb & Hl1 & Hn1 & Hn2).
  pose proof (table_ok_home t Hok) as Hhome.
  destruct Hok as [Hcap Hlen _ Hnd Hsz].
  destruct (lookup_home t k bs1 bk bs2 Hcap Hk Hlen Hb Hl1) as [Hidx Hlk].
  unfold put.
  destruct (_hash t k) as [index| |]; simpl in Hidx; try discriminate. simpl.
  rewrite Hidx. simpl. rewrite Hlk.
  destruct (find_key k bk) as [i|] eqn:Efind.
  - destruct (find_key_Some _ _ _ Efind) as (b1 & v0 & b2 & -> & <- & Hnb1).
    eexists _, false, (concat bs1 ++ b1), (b2 ++ concat bs2).
    split; [reflexivity|]. simpl. rewrite Hb, !insert_middle.
    split; [reflexivity|]. split; [rewrite !length_app; reflexivity|].
    split.
    { apply (home_ok_update t _ k bs1 bs2 (b1 ++ (k, v0) :: b2) (b1 ++ (k, v) :: b2));
        try assumption; try reflexivity.
      intros k0 w. rewrite !elem_of_app, !elem_of_cons. intros [?|[?|?]]; [tauto| |tauto].
      left. congruence. }
    split; [apply not_elem_of_app_keys; assumption|].
    unfold items; simpl. rewrite Hb, !concat_app. simpl.
    split; [rewrite <- !app_assoc; reflexivity|].
    left. split; [reflexivity|]. split; [|reflexivity].
    exists v0. rewrite <- !app_assoc. reflexivity.
  - apply find_key_None in Efind.
    eexists _, true, (concat bs1 ++ bk), (concat bs2).
    split; [reflexivity|]. simpl. rewrite Hb, !insert_middle.
    split; [reflexivity|]. split; [rewrite !length_app; reflexivity|].
    split.
    { apply (home_ok_update t _ k bs1 bs2 bk (bk ++ [(k, v)]));
        try assumption; try reflexivity.
      intros k0 w. rewrite elem_of_app, list_elem_of_singleton. intros [?|?]; [tauto|].
      left. congruence. }
    split; [apply not_elem_of_app_keys; assumption|].
    unfold items; simpl. rewrite Hb, !concat_app. simpl.
    split; [rewrite <- !app_assoc; reflexivity|].
    right. split; [reflexivity|]. split; [rewrite <- !app_assoc; reflexivity|].
    split; [assumption|reflexivity].
Qed.

Lemma delete_shape t k :
  table_ok t -> k <> "" ->
  exists t' b,
    delete t k = Ok (t', b) /\
    capacity t' = capacity t /\
    length (buckets t') = length (buckets t) /\
    home_ok t' /\
    ((b = false /\ t' = t /\ k ∉ (items t).*1) \/
     (b = true /\ exists A v0 B, items t = A ++ (k, v0) :: B /\ items t' = A ++ B /\
                  size t' = size t - 1)).
Proof.
  intros Hok Hk.
  destruct (home_split t k Hok Hk) as (bs1 & bk & bs2 & Hb & Hl1 & Hn1 & Hn2).
  pose proof (table_ok_home t Hok) as Hhome.
  destruct Hok as [Hcap Hlen _ Hnd Hsz].
  destruct (lookup_home t k bs1 bk bs2 Hcap Hk Hlen Hb Hl1) as [Hidx Hlk].
  unfold delete. destruct (decide (k = "")); [contradiction|].
  destruct (_hash t k) as [index| |]; simpl in Hidx; try discriminate. simpl.
  rewrite Hidx. simpl. rewrite Hlk.
  destruct (find_key k bk) as [i|] eqn:Efind.
  - destruct (find_key_Some _ _ _ Efind) as (b1 & v0 & b2 & -> & <- & Hnb1).
    eexists _, true. split; [reflexivity|]. simpl. rewrite Hb, delete_middle, insert_middle.
    split; [reflexivity|]. split; [rewrite !length_app; reflexivity|].
    split.
    { apply (home_ok_update t _ k bs1 bs2 (b1 ++ (k, v0) :: b2) (b1 ++ b2));
        try assumption; try reflexivity.
      intros k0 w. rewrite !elem_of_app, !elem_of_cons. tauto. }
    right. split; [reflexivity|].
    exists (concat bs1 ++ b1), v0, (b2 ++ concat bs2).
    unfold items; simpl. rewrite Hb, !concat_app. simpl.
    rewrite <- !app_assoc. simpl. auto.
  - apply find_key_None in Efind.
    eexists _, false. split; [reflexivity|].
    split; [reflexivity|]. split; [reflexivity|]. split; [exact Hhome|].
    left. split; [reflexivity|]. split; [reflexivity|].
    unfold items. rewrite Hb, concat_app. simpl.
    rewrite !fmap_app, !elem_of_app. tauto.
Qed.

Lemma keys_insert_perm k v (A B : list (string * pyval V)) :
  (A ++ (k, v) :: B).*1 ≡ₚ k :: (A ++ B).*1.
Proof. rewrite !fmap_app. simpl. symmetry. apply Permutation_middle. Qed.

Lemma empty_key_absent t : table_ok t -> "" ∉ (items t).*1.
Proof.
  intros Hok Hin. apply list_elem_of_fmap in Hin as ([k0 v0] & Hk0 & Hin).
  simpl in Hk0; subst k0. apply elem_of_concat in Hin as (bk & Hbk & Hin).
  apply list_elem_of_lookup in Hbk as [j Hj].
  destruct (table_ok_home t Hok _ _ _ _ Hj Hin) as [Hne _]. congruence.
Qed.

Lemma put_spec t k v :
  table_ok t -> k <> "" ->
  exists t' b,
    put t k v = Ok (t', b) /\ table_ok t' /\ capacity t' = capacity t /\
    (forall k', assoc k' (items t') =
                if decide (k' = k) then Some v else assoc k' (items t)) /\
    size t' = size t + (if b then 1 else 0) /\
    (b = true <-> assoc k (items t) = None) /\
    (b = true -> items t' ≡ₚ items t ++ [(k, v)]).
Proof.
  intros Hok Hk.
  destruct (put_shape t k v Hok Hk)
    as (t' & b & A & B & Hput & Hcap & Hlen & Hhome & HnA & Hit' & Hcase).
  exists t', b. split; [exact Hput|].
  destruct Hok as [Hc Hl _ Hnd Hsz]. unfold keys in Hnd. fold (items t) in Hnd.
  destruct Hcase as [(-> & (v0 & Hit) & Hs)|(-> & Hit & HnB & Hs)].
  - split.
    { constructor; [lia|congruence|exact Hhome| |].
      - unfold keys. fold (items t'). rewrite Hit'.
        rewrite Hit in Hnd. rewrite keys_insert_perm in Hnd |- *. exact Hnd.
      - rewrite Hs, Hsz, Hit, Hit', !length_app. reflexivity. }
    split; [exact Hcap|]. split.
    { intros k'. rewrite Hit', Hit, !assoc_replace by assumption.
      destruct (decide (k' = k)); reflexivity. }
    split; [lia|]. split; [|discriminate].
    split; [discriminate|]. rewrite Hit, assoc_replace by assumption.
    destruct (decide (k = k)); [discriminate|congruence].
  - split.
    { constructor; [lia|congruence|exact Hhome| |].
      - unfold keys. fold (items t'). rewrite Hit', keys_insert_perm.
        apply NoDup_cons. split; [|rewrite <- Hit; exact Hnd].
        apply not_elem_of_app_keys; assumption.
      - rewrite Hs, Hsz, Hit, Hit', !length_app. simpl. lia. }
    split; [exact Hcap|]. split.
    { intros k'. rewrite Hit', Hit, assoc_replace by assumption. reflexivity. }
    split; [lia|]. split.
    { split; [|reflexivity]. intros _. rewrite Hit. apply assoc_not_in.
      apply not_elem_of_app_keys; assumption. }
    intros _. rewrite Hit', Hit. rewrite <- app_assoc.
    apply Permutation_app_head. apply Permutation_cons_append.
Qed.

Lemma delete_spec t k :
  table_ok t ->
  exists t' b,
    delete t k = Ok (t', b) /\ table_ok t' /\ capacity t' = capacity t /\
    (forall k', assoc k' (items t') =
                if decide (k' = k) then None else assoc k' (items t)) /\
    size t' <= size t.
Proof.
  intros Hok. destruct (decide (k = "")) as [->|Hk].
  - exists t, false. unfold delete; simpl. split; [reflexivity|].
    split; [exact Hok|]. split; [reflexivity|]. split; [|lia].
    intros k'. destruct (decide (k' = "")) as [->|]; [|reflexivity].
    apply assoc_not_in, empty_key_absent, Hok.
  - destruct (delete_shape t k Hok Hk) as (t' & b & Hdel & Hcap & Hlen & Hhome & Hcase).
    exists t', b. split; [exact Hdel|].
    destruct Hcase as [(-> & -> & Hni)|(-> & A & v0 & B & Hit & Hit' & Hs)].
    + split; [exact Hok|]. split; [reflexivity|]. split; [|lia].
      intros k'. destruct (decide (k' = k)) as [->|]; [|reflexivity].
      apply assoc_not_in, Hni.
    + destruct Hok as [Hc Hl _ Hnd Hsz]. unfold keys in Hnd. fold (items t) in Hnd.
      rewrite Hit, keys_insert_perm in Hnd. apply NoDup_cons in Hnd as [Hk' Hnd].
      rewrite fmap_app, elem_of_app in Hk'.
      split.
      { constructor; [lia|congruence|exact Hhome| |].
        - unfold keys. fold (items t'). rewrite Hit'. exact Hnd.
        - rewrite Hs, Hsz, Hit, Hit', !length_app. simpl. lia. }
      split; [exact Hcap|]. split; [|lia].
      intros k'. rewrite Hit, Hit', assoc_replace by tauto.
      destruct (decide (k' = k)) as [->|]; [|reflexivity].
      apply assoc_not_in. rewrite fmap_app, elem_of_app. tauto.
Qed.

Lemma get_spec t k :
  table_ok t ->
  get t k = Ok (match assoc k (items t) with Some v => v | None => None end).
Proof.
  intros Hok. unfold get. destruct (decide (k = "")) as [->|Hk].
  - rewrite assoc_not_in; [reflexivity|]. apply empty_key_absent, Hok.
  - destruct (home_split t k Hok Hk) as (bs1 & bk & bs2 & Hb & Hl1 & Hn1 & Hn2).
    destruct Hok as [Hcap Hlen _ Hnd Hsz].
    destruct (lookup_home t k bs1 bk bs2 Hcap Hk Hlen Hb Hl1) as [Hidx Hlk].
    destruct (_hash t k) as [index| |]; simpl in Hidx; try discriminate. simpl.
    rewrite Hidx. simpl. rewrite Hlk. f_equal.
    unfold items. rewrite Hb, concat_app. simpl. rewrite !assoc_app.
    rewrite (assoc_not_in _ _ Hn1), bucket_get_assoc.
    destruct (assoc k bk); [reflexivity|]. rewrite (assoc_not_in _ _ Hn2). reflexivity.
Qed.

(** *** Rehashing and [insert] *)

Lemma insert_noresize fuel t k v :
  0 < capacity t -> k <> "" -> 4 * size t <= 3 * capacity t ->
  insert (S fuel) t k v = put t k v.
Proof.
  intros Hcap Hk Hload. rewrite insert_unfold.
  destruct (decide (k = "")); [contradiction|].
  unfold get_load_factor. destruct (Z.eqb_spec (capacity t) 0); [lia|]. simpl.
  destruct (Qltb _ _) eqn:E; [|reflexivity].
  apply load_check in E; [lia|exact Hcap].
Qed.

Definition reinsert (fuel : nat) t (kv : string * pyval V)
  : res (OptimizedHashTable V) :=
  let* r := insert fuel t (fst kv) (snd kv) in Ok (fst r).

Lemma foldM_app {A B} (f : A -> B -> res A) (xs ys : list B) (acc : A) :
  foldM f (xs ++ ys) acc = let* acc' := foldM f xs acc in foldM f ys acc'.
Proof.
  revert acc. induction xs as [|x xs IH]; intros acc; simpl; [reflexivity|].
  destruct (f acc x); simpl; auto.
Qed.

Lemma foldM_concat {A B} (f : A -> B -> res A) (xss : list (list B)) (acc : A) :
  foldM (fun a xs => foldM f xs a) xss acc = foldM f (concat xss) acc.
Proof.
  revert acc. induction xss as [|xs xss IH]; intros acc; simpl; [reflexivity|].
  rewrite foldM_app. destruct (foldM f xs acc); simpl; auto.
Qed.

Lemma reinsert_fold fuel (l : list (string * pyval V)) t :
  table_ok t -> NoDup l.*1 ->
  (forall k, k ∈ l.*1 -> k <> "" /\ k ∉ (items t).*1) ->
  4 * (size t + Z.of_nat (length l)) <= 3 * capacity t + 4 ->
  exists t',
    foldM (reinsert (S fuel)) l t = Ok t' /\ table_ok t' /\
    capacity t' = capacity t /\ items t' ≡ₚ items t ++ l /\
    size t' = size t + Z.of_nat (length l).
Proof.
  revert t. induction l as [|[k v] l IH]; intros t Hok Hnd Hfresh Hload.
  - exists t. simpl. rewrite app_nil_r.
    split; [reflexivity|]. split; [exact Hok|]. split; [reflexivity|].
    split; [reflexivity|lia].
  - cbn [length] in Hload. rewrite Nat2Z.inj_succ in Hload.
    cbn [fmap list_fmap fst] in Hnd, Hfresh. cbn [foldM].
    apply NoDup_cons in Hnd as [Hk Hnd].
    destruct (Hfresh k) as [Hne Hnew]; [apply elem_of_cons; tauto|].
    unfold reinsert at 1. cbn [fst snd].
    rewrite insert_noresize; [|apply Hok|exact Hne|lia].
    destruct (put_spec t k v Hok Hne) as (t1 & b & Hput & Hok1 & Hcap1 & _ & Hs1 & Hb & Hp).
    assert (b = true) as -> by (apply Hb, assoc_not_in, Hnew).
    rewrite Hput. cbn [rbind fst]. specialize (Hp eq_refl). cbn iota in Hs1.
    destruct (IH t1 Hok1 Hnd) as (t' & Hfold & Hok' & Hcap' & Hp' & Hs').
    + intros k' Hk'. destruct (Hfresh k') as [Hne' Hnew']; [apply elem_of_cons; tauto|].
      split; [exact Hne'|]. rewrite Hp, fmap_app, elem_of_app. simpl.
      rewrite list_elem_of_singleton. intros [?| ->]; tauto.
    + lia.
    + exists t'. split; [exact Hfold|]. split; [exact Hok'|].
      split; [congruence|]. split; [|cbn [length]; rewrite Nat2Z.inj_succ; lia].
      rewrite Hp', Hp, <- app_assoc. reflexivity.
Qed.

Lemma concat_replicate_nil {A} (n : nat) : concat (replicate n (@nil A)) = [].
Proof. induction n; simpl; auto. Qed.

Lemma fresh_table_ok (c : Z) :
  0 < c ->
  table_ok ({| capacity := c; size := 0; buckets := replicate (Z.to_nat c) [] |}
            : OptimizedHashTable V).
Proof.
  intros Hc. constructor; simpl.
  - exact Hc.
  - apply length_replicate.
  - intros i bucket k v Hi Hin. apply lookup_replicate in Hi as [-> _].
    apply elem_of_nil in Hin. contradiction.
  - unfold keys; simpl. rewrite concat_replicate_nil. constructor.
  - unfold items; simpl. rewrite concat_replicate_nil. reflexivity.
Qed.

Lemma resize_spec fuel t :
  table_ok t -> load_ok t ->
  exists t',
    _resize (S fuel) t = Ok t' /\ table_ok t' /\
    capacity t' = 2 * capacity t /\ items t' ≡ₚ items t /\ size t' = size t.
Proof.
  intros Hok Hload. unfold _resize, _resize_with.
  pose proof Hok as [Hcap Hlen Hhome Hnd Hsz]. unfold load_ok in Hload.
  change (fun self kv => let* r := insert (S fuel) self kv.1 kv.2 in Ok r.1)
    with (reinsert (S fuel)).
  rewrite foldM_concat. fold (items t).
  set (t0 := {| capacity := capacity t * 2; size := 0;
                buckets := replicate (Z.to_nat (capacity t * 2)) [] |}).
  assert (Hit0 : items t0 = []) by (unfold items, t0; simpl; apply concat_replicate_nil).
  destruct (reinsert_fold fuel (items t) t0) as (t' & Hfold & Hok' & Hcap' & Hp & Hs).
  - apply fresh_table_ok. lia.
  - exact Hnd.
  - intros k Hk. split.
    + intros ->. exact (empty_key_absent t Hok Hk).
    + rewrite Hit0. apply not_elem_of_nil.
  - simpl. lia.
  - exists t'. split; [exact Hfold|]. split; [exact Hok'|].
    split; [rewrite Hcap'; simpl; lia|]. rewrite Hit0 in Hp. simpl in *.
    split; [exact Hp|]. lia.
Qed.

Lemma insert_spec fuel t k v :
  table_ok t -> load_ok t -> k <> "" ->
  exists t' b,
    insert (S (S fuel)) t k v = Ok (t', b) /\ table_ok t' /\ load_ok t' /\
    (forall k', assoc k' (items t') =
                if decide (k' = k) then Some v else assoc k' (items t)) /\
    size t' = size t + (if b then 1 else 0) /\
    (b = true <-> assoc k (items t) = None).
Proof.
  intros Hok Hload Hk. pose proof Hok as [Hcap _ _ Hnd _].
  destruct (Z_le_gt_dec (4 * size t) (3 * capacity t)) as [Hle|Hgt].
  - rewrite insert_noresize by assumption.
    destruct (put_spec t k v Hok Hk) as (t' & b & Hput & Hok' & Hcap' & Hg & Hs & Hb & _).
    exists t', b. split; [exact Hput|]. split; [exact Hok'|].
    split; [unfold load_ok in *; destruct b; lia|]. auto.
  - rewrite insert_unfold. destruct (decide (k = "")); [contradiction|].
    unfold get_load_factor. destruct (Z.eqb_spec (capacity t) 0); [lia|]. simpl.
    assert (E : Qltb load_factor_threshold (inject_Z (size t) / inject_Z (capacity t)) = true)
      by (apply load_check; [exact Hcap|lia]).
    rewrite E.
    destruct (resize_spec fuel t Hok Hload) as (t1 & Hres & Hok1 & Hcap1 & Hp1 & Hs1).
    rewrite Hres. simpl.
    destruct (put_spec t1 k v Hok1 Hk) as (t' & b & Hput & Hok' & Hcap' & Hg & Hs & Hb & _).
    exists t', b. split; [exact Hput|]. split; [exact Hok'|].
    assert (Hview : forall k', assoc k' (items t1) = assoc k' (items t)).
    { intros k'. apply assoc_perm; [apply Hok1|exact Hp1]. }
    split; [unfold load_ok in *; destruct b; lia|].
    split; [intros k'; rewrite Hg, Hview; reflexivity|].
    split; [lia|]. rewrite <- Hview. exact Hb.
Qed.

(** *** Sequences of operations *)

Definition view t k : pyval V :=
  match assoc k (items t) with Some v => v | None => None end.

Lemma init_ok (c : Z) : 0 < c -> table_ok (init c : OptimizedHashTable V) /\ load_ok (init c : OptimizedHashTable V).
Proof.
  intros Hc. split; [apply fresh_table_ok; exact Hc|]. unfold load_ok; simpl. lia.
Qed.

Lemma run_spec fuel (ops : list (op V)) t :
  table_ok t -> load_ok t -> Forall accepted ops ->
  exists t',
    run (S (S fuel)) ops t = Ok t' /\ table_ok t' /\ load_ok t' /\
    forall k, view t' k = fold_left (record_op k) ops (view t k).
Proof.
  intros Hok Hload Hacc. revert t Hok Hload.
  induction Hacc as [|o ops Ho _ IH]; intros t Hok Hload.
  - exists t. simpl. auto.
  - unfold run. cbn [foldM]. fold (run (S (S fuel)) ops).
    destruct o as [k v|k]; unfold apply_op.
    + destruct (insert_spec fuel t k v Hok Hload Ho)
        as (t1 & b & Hins & Hok1 & Hload1 & Hg & _).
      rewrite Hins. cbn [rbind fst].
      destruct (IH t1 Hok1 Hload1) as (t' & Hrun & Hok' & Hload' & Hv).
      exists t'. split; [exact Hrun|]. split; [exact Hok'|]. split; [exact Hload'|].
      intros k'. rewrite Hv. cbn [fold_left]. f_equal.
      unfold view at 1. rewrite Hg. unfold record_op.
      destruct (decide (k' = k)) as [->|Hne].
      * destruct (decide (k = k)); congruence.
      * destruct (decide (k = k')); [congruence|reflexivity].
    + destruct (delete_spec t k Hok) as (t1 & b & Hdel & Hok1 & Hcap1 & Hg & Hs).
      rewrite Hdel. cbn [rbind fst].
      assert (Hload1 : load_ok t1) by (unfold load_ok in *; lia).
      destruct (IH t1 Hok1 Hload1) as (t' & Hrun & Hok' & Hload' & Hv).
      exists t'. split; [exact Hrun|]. split; [exact Hok'|]. split; [exact Hload'|].
      intros k'. rewrite Hv. cbn [fold_left]. f_equal.
      unfold view at 1. rewrite Hg. unfold record_op.
      destruct (decide (k' = k)) as [->|Hne].
      * destruct (decide (k = k)); congruence.
      * destruct (decide (k = k')); [congruence|reflexivity].
Qed.

Lemma reachable_ok (initial_capacity : Z) (ops : list (op V)) (fuel : nat) :
  0 < initial_capacity -> Forall accepted ops -> (2 <= fuel)%nat ->
  exists t,
    run fuel ops (init initial_capacity) = Ok t /\ table_ok t /\ load_ok t /\
    forall k, view t k = latest k ops.
Proof.
  intros Hc Hacc Hfuel. destruct fuel as [|[|fuel]]; [lia|lia|].
  destruct (init_ok initial_capacity Hc) as [Hok Hload].
  destruct (run_spec fuel ops _ Hok Hload Hacc) as (t & Hrun & Hok' & Hload' & Hv).
  exists t. split; [exact Hrun|]. split; [exact Hok'|]. split; [exact Hload'|].
  intros k. rewrite Hv. unfold latest. f_equal.
  unfold view, init, items. simpl. rewrite concat_replicate_nil. reflexivity.
Qed.

(** C1. After any sequence of inserts and deletes on a fresh table, [get]
    returns for every key the value of its most recent insert, and [None]
    when the key was deleted last or never inserted.  Growth (capacity
    doubling with rehash) succeeds on every such table, keeps the stored
    pairs up to order (none lost, none duplicated) and leaves every [get]
    unchanged. *)
Theorem C1_get_latest_and_growth_preserves
    (initial_capacity : Z) (ops : list (op V)) (fuel : nat) :
  0 < initial_capacity -> Forall accepted ops -> (2 <= fuel)%nat ->
  exists t,
    run fuel ops (init initial_capacity) = Ok t /\
    (forall k, get t k = Ok (latest k ops)) /\
    exists t',
      _resize fuel t = Ok t' /\ capacity t' = 2 * capacity t /\
      items t' ≡ₚ items t /\ (forall k, get t' k = get t k).
Proof.
  intros Hc Hacc Hfuel.
  destruct (reachable_ok initial_capacity ops fuel Hc Hacc Hfuel)
    as (t & Hrun & Hok & Hload & Hv).
  exists t. split; [exact Hrun|].
  split; [intros k; rewrite get_spec by exact Hok; f_equal; apply Hv|].
  destruct fuel as [|fuel]; [lia|].
  destruct (resize_spec fuel t Hok Hload) as (t' & Hres & Hok' & Hcap' & Hp & _).
  exists t'. split; [exact Hres|]. split; [exact Hcap'|]. split; [exact Hp|].
  intros k. rewrite !get_spec by assumption. f_equal.
  rewrite (assoc_perm k (items t') (items t) (ok_nodup _ _ Hok') Hp). reflexivity.
Qed.

(** C10. Inserting [None] under a non-empty key stores a pair (the key is
    listed by [keys], the pair by [items], and [size] counts it), yet the
    key reads as absent: [get] returns [None], [contains] is [False] and
    indexed access raises [KeyError]. *)
Theorem C10_none_value_reads_as_absent
    (initial_capacity : Z) (ops : list (op V)) (fuel : nat) (key : string) :
  0 < initial_capacity -> Forall accepted ops -> (2 <= fuel)%nat -> key <> "" ->
  exists t t' is_new,
    run fuel ops (init initial_capacity) = Ok t /\
    insert fuel t key None = Ok (t', is_new) /\
    get t' key = Ok None /\
    contains t' key = Ok false /\
    __getitem__ t' key = Raise KeyError /\
    key ∈ keys t' /\ (key, None) ∈ items t' /\
    __len__ t' = Z.of_nat (length (items t')) /\
    (key ∉ keys t -> is_new = true /\ __len__ t' = __len__ t + 1).
Proof.
  intros Hc Hacc Hfuel Hk.
  destruct (reachable_ok initial_capacity ops fuel Hc Hacc Hfuel)
    as (t & Hrun & Hok & Hload & _).
  destruct fuel as [|[|fuel]]; [lia|lia|].
  destruct (insert_spec fuel t key None Hok Hload Hk)
    as (t' & b & Hins & Hok' & _ & Hg & Hs & Hb).
  exists t, t', b. split; [exact Hrun|]. split; [exact Hins|].
  assert (Ha : assoc key (items t') = Some None).
  { rewrite Hg. case_decide; [reflexivity|congruence]. }
  assert (Hget : get t' key = Ok None) by (rewrite get_spec, Ha by exact Hok'; reflexivity).
  split; [exact Hget|].
  split; [unfold contains; rewrite Hget; reflexivity|].
  split; [unfold __getitem__; rewrite Hget; reflexivity|].
  pose proof (assoc_Some_in _ _ _ Ha) as Hin.
  split; [apply (list_elem_of_fmap_2 fst) in Hin; exact Hin|].
  split; [exact Hin|]. split; [apply Hok'|].
  intros Hnew. assert (b = true) as -> by (apply Hb, assoc_not_in, Hnew).
  split; [reflexivity|]. unfold __len__. exact Hs.
Qed.

End WithValues.

Definition sample_ops : list (op nat) :=
  [Insert "a" (Some 1%nat); Insert "b" (Some 2%nat); Insert "c" (Some 3%nat);
   Delete "a"; Insert "b" (Some 5%nat); Insert "d" None].

Example sample_run_values :
  (let* t := run 2 sample_ops (init 2) in
   let* a := get t "a" in let* b := get t "b" in let* c := get t "c" in
   Ok (capacity t, size t, a, b, c))
  = Ok (4, 3, None, Some 5%nat, Some 3%nat).
Proof. vm_compute. reflexivity. Qed.

Lemma C1_witness :
  exists t,
    run 2 sample_ops (init 2) = Ok t /\
    (forall k, get t k = Ok (latest k sample_ops)) /\
    exists t',
      _resize 2 t = Ok t' /\ capacity t' = 2 * capacity t /\
      items t' ≡ₚ items t /\ (forall k, get t' k = get t k).
Proof.
  apply (C1_get_latest_and_growth_preserves 2 sample_ops 2).
  - lia.
  - unfold sample_ops. repeat constructor; discriminate.
  - lia.
Defined.

Lemma C10_witness :
  exists t t' is_new,
    run 2 sample_ops (init 2) = Ok t /\
    insert 2 t "zz" (None : pyval nat) = Ok (t', is_new) /\
    get t' "zz" = Ok None /\
    contains t' "zz" = Ok false /\
    __getitem__ t' "zz" = Raise KeyError /\
    "zz" ∈ keys t' /\ ("zz", None) ∈ items t' /\
    __len__ t' = Z.of_nat (length (items t')) /\
    ("zz" ∉ keys t -> is_new = true /\ __len__ t' = __len__ t + 1).
Proof.
  apply (C10_none_value_reads_as_absent 2 sample_ops 2 "zz").
  - lia.
  - unfold sample_ops. repeat constructor; discriminate.
  - lia.
  - discriminate.
Defined.

End HashTableProofs.

(** * Proofs: the order of strings *)

Module StringOrder.

Lemma ascii_compare_refl (a : ascii) : Ascii.compare a a = Eq.
Proof. unfold Ascii.compare. apply N.compare_refl. Qed.

Lemma ascii_compare_lt_trans (a b c : ascii) :
  Ascii.compare a b = Lt -> Ascii.compare b c = Lt -> Ascii.compare a c = Lt.
Proof.
  unfold Ascii.compare. rewrite !N.compare_lt_iff. apply N.lt_trans.
Qed.

Lemma string_compare_refl (s : string) : String.compare s s = Eq.
Proof.
  induction s as [|a s IH]; simpl; [reflexivity|].
  rewrite ascii_compare_refl. exact IH.
Qed.

Lemma string_compare_lt_trans (s1 s2 s3 : string) :
  String.compare s1 s2 = Lt -> String.compare s2 s3 = Lt -> String.compare s1 s3 = Lt.
Proof.
  revert s2 s3. induction s1 as [|a s1 IH]; intros [|b s2] [|c s3]; simpl;
    try discriminate; try reflexivity.
  destruct (Ascii.compare a b) eqn:Eab; try discriminate;
    destruct (Ascii.compare b c) eqn:Ebc; try discriminate; intros H1 H2.
  - apply Ascii.compare_eq_iff in Eab, Ebc. subst. rewrite ascii_compare_refl. eauto.
  - apply Ascii.compare_eq_iff in Eab. subst. rewrite Ebc. reflexivity.
  - apply Ascii.compare_eq_iff in Ebc. subst. rewrite Eab. reflexivity.
  - rewrite (ascii_compare_lt_trans a b c Eab Ebc). reflexivity.
Qed.

Lemma string_leb_trans (s1 s2 s3 : string) :
  String.leb s1 s2 = true -> String.leb s2 s3 = true -> String.leb s1 s3 = true.
Proof.
  unfold String.leb.
  destruct (String.compare s1 s2) eqn:E12; try discriminate;
    destruct (String.compare s2 s3) eqn:E23; try discriminate; intros _ _.
  - apply String.compare_eq_iff in E12, E23. subst. rewrite string_compare_refl. reflexivity.
  - apply String.compare_eq_iff in E12. subst. rewrite E23. reflexivity.
  - apply String.compare_eq_iff in E23. subst. rewrite E12. reflexivity.
  - rewrite (string_compare_lt_trans s1 s2 s3 E12 E23). reflexivity.
Qed.

Lemma string_ltb_trans (s1 s2 s3 : string) :
  String.ltb s1 s2 = true -> String.ltb s2 s3 = true -> String.ltb s1 s3 = true.
Proof.
  unfold String.ltb.
  destruct (String.compare s1 s2) eqn:E12; try discriminate.
  destruct (String.compare s2 s3) eqn:E23; try discriminate. intros _ _.
  rewrite (string_compare_lt_trans s1 s2 s3 E12 E23). reflexivity.
Qed.

Lemma string_ltb_irrefl (s : string) : String.ltb s s = false.
Proof. unfold String.ltb. rewrite string_compare_refl. reflexivity. Qed.

(** Two strings are equal or one is below the other. *)
Lemma string_ltb_trichotomy (s1 s2 : string) :
  String.ltb s1 s2 = true \/ s1 = s2 \/ String.ltb s2 s1 = true.
Proof.
  unfold String.ltb. rewrite (String.compare_antisym s1 s2).
  destruct (String.compare s2 s1) eqn:E; simpl; auto.
  right. left. symmetry. apply String.compare_eq_iff. exact E.
Qed.

End StringOrder.

(** * Proofs: the bitmap index *)

Module BitmapProofs.
Import Bitmap.

Lemma empty_ok : index_ok empty.
Proof.
  constructor; unfold empty; simpl.
  - intros item idx. rewrite !lookup_empty. split; discriminate.
  - intros idx item. rewrite lookup_empty. discriminate.
  - intros category bitmap idx. rewrite lookup_empty. discriminate.
Qed.

Lemma add_item_ok self category item_id :
  index_ok self -> index_ok (fst (add_item self category item_id)).
Proof.
  intros [Hinv Hcnt Hknown]. unfold add_item.
  destruct (item_to_index self !! item_id) as [idx0|] eqn:E; simpl.
  - constructor; simpl; [exact Hinv|exact Hcnt|].
    intros c bm idx Hc Hidx.
    destruct (decide (c = category)) as [->|Hne].
    + rewrite lookup_insert_eq in Hc. injection Hc as <-.
      apply elem_of_union in Hidx as [Hidx|Hidx].
      * apply elem_of_singleton in Hidx. subst idx.
        exists item_id. apply Hinv. exact E.
      * destruct (bitmaps self !! category) as [bm|] eqn:Ebm; simpl in Hidx.
        -- eapply Hknown; eauto.
        -- apply elem_of_empty in Hidx. contradiction.
    + rewrite lookup_insert_ne in Hc by congruence. eapply Hknown; eauto.
  - assert (Hfresh : index_to_item self !! index_counter self = None).
    { destruct (index_to_item self !! index_counter self) as [x|] eqn:Ex; [|reflexivity].
      apply Hcnt in Ex. lia. }
    constructor; simpl.
    + intros item idx.
      destruct (decide (item = item_id)) as [->|Hne].
      * rewrite lookup_insert_eq.
        destruct (decide (idx = index_counter self)) as [->|Hne'].
        -- rewrite lookup_insert_eq. tauto.
        -- rewrite lookup_insert_ne by congruence. split; [congruence|].
           intros H. apply Hinv in H. congruence.
      * rewrite lookup_insert_ne by congruence.
        destruct (decide (idx = index_counter self)) as [->|Hne'].
        -- rewrite lookup_insert_eq. split; [|congruence].
           intros H. apply Hinv in H. congruence.
        -- rewrite lookup_insert_ne by congruence. apply Hinv.
    + intros idx item.
      destruct (decide (idx = index_counter self)) as [->|Hne'].
      * intros _. lia.
      * rewrite lookup_insert_ne by congruence. intros H. apply Hcnt in H. lia.
    + intros c bm idx Hc Hidx.
      assert (Hold : forall bm0, bitmaps self !! c = Some bm0 -> idx ∈ bm0 ->
                is_Some (<[index_counter self:=item_id]> (index_to_item self) !! idx)).
      { intros bm0 H1 H2. destruct (Hknown _ _ _ H1 H2) as [x Hx].
        exists x. rewrite lookup_insert_ne; [exact Hx|]. congruence. }
      destruct (decide (c = category)) as [->|Hne].
      * rewrite lookup_insert_eq in Hc. injection Hc as <-.
        apply elem_of_union in Hidx as [Hidx|Hidx].
        -- apply elem_of_singleton in Hidx. subst idx.
           exists item_id. apply lookup_insert_eq.
        -- destruct (bitmaps self !! category) as [bm|] eqn:Ebm; simpl in Hidx.
           ++ eapply Hold; eauto.
           ++ apply elem_of_empty in Hidx. contradiction.
      * rewrite lookup_insert_ne in Hc by congruence. eapply Hold; eauto.
Qed.

Lemma remove_item_ok self category item_id :
  index_ok self -> index_ok (fst (remove_item self category item_id)).
Proof.
  intros Hok. pose proof Hok as [Hinv Hcnt Hknown]. unfold remove_item.
  destruct (item_to_index self !! item_id) as [idx0|]; [|exact Hok].
  destruct (bitmaps self !! category) as [bm|] eqn:Ebm; [|exact Hok].
  case_bool_decide; [|exact Hok]. simpl.
  constructor; simpl; [exact Hinv|exact Hcnt|].
  intros c bm' idx Hc Hidx. case_bool_decide.
  - destruct (decide (c = category)) as [->|Hne].
    + rewrite lookup_delete_eq in Hc. discriminate.
    + rewrite lookup_delete_ne in Hc by congruence. eapply Hknown; eauto.
  - destruct (decide (c = category)) as [->|Hne].
    + rewrite lookup_insert_eq in Hc. injection Hc as <-.
      apply elem_of_difference in Hidx as [Hidx _]. eapply Hknown; eauto.
    + rewrite lookup_insert_ne in Hc by congruence. eapply Hknown; eauto.
Qed.

Lemma run_ok ops : index_ok (run ops).
Proof.
  unfold run. generalize empty_ok. generalize empty.
  induction ops as [|o ops IH]; intros self Hok; simpl; [exact Hok|].
  apply IH. destruct o; simpl; [apply add_item_ok|apply remove_item_ok]; exact Hok.
Qed.

(** *** Resolving handles *)

Definition bitmap_of (self : BitmapIndex) (category : string) : gset Z :=
  default ∅ (bitmaps self !! category).

Lemma resolve_list_spec self (indices : list Z) :
  (forall idx, idx ∈ indices -> is_Some (index_to_item self !! idx)) ->
  exists items,
    resolve_list self indices = Ok items /\
    forall x, x ∈ items <-> exists idx, idx ∈ indices /\ index_to_item self !! idx = Some x.
Proof.
  induction indices as [|idx rest IH]; intros Hk; simpl.
  - exists []. split; [reflexivity|]. intros x. split.
    + intros H. apply elem_of_nil in H. contradiction.
    + intros (i & H & _). apply elem_of_nil in H. contradiction.
  - destruct (Hk idx) as [item Hitem]; [apply elem_of_cons; tauto|]. rewrite Hitem.
    destruct IH as (items & -> & Hitems).
    { intros i Hi. apply Hk. apply elem_of_cons. tauto. }
    simpl. exists (item :: items). split; [reflexivity|].
    intros x. rewrite elem_of_cons, Hitems. split.
    + intros [->|(i & Hi & Hx)].
      * exists idx. split; [apply elem_of_cons; tauto|exact Hitem].
      * exists i. split; [apply elem_of_cons; tauto|exact Hx].
    + intros (i & Hi & Hx). apply elem_of_cons in Hi as [->|Hi].
      * left. congruence.
      * right. eauto.
Qed.

Lemma resolve_spec self (indices : gset Z) :
  (forall idx, idx ∈ indices -> is_Some (index_to_item self !! idx)) ->
  exists items,
    resolve self indices = Ok items /\
    forall x, x ∈ items <-> exists idx, idx ∈ indices /\ index_to_item self !! idx = Some x.
Proof.
  intros Hk. unfold resolve.
  destruct (resolve_list_spec self (elements indices)) as (items & Hr & Hitems).
  - intros idx Hidx. apply Hk. apply elem_of_elements. exact Hidx.
  - exists items. split; [exact Hr|]. intros x. rewrite Hitems.
    split; intros (i & Hi & Hx); exists i; (split; [|exact Hx]);
      apply elem_of_elements; exact Hi.
Qed.

Lemma bitmap_of_known self category idx :
  index_ok self -> idx ∈ bitmap_of self category ->
  is_Some (index_to_item self !! idx).
Proof.
  intros Hok. unfold bitmap_of.
  destruct (bitmaps self !! category) as [bm|] eqn:E; simpl.
  - intros H. eapply ok_known; eauto.
  - intros H. apply elem_of_empty in H. contradiction.
Qed.

Lemma get_items_spec self category :
  index_ok self ->
  exists items,
    get_items self category = Ok items /\
    forall x, x ∈ items <->
      exists idx, idx ∈ bitmap_of self category /\ index_to_item self !! idx = Some x.
Proof.
  intros Hok. unfold get_items.
  pose proof (bitmap_of_known self category) as Hk. unfold bitmap_of in *.
  destruct (bitmaps self !! category) as [bm|] eqn:E; simpl in *.
  - apply resolve_spec. intros idx Hidx. apply Hk; assumption.
  - exists []. split; [reflexivity|]. intros x. split.
    + intros H. apply elem_of_nil in H. contradiction.
    + intros (i & H & _). apply elem_of_empty in H. contradiction.
Qed.

Lemma members_spec self category x :
  index_ok self ->
  x ∈ members self category <->
  exists idx, idx ∈ bitmap_of self category /\ index_to_item self !! idx = Some x.
Proof.
  intros Hok. unfold members.
  destruct (get_items_spec self category Hok) as (items & -> & Hitems).
  rewrite elem_of_list_to_set. apply Hitems.
Qed.

Lemma handle_unique self i j x :
  index_ok self ->
  index_to_item self !! i = Some x -> index_to_item self !! j = Some x -> i = j.
Proof.
  intros Hok Hi Hj. apply (ok_inverse _ Hok) in Hi, Hj. congruence.
Qed.

Lemma bitmap_of_absent self category :
  bitmaps self !! category = None -> bitmap_of self category = ∅.
Proof. unfold bitmap_of. intros ->. reflexivity. Qed.

Lemma intersect_rest_Some self R cs R' :
  intersect_rest self R cs = Some R' ->
  forall idx, idx ∈ R' <-> idx ∈ R /\ forall c, c ∈ cs -> idx ∈ bitmap_of self c.
Proof.
  revert R. induction cs as [|c cs IH]; intros R; simpl.
  - intros [= <-] idx. split; [|tauto]. intros H. split; [exact H|].
    intros c Hc. apply elem_of_nil in Hc. contradiction.
  - destruct (bitmaps self !! c) as [bm|] eqn:E; [|discriminate].
    intros H idx. rewrite (IH _ H idx), elem_of_intersection.
    assert (Hbm : bitmap_of self c = bm) by (unfold bitmap_of; rewrite E; reflexivity).
    split.
    + intros [[HR Hb] Hall]. split; [exact HR|].
      intros c' Hc'. apply elem_of_cons in Hc' as [->|Hc']; [rewrite Hbm; exact Hb|auto].
    + intros [HR Hall]. split; [split; [exact HR|]|].
      * rewrite <- Hbm. apply Hall. apply elem_of_cons. tauto.
      * intros c' Hc'. apply Hall. apply elem_of_cons. tauto.
Qed.

Lemma intersect_rest_None self R cs :
  intersect_rest self R cs = None <-> exists c, c ∈ cs /\ bitmaps self !! c = None.
Proof.
  revert R. induction cs as [|c cs IH]; intros R; simpl.
  - split; [discriminate|]. intros (c & Hc & _). apply elem_of_nil in Hc. contradiction.
  - destruct (bitmaps self !! c) as [bm|] eqn:E.
    + rewrite IH. split; intros (c' & Hc' & Hn).
      * exists c'. split; [apply elem_of_cons; tauto|exact Hn].
      * apply elem_of_cons in Hc' as [->|Hc']; [congruence|eauto].
    + split; [|reflexivity]. intros _. exists c. split; [apply elem_of_cons; tauto|exact E].
Qed.

Lemma union_indices_spec self cs idx :
  idx ∈ union_indices self cs <-> exists c, c ∈ cs /\ idx ∈ bitmap_of self c.
Proof.
  unfold union_indices.
  assert (H : forall R, idx ∈ fold_left (fun result_indices category =>
                 match bitmaps self !! category with
                 | Some bitmap => result_indices ∪ bitmap
                 | None => result_indices
                 end) cs R <-> idx ∈ R \/ exists c, c ∈ cs /\ idx ∈ bitmap_of self c).
  { induction cs as [|c cs IH]; intros R; simpl.
    - split; [tauto|]. intros [?|(c & Hc & _)]; [assumption|].
      apply elem_of_nil in Hc. contradiction.
    - rewrite IH. destruct (bitmaps self !! c) as [bm|] eqn:E.
      + assert (Hbm : bitmap_of self c = bm) by (unfold bitmap_of; rewrite E; reflexivity).
        rewrite elem_of_union. split.
        * intros [[?|?]|(c' & Hc' & Hi)]; [tauto| |].
          -- right. exists c. split; [apply elem_of_cons; tauto|].
             rewrite Hbm. assumption.
          -- right. exists c'. split; [apply elem_of_cons; tauto|exact Hi].
        * intros [?|(c' & Hc' & Hi)]; [tauto|].
          apply elem_of_cons in Hc' as [->|Hc'].
          -- rewrite Hbm in Hi. tauto.
          -- right. eauto.
      + split.
        * intros [?|(c' & Hc' & Hi)]; [tauto|].
          right. exists c'. split; [apply elem_of_cons; tauto|exact Hi].
        * intros [?|(c' & Hc' & Hi)]; [tauto|].
          apply elem_of_cons in Hc' as [->|Hc'].
          -- rewrite (bitmap_of_absent _ _ E) in Hi. apply elem_of_empty in Hi. contradiction.
          -- right. eauto. }
  rewrite H. split; [|tauto]. intros [Hi|?]; [|assumption].
  apply elem_of_empty in Hi. contradiction.
Qed.

Lemma intersection_spec self cs :
  index_ok self -> cs <> [] ->
  exists items,
    get_items_intersection self cs = Ok items /\
    forall x, x ∈ items <-> forall c, c ∈ cs -> x ∈ members self c.
Proof.
  intros Hok Hne. destruct cs as [|c0 rest]; [contradiction|]. clear Hne.
  unfold get_items_intersection. fold (bitmap_of self c0).
  destruct (intersect_rest self (bitmap_of self c0) rest) as [R'|] eqn:E.
  - pose proof (intersect_rest_Some _ _ _ _ E) as HR.
    destruct (resolve_spec self R') as (items & Hres & Hitems).
    { intros idx Hidx. apply HR in Hidx as [H0 _].
      eapply bitmap_of_known; eauto. }
    exists items. split; [exact Hres|]. intros x. rewrite Hitems. split.
    + intros (idx & Hidx & Hx) c Hc. apply (members_spec _ _ _ Hok).
      exists idx. split; [|exact Hx]. apply HR in Hidx as [H0 Hall].
      apply elem_of_cons in Hc as [->|Hc]; auto.
    + intros Hall.
      destruct (proj1 (members_spec self c0 x Hok)) as (idx & Hidx & Hx).
      { apply Hall. apply elem_of_cons. tauto. }
      exists idx. split; [|exact Hx]. apply HR. split; [exact Hidx|].
      intros c Hc.
      destruct (proj1 (members_spec self c x Hok)) as (j & Hj & Hxj).
      { apply Hall. apply elem_of_cons. tauto. }
      rewrite (handle_unique self idx j x Hok Hx Hxj). exact Hj.
  - apply intersect_rest_None in E as (c & Hc & Hn).
    exists []. split; [reflexivity|]. intros x. split.
    + intros H. apply elem_of_nil in H. contradiction.
    + intros Hall. exfalso.
      assert (Hx : x ∈ members self c) by (apply Hall; apply elem_of_cons; tauto).
      apply (members_spec _ _ _ Hok) in Hx as (idx & Hidx & _).
      rewrite (bitmap_of_absent _ _ Hn) in Hidx. apply elem_of_empty in Hidx. contradiction.
Qed.

Lemma union_spec self cs :
  index_ok self ->
  exists items,
    get_items_union self cs = Ok items /\
    forall x, x ∈ items <-> exists c, c ∈ cs /\ x ∈ members self c.
Proof.
  intros Hok.
  assert (Hgen : exists items, resolve self (union_indices self cs) = Ok items /\
            forall x, x ∈ items <-> exists c, c ∈ cs /\ x ∈ members self c).
  { destruct (resolve_spec self (union_indices self cs)) as (items & Hres & Hitems).
    { intros idx Hidx. apply union_indices_spec in Hidx as (c & _ & Hi).
      eapply bitmap_of_known; eauto. }
    exists items. split; [exact Hres|]. intros x. rewrite Hitems. split.
    - intros (idx & Hidx & Hx). apply union_indices_spec in Hidx as (c & Hc & Hi).
      exists c. split; [exact Hc|]. apply (members_spec _ _ _ Hok). eauto.
    - intros (c & Hc & Hx). apply (members_spec _ _ _ Hok) in Hx as (idx & Hi & Hx).
      exists idx. split; [|exact Hx]. apply union_indices_spec. eauto. }
  destruct cs as [|c0 rest]; [|exact Hgen].
  exists []. split; [reflexivity|]. intros x. split.
  - intros H. apply elem_of_nil in H. contradiction.
  - intros (c & Hc & _). apply elem_of_nil in Hc. contradiction.
Qed.

Lemma intersection_absent self cs c :
  c ∈ cs -> bitmaps self !! c = None -> get_items_intersection self cs = Ok [].
Proof.
  intros Hc Hn. destruct cs as [|c0 rest]; [reflexivity|].
  unfold get_items_intersection.
  destruct (intersect_rest self _ rest) as [R'|] eqn:E; [|reflexivity].
  pose proof (intersect_rest_Some _ _ _ _ E) as HR.
  assert (HR' : R' = ∅).
  { apply set_eq. intros idx. rewrite HR. split.
    - intros [H0 Hall]. apply elem_of_cons in Hc as [->|Hc].
      + rewrite Hn in H0. exact H0.
      + specialize (Hall c Hc). rewrite (bitmap_of_absent _ _ Hn) in Hall. exact Hall.
    - intros H. apply elem_of_empty in H. contradiction. }
  subst R'. unfold resolve. rewrite elements_empty. reflexivity.
Qed.

Definition present (self : BitmapIndex) (category : string) : bool :=
  match bitmaps self !! category with Some _ => true | None => false end.

Lemma union_indices_skip self cs :
  union_indices self (List.filter (present self) cs) = union_indices self cs.
Proof.
  unfold union_indices. generalize (∅ : gset Z).
  induction cs as [|c cs IH]; intros R; simpl; [reflexivity|].
  unfold present at 1. destruct (bitmaps self !! c) as [bm|] eqn:E; simpl.
  - rewrite E. apply IH.
  - apply IH.
Qed.

Lemma union_skip self cs :
  get_items_union self (List.filter (present self) cs) = get_items_union self cs.
Proof.
  unfold get_items_union.
  destruct cs as [|c0 rest]; [reflexivity|].
  destruct (List.filter (present self) (c0 :: rest)) as [|c1 rest'] eqn:E.
  - rewrite <- (union_indices_skip self (c0 :: rest)), E.
    unfold union_indices, resolve. simpl. rewrite elements_empty. reflexivity.
  - rewrite <- E, union_indices_skip. reflexivity.
Qed.

(** C5. In every state reached by adding and removing memberships:
    [get_items] never fails; the intersection of two attribute values is the
    set intersection of their members, and for any non-empty list the
    members common to all of them; the union is the set union; the
    intersection of the empty list is empty; an absent attribute value makes
    the intersection empty without an error; the union ignores absent
    attribute values. *)
Theorem C5_intersection_union_set_algebra (ops : list op) :
  let self := run ops in
  (forall c, exists items, get_items self c = Ok items) /\
  (forall A B, exists items,
      get_items_intersection self [A; B] = Ok items /\
      list_to_set items = members self A ∩ members self B) /\
  (forall cs, cs <> [] -> exists items,
      get_items_intersection self cs = Ok items /\
      forall x, x ∈ items <-> forall c, c ∈ cs -> x ∈ members self c) /\
  (forall cs, exists items,
      get_items_union self cs = Ok items /\
      forall x, x ∈ items <-> exists c, c ∈ cs /\ x ∈ members self c) /\
  get_items_intersection self [] = Ok [] /\
  (forall cs c, c ∈ cs -> bitmaps self !! c = None ->
      get_items_intersection self cs = Ok []) /\
  (forall cs, get_items_union self cs =
              get_items_union self (List.filter (present self) cs)).
Proof.
  intros self. pose proof (run_ok ops) as Hok. fold self in Hok.
  split.
  { intros c. destruct (get_items_spec self c Hok) as (items & H & _). eauto. }
  split.
  { intros A B. destruct (intersection_spec self [A; B] Hok) as (items & H & Hx);
      [discriminate|].
    exists items. split; [exact H|]. apply set_eq. intros x.
    rewrite elem_of_list_to_set, Hx, elem_of_intersection. split.
    - intros Hall. split; apply Hall; repeat (apply elem_of_cons; try tauto; right).
    - intros [HA HB] c Hc. apply elem_of_cons in Hc as [->|Hc]; [exact HA|].
      apply list_elem_of_singleton in Hc. subst c. exact HB. }
  split; [intros cs Hne; apply intersection_spec; assumption|].
  split; [intros cs; apply union_spec; assumption|].
  split; [reflexivity|].
  split; [intros cs c; apply intersection_absent|].
  intros cs. symmetry. apply union_skip.
Qed.

Example bitmap_sample :
  let self := run [Add "books" "P1"; Add "books" "P2"; Add "sale" "P2";
                   Add "sale" "P3"; Add "toys" "P9"; Remove "toys" "P9"] in
  get_items_intersection self ["books"; "sale"] = Ok ["P2"] /\
  get_items_intersection self ["books"; "toys"] = Ok [] /\
  get_items_union self ["toys"; "books"; "none"] = get_items self "books" /\
  bitmaps self !! "toys" = None.
Proof. vm_compute. repeat split. Qed.

End BitmapProofs.

(** * Proofs: the caches *)

Module CacheProofs.
Import Cache.

Lemma Qltb_lt (x y : Q) : Qltb x y = true <-> (x < y)%Q.
Proof.
  unfold Qltb. rewrite negb_true_iff, <- not_true_iff_false, Qle_bool_iff.
  split; [apply Qnot_le_lt|apply Qlt_not_le].
Qed.

Lemma store_lookup self t t' key result :
  cache_lookup (cache_store self t key result) t' key =
  if Qltb (t' - t) (cache_ttl self) then Some result else None.
Proof.
  unfold cache_lookup, cache_store, _is_cache_valid, _update_cache_timestamp. simpl.
  rewrite !lookup_insert_eq. reflexivity.
Qed.

Lemma pop_keys_ttl keys self : cache_ttl (fold_left pop_key keys self) = cache_ttl self.
Proof. revert self. induction keys as [|k keys IH]; intros self; simpl; [reflexivity|]. rewrite IH. reflexivity. Qed.

Lemma pop_keys_timestamps keys self k :
  cache_timestamps (fold_left pop_key keys self) !! k =
  if decide (k ∈ keys) then None else cache_timestamps self !! k.
Proof.
  revert self. induction keys as [|k0 keys IH]; intros self; cbn [fold_left].
  - case_decide as H; [apply elem_of_nil in H; contradiction|reflexivity].
  - rewrite IH. unfold pop_key at 1. cbn [cache_timestamps].
    destruct (decide (k = k0)) as [->|Hne].
    + rewrite lookup_delete_eq.
      destruct (decide (k0 ∈ k0 :: keys)) as [_|Hn];
        [|exfalso; apply Hn, elem_of_cons; tauto].
      destruct (decide (k0 ∈ keys)); reflexivity.
    + rewrite lookup_delete_ne by congruence.
      destruct (decide (k ∈ keys)) as [Hin|Hni],
               (decide (k ∈ k0 :: keys)) as [Hin'|Hni']; try reflexivity.
      * exfalso. apply Hni', elem_of_cons. tauto.
      * exfalso. apply elem_of_cons in Hin'. tauto.
Qed.

Lemma pop_keys_recommendations keys self k :
  recommendation_cache (fold_left pop_key keys self) !! k =
  if decide (k ∈ keys) then None else recommendation_cache self !! k.
Proof.
  revert self. induction keys as [|k0 keys IH]; intros self; cbn [fold_left].
  - case_decide as H; [apply elem_of_nil in H; contradiction|reflexivity].
  - rewrite IH. unfold pop_key at 1. cbn [recommendation_cache].
    destruct (decide (k = k0)) as [->|Hne].
    + rewrite lookup_delete_eq.
      destruct (decide (k0 ∈ k0 :: keys)) as [_|Hn];
        [|exfalso; apply Hn, elem_of_cons; tauto].
      destruct (decide (k0 ∈ keys)); reflexivity.
    + rewrite lookup_delete_ne by congruence.
      destruct (decide (k ∈ keys)) as [Hin|Hni],
               (decide (k ∈ k0 :: keys)) as [Hin'|Hni']; try reflexivity.
      * exfalso. apply Hni', elem_of_cons. tauto.
      * exfalso. apply elem_of_cons in Hin'. tauto.
Qed.

Lemma elem_of_expired_keys self now k :
  k ∈ expired_keys self now <->
  exists ts, cache_timestamps self !! k = Some ts /\ (cache_ttl self <= now - ts)%Q.
Proof.
  unfold expired_keys. rewrite list_elem_of_fmap. split.
  - intros ([k0 ts] & -> & Hin). simpl.
    apply list_elem_of_In, filter_In in Hin as [Hin Hexp].
    apply list_elem_of_In, elem_of_map_to_list in Hin. simpl in Hexp.
    exists ts. split; [exact Hin|]. apply Qle_bool_iff. exact Hexp.
  - intros (ts & Hts & Hexp). exists (k, ts). split; [reflexivity|].
    apply list_elem_of_In, filter_In. split.
    + apply list_elem_of_In, elem_of_map_to_list. exact Hts.
    + simpl. apply Qle_bool_iff. exact Hexp.
Qed.

Lemma Qle_bool_false_lt (x y : Q) : Qle_bool x y = false <-> (y < x)%Q.
Proof.
  rewrite <- not_true_iff_false, Qle_bool_iff.
  split; [apply Qnot_le_lt|apply Qlt_not_le].
Qed.

Lemma clean_ttl self now : cache_ttl (_clean_cache self now) = cache_ttl self.
Proof. unfold _clean_cache. generalize (expired_keys self now) as keys.
  intros keys. revert self. induction keys as [|k keys IH]; intros self; simpl; [reflexivity|].
  rewrite IH. reflexivity.
Qed.

Lemma store_entry self t key result :
  recommendation_cache (cache_store self t key result) !! key = Some result /\
  cache_timestamps (cache_store self t key result) !! key = Some t /\
  cache_ttl (cache_store self t key result) = cache_ttl self.
Proof.
  unfold cache_store, _update_cache_timestamp. simpl.
  rewrite !lookup_insert_eq. auto.
Qed.

(** C4 (amended). A cached result stamped [ts] is returned by a lookup at
    time [t'] exactly when [t' - ts < ttl], and is a miss otherwise.
    [_clean_cache] at time [now] removes the entry (result and timestamp)
    exactly when its age [now - ts] is at least the ttl; a younger entry
    stays, with its timestamp, and every later lookup of it is unchanged. *)
Theorem C4_valid_iff_younger_than_ttl_and_clean_removes_expired
    (self : caches) (key : string) (result : list string) (ts t' now : Q) :
  recommendation_cache self !! key = Some result ->
  cache_timestamps self !! key = Some ts ->
  (cache_lookup self t' key = Some result <-> (t' - ts < cache_ttl self)%Q) /\
  (~ (t' - ts < cache_ttl self)%Q -> cache_lookup self t' key = None) /\
  (((cache_ttl self <= now - ts)%Q /\
    recommendation_cache (_clean_cache self now) !! key = None /\
    cache_timestamps (_clean_cache self now) !! key = None)
   \/
   ((now - ts < cache_ttl self)%Q /\
    recommendation_cache (_clean_cache self now) !! key = Some result /\
    cache_timestamps (_clean_cache self now) !! key = Some ts /\
    forall later, cache_lookup (_clean_cache self now) later key
                  = cache_lookup self later key)).
Proof.
  intros Hres Hts.
  assert (Hlk : forall t, cache_lookup self t key =
                          if Qltb (t - ts) (cache_ttl self) then Some result else None).
  { intros t. unfold cache_lookup, _is_cache_valid. rewrite Hres, Hts. reflexivity. }
  split.
  { rewrite Hlk, <- Qltb_lt. destruct (Qltb _ _); split; congruence. }
  split.
  { rewrite Hlk, <- Qltb_lt. destruct (Qltb _ _); [intros H; exfalso; auto|reflexivity]. }
  unfold _clean_cache at 1 2 3 4.
  rewrite !pop_keys_recommendations, !pop_keys_timestamps.
  destruct (decide (key ∈ expired_keys self now)) as [Hin|Hni].
  - left. apply elem_of_expired_keys in Hin as (ts0 & Hts0 & Hexp).
    assert (ts0 = ts) as -> by congruence. auto.
  - right. split.
    { apply Qnot_le_lt. intros Hexp. apply Hni. apply elem_of_expired_keys. eauto. }
    split; [exact Hres|]. split; [exact Hts|].
    intros later. unfold cache_lookup, _is_cache_valid. rewrite clean_ttl.
    unfold _clean_cache. rewrite pop_keys_recommendations, pop_keys_timestamps.
    destruct (decide (key ∈ expired_keys self now)); [contradiction|reflexivity].
Qed.

Definition sample_cache : caches := cache_store init 0 "content_U1_5" ["P1"; "P2"].

Lemma C4_witness :
  (cache_lookup sample_cache 1800 "content_U1_5" = Some ["P1"; "P2"]
     <-> (1800 - 0 < cache_ttl sample_cache)%Q) /\
  (~ (1800 - 0 < cache_ttl sample_cache)%Q ->
     cache_lookup sample_cache 1800 "content_U1_5" = None) /\
  (((cache_ttl sample_cache <= 4000 - 0)%Q /\
    recommendation_cache (_clean_cache sample_cache 4000) !! "content_U1_5" = None /\
    cache_timestamps (_clean_cache sample_cache 4000) !! "content_U1_5" = None)
   \/
   ((4000 - 0 < cache_ttl sample_cache)%Q /\
    recommendation_cache (_clean_cache sample_cache 4000) !! "content_U1_5"
      = Some ["P1"; "P2"] /\
    cache_timestamps (_clean_cache sample_cache 4000) !! "content_U1_5" = Some 0%Q /\
    forall later, cache_lookup (_clean_cache sample_cache 4000) later "content_U1_5"
                  = cache_lookup sample_cache later "content_U1_5")).
Proof.
  apply (C4_valid_iff_younger_than_ttl_and_clean_removes_expired
           sample_cache "content_U1_5" ["P1"; "P2"] 0 1800 4000).
  - reflexivity.
  - reflexivity.
Defined.

(** The claim as stated fails at the boundary: an entry whose age equals the
    ttl does not exceed it, yet [_clean_cache] removes it. *)
Lemma C4_counterexample :
  ~ (cache_ttl sample_cache < 3600 - 0)%Q /\
  recommendation_cache sample_cache !! "content_U1_5" = Some ["P1"; "P2"] /\
  recommendation_cache (_clean_cache sample_cache 3600) !! "content_U1_5" = None /\
  cache_timestamps (_clean_cache sample_cache 3600) !! "content_U1_5" = None.
Proof.
  split; [intros H; vm_compute in H; discriminate|].
  split; [reflexivity|]. split; vm_compute; reflexivity.
Qed.

End CacheProofs.

(** * Proofs: dictionaries and stores *)

Module ODictProofs.
Section WithTypes.
Context {K V : Type} `{EqDecision K}.
Implicit Types (d : odict K V) (k : K) (v : V).

Lemma get_set_eq k v d : ODict.get k (ODict.set k v d) = Some v.
Proof.
  induction d as [|[k0 v0] d IH]; simpl.
  - rewrite decide_True by reflexivity. reflexivity.
  - destruct (decide (k0 = k)) as [->|Hne]; simpl.
    + rewrite decide_True by reflexivity. reflexivity.
    + rewrite decide_False by exact Hne. exact IH.
Qed.

Lemma get_set_ne k k' v d : k <> k' -> ODict.get k' (ODict.set k v d) = ODict.get k' d.
Proof.
  intros Hne. induction d as [|[k0 v0] d IH]; simpl.
  - rewrite decide_False by exact Hne. reflexivity.
  - destruct (decide (k0 = k)) as [->|Hne0]; simpl.
    + rewrite !decide_False by exact Hne. reflexivity.
    + destruct (decide (k0 = k')); [reflexivity|exact IH].
Qed.

Lemma keys_set k v d :
  ODict.keys (ODict.set k v d) =
  if ODict.mem k d then ODict.keys d else ODict.keys d ++ [k].
Proof.
  unfold ODict.mem, ODict.keys. induction d as [|[k0 v0] d IH]; [reflexivity|].
  cbn [ODict.set ODict.get]. destruct (decide (k0 = k)) as [->|Hne]; [reflexivity|].
  rewrite !fmap_cons, IH. destruct (ODict.get k d); reflexivity.
Qed.

Lemma mem_get k d : ODict.mem k d = true <-> is_Some (ODict.get k d).
Proof.
  unfold ODict.mem. destruct (ODict.get k d); split; intros H; try reflexivity;
    try discriminate; eauto. destruct H; discriminate.
Qed.

End WithTypes.
End ODictProofs.

Module StoresProofs.
Import Stores ODictProofs.

Lemma add_user_get self user_id info :
  exists user,
    ODict.get user_id (users (add_user self user_id info)) = Some user /\
    user = default (new_user user_id info) (ODict.get user_id (users self)).
Proof.
  unfold add_user, ODict.mem.
  destruct (ODict.get user_id (users self)) as [u|] eqn:E; simpl.
  - exists u. rewrite E. auto.
  - exists (new_user user_id info). rewrite get_set_eq. auto.
Qed.

Lemma add_user_keys self user_id info :
  ODict.keys (users (add_user self user_id info)) =
  if ODict.mem user_id (users self) then ODict.keys (users self)
  else ODict.keys (users self) ++ [user_id].
Proof.
  unfold add_user. destruct (ODict.mem user_id (users self)) eqn:E; simpl.
  - reflexivity.
  - rewrite keys_set, E. reflexivity.
Qed.

Lemma add_user_other self user_id info other :
  other <> user_id ->
  ODict.get other (users (add_user self user_id info)) = ODict.get other (users self).
Proof.
  intros Hne. unfold add_user. destruct (ODict.mem user_id (users self)); simpl;
    [reflexivity|]. apply get_set_ne. congruence.
Qed.

(** The three cases of the amount of a purchase. *)
Lemma purchase_amount_cases purchase_data :
  (truthy purchase_data = false /\ purchase_amount purchase_data = 1%Q) \/
  (exists r a, purchase_data = Some r /\ total_amount r = Some a /\
               purchase_amount purchase_data = a) \/
  (exists r, purchase_data = Some r /\ total_amount r = None /\
             other_fields r <> [] /\ purchase_amount purchase_data = 0%Q).
Proof.
  unfold purchase_amount, truthy.
  destruct purchase_data as [[[a|] fields]|]; simpl.
  - right. left. eauto.
  - destruct fields as [|f fields].
    + left. auto.
    + right. right. eexists. split; [reflexivity|]. simpl. repeat split. discriminate.
  - left. auto.
Qed.

(** C7 (amended). [UserStore.add_purchase] creates the user record when it is
    missing (once: the user identifiers stay duplicate-free), puts the
    purchase at the head of the user's history, adds the purchase amount to
    the weight of the category and to the total spend, and leaves other
    users alone.  The amount is the record's ['total_amount'] when it has
    one, 1 when no record or an empty record is given, and 0 when a
    non-empty record has no amount.  The total spend does not decrease when
    the amount is not negative. *)
Theorem C7_record_purchase_updates_user
    (self : UserStore) (user_id item_id category : string)
    (purchase_data : option purchase_record) :
  let before := default (new_user user_id None) (ODict.get user_id (users self)) in
  let amount := purchase_amount purchase_data in
  let self' := add_purchase self user_id item_id category purchase_data in
  exists after,
    ODict.get user_id (users self') = Some after /\
    ODict.keys (users self') =
      (if ODict.mem user_id (users self) then ODict.keys (users self)
       else ODict.keys (users self) ++ [user_id]) /\
    get_items after = item_id :: get_items before /\
    ODict.get category (preferences after) =
      Some (default 0%Q (ODict.get category (preferences before)) + amount)%Q /\
    (forall other, other <> category ->
       ODict.get other (preferences after) = ODict.get other (preferences before)) /\
    total_spent after = (total_spent before + amount)%Q /\
    ((0 <= amount)%Q -> (total_spent before <= total_spent after)%Q) /\
    (forall other, other <> user_id ->
       ODict.get other (users self') = ODict.get other (users self)) /\
    ((truthy purchase_data = false /\ amount = 1%Q) \/
     (exists r a, purchase_data = Some r /\ total_amount r = Some a /\ amount = a) \/
     (exists r, purchase_data = Some r /\ total_amount r = None /\
                other_fields r <> [] /\ amount = 0%Q)).
Proof.
  intros before amount self'.
  destruct (add_user_get self user_id None) as (u & Hu & Hdef).
  assert (Hbefore : u = before) by exact Hdef.
  exists (user_add_purchase before item_id category purchase_data).
  unfold self', add_purchase. simpl. rewrite Hu. simpl. rewrite Hbefore.
  split; [apply get_set_eq|].
  split.
  { rewrite keys_set. unfold ODict.mem at 1. rewrite Hu. apply add_user_keys. }
  split; [reflexivity|].
  split; [unfold user_add_purchase, bump; simpl; apply get_set_eq|].
  split.
  { intros other Hne. unfold user_add_purchase, bump; simpl.
    apply get_set_ne. congruence. }
  split; [reflexivity|].
  split.
  { intros Hpos. simpl. fold amount.
    rewrite <- (Qplus_0_r (total_spent before)) at 1.
    apply Qplus_le_r. exact Hpos. }
  split.
  { intros other Hne. rewrite get_set_ne by congruence.
    apply add_user_other. exact Hne. }
  apply purchase_amount_cases.
Qed.

Definition order_without_amount : option purchase_record :=
  Some {| total_amount := None; other_fields := [("purchase_id", "X1")] |}.

Definition refund : option purchase_record :=
  Some {| total_amount := Some (-5)%Q; other_fields := [] |}.

(** The claim as stated fails twice: a record without an amount adds 0 to the
    category weight, not the unit weight; and a negative amount lowers the
    total spend. *)
Lemma C7_counterexample :
  (let self' := add_purchase empty_user_store "U1" "P1" "Books" order_without_amount in
   exists after,
     ODict.get "U1" (users self') = Some after /\
     ODict.get "Books" (preferences after) = Some (0 + 0)%Q /\
     ~ (0 + 0 == 0 + 1)%Q) /\
  (let self1 := add_purchase empty_user_store "U1" "P1" "Books" None in
   let self2 := add_purchase self1 "U1" "P2" "Books" refund in
   exists before after,
     ODict.get "U1" (users self1) = Some before /\
     ODict.get "U1" (users self2) = Some after /\
     (total_spent after < total_spent before)%Q).
Proof.
  split.
  - eexists. split; [reflexivity|]. split; [reflexivity|]. intros H. discriminate H.
  - eexists _, _. split; [reflexivity|]. split; [reflexivity|]. reflexivity.
Qed.

(** *** Loading a product twice *)

Lemma index_append_get key item_id index :
  ODict.get key (index_append key item_id index) =
  Some (default [] (ODict.get key index) ++ [item_id]).
Proof. unfold index_append. apply get_set_eq. Qed.

Lemma count_occ_snoc (l : list string) (x : string) :
  count_occ string_dec (l ++ [x]) x = S (count_occ string_dec l x).
Proof.
  rewrite count_occ_app. simpl. destruct (string_dec x x); [lia|congruence].
Qed.

Lemma add_product_category self item_id category info :
  get_items_by_category (add_product self item_id category info) category =
  get_items_by_category self category ++ [item_id].
Proof.
  unfold get_items_by_category, add_product.
  destruct (info_truthy info); simpl; rewrite index_append_get; reflexivity.
Qed.

Lemma add_product_record self item_id category info :
  get_product (add_product self item_id category info) item_id =
  Some (new_product item_id category info).
Proof.
  unfold get_product, add_product.
  destruct (info_truthy info); simpl; apply get_set_eq.
Qed.

Lemma add_product_keys self item_id category info :
  ODict.keys (items (add_product self item_id category info)) =
  if ODict.mem item_id (items self) then ODict.keys (items self)
  else ODict.keys (items self) ++ [item_id].
Proof.
  unfold add_product. destruct (info_truthy info); simpl; apply keys_set.
Qed.

(** C8 (the code departs from the claim). Loading the same product a second
    time through [ProductStore.add_product] replaces the record (the second
    load's attributes are applied, the identifier is not duplicated), but
    appends the identifier to the category index again: the index lists it
    at least twice. *)
Theorem C8_reloading_product_duplicates_index_entry
    (self : ProductStore) (item_id category : string)
    (info info' : option product_info) :
  let once := add_product self item_id category info in
  let twice := add_product once item_id category info' in
  get_product twice item_id = Some (new_product item_id category info') /\
  ODict.keys (items twice) = ODict.keys (items once) /\
  (2 <= count_occ string_dec (get_items_by_category twice category) item_id)%nat.
Proof.
  intros once twice. unfold twice, once.
  split; [apply add_product_record|].
  split.
  { rewrite add_product_keys. unfold ODict.mem.
    fold (get_product (add_product self item_id category info) item_id).
    rewrite add_product_record. reflexivity. }
  rewrite !add_product_category, !count_occ_snoc. lia.
Qed.

Definition acme_book : option product_info :=
  Some {| brand := Some "Acme"; price := Some 12%Q; stock := Some 3;
          availability := Some "in_stock"; other_info := [] |}.

Example reload_product_sample :
  let twice := add_product (add_product empty_product_store "P1" "Books" acme_book)
                           "P1" "Books" acme_book in
  category_index twice = [("Books", ["P1"; "P1"])] /\
  brand_index twice = [("Acme", ["P1"; "P1"])] /\
  price_range_index twice = [("0-50", ["P1"; "P1"])] /\
  ODict.keys (items twice) = ["P1"].
Proof. vm_compute. repeat split. Qed.

(** [UserStore.add_user] keeps the first record: a second load of the same
    identifier changes nothing, so its attributes are not applied. *)
Lemma add_user_twice self user_id info info' :
  add_user (add_user self user_id info) user_id info' = add_user self user_id info.
Proof.
  destruct (add_user_get self user_id info) as (u & Hu & _).
  unfold add_user at 1. unfold ODict.mem. rewrite Hu. reflexivity.
Qed.

End StoresProofs.

(** * Proofs: the recommendation engine *)

Module RecommenderProofs.
Import Stores Recommender.

(** A small catalogue and two users sharing the categories Books and Music. *)
Definition in_stock : option product_info :=
  Some {| brand := None; price := None; stock := Some 5;
          availability := Some "in_stock"; other_info := [] |}.

Definition sold_out : option product_info :=
  Some {| brand := None; price := None; stock := Some 0;
          availability := Some "out_of_stock"; other_info := [] |}.

Definition paid (amount : Q) : option purchase_record :=
  Some {| total_amount := Some amount; other_fields := [] |}.

Definition sample_products : ProductStore :=
  fold_left (fun s p => add_product s (fst (fst p)) (snd (fst p)) (snd p))
    [("P1", "Books", in_stock); ("P2", "Books", in_stock);
     ("P5", "Music", in_stock); ("P6", "Music", sold_out);
     ("X1", "Garden", in_stock); ("X2", "Garden", in_stock)]
    empty_product_store.

Definition sample_users : UserStore :=
  fold_left (fun s p => add_purchase s (fst (fst (fst p))) (snd (fst (fst p)))
                                     (snd (fst p)) (snd p))
    [("U1", "P1", "Books", paid 100); ("U1", "P5", "Music", paid 50);
     ("U2", "P2", "Books", paid 10); ("U2", "P6", "Music", paid 10);
     ("U2", "X1", "Garden", paid 10); ("U2", "X2", "Garden", paid 10)]
    empty_user_store.

Definition sample_system : RecommenderSystem :=
  {| user_store := sample_users; product_store := sample_products |}.

Example sample_content :
  recommend_by_category sample_system "U1" 2 = Ok ["P2"] /\
  recommend_by_category sample_system "U1" 4 = Ok ["P2"].
Proof. vm_compute. split; reflexivity. Qed.

Example sample_collab :
  recommend_by_similar_users sample_system "U1" 4 = Ok ["X2"; "X1"; "P2"].
Proof. vm_compute. reflexivity. Qed.

Example sample_hybrid :
  recommend_hybrid sample_system "U1" 2 1 0 = Ok ["P2"; "X2"].
Proof. vm_compute. reflexivity. Qed.

(** *** Content-based lists for different counts are prefixes of one list *)

Fixpoint scan_items_all (self : RecommenderSystem) (user_items items recs : list string)
  : list string :=
  match items with
  | [] => recs
  | item :: rest =>
      scan_items_all self user_items rest
        (if wanted self user_items recs item then recs ++ [item] else recs)
  end.

Fixpoint scan_categories_all (self : RecommenderSystem) (user_items : list string)
    (cats : list (string * Q)) (recs : list string) : list string :=
  match cats with
  | [] => recs
  | c :: rest =>
      scan_categories_all self user_items rest
        (scan_items_all self user_items
           (get_items_by_category (product_store self) (fst c)) recs)
  end.

Lemma scan_items_all_extends self user_items items recs :
  exists ext, scan_items_all self user_items items recs = recs ++ ext.
Proof.
  revert recs. induction items as [|item rest IH]; intros recs; simpl.
  - exists []. rewrite app_nil_r. reflexivity.
  - destruct (wanted self user_items recs item).
    + destruct (IH (recs ++ [item])) as [ext Hext]. exists (item :: ext).
      rewrite Hext, <- app_assoc. reflexivity.
    + apply IH.
Qed.

Lemma scan_categories_all_extends self user_items cats recs :
  exists ext, scan_categories_all self user_items cats recs = recs ++ ext.
Proof.
  revert recs. induction cats as [|[c q] rest IH]; intros recs; simpl.
  - exists []. rewrite app_nil_r. reflexivity.
  - destruct (scan_items_all_extends self user_items
                (get_items_by_category (product_store self) c) recs) as [e1 H1].
    rewrite H1. destruct (IH (recs ++ e1)) as [e2 H2]. exists (e1 ++ e2).
    rewrite H2, <- app_assoc. reflexivity.
Qed.

Lemma take_extends {A} (n : nat) (l ext : list A) :
  length l = n -> take n (l ++ ext) = l.
Proof. intros <-. rewrite take_app_length. reflexivity. Qed.

Lemma scan_items_take self (n : nat) user_items items recs :
  (length recs < n)%nat ->
  scan_items self (Z.of_nat n) user_items items recs =
  take n (scan_items_all self user_items items recs).
Proof.
  revert recs. induction items as [|item rest IH]; intros recs Hlen; simpl.
  - rewrite firstn_all2 by lia. reflexivity.
  - destruct (wanted self user_items recs item).
    + destruct (Z.leb_spec (Z.of_nat n) (Z.of_nat (length (recs ++ [item])))) as [Hge|Hlt].
      * destruct (scan_items_all_extends self user_items rest (recs ++ [item])) as [ext Hext].
        rewrite Hext. symmetry. apply take_extends.
        rewrite length_app in *. simpl in *. lia.
      * apply IH. lia.
    + destruct (Z.leb_spec (Z.of_nat n) (Z.of_nat (length recs))) as [Hge|Hlt]; [lia|].
      apply IH. exact Hlen.
Qed.

Lemma scan_items_all_length self user_items items recs :
  (length recs <= length (scan_items_all self user_items items recs))%nat.
Proof.
  destruct (scan_items_all_extends self user_items items recs) as [ext ->].
  rewrite length_app. lia.
Qed.

Lemma scan_categories_take self (n : nat) user_items cats recs :
  (length recs <= n)%nat ->
  scan_categories self (Z.of_nat n) user_items cats recs =
  take n (scan_categories_all self user_items cats recs).
Proof.
  revert recs. induction cats as [|[c q] rest IH]; intros recs Hlen; simpl.
  - rewrite firstn_all2 by lia. reflexivity.
  - destruct (Z.leb_spec (Z.of_nat n) (Z.of_nat (length recs))) as [Hge|Hlt].
    + destruct (scan_categories_all_extends self user_items rest
                  (scan_items_all self user_items
                     (get_items_by_category (product_store self) c) recs)) as [e2 H2].
      destruct (scan_items_all_extends self user_items
                  (get_items_by_category (product_store self) c) recs) as [e1 H1].
      rewrite H2, H1, <- app_assoc.
      symmetry. apply take_extends. lia.
    + rewrite scan_items_take by lia.
      set (all1 := scan_items_all self user_items
                     (get_items_by_category (product_store self) c) recs).
      destruct (le_lt_dec n (length all1)) as [Hfull|Hshort].
      * (* the category filled the list: later categories add nothing *)
        destruct (scan_categories_all_extends self user_items rest all1) as [e2 H2].
        rewrite H2.
        rewrite (take_app_le all1 e2 n) by exact Hfull.
        destruct rest as [|[c' q'] rest']; simpl; [reflexivity|].
        rewrite length_take.
        destruct (Z.leb_spec (Z.of_nat n) (Z.of_nat (n `min` length all1))); [reflexivity|lia].
      * rewrite firstn_all2 by lia. apply IH. lia.
Qed.

(** Everything the content-based scan would collect without a limit. *)
Definition content_all (self : RecommenderSystem) (user_id : string) : res (list string) :=
  match ODict.get user_id (users (user_store self)) with
  | None => Ok []
  | Some user =>
      let* preferences := get_preferences user in
      Ok (scan_categories_all self (get_items user) (sort_desc by_score preferences) [])
  end.

Lemma scan_categories_nonpositive self top_k user_items cats :
  top_k <= 0 -> scan_categories self top_k user_items cats [] = [].
Proof.
  intros Hk. destruct cats as [|[c q] rest]; simpl; [reflexivity|].
  destruct (Z.leb_spec top_k (Z.of_nat 0)); [reflexivity|simpl in *; lia].
Qed.

Lemma recommend_by_category_prefix self user_id top_k :
  recommend_by_category self user_id top_k =
  let* all := content_all self user_id in Ok (take (Z.to_nat top_k) all).
Proof.
  unfold recommend_by_category, content_all.
  destruct (ODict.get user_id (users (user_store self))) as [user|]; simpl.
  - destruct (get_preferences user) as [prefs| |]; simpl; try reflexivity. f_equal.
    destruct (Z_le_gt_dec top_k 0) as [Hk|Hk].
    + rewrite scan_categories_nonpositive by exact Hk.
      replace (Z.to_nat top_k) with 0%nat by lia.
      unfold py_prefix. destruct (0 <=? top_k); rewrite take_nil; reflexivity.
    + unfold py_prefix. destruct (Z.leb_spec 0 top_k); [|lia].
      assert (Hn : top_k = Z.of_nat (Z.to_nat top_k)) by lia.
      generalize dependent (Z.to_nat top_k). intros n Hn. subst top_k.
      rewrite scan_categories_take by (simpl; lia).
      rewrite take_take. f_equal. lia.
  - destruct (Z.to_nat top_k); reflexivity.
Qed.

Lemma wanted_fresh self user_items recs item :
  wanted self user_items recs item = true -> item ∉ recs.
Proof.
  unfold wanted. rewrite !andb_true_iff, !negb_true_iff.
  intros [[_ H] _]. apply bool_decide_eq_false in H. exact H.
Qed.

Lemma scan_items_all_NoDup self user_items items recs :
  NoDup recs -> NoDup (scan_items_all self user_items items recs).
Proof.
  revert recs. induction items as [|item rest IH]; intros recs Hnd; simpl; [exact Hnd|].
  apply IH. destruct (wanted self user_items recs item) eqn:E; [|exact Hnd].
  apply NoDup_app. split; [exact Hnd|]. split; [|apply NoDup_singleton].
  intros x Hx Hx'. apply list_elem_of_singleton in Hx'. subst x.
  apply wanted_fresh in E. contradiction.
Qed.

Lemma scan_categories_all_NoDup self user_items cats recs :
  NoDup recs -> NoDup (scan_categories_all self user_items cats recs).
Proof.
  revert recs. induction cats as [|c rest IH]; intros recs Hnd; simpl; [exact Hnd|].
  apply IH, scan_items_all_NoDup, Hnd.
Qed.

Lemma content_all_NoDup self user_id all :
  content_all self user_id = Ok all -> NoDup all.
Proof.
  unfold content_all. destruct (ODict.get user_id _) as [user|].
  - destruct (get_preferences user); simpl; intros [= <-].
    apply scan_categories_all_NoDup. constructor.
  - intros [= <-]. constructor.
Qed.

(** *** Score tables up to equality of rationals *)

Definition eqv (a b : string * Q) : Prop := fst a = fst b /\ (snd a == snd b)%Q.

Lemma bump_cons x delta k q (rest : odict string Q) :
  bump x delta ((k, q) :: rest) =
  if decide (k = x) then (k, (q + delta)%Q) :: rest else (k, q) :: bump x delta rest.
Proof.
  unfold bump. simpl. destruct (decide (k = x)); reflexivity.
Qed.

Lemma bump_present x delta (T R : odict string Q) :
  Forall2 eqv T R -> (delta == 0)%Q -> x ∈ T.*1 -> Forall2 eqv (bump x delta T) R.
Proof.
  intros HSR Hd. induction HSR as [|[k q] [k' q'] T R [Hk Hq] HSR IH]; intros Hin.
  - apply elem_of_nil in Hin. contradiction.
  - simpl in Hk, Hq. subst k'. rewrite bump_cons.
    destruct (decide (k = x)) as [->|Hne].
    + constructor; [|exact HSR]. split; [reflexivity|]. simpl. rewrite Hd, Hq. ring.
    + constructor; [split; [reflexivity|exact Hq]|]. apply IH.
      rewrite fmap_cons, elem_of_cons in Hin. simpl in Hin.
      destruct Hin as [?|?]; [congruence|assumption].
Qed.

Lemma bump_absent x delta (T R : odict string Q) :
  Forall2 eqv T R -> x ∉ T.*1 ->
  Forall2 eqv (bump x delta T) (R ++ [(x, delta)]).
Proof.
  intros HSR. induction HSR as [|[k q] [k' q'] T R [Hk Hq] HSR IH]; intros Hni.
  - unfold bump. simpl. constructor; [|constructor]. split; [reflexivity|]. simpl. ring.
  - simpl in Hk, Hq. subst k'. rewrite bump_cons.
    rewrite fmap_cons, elem_of_cons in Hni. simpl in Hni.
    destruct (decide (k = x)) as [->|Hne]; [tauto|].
    simpl. constructor; [split; [reflexivity|exact Hq]|]. apply IH. tauto.
Qed.

Lemma eqv_keys (T R : odict string Q) : Forall2 eqv T R -> T.*1 = R.*1.
Proof.
  induction 1 as [|a b T R [Hk _] _ IH]; [reflexivity|].
  rewrite !fmap_cons, Hk, IH. reflexivity.
Qed.

(** The score of position [i] in a list of [n] recommendations. *)
Definition position_score (weight : Q) (n i : nat) : Q :=
  (weight * (1 - inject_Z (Z.of_nat i) / inject_Z (Z.of_nat n)))%Q.

Definition score_step (weight : Q) (n : nat) (scored : odict string Q)
    (ix : nat * string) : odict string Q :=
  bump (snd ix) (position_score weight n (fst ix)) scored.

Fixpoint ref_scores (weight : Q) (n i : nat) (recs : list string) : odict string Q :=
  match recs with
  | [] => []
  | item :: rest => (item, position_score weight n i) :: ref_scores weight n (S i) rest
  end.

Lemma add_position_scores_fold weight recs scored :
  add_position_scores weight recs scored =
  fold_left (score_step weight (length recs)) (imap (fun i item => (i, item)) recs) scored.
Proof. reflexivity. Qed.

Lemma imap_shift (i0 : nat) (recs : list string) :
  imap ((fun i item => ((i0 + i)%nat, item)) ∘ S) recs =
  imap (fun i item => ((S i0 + i)%nat, item)) recs.
Proof. apply imap_ext. intros i x _. simpl. f_equal. lia. Qed.

Lemma fold_scores_fresh weight n recs i0 (T R : odict string Q) :
  NoDup recs -> (forall x, x ∈ recs -> x ∉ T.*1) -> Forall2 eqv T R ->
  Forall2 eqv
    (fold_left (score_step weight n) (imap (fun i item => ((i0 + i)%nat, item)) recs) T)
    (R ++ ref_scores weight n i0 recs).
Proof.
  revert i0 T R. induction recs as [|item rest IH]; intros i0 T R Hnd Hfresh HSR.
  - simpl. rewrite app_nil_r. exact HSR.
  - apply NoDup_cons in Hnd as [Hni Hnd]. cbn [imap fold_left ref_scores].
    rewrite imap_shift. unfold score_step at 2. cbn [fst snd].
    replace (i0 + 0)%nat with i0 by lia.
    replace (R ++ (item, position_score weight n i0) :: ref_scores weight n (S i0) rest)
      with ((R ++ [(item, position_score weight n i0)]) ++ ref_scores weight n (S i0) rest)
      by (rewrite <- app_assoc; reflexivity).
    apply IH; [exact Hnd| |].
    + intros x Hx.
      rewrite (eqv_keys _ (R ++ [(item, position_score weight n i0)])).
      * rewrite fmap_app, elem_of_app. simpl. rewrite list_elem_of_singleton.
        rewrite <- (eqv_keys _ _ HSR). intros [Hin| ->]; [|contradiction].
        apply (Hfresh x); [apply elem_of_cons; tauto|exact Hin].
      * apply bump_absent; [exact HSR|]. apply Hfresh. apply elem_of_cons. tauto.
    + apply bump_absent; [exact HSR|]. apply Hfresh. apply elem_of_cons. tauto.
Qed.

Definition zeros (E : list string) : odict string Q := map (fun e => (e, 0%Q)) E.

Lemma position_score_zero n i : (position_score 0 n i == 0)%Q.
Proof. unfold position_score. ring. Qed.

(** The items of [recs] that enter a score table with keys [seen], in the
    order they enter it. *)
Fixpoint unseen (seen recs : list string) : list string :=
  match recs with
  | [] => []
  | item :: rest =>
      if bool_decide (item ∈ seen) then unseen seen rest
      else item :: unseen (seen ++ [item]) rest
  end.

Lemma elem_of_unseen seen recs x : x ∈ unseen seen recs <-> x ∈ recs /\ x ∉ seen.
Proof.
  revert seen. induction recs as [|item rest IH]; intros seen; cbn [unseen].
  - split; [intros H|intros [H _]]; apply elem_of_nil in H; contradiction.
  - case_bool_decide as Hin.
    + rewrite IH, elem_of_cons. split; [tauto|]. intros [[->|H] Hn]; [contradiction|tauto].
    + rewrite !elem_of_cons, IH, elem_of_app, list_elem_of_singleton. split.
      * intros [->|[H Hn]]; [tauto|]. tauto.
      * intros [[->|H] Hn]; [tauto|]. destruct (decide (x = item)); [tauto|]. right. tauto.
Qed.

Lemma unseen_NoDup seen recs : NoDup (unseen seen recs).
Proof.
  revert seen. induction recs as [|item rest IH]; intros seen; cbn [unseen]; [constructor|].
  case_bool_decide; [apply IH|]. apply NoDup_cons. split; [|apply IH].
  rewrite elem_of_unseen, elem_of_app, list_elem_of_singleton. tauto.
Qed.

Lemma fold_scores_zero n recs i0 (T R : odict string Q) :
  Forall2 eqv T R ->
  Forall2 eqv
    (fold_left (score_step 0 n) (imap (fun i item => ((i0 + i)%nat, item)) recs) T)
    (R ++ zeros (unseen T.*1 recs)).
Proof.
  revert i0 T R. induction recs as [|item rest IH]; intros i0 T R HSR.
  - simpl. rewrite app_nil_r. exact HSR.
  - cbn [imap fold_left unseen]. rewrite imap_shift. unfold score_step at 2. cbn [fst snd].
    case_bool_decide as Hin.
    + pose proof (bump_present item (position_score 0 n (i0 + 0)) T R HSR
                    (position_score_zero n (i0 + 0)) Hin) as HSR'.
      pose proof (IH (S i0) _ R HSR') as HE.
      rewrite (eqv_keys _ _ HSR'), <- (eqv_keys _ _ HSR) in HE. exact HE.
    + assert (HSR' : Forall2 eqv (bump item (position_score 0 n (i0 + 0)) T)
                              (R ++ zeros [item])).
      { pose proof (bump_absent item (position_score 0 n (i0 + 0)) T R HSR Hin) as H.
        apply Forall2_app_inv_r in H as (S1 & S2 & H1 & H2 & Heq). rewrite Heq.
        apply Forall2_app; [exact H1|].
        inversion H2 as [|a b l1 l2 [Hk Hq] Hnil]; subst. inversion Hnil; subst.
        constructor; [|constructor]. split; [exact Hk|].
        simpl in *. rewrite Hq. apply position_score_zero. }
      pose proof (IH (S i0) _ _ HSR') as HE.
      rewrite (eqv_keys _ _ HSR'), fmap_app, <- (eqv_keys _ _ HSR) in HE.
      unfold zeros in *. simpl in *. rewrite <- app_assoc in HE. exact HE.
Qed.

(** *** A table already in descending order is left alone by the sort *)

Fixpoint descending (l : odict string Q) : Prop :=
  match l with
  | a :: (b :: _) as tl => by_score a b = true /\ descending tl
  | _ => True
  end.

Lemma sort_desc_descending (l : odict string Q) :
  descending l -> sort_desc by_score l = l.
Proof.
  induction l as [|a l IH]; [reflexivity|]. intros Hd.
  unfold sort_desc in *. simpl foldr.
  destruct l as [|b tl].
  - reflexivity.
  - destruct Hd as [Hab Hd]. rewrite (IH Hd). simpl. rewrite Hab. reflexivity.
Qed.

Lemma by_score_eqv a b a' b' :
  eqv a a' -> eqv b b' -> by_score a b = by_score a' b'.
Proof.
  intros [_ Ha] [_ Hb]. unfold by_score.
  destruct (Qle_bool (snd b') (snd a')) eqn:E.
  - apply Qle_bool_iff. apply Qle_bool_iff in E. rewrite Ha, Hb. exact E.
  - apply not_true_iff_false. intros H. apply Qle_bool_iff in H.
    rewrite Ha, Hb in H. apply Qle_bool_iff in H. congruence.
Qed.

Lemma descending_eqv (T R : odict string Q) :
  Forall2 eqv T R -> descending R -> descending T.
Proof.
  induction 1 as [|a a' T R Ha HTR IH]; [trivial|].
  destruct HTR as [|b b' T R Hb HTR]; [trivial|].
  intros [Hab Hd]. split.
  - rewrite (by_score_eqv a b a' b'); assumption.
  - apply IH. exact Hd.
Qed.

Definition frac (i n : nat) : Q := (inject_Z (Z.of_nat i) / inject_Z (Z.of_nat n))%Q.

Lemma frac_mono (i j n : nat) : (i <= j)%nat -> (0 < n)%nat -> (frac i n <= frac j n)%Q.
Proof.
  intros Hij Hn. unfold frac, Qdiv. apply Qmult_le_compat_r.
  - rewrite <- Zle_Qle. lia.
  - apply Qlt_le_weak, Qinv_lt_0_compat. rewrite <- (Zlt_Qlt 0). lia.
Qed.

Lemma frac_full (n : nat) : (0 < n)%nat -> (frac n n == 1)%Q.
Proof.
  intros Hn. unfold frac, Qdiv. apply Qmult_inv_r.
  intros H. unfold Qeq, inject_Z in H. simpl in H. lia.
Qed.

Lemma position_score_one n i : (position_score 1 n i == 1 - frac i n)%Q.
Proof. unfold position_score, frac. ring. Qed.

Lemma descending_zeros E : descending (zeros E).
Proof.
  induction E as [|e [|e' E] IH]; simpl; auto.
Qed.

Lemma descending_ref n E recs i :
  (i + length recs <= n)%nat -> descending (ref_scores 1 n i recs ++ zeros E).
Proof.
  revert i. induction recs as [|c cs IH]; intros i Hlen.
  - simpl. apply descending_zeros.
  - simpl in Hlen. specialize (IH (S i) ltac:(lia)).
    cbn [ref_scores app]. destruct cs as [|c' cs'].
    + cbn [ref_scores app] in *. destruct E as [|e E']; [exact I|].
      cbn [zeros map] in *. split; [|exact IH].
      unfold by_score. cbn [snd]. apply Qle_bool_iff. rewrite position_score_one.
      pose proof (frac_mono i n n ltac:(lia) ltac:(lia)) as H.
      rewrite (frac_full n) in H by lia. Lqa.lra.
    + cbn [ref_scores app] in *. split; [|exact IH].
      unfold by_score. cbn [snd]. apply Qle_bool_iff. rewrite !position_score_one.
      pose proof (frac_mono i (S i) n ltac:(lia) ltac:(lia)) as H. Lqa.lra.
Qed.

Lemma ref_scores_keys weight n i recs : (ref_scores weight n i recs).*1 = recs.
Proof.
  revert i. induction recs as [|c cs IH]; intros i; [reflexivity|].
  cbn [ref_scores]. rewrite fmap_cons, IH. reflexivity.
Qed.

Lemma zeros_keys E : (zeros E).*1 = E.
Proof. induction E as [|e E IH]; [reflexivity|]. simpl. f_equal. exact IH. Qed.

End RecommenderProofs.

(** * Proofs: collaborative scores and their ranking *)

Module CollabProofs.
Import Stores Recommender ODictProofs StringOrder.

(** *** Score tables as finite functions *)

Definition score_of (x : string) (T : odict string Q) : Q := default 0%Q (ODict.get x T).

Lemma bump_get_eq x w (T : odict string Q) :
  ODict.get x (bump x w T) = Some (score_of x T + w)%Q.
Proof. unfold bump. apply get_set_eq. Qed.

Lemma bump_get_ne x y w (T : odict string Q) :
  x <> y -> ODict.get y (bump x w T) = ODict.get y T.
Proof. intros Hne. unfold bump. apply get_set_ne. exact Hne. Qed.

Lemma get_keys (x : string) (T : odict string Q) :
  x ∈ ODict.keys T <-> is_Some (ODict.get x T).
Proof.
  unfold ODict.keys. induction T as [|[k q] T IH]; simpl.
  - split; [intros H; apply elem_of_nil in H; contradiction|intros [? H]; discriminate].
  - rewrite elem_of_cons. destruct (decide (k = x)) as [->|Hne].
    + split; [eauto|tauto].
    + rewrite IH. split; [intros [?|?]; [congruence|assumption]|tauto].
Qed.

Lemma bump_keys x w (T : odict string Q) y :
  y ∈ ODict.keys (bump x w T) <-> y = x \/ y ∈ ODict.keys T.
Proof.
  rewrite !get_keys. destruct (decide (x = y)) as [->|Hne].
  - rewrite bump_get_eq. split; [tauto|eauto].
  - rewrite bump_get_ne by exact Hne. split; [tauto|intros [?|?]; [congruence|assumption]].
Qed.

Lemma set_NoDup (x : string) (v : Q) (T : odict string Q) :
  NoDup (ODict.keys T) -> NoDup (ODict.keys (ODict.set x v T)).
Proof.
  intros Hnd. rewrite keys_set. destruct (ODict.mem x T) eqn:E; [exact Hnd|].
  apply NoDup_app. split; [exact Hnd|]. split; [|apply NoDup_singleton].
  intros y Hy Hy'. apply list_elem_of_singleton in Hy'. subst y.
  apply get_keys, mem_get in Hy. congruence.
Qed.

Lemma get_in (x : string) (q : Q) (T : odict string Q) :
  NoDup (ODict.keys T) -> (x, q) ∈ T -> ODict.get x T = Some q.
Proof.
  unfold ODict.keys. induction T as [|[k q'] T IH]; simpl; intros Hnd Hin.
  - apply elem_of_nil in Hin. contradiction.
  - apply NoDup_cons in Hnd as [Hni Hnd]. apply elem_of_cons in Hin as [Heq|Hin].
    + injection Heq as <- <-. rewrite decide_True by reflexivity. reflexivity.
    + destruct (decide (k = x)) as [->|Hne]; [|apply IH; assumption].
      exfalso. apply Hni. apply (list_elem_of_fmap_2 fst) in Hin. exact Hin.
Qed.

(** *** One similar user *)

Section Scoring.
Variable self : RecommenderSystem.
Variable user_items : list string.

(** The requesting user does not own the item, the similar user does, and
    the item is available. *)
Definition contributes (other_items : list string) (x : string) : Prop :=
  x ∈ other_items /\ (x ∉ user_items) /\ _is_item_available self x = true.

#[local] Instance contributes_dec other_items x : Decision (contributes other_items x).
Proof. unfold contributes. apply _. Defined.

Definition contribution (other_items : list string) (w : Q) (x : string) : Q :=
  if decide (contributes other_items x) then w else 0%Q.

Lemma fold_available_spec (w : Q) (L : list string) (T : odict string Q) :
  NoDup L -> NoDup (ODict.keys T) ->
  let T' := fold_left (fun scores item =>
                         if _is_item_available self item then bump item w scores
                         else scores) L T in
  NoDup (ODict.keys T') /\
  forall x,
    (x ∈ ODict.keys T' <->
       x ∈ ODict.keys T \/ (x ∈ L /\ _is_item_available self x = true)) /\
    (score_of x T' ==
       score_of x T + (if decide (x ∈ L /\ _is_item_available self x = true)
                       then w else 0))%Q.
Proof.
  revert T. induction L as [|item L IH]; intros T HndL HndT; cbn [fold_left].
  - split; [exact HndT|]. intros x. split.
    + split; [tauto|]. intros [?|[H _]]; [assumption|]. apply elem_of_nil in H. contradiction.
    + rewrite decide_False; [ring|]. intros [H _]. apply elem_of_nil in H. contradiction.
  - apply NoDup_cons in HndL as [Hni HndL].
    destruct (_is_item_available self item) eqn:Eav.
    + destruct (IH (bump item w T) HndL) as [Hnd' Hx'].
      { unfold bump. apply set_NoDup. exact HndT. }
      split; [exact Hnd'|]. intros x. destruct (Hx' x) as [Hk Hs]. split.
      * rewrite Hk, bump_keys, elem_of_cons. split.
        -- intros [[->|?]|[? ?]]; auto.
        -- intros [?|[[->|?] ?]]; auto.
      * rewrite Hs. destruct (decide (x = item)) as [->|Hne].
        -- unfold score_of at 1. rewrite bump_get_eq. simpl.
           rewrite (decide_False (P := item ∈ L /\ _)) by tauto.
           rewrite decide_True; [ring|]. split; [apply elem_of_cons; tauto|exact Eav].
        -- unfold score_of at 1. rewrite bump_get_ne by congruence. fold (score_of x T).
           destruct (decide (x ∈ L /\ _is_item_available self x = true)) as [[H1 H2]|Hn].
           ++ rewrite decide_True; [reflexivity|]. split; [apply elem_of_cons; tauto|exact H2].
           ++ rewrite decide_False; [reflexivity|]. rewrite elem_of_cons. tauto.
    + destruct (IH T HndL HndT) as [Hnd' Hx'].
      split; [exact Hnd'|]. intros x. destruct (Hx' x) as [Hk Hs]. split.
      * rewrite Hk, elem_of_cons. split.
        -- intros [?|[? ?]]; auto.
        -- intros [?|[[->|?] ?]]; [auto|congruence|auto].
      * rewrite Hs.
        destruct (decide (x ∈ L /\ _is_item_available self x = true)) as [[H1 H2]|Hn].
        -- rewrite decide_True; [reflexivity|]. split; [apply elem_of_cons; tauto|exact H2].
        -- rewrite decide_False; [reflexivity|]. rewrite elem_of_cons.
           intros [[->|?] ?]; [congruence|tauto].
Qed.

Lemma score_items_spec (other_items : list string) (w : Q) (T : odict string Q) :
  NoDup (ODict.keys T) ->
  let T' := score_items self user_items other_items w T in
  NoDup (ODict.keys T') /\
  forall x,
    (x ∈ ODict.keys T' <-> x ∈ ODict.keys T \/ contributes other_items x) /\
    (score_of x T' == score_of x T + contribution other_items w x)%Q.
Proof.
  intros HndT. unfold score_items.
  set (L := list_difference (remove_dups other_items) user_items).
  assert (HndL : NoDup L) by (apply NoDup_list_difference, NoDup_remove_dups).
  assert (HL : forall x, x ∈ L <-> x ∈ other_items /\ x ∉ user_items).
  { intros x. unfold L. rewrite list_elem_of_difference, elem_of_remove_dups. tauto. }
  destruct (fold_available_spec w L T HndL HndT) as [Hnd Hx].
  split; [exact Hnd|]. intros x. destruct (Hx x) as [Hk Hs]. split.
  - rewrite Hk, HL. unfold contributes. tauto.
  - rewrite Hs. unfold contribution, contributes.
    destruct (decide (x ∈ L /\ _)) as [[H1 H2]|Hn].
    + apply HL in H1. rewrite decide_True by tauto. reflexivity.
    + rewrite decide_False; [reflexivity|]. rewrite HL in Hn. tauto.
Qed.

(** What one similar user adds to the score of the item. *)
Definition share (x : string) (similar : string * Q) : Q :=
  match ODict.get (fst similar) (users (user_store self)) with
  | Some other_user => contribution (get_items other_user) (snd similar) x
  | None => 0%Q
  end.

(** The sum, taken in the order of the similar users, of the weights of
    those who contribute the item. *)
Definition weight_sum (similar_users : list (string * Q)) (x : string) : Q :=
  fold_left (fun score similar => (score + share x similar)%Q) similar_users 0%Q.

Lemma weight_sum_from (similar_users : list (string * Q)) (x : string) (a : Q) :
  (fold_left (fun score similar => (score + share x similar)%Q) similar_users a
   == a + weight_sum similar_users x)%Q.
Proof.
  unfold weight_sum. revert a.
  induction similar_users as [|ow rest IH]; intros a; cbn [fold_left]; [ring|].
  rewrite (IH (a + share x ow)%Q), (IH (0 + share x ow)%Q). ring.
Qed.

Lemma weight_sum_cons (similar : string * Q) (rest : list (string * Q)) (x : string) :
  (weight_sum (similar :: rest) x == share x similar + weight_sum rest x)%Q.
Proof. unfold weight_sum at 1. cbn [fold_left]. rewrite weight_sum_from. ring. Qed.

(** Some similar user contributes the item: the candidates. *)
Definition candidate (similar_users : list (string * Q)) (x : string) : Prop :=
  exists other_id w other_user,
    (other_id, w) ∈ similar_users /\
    ODict.get other_id (users (user_store self)) = Some other_user /\
    contributes (get_items other_user) x.

Lemma score_similar_spec similar_users (T T' : odict string Q) :
  NoDup (ODict.keys T) ->
  score_similar self user_items similar_users T = Ok T' ->
  NoDup (ODict.keys T') /\
  forall x,
    (x ∈ ODict.keys T' <-> x ∈ ODict.keys T \/ candidate similar_users x) /\
    (score_of x T' == score_of x T + weight_sum similar_users x)%Q.
Proof.
  revert T. induction similar_users as [|[o w] rest IH]; intros T HndT;
    cbn [score_similar].
  - intros [= <-]. split; [exact HndT|]. intros x. split.
    + split; [tauto|]. intros [?|(o & w & u & H & _)]; [assumption|].
      apply elem_of_nil in H. contradiction.
    + unfold weight_sum. cbn [fold_left]. ring.
  - destruct (ODict.get o (users (user_store self))) as [other|] eqn:Eo; [|discriminate].
    intros Hrun.
    destruct (score_items_spec (get_items other) w T HndT) as [Hnd1 Hx1].
    destruct (IH _ Hnd1 Hrun) as [Hnd' Hx']. split; [exact Hnd'|].
    intros x. destruct (Hx' x) as [Hk Hs]. destruct (Hx1 x) as [Hk1 Hs1]. split.
    + rewrite Hk, Hk1. split.
      * intros [[?|Hc]|(o' & w' & u' & Hin & Hg & Hc)]; [tauto| |].
        -- right. exists o, w, other. split; [apply elem_of_cons; tauto|tauto].
        -- right. exists o', w', u'. split; [apply elem_of_cons; tauto|tauto].
      * intros [?|(o' & w' & u' & Hin & Hg & Hc)]; [tauto|].
        apply elem_of_cons in Hin as [Heq|Hin].
        -- injection Heq as -> ->. rewrite Eo in Hg. injection Hg as <-. tauto.
        -- right. exists o', w', u'. tauto.
    + rewrite Hs, Hs1, weight_sum_cons. unfold share. cbn [fst snd]. rewrite Eo. ring.
Qed.

End Scoring.

(** *** The order of strings and of (score, identifier) keys *)

(** [outranks a b]: [a] has the larger score, or the same score and an
    identifier that is not smaller. *)
Definition outranks (a b : string * Q) : Prop :=
  (snd b < snd a)%Q \/ ((snd a == snd b)%Q /\ String.leb (fst b) (fst a) = true).

Lemma by_score_then_id_spec a b : by_score_then_id a b = true <-> outranks a b.
Proof.
  unfold by_score_then_id, outranks.
  rewrite orb_true_iff, andb_true_iff, CacheProofs.Qltb_lt, Qeq_bool_iff. reflexivity.
Qed.

Lemma outranks_total a b : outranks a b \/ outranks b a.
Proof.
  unfold outranks.
  destruct (Q_dec (snd a) (snd b)) as [[Hlt|Hgt]|Heq]; [tauto|tauto|].
  destruct (String.leb_total (fst a) (fst b)) as [H|H].
  - right. right. split; [symmetry; exact Heq|exact H].
  - left. right. split; [exact Heq|exact H].
Qed.

Lemma outranks_trans a b c : outranks a b -> outranks b c -> outranks a c.
Proof.
  unfold outranks. intros [H1|[H1 L1]] [H2|[H2 L2]].
  - left. Lqa.lra.
  - left. Lqa.lra.
  - left. Lqa.lra.
  - right. split; [Lqa.lra|]. eapply string_leb_trans; eauto.
Qed.

(** *** The descending sort *)

Section Sorting.
Context {A : Type} (geb : A -> A -> bool).
Hypothesis geb_total : forall a b, geb a b = true \/ geb b a = true.
Hypothesis geb_trans : forall a b c, geb a b = true -> geb b c = true -> geb a c = true.

Lemma insert_desc_perm (x : A) (l : list A) : insert_desc geb x l ≡ₚ x :: l.
Proof.
  induction l as [|y ys IH]; simpl; [reflexivity|].
  destruct (geb x y); [reflexivity|]. rewrite IH. apply Permutation_swap.
Qed.

Lemma sort_desc_perm (l : list A) : sort_desc geb l ≡ₚ l.
Proof.
  unfold sort_desc. induction l as [|x l IH]; simpl; [reflexivity|].
  rewrite insert_desc_perm, IH. reflexivity.
Qed.

Lemma insert_desc_sorted (x : A) (l : list A) :
  StronglySorted (fun a b => geb a b = true) l ->
  StronglySorted (fun a b => geb a b = true) (insert_desc geb x l).
Proof.
  induction 1 as [|y ys Hs IH Hall]; simpl.
  - constructor; constructor.
  - destruct (geb x y) eqn:E.
    + constructor; [constructor; assumption|].
      constructor; [exact E|].
      eapply Forall_impl; [exact Hall|]. intros z Hz. simpl in Hz. eauto.
    + constructor; [exact IH|].
      rewrite insert_desc_perm. constructor; [|exact Hall].
      destruct (geb_total x y) as [H|H]; [congruence|exact H].
Qed.

Lemma sort_desc_sorted (l : list A) :
  StronglySorted (fun a b => geb a b = true) (sort_desc geb l).
Proof.
  unfold sort_desc. induction l as [|x l IH]; simpl; [constructor|].
  apply insert_desc_sorted. exact IH.
Qed.

End Sorting.

(** *** Ranking the score table *)

(** [result] lists the identifiers of the first [top_k] entries of the score
    table put in rank order. *)
Definition ranked (top_k : Z) (item_scores : odict string Q) (result : list string) : Prop :=
  exists ranking,
    ranking ≡ₚ item_scores /\ StronglySorted outranks ranking /\
    result = (take (Z.to_nat top_k) ranking).*1.

Lemma StronglySorted_impl {A} (P Q : A -> A -> Prop) (l : list A) :
  (forall a b, P a b -> Q a b) -> StronglySorted P l -> StronglySorted Q l.
Proof.
  intros HPQ. induction 1 as [|x l Hs IH Hall]; constructor; [exact IH|].
  eapply Forall_impl; [exact Hall|]. intros z Hz. simpl in Hz. auto.
Qed.

Lemma top_scored_ranked top_k (item_scores : odict string Q) :
  ranked top_k item_scores (top_scored top_k item_scores).
Proof.
  exists (sort_desc by_score_then_id item_scores).
  split; [apply sort_desc_perm|]. split.
  - eapply StronglySorted_impl; [|apply sort_desc_sorted].
    + intros a b. apply by_score_then_id_spec.
    + intros a b. rewrite !by_score_then_id_spec. apply outranks_total.
    + intros a b c. rewrite !by_score_then_id_spec. apply outranks_trans.
  - unfold top_scored, nlargest. destruct item_scores; [|reflexivity].
    simpl. rewrite take_nil. reflexivity.
Qed.

(** The table holds exactly the candidates, each once, with the sum of the
    weights of the similar users who contribute it. *)
Definition scored_as (self : RecommenderSystem) (user_items : list string)
    (similar_users : list (string * Q)) (item_scores : odict string Q) : Prop :=
  NoDup (ODict.keys item_scores) /\
  forall x,
    (x ∈ ODict.keys item_scores <-> candidate self user_items similar_users x) /\
    (forall q, (x, q) ∈ item_scores ->
               (q == weight_sum self user_items similar_users x)%Q).

Lemma score_similar_scored_as self user_items similar_users item_scores :
  score_similar self user_items similar_users [] = Ok item_scores ->
  scored_as self user_items similar_users item_scores.
Proof.
  intros Hrun.
  destruct (score_similar_spec self user_items similar_users [] item_scores)
    as [Hnd Hx]; [constructor|exact Hrun|].
  split; [exact Hnd|]. intros x. destruct (Hx x) as [Hk Hs]. split.
  - rewrite Hk. split; [|tauto]. intros [H|H]; [|exact H].
    apply elem_of_nil in H. contradiction.
  - intros q Hq. apply (get_in _ _ _ Hnd) in Hq.
    unfold score_of in Hs. rewrite Hq in Hs. simpl in Hs. rewrite Hs. ring.
Qed.

Lemma score_similar_total self user_items similar_users (T : odict string Q) :
  (forall o w, (o, w) ∈ similar_users ->
               is_Some (ODict.get o (users (user_store self)))) ->
  exists T', score_similar self user_items similar_users T = Ok T'.
Proof.
  revert T. induction similar_users as [|[o w] rest IH]; intros T Hknown; simpl.
  - eauto.
  - destruct (Hknown o w) as [other ->]; [apply elem_of_cons; tauto|].
    apply IH. intros o' w' Hin. apply (Hknown o' w'). apply elem_of_cons. tauto.
Qed.

(** *** The similar users of the weighted variant *)

Lemma by_score_total (a b : string * Q) : by_score a b = true \/ by_score b a = true.
Proof.
  unfold by_score. rewrite !Qle_bool_iff.
  destruct (Qlt_le_dec (snd a) (snd b)) as [H|H]; [right|left]; Lqa.lra.
Qed.

Lemma by_score_trans (a b c : string * Q) :
  by_score a b = true -> by_score b c = true -> by_score a c = true.
Proof. unfold by_score. rewrite !Qle_bool_iff. intros. Lqa.lra. Qed.

(** The loop over the other users returns exactly when every similarity
    does, and then lists the users with a positive one; otherwise it ends
    with the failure of one of them. *)
Lemma positive_similarities_cases user_id others (similarity_of : string -> res Q) :
  match positive_similarities user_id others similarity_of with
  | Ok positives =>
      (forall o, o ∈ others -> o <> user_id -> exists w, similarity_of o = Ok w) /\
      (forall o w, (o, w) ∈ positives <->
         o ∈ others /\ o <> user_id /\ similarity_of o = Ok w /\ (0 < w)%Q)
  | Raise e => exists o, o ∈ others /\ o <> user_id /\ similarity_of o = Raise e
  | OutOfFuel => exists o, o ∈ others /\ o <> user_id /\ similarity_of o = OutOfFuel
  end.
Proof.
  induction others as [|x rest IH]; cbn [positive_similarities].
  - split.
    + intros o Hin. apply elem_of_nil in Hin. contradiction.
    + intros o w. split.
      * intros Hin. apply elem_of_nil in Hin. contradiction.
      * intros [Hin _]. apply elem_of_nil in Hin. contradiction.
  - case_bool_decide as Hx.
    + subst x. destruct (positive_similarities user_id rest similarity_of) as [tail|e|].
      * destruct IH as [Hall Hmem]. split.
        -- intros o Hin Hne. apply elem_of_cons in Hin as [->|Hin]; [contradiction|].
           apply Hall; assumption.
        -- intros o w. rewrite Hmem, elem_of_cons. split; [tauto|].
           intros ([->|Hin] & Hne & H); [contradiction|tauto].
      * destruct IH as (o & Hin & H). exists o. split; [apply elem_of_cons; tauto|exact H].
      * destruct IH as (o & Hin & H). exists o. split; [apply elem_of_cons; tauto|exact H].
    + destruct (similarity_of x) as [sx|e|] eqn:Esx; cbn [rbind].
      2:{ exists x. split; [apply elem_of_cons; tauto|]. split; assumption. }
      2:{ exists x. split; [apply elem_of_cons; tauto|]. split; assumption. }
      destruct (positive_similarities user_id rest similarity_of) as [tail|e|]; cbn [rbind].
      * destruct IH as [Hall Hmem]. split.
        -- intros o Hin Hne. apply elem_of_cons in Hin as [->|Hin]; [eauto|].
           apply Hall; assumption.
        -- intros o w. destruct (Qltb 0 sx) eqn:Epos.
           ++ rewrite !elem_of_cons, Hmem. split.
              ** intros [Heq|H]; [|tauto]. injection Heq as -> ->.
                 apply CacheProofs.Qltb_lt in Epos. tauto.
              ** intros ([->|Hin] & Hne & Hw & Hp); [|tauto].
                 left. rewrite Esx in Hw. injection Hw as ->. reflexivity.
           ++ rewrite Hmem, elem_of_cons. split; [tauto|].
              intros ([->|Hin] & Hne & Hw & Hp); [|tauto].
              rewrite Esx in Hw. injection Hw as ->.
              apply CacheProofs.Qltb_lt in Hp. congruence.
      * destruct IH as (o & Hin & H). exists o. split; [apply elem_of_cons; tauto|exact H].
      * destruct IH as (o & Hin & H). exists o. split; [apply elem_of_cons; tauto|exact H].
Qed.

Lemma mem_keys (o : string) {V} (d : odict string V) :
  o ∈ ODict.keys d -> is_Some (ODict.get o d).
Proof.
  unfold ODict.keys. induction d as [|[k v] d IH]; simpl.
  - intros H. apply elem_of_nil in H. contradiction.
  - rewrite elem_of_cons. destruct (decide (k = o)); [eauto|].
    intros [?|?]; [congruence|auto].
Qed.

Lemma get_similar_users_known (store : UserStore) (user_id o : string) :
  forallb (fun o => ODict.mem o (users store)) (ODict.keys (user_categories store)) = true ->
  o ∈ get_similar_users store user_id ->
  is_Some (ODict.get o (users store)).
Proof.
  intros Hall Hin. unfold get_similar_users in Hin.
  destruct (negb (ODict.mem user_id (users store))).
  - apply elem_of_nil in Hin. contradiction.
  - apply list_elem_of_fmap in Hin as ([o' cats] & -> & Hin). simpl.
    apply list_elem_of_In, filter_In in Hin as [Hin _].
    rewrite forallb_forall in Hall. apply mem_get, Hall.
    unfold ODict.keys. apply list_elem_of_In.
    apply list_elem_of_In in Hin. apply (list_elem_of_fmap_2 fst) in Hin. exact Hin.
Qed.

Section WithCosine.
Variable cosine : string -> string -> res Q.


End WithCosine.

(** *** The sample system of [RecommenderProofs], and a crowd of 21 similar users *)

Import RecommenderProofs.

Definition sample_optimized : OptimizedRecommenderSystem :=
  {| base := sample_system; caches := Cache.init; similarity_matrix := None |}.

Definition half (_ _ : string) : res Q := Ok (1 # 2).

Definition sample_user : User :=
  default (new_user "U1" None) (ODict.get "U1" (users sample_users)).


Definition crowd_ids : list string := map (fun i => "V" +:+ pretty i) (seq 1 21).

Definition crowd_users : UserStore :=
  fold_left (fun s v => add_purchase (add_purchase s v "Z" "Books" None) v "P6" "Music" None)
            crowd_ids sample_users.

Definition crowd_system : RecommenderSystem :=
  {| user_store := crowd_users;
     product_store := add_product sample_products "Z" "Books" in_stock |}.

(** A similarity that raises for the user U2, as the cosine does when the
    preference weights of U2 add up to 0. *)
Definition failing (_ other : string) : res Q :=
  if bool_decide (other = "U2") then Raise ZeroDivisionError else Ok (1 # 2).


End CollabProofs.

(** * Proofs: cosine similarity *)

Module SimilarityProofs.
Import Stores Similarity ODictProofs.

Definition free_sample : option purchase_record :=
  Some {| total_amount := Some 0%Q; other_fields := [("purchase_id", "F1")] |}.

(** User A is registered and has bought nothing; user B has one purchase,
    of amount 0. *)
Definition zero_total_store : UserStore :=
  add_purchase (add_user empty_user_store "A" None) "B" "P1" "Books" free_sample.

(** C6 (the code departs from the claim). User A has an empty preference
    vector and user B a vector whose weights sum to zero: the similarity is
    not 0, the normalisation of B's vector raises [ZeroDivisionError], in either
    argument order. *)
Theorem C6_zero_total_preferences_raise :
  (let* prefs := get_preferences (default (new_user "A" None)
                                    (ODict.get "A" (users zero_total_store))) in
   Ok prefs) = Ok [] /\
  _compute_cosine_similarity_cached zero_total_store [] "A" "B"
    = (Raise ZeroDivisionError, []) /\
  _compute_cosine_similarity_cached zero_total_store [] "B" "A"
    = (Raise ZeroDivisionError, []).
Proof. split; [reflexivity|]. split; reflexivity. Qed.

(** *** Where the normalisation succeeds, the similarity is symmetric *)

Lemma Qsum_from (l : list Q) (a : Q) : (fold_left Qplus l a == a + Qsum l)%Q.
Proof.
  unfold Qsum. revert a. induction l as [|x l IH]; intros a; simpl; [ring|].
  rewrite (IH (a + x)%Q), (IH (0 + x)%Q). ring.
Qed.

Lemma Qsum_cons (x : Q) (l : list Q) : (Qsum (x :: l) == x + Qsum l)%Q.
Proof. unfold Qsum at 1. simpl. rewrite Qsum_from. ring. Qed.

Lemma Qsum_map_ext (f g : string -> Q) (l : list string) :
  (forall c, f c == g c)%Q -> (Qsum (map f l) == Qsum (map g l))%Q.
Proof.
  intros Hfg. induction l as [|z l IH]; [reflexivity|].
  simpl. rewrite !Qsum_cons, IH, Hfg. reflexivity.
Qed.

Lemma Qsum_perm (f : string -> Q) (l1 l2 : list string) :
  l1 ≡ₚ l2 -> (Qsum (map f l1) == Qsum (map f l2))%Q.
Proof.
  induction 1 as [|x l1 l2 Hp IH|x y l|l1 l2 l3 _ IH1 _ IH2].
  - reflexivity.
  - simpl. rewrite !Qsum_cons, IH. reflexivity.
  - simpl. rewrite !Qsum_cons. ring.
  - rewrite IH1. exact IH2.
Qed.

Lemma Qsum_map_perm (f g : string -> Q) (l1 l2 : list string) :
  (forall c, f c == g c)%Q -> l1 ≡ₚ l2 -> (Qsum (map f l1) == Qsum (map g l2))%Q.
Proof.
  intros Hfg Hp. rewrite (Qsum_perm f l1 l2 Hp). apply Qsum_map_ext. exact Hfg.
Qed.

Lemma elem_of_common (prefs1 prefs2 : odict string Q) (c : string) :
  c ∈ common_categories prefs1 prefs2 <-> c ∈ ODict.keys prefs1 /\ c ∈ ODict.keys prefs2.
Proof.
  unfold common_categories. rewrite list_elem_of_In, filter_In, <- list_elem_of_In.
  rewrite mem_get, <- CollabProofs.get_keys. reflexivity.
Qed.

Lemma common_NoDup (prefs1 prefs2 : odict string Q) :
  NoDup (ODict.keys prefs1) -> NoDup (common_categories prefs1 prefs2).
Proof.
  intros Hnd. unfold common_categories.
  apply NoDup_ListNoDup, List.NoDup_filter, NoDup_ListNoDup, Hnd.
Qed.

Lemma common_perm (prefs1 prefs2 : odict string Q) :
  NoDup (ODict.keys prefs1) -> NoDup (ODict.keys prefs2) ->
  common_categories prefs1 prefs2 ≡ₚ common_categories prefs2 prefs1.
Proof.
  intros H1 H2. apply NoDup_Permutation; [apply common_NoDup, H1|apply common_NoDup, H2|].
  intros c. rewrite !elem_of_common. tauto.
Qed.

Lemma map_snd_keys (g : string * Q -> Q) (l : odict string Q) :
  (map (fun cs => (fst cs, g cs)) l).*1 = l.*1.
Proof. induction l as [|p l IH]; [reflexivity|]. simpl. f_equal. exact IH. Qed.

Lemma get_preferences_keys (user : User) prefs :
  get_preferences user = Ok prefs -> ODict.keys prefs = ODict.keys (preferences user).
Proof.
  unfold get_preferences. destruct (preferences user) as [|p ps] eqn:E.
  - intros [= <-]. reflexivity.
  - destruct (Qeq_bool _ _); [discriminate|]. intros [= <-].
    unfold ODict.keys. rewrite !fmap_cons. cbn [fst]. f_equal.
    apply (map_snd_keys (fun cs => (snd cs / _)%Q)).
Qed.

Lemma get_preferences_cases (user : User) :
  (exists prefs, get_preferences user = Ok prefs) \/
  get_preferences user = Raise ZeroDivisionError.
Proof.
  unfold get_preferences. destruct (preferences user); [eauto|].
  destruct (Qeq_bool _ _); eauto.
Qed.

(** The similarity is the same in both argument orders, error included,
    for users whose preference dictionaries have no repeated key. *)
Lemma cosine_similarity_symmetric (self : UserStore) (a b : string) :
  (forall id user, ODict.get id (users self) = Some user ->
                   NoDup (ODict.keys (preferences user))) ->
  cosine_similarity self a b = cosine_similarity self b a.
Proof.
  intros Hok. unfold cosine_similarity.
  destruct (ODict.get a (users self)) as [ua|] eqn:Ea;
    destruct (ODict.get b (users self)) as [ub|] eqn:Eb; try reflexivity.
  destruct (get_preferences_cases ua) as [[pa Ha]| ->];
    destruct (get_preferences_cases ub) as [[pb Hb]| ->];
    rewrite ?Ha, ?Hb; simpl; try reflexivity.
  assert (Hna : NoDup (ODict.keys pa))
    by (rewrite (get_preferences_keys ua pa Ha); eauto).
  assert (Hnb : NoDup (ODict.keys pb))
    by (rewrite (get_preferences_keys ub pb Hb); eauto).
  pose proof (common_perm pa pb Hna Hnb) as Hp.
  destruct (common_categories pa pb) as [|c cs] eqn:Eab;
    destruct (common_categories pb pa) as [|d ds] eqn:Eba.
  - reflexivity.
  - apply Permutation_nil in Hp. discriminate.
  - symmetry in Hp. apply Permutation_nil in Hp. discriminate.
  - rewrite <- Eab, <- Eba in *.
    set (Ma := Qsum (map (fun cat => weight pa cat * weight pa cat)%Q (common_categories pa pb))).
    set (Mb := Qsum (map (fun cat => weight pb cat * weight pb cat)%Q (common_categories pa pb))).
    set (D := Qsum (map (fun cat => weight pa cat * weight pb cat)%Q (common_categories pa pb))).
    assert (HMa : Q2R (Qsum (map (fun cat => weight pa cat * weight pa cat)%Q
                                 (common_categories pb pa))) = Q2R Ma).
    { apply Qeq_eqR. unfold Ma. apply Qsum_map_perm; [reflexivity|symmetry; exact Hp]. }
    assert (HMb : Q2R (Qsum (map (fun cat => weight pb cat * weight pb cat)%Q
                                 (common_categories pb pa))) = Q2R Mb).
    { apply Qeq_eqR. unfold Mb. apply Qsum_map_perm; [reflexivity|symmetry; exact Hp]. }
    assert (HD : Q2R (Qsum (map (fun cat => weight pb cat * weight pa cat)%Q
                                (common_categories pb pa))) = Q2R D).
    { apply Qeq_eqR. unfold D. apply Qsum_map_perm; [intros c0; ring|symmetry; exact Hp]. }
    rewrite HMa, HMb, HD.
    destruct (Req_EM_T (sqrt (Q2R Ma)) 0), (Req_EM_T (sqrt (Q2R Mb)) 0); try reflexivity.
    f_equal. f_equal. apply Rmult_comm.
Qed.

(** Users without a common category, and in particular a user with an
    empty preference vector, have similarity 0 with every user whose own
    vector can be normalised. *)
Lemma cosine_similarity_no_common (self : UserStore) (a b : string) ua ub pa pb :
  ODict.get a (users self) = Some ua -> ODict.get b (users self) = Some ub ->
  get_preferences ua = Ok pa -> get_preferences ub = Ok pb ->
  common_categories pa pb = [] ->
  cosine_similarity self a b = Ok 0%R.
Proof.
  intros Ha Hb Hpa Hpb Hc. unfold cosine_similarity.
  rewrite Ha, Hb, Hpa, Hpb. simpl. rewrite Hc. reflexivity.
Qed.

End SimilarityProofs.

(** * Proofs: the skip list *)

Module SkipListProofs.
Import Stores SkipList StringOrder.

(** *** The towers: the nodes in level-0 order, each with its height *)

Record entry : Type := mkEntry {
  e_addr : nat;
  e_key : string;
  e_data : purchase_record;
  e_level : nat
}.

(** The first node of height at least [i]: where a level-[i] pointer in front
    of [T] leads. *)
Fixpoint next_at (i : nat) (T : list entry) : option nat :=
  match T with
  | [] => None
  | e :: T' => if (i <=? e_level e)%nat then Some (e_addr e) else next_at i T'
  end.

(** The nodes behind the node at address [a]. *)
Fixpoint after (a : nat) (T : list entry) : list entry :=
  match T with
  | [] => []
  | e :: T' => if decide (e_addr e = a) then T' else after a T'
  end.

(** The last node of height at least [i] among [c] (taken to be tall enough)
    followed by [A]. *)
Fixpoint last_at (i : nat) (c : nat) (A : list entry) : nat :=
  match A with
  | [] => c
  | e :: A' => last_at i (if (i <=? e_level e)%nat then e_addr e else c) A'
  end.

Definition addrs (T : list entry) : list nat := map e_addr T.

Definition low (i : nat) (T : list entry) : Prop := Forall (fun e => (e_level e < i)%nat) T.

Lemma next_at_low i A R : low i A -> next_at i (A ++ R) = next_at i R.
Proof.
  induction 1 as [|e A He _ IH]; simpl; [reflexivity|].
  destruct (Nat.leb_spec i (e_level e)); [lia|exact IH].
Qed.

Lemma next_at_found i A R e :
  e ∈ A -> (i <= e_level e)%nat -> next_at i (A ++ R) = next_at i A.
Proof.
  induction A as [|x A IH]; intros Hin Hle.
  - apply elem_of_nil in Hin. contradiction.
  - simpl. destruct (Nat.leb_spec i (e_level x)); [reflexivity|].
    apply elem_of_cons in Hin as [->|Hin]; [lia|]. apply IH; assumption.
Qed.

Lemma next_at_in i T a : next_at i T = Some a -> a ∈ addrs T.
Proof.
  induction T as [|e T IH]; simpl; [discriminate|].
  destruct (i <=? e_level e)%nat.
  - intros [= <-]. apply elem_of_cons. tauto.
  - intros H. apply elem_of_cons. right. apply IH. exact H.
Qed.

Lemma next_at_None i T : next_at i T = None -> low i T.
Proof.
  induction T as [|e T IH]; simpl; intros H; [constructor|].
  destruct (Nat.leb_spec i (e_level e)); [discriminate|].
  constructor; [assumption|apply IH; exact H].
Qed.

Lemma after_app_l a A R : a ∈ addrs A -> after a (A ++ R) = after a A ++ R.
Proof.
  induction A as [|e A IH]; simpl; intros Hin.
  - apply elem_of_nil in Hin. contradiction.
  - destruct (decide (e_addr e = a)); [reflexivity|].
    apply IH. apply elem_of_cons in Hin as [?|?]; [congruence|assumption].
Qed.

Lemma after_app_r a A R : a ∉ addrs A -> after a (A ++ R) = after a R.
Proof.
  induction A as [|e A IH]; simpl; intros Hni; [reflexivity|].
  rewrite elem_of_cons in Hni.
  destruct (decide (e_addr e = a)); [exfalso; apply Hni; left; congruence|].
  apply IH. tauto.
Qed.

Lemma after_middle A e R : e_addr e ∉ addrs A -> after (e_addr e) (A ++ e :: R) = R.
Proof.
  intros Hni. rewrite after_app_r by exact Hni. simpl.
  rewrite decide_True by reflexivity. reflexivity.
Qed.

Lemma addrs_app A B : addrs (A ++ B) = addrs A ++ addrs B.
Proof. unfold addrs. apply map_app. Qed.

(** Where [last_at] stops: the part behind it is low. *)
Lemma last_at_split i c A :
  exists A1 B1,
    A = A1 ++ B1 /\ low i B1 /\
    ((A1 = [] /\ last_at i c A = c) \/
     (exists A1' e, A1 = A1' ++ [e] /\ e_addr e = last_at i c A /\ (i <= e_level e)%nat)).
Proof.
  revert c. induction A as [|x A IH]; intros c.
  - exists [], []. split; [reflexivity|]. split; [constructor|]. left. auto.
  - simpl. destruct (Nat.leb_spec i (e_level x)) as [Hle|Hlt].
    + destruct (IH (e_addr x)) as (A1 & B1 & -> & Hlow & Hcase).
      destruct Hcase as [[-> Hl]|(A1' & e & -> & He & Hle')].
      * exists [x], B1. split; [reflexivity|]. split; [exact Hlow|].
        right. exists [], x. split; [reflexivity|]. split; [symmetry; exact Hl|exact Hle].
      * exists (x :: A1' ++ [e]), B1. split; [reflexivity|]. split; [exact Hlow|].
        right. exists (x :: A1'), e. auto.
    + destruct (IH c) as (A1 & B1 & -> & Hlow & Hcase).
      destruct Hcase as [[-> Hl]|(A1' & e & -> & He & Hle')].
      * exists [], (x :: B1). split; [reflexivity|].
        split; [constructor; assumption|]. left. auto.
      * exists (x :: A1' ++ [e]), B1. split; [reflexivity|]. split; [exact Hlow|].
        right. exists (x :: A1'), e. auto.
Qed.

Lemma last_at_app i c A B : last_at i c (A ++ B) = last_at i (last_at i c A) B.
Proof.
  revert c. induction A as [|x A IH]; intros c; simpl; [reflexivity|]. apply IH.
Qed.

Lemma last_at_low i c A : low i A -> last_at i c A = c.
Proof.
  intros H. revert c. induction H as [|e A He _ IH]; intros c; simpl; [reflexivity|].
  destruct (Nat.leb_spec i (e_level e)); [lia|apply IH].
Qed.

Lemma last_at_in i c A : last_at i c A = c \/ last_at i c A ∈ addrs A.
Proof.
  revert c. induction A as [|x A IH]; intros c; simpl; [tauto|].
  destruct (i <=? e_level x)%nat.
  - right. apply elem_of_cons. destruct (IH (e_addr x)) as [->|H]; tauto.
  - destruct (IH c) as [->|H]; [tauto|]. right. apply elem_of_cons. tauto.
Qed.

Lemma low_le i j T : (i <= j)%nat -> low i T -> low j T.
Proof.
  intros Hij H. eapply Forall_impl; [exact H|]. intros e He. simpl in *. lia.
Qed.

Lemma next_at_app i A R :
  next_at i (A ++ R) = match next_at i A with Some a => Some a | None => next_at i R end.
Proof.
  induction A as [|e A IH]; simpl; [reflexivity|].
  destruct (i <=? e_level e)%nat; [reflexivity|exact IH].
Qed.

Lemma last_at_next_None i c B : next_at i B = None -> last_at i c B = c.
Proof. intros H. apply last_at_low, next_at_None, H. Qed.

Lemma last_at_next_Some i c B a : next_at i B = Some a -> last_at i c B ∈ addrs B.
Proof.
  revert c. induction B as [|e B IH]; intros c; simpl; [discriminate|].
  destruct (i <=? e_level e)%nat.
  - intros _. apply elem_of_cons.
    destruct (last_at_in i (e_addr e) B) as [->|H]; tauto.
  - intros H. apply elem_of_cons. right. apply IH. exact H.
Qed.

(** *** The header in front of the towers *)

Definition full (hd ml : nat) (T : list entry) : list entry :=
  mkEntry hd "" empty_record ml :: T.

Lemma after_full_hd hd ml T : after hd (full hd ml T) = T.
Proof. unfold full. simpl. rewrite decide_True by reflexivity. reflexivity. Qed.

Lemma elem_of_addrs (e : entry) T : e ∈ T -> e_addr e ∈ addrs T.
Proof. intros H. unfold addrs. apply list_elem_of_fmap. exists e. auto. Qed.

Lemma addrs_elem_of a T : a ∈ addrs T -> exists e, e ∈ T /\ e_addr e = a.
Proof.
  unfold addrs. intros H. apply list_elem_of_fmap in H as (e & -> & He). eauto.
Qed.

Lemma full_app hd ml A R : full hd ml (A ++ R) = full hd ml A ++ R.
Proof. reflexivity. Qed.

Lemma NoDup_addrs_middle A (n : entry) R :
  NoDup (addrs (A ++ n :: R)) ->
  NoDup (addrs (A ++ R)) /\ e_addr n ∉ addrs (A ++ R).
Proof.
  rewrite !addrs_app. change (addrs (n :: R)) with (e_addr n :: addrs R).
  intros Hn. apply NoDup_app in Hn as (H1 & H2 & H3).
  apply NoDup_cons in H3 as [H3 H4]. split.
  - apply NoDup_app. split; [exact H1|]. split; [|exact H4].
    intros a Ha Ha'. apply (H2 a Ha). apply elem_of_cons. tauto.
  - intros Hin. apply elem_of_app in Hin as [Hin|Hin]; [|tauto].
    apply (H2 _ Hin). apply elem_of_cons. tauto.
Qed.

Lemma NoDup_addrs_app A R :
  NoDup (addrs (A ++ R)) ->
  NoDup (addrs A) /\ NoDup (addrs R) /\ forall a, a ∈ addrs A -> a ∉ addrs R.
Proof.
  rewrite addrs_app. intros Hn. apply NoDup_app in Hn as (H1 & H2 & H3). auto.
Qed.

Lemma after_split A x B :
  NoDup (addrs (A ++ x :: B)) -> after (e_addr x) (A ++ x :: B) = B.
Proof.
  intros Hn. apply after_middle. apply NoDup_addrs_middle in Hn as [_ Hn].
  intros Hin. apply Hn. rewrite addrs_app. apply elem_of_app. tauto.
Qed.

Section Towers.
Variables hd ml : nat.

(** The node [last_at] stops at is a node of the list, tall enough. *)
Lemma last_at_entry i A :
  (i <= ml)%nat ->
  exists p, p ∈ full hd ml A /\ e_addr p = last_at i hd A /\ (i <= e_level p)%nat.
Proof.
  intros Hi. destruct (last_at_split i hd A) as (A1 & B1 & -> & Hlow & Hcase).
  destruct Hcase as [[-> Hl]|(A1' & e & -> & He & Hle)].
  - exists (mkEntry hd "" empty_record ml). split; [apply elem_of_cons; tauto|].
    simpl. simpl in Hl. auto.
  - exists e. split; [|auto]. apply elem_of_cons. right.
    rewrite !elem_of_app, list_elem_of_singleton. tauto.
Qed.

(** A node of the list splits it; behind it [last_at] starts afresh. *)
Lemma full_split x A :
  x ∈ full hd ml A ->
  exists A' B, full hd ml A = A' ++ x :: B /\
    forall i, (i <= e_level x)%nat -> last_at i hd A = last_at i (e_addr x) B.
Proof.
  intros Hin. apply elem_of_cons in Hin as [->|Hin].
  - exists [], A. split; [reflexivity|]. intros i Hi. reflexivity.
  - apply list_elem_of_split in Hin as (A1 & B & ->).
    exists (mkEntry hd "" empty_record ml :: A1), B. split; [reflexivity|].
    intros i Hi. rewrite last_at_app. simpl.
    destruct (Nat.leb_spec i (e_level x)); [reflexivity|lia].
Qed.

(** The predecessor found at level [i] points past the rest of [Tlt]. *)
Lemma next_at_pred i Tlt R :
  NoDup (addrs (full hd ml (Tlt ++ R))) ->
  next_at i (after (last_at i hd Tlt) (full hd ml (Tlt ++ R))) = next_at i R.
Proof.
  intros Hnd.
  destruct (last_at_split i hd Tlt) as (A1 & B1 & Heq & Hlow & Hcase).
  destruct Hcase as [[-> Hl]|(A1' & e & -> & He & Hle)].
  - rewrite Hl, after_full_hd. simpl in Heq. subst Tlt. apply next_at_low. exact Hlow.
  - rewrite <- He. subst Tlt.
    replace (((A1' ++ [e]) ++ B1) ++ R) with (A1' ++ e :: B1 ++ R) in *
      by (rewrite <- !app_assoc; reflexivity).
    rewrite full_app in *.
    rewrite after_split by exact Hnd. apply next_at_low. exact Hlow.
Qed.

(** What putting a node [n] between [Tlt] and [Tge] changes in the level-[i]
    pointer of another node [x]; read from right to left, what taking [n]
    out changes. *)
Lemma next_at_insert i Tlt n Tge x :
  NoDup (addrs (full hd ml (Tlt ++ n :: Tge))) ->
  x ∈ full hd ml (Tlt ++ Tge) -> (i <= e_level x)%nat ->
  next_at i (after (e_addr x) (full hd ml (Tlt ++ n :: Tge))) =
    if decide ((i <= e_level n)%nat /\ e_addr x = last_at i hd Tlt)
    then Some (e_addr n)
    else next_at i (after (e_addr x) (full hd ml (Tlt ++ Tge))).
Proof.
  rewrite !full_app. intros Hnd Hin Hi.
  destruct (NoDup_addrs_middle _ _ _ Hnd) as [Hnd' Hfresh].
  apply elem_of_app in Hin as [Hin|Hin].
  - destruct (full_split x Tlt Hin) as (A' & B & Heq & Hlast).
    rewrite Heq in *. rewrite <- !app_assoc in *.
    change ((x :: B) ++ n :: Tge) with (x :: B ++ n :: Tge) in *.
    change ((x :: B) ++ Tge) with (x :: B ++ Tge) in *.
    rewrite (after_split A' x (B ++ n :: Tge)) by exact Hnd.
    rewrite (after_split A' x (B ++ Tge)) by exact Hnd'.
    rewrite (Hlast i Hi), !next_at_app.
    destruct (next_at i B) as [a|] eqn:Hb.
    + rewrite decide_False; [reflexivity|].
      intros [_ Hx]. apply (last_at_next_Some i (e_addr x)) in Hb.
      rewrite <- Hx in Hb.
      apply NoDup_addrs_app in Hnd' as (_ & Hn & _).
      change (addrs (x :: B ++ Tge)) with (e_addr x :: addrs (B ++ Tge)) in Hn.
      apply NoDup_cons in Hn as [Hn _]. apply Hn. rewrite addrs_app.
      apply elem_of_app. tauto.
    + rewrite (last_at_next_None i _ B Hb). simpl.
      destruct (Nat.leb_spec i (e_level n)).
      * rewrite decide_True by tauto. reflexivity.
      * rewrite decide_False by lia. reflexivity.
  - assert (Hx : e_addr x ∉ addrs (full hd ml Tlt)).
    { apply NoDup_addrs_app in Hnd' as (_ & _ & Hd).
      intros Hx. apply (Hd _ Hx). apply elem_of_addrs. exact Hin. }
    rewrite !after_app_r by exact Hx. simpl.
    rewrite (decide_False (P := e_addr n = e_addr x)).
    + rewrite decide_False; [reflexivity|].
      intros [_ Heq]. apply Hx. rewrite Heq. simpl. apply elem_of_cons.
      destruct (last_at_in i hd Tlt) as [->|H]; tauto.
    + intros Heq. apply Hfresh. rewrite addrs_app, elem_of_app. right.
      rewrite Heq. apply elem_of_addrs. exact Hin.
Qed.

End Towers.

Lemma low_or_split i B :
  low i B \/
  exists B1 e B2, B = B1 ++ e :: B2 /\ low i B1 /\ (i <= e_level e)%nat.
Proof.
  induction B as [|x B IH]; [left; constructor|].
  destruct (Nat.leb_spec i (e_level x)) as [Hle|Hlt].
  - right. exists [], x, B. split; [reflexivity|]. split; [constructor|exact Hle].
  - destruct IH as [Hlow|(B1 & e & B2 & -> & Hlow & Hle)].
    + left. constructor; assumption.
    + right. exists (x :: B1), e, B2. split; [reflexivity|].
      split; [constructor; assumption|exact Hle].
Qed.

Lemma last_at_descend hd i Tlt :
  exists A B, Tlt = A ++ B /\ last_at (S i) hd Tlt = last_at i hd A.
Proof.
  destruct (last_at_split (S i) hd Tlt) as (A1 & B1 & -> & Hlow & Hcase).
  exists A1, B1. split; [reflexivity|].
  destruct Hcase as [[-> Hl]|(A1' & e & -> & He & Hle)].
  - exact Hl.
  - rewrite <- He, last_at_app. simpl.
    destruct (Nat.leb_spec i (e_level e)); [reflexivity|lia].
Qed.

(** *** Keys in ascending order *)

Definition keys (T : list entry) : list string := map e_key T.

Definition before (a b : string) : Prop := String.ltb a b = true.

Definition ascending (l : list string) : Prop := StronglySorted before l.

Lemma keys_app A B : keys (A ++ B) = keys A ++ keys B.
Proof. unfold keys. apply map_app. Qed.

Lemma before_trans a b c : before a b -> before b c -> before a c.
Proof. apply string_ltb_trans. Qed.

Lemma before_irrefl a : ~ before a a.
Proof. unfold before. rewrite string_ltb_irrefl. discriminate. Qed.

Lemma ascending_insert l1 k l2 :
  ascending (l1 ++ l2) -> Forall (fun x => before x k) l1 -> Forall (before k) l2 ->
  ascending (l1 ++ k :: l2).
Proof.
  intros Hs H1 H2. induction H1 as [|x l1 Hx H1 IH]; simpl in *.
  - constructor; assumption.
  - inversion Hs as [|? ? Hs' Hall]; subst. constructor; [apply IH; exact Hs'|].
    apply Forall_app in Hall as [Ha Hb]. apply Forall_app. split; [exact Ha|].
    constructor; [exact Hx|exact Hb].
Qed.

Lemma ascending_delete l1 k l2 : ascending (l1 ++ k :: l2) -> ascending (l1 ++ l2).
Proof.
  induction l1 as [|x l1 IH]; simpl; intros Hs; inversion Hs as [|? ? Hs' Hall]; subst.
  - exact Hs'.
  - constructor; [apply IH; exact Hs'|].
    apply Forall_app in Hall as [Ha Hb]. apply Forall_app. split; [exact Ha|].
    inversion Hb; assumption.
Qed.

Lemma ascending_NoDup l : ascending l -> NoDup l.
Proof.
  induction 1 as [|x l _ IH Hall]; constructor; [|exact IH].
  intros Hin. rewrite Forall_forall in Hall. apply (before_irrefl x).
  apply Hall. exact Hin.
Qed.

(** The nodes below a key and the others. *)
Lemma split_at_key K T :
  ascending (keys T) ->
  exists Tlt Tge, T = Tlt ++ Tge /\
    Forall (fun e => before (e_key e) K) Tlt /\
    Forall (fun e => ~ before (e_key e) K) Tge.
Proof.
  induction T as [|e T IH]; intros Hs.
  - exists [], []. repeat split; constructor.
  - simpl in Hs. inversion Hs as [|? ? Hs' Hall]; subst.
    destruct (String.ltb (e_key e) K) eqn:He.
    + destruct (IH Hs') as (Tlt & Tge & -> & Hlt & Hge).
      exists (e :: Tlt), Tge. split; [reflexivity|]. split; [|exact Hge].
      constructor; assumption.
    + exists [], (e :: T). split; [reflexivity|]. split; [constructor|].
      constructor.
      * unfold before. rewrite He. discriminate.
      * rewrite Forall_forall in Hall. apply Forall_forall. intros x Hx Hb.
        assert (Hex : before (e_key e) (e_key x)).
        { apply Hall. unfold keys. apply list_elem_of_fmap. exists x. auto. }
        pose proof (before_trans _ _ _ Hex Hb) as Hc. unfold before in Hc.
        rewrite He in Hc. discriminate.
Qed.

Lemma not_before_above K T :
  Forall (fun e => ~ before (e_key e) K) T -> K ∉ keys T ->
  Forall (before K) (keys T).
Proof.
  intros Hge Hni. unfold keys. apply Forall_forall. intros k Hk.
  apply list_elem_of_fmap in Hk as (e & -> & He).
  rewrite Forall_forall in Hge. specialize (Hge e He).
  destruct (string_ltb_trichotomy (e_key e) K) as [H|[H|H]].
  - contradiction.
  - exfalso. apply Hni. rewrite <- H. unfold keys. apply list_elem_of_fmap.
    exists e. auto.
  - exact H.
Qed.

Lemma below_not_in K T : Forall (fun e => before (e_key e) K) T -> K ∉ keys T.
Proof.
  intros Hlt Hin. unfold keys in Hin. apply list_elem_of_fmap in Hin as (e & -> & He).
  rewrite Forall_forall in Hlt. apply (before_irrefl (e_key e)). apply Hlt.
  exact He.
Qed.

Lemma head_above K e rest :
  ascending (keys (e :: rest)) -> ~ before (e_key e) K -> e_key e <> K ->
  K ∉ keys (e :: rest).
Proof.
  intros Hs Hnb Hne Hin. simpl in Hs. inversion Hs as [|? ? _ Hall]; subst.
  simpl in Hin. apply elem_of_cons in Hin as [Hin|Hin]; [congruence|].
  rewrite Forall_forall in Hall. specialize (Hall _ Hin).
  destruct (string_ltb_trichotomy (e_key e) K) as [H|[H|H]]; [tauto|tauto|].
  apply (before_irrefl K). eapply before_trans; [exact H|exact Hall].
Qed.

(** *** The heap holds the towers *)

Definition id_of (hd : nat) (e : entry) : option string :=
  if decide (e_addr e = hd) then None else Some (e_key e).

(** The node of [e], with [P i] in its level-[i] slot. *)
Definition node_at (h : gmap nat SkipListNode) (hd : nat) (e : entry)
    (P : nat -> option nat) : Prop :=
  exists f,
    h !! e_addr e = Some (mkNode (id_of hd e) (e_data e) f (e_level e)) /\
    length f = S (e_level e) /\
    forall i, (i <= e_level e)%nat -> f !! i = Some (P i).

Definition ptr (hd ml : nat) (T : list entry) (e : entry) (i : nat) : option nat :=
  next_at i (after (e_addr e) (full hd ml T)).

Record rep (s : SkipListPurchaseHistory) (T : list entry) : Prop := {
  rep_nodup : NoDup (addrs (full (header s) (max_level s) T));
  rep_sorted : ascending (keys T);
  rep_nodes : forall e, e ∈ full (header s) (max_level s) T ->
                node_at (heap s) (header s) e (ptr (header s) (max_level s) T e);
  rep_levels : Forall (fun e => (e_level e <= level s)%nat) T;
  rep_level : (level s <= max_level s)%nat;
  rep_size : size s = Z.of_nat (length T);
  rep_fresh : forall a, is_Some (heap s !! a) -> (a < next_object s)%nat;
  rep_fuel : (length T < base.size (heap s))%nat
}.

Lemma node_at_ext h hd e P Q :
  (forall i, (i <= e_level e)%nat -> P i = Q i) -> node_at h hd e P -> node_at h hd e Q.
Proof.
  intros Hext (f & Hf & Hlen & Hp). exists f. split; [exact Hf|]. split; [exact Hlen|].
  intros i Hi. rewrite <- Hext by exact Hi. apply Hp. exact Hi.
Qed.

Lemma id_of_entry hd ml T e :
  NoDup (addrs (full hd ml T)) -> e ∈ T -> id_of hd e = Some (e_key e).
Proof.
  intros Hnd He. unfold id_of. rewrite decide_False; [reflexivity|].
  intros Heq. change (addrs (full hd ml T)) with (hd :: addrs T) in Hnd.
  apply NoDup_cons in Hnd as [Hn _]. apply Hn. rewrite <- Heq.
  apply elem_of_addrs. exact He.
Qed.

Lemma rbind_Ok {A B} (x : A) (k : A -> res B) : rbind (Ok x) k = k x.
Proof. reflexivity. Qed.

(** *** The descent to a key *)

Section Descent.
Variable h : gmap nat SkipListNode.
Variables hd ml : nat.
Variables T Tlt Tge : list entry.
Variable K : string.
Hypothesis Hnd : NoDup (addrs (full hd ml T)).
Hypothesis Hnodes : forall e, e ∈ full hd ml T -> node_at h hd e (ptr hd ml T e).
Hypothesis HT : T = Tlt ++ Tge.
Hypothesis Hlt : Forall (fun e => before (e_key e) K) Tlt.
Hypothesis Hge : Forall (fun e => ~ before (e_key e) K) Tge.

(** The node the descent stands on at level [i]. *)
Lemma pred_node i A B :
  Tlt = A ++ B -> (i <= ml)%nat ->
  exists f p,
    p ∈ full hd ml T /\ e_addr p = last_at i hd A /\ (i <= e_level p)%nat /\
    h !! last_at i hd A = Some (mkNode (id_of hd p) (e_data p) f (e_level p)) /\
    length f = S (e_level p) /\
    f !! i = Some (next_at i (B ++ Tge)).
Proof.
  intros HA Hi. destruct (last_at_entry hd ml i A Hi) as (p & Hp & Hpa & Hpl).
  assert (HpT : p ∈ full hd ml T).
  { rewrite HT, HA, <- app_assoc, full_app. apply elem_of_app. tauto. }
  destruct (Hnodes p HpT) as (f & Hf & Hlen & Hptr).
  exists f, p. rewrite <- Hpa.
  split; [exact HpT|]. split; [reflexivity|]. split; [exact Hpl|].
  split; [exact Hf|]. split; [exact Hlen|].
  rewrite (Hptr i Hpl). f_equal. unfold ptr. rewrite Hpa.
  rewrite HT, HA, <- app_assoc. apply next_at_pred.
  rewrite app_assoc, <- HA, <- HT. exact Hnd.
Qed.

Lemma entry_node e :
  e ∈ T ->
  exists f, h !! e_addr e = Some (mkNode (Some (e_key e)) (e_data e) f (e_level e)) /\
            length f = S (e_level e) /\
            forall i, (i <= e_level e)%nat -> f !! i = Some (ptr hd ml T e i).
Proof.
  intros He. destruct (Hnodes e) as (f & Hf & Hlen & Hptr).
  - apply elem_of_cons. tauto.
  - rewrite (id_of_entry hd ml T e Hnd He) in Hf. eauto.
Qed.

Lemma advance_spec i fuel : forall A B,
  Tlt = A ++ B -> (i <= ml)%nat -> (length B < fuel)%nat ->
  advance fuel h i K (last_at i hd A) = Ok (last_at i hd Tlt).
Proof.
  induction fuel as [|fuel IH]; intros A B HA Hi Hfuel; [lia|].
  destruct (pred_node i A B HA Hi) as (f & p & _ & _ & _ & Hf & _ & Hfi).
  cbn [advance]. unfold deref, index. rewrite Hf. cbn [rbind forward]. rewrite Hfi.
  cbn [rbind].
  destruct (low_or_split i B) as [Hlow|(B1 & e & B2 & HB & Hlow & Hle)].
  - assert (Hlast : last_at i hd Tlt = last_at i hd A).
    { rewrite HA, last_at_app. apply last_at_low. exact Hlow. }
    rewrite next_at_low by exact Hlow.
    destruct (next_at i Tge) as [a|] eqn:Hnext; [|rewrite Hlast; reflexivity].
    apply next_at_in, addrs_elem_of in Hnext as (e & He & <-).
    destruct (entry_node e) as (fe & Hfe & _).
    { rewrite HT. apply elem_of_app. tauto. }
    rewrite Hfe. cbn [rbind SkipList.item_id].
    rewrite Forall_forall in Hge. specialize (Hge e He). unfold before in Hge.
    destruct (String.ltb (e_key e) K); [congruence|]. rewrite Hlast. reflexivity.
  - assert (HeT : e ∈ Tlt).
    { rewrite HA, HB. rewrite !elem_of_app, elem_of_cons. tauto. }
    rewrite HB, <- app_assoc, next_at_low by exact Hlow.
    cbn [app next_at]. destruct (Nat.leb_spec i (e_level e)); [|lia].
    destruct (entry_node e) as (fe & Hfe & _).
    { rewrite HT. apply elem_of_app. tauto. }
    rewrite Hfe. cbn [rbind SkipList.item_id].
    rewrite Forall_forall in Hlt. rewrite (Hlt e HeT).
    replace (e_addr e) with (last_at i hd (A ++ B1 ++ [e])).
    + apply (IH (A ++ B1 ++ [e]) B2).
      * rewrite HA, HB, <- !app_assoc. reflexivity.
      * exact Hi.
      * rewrite HB, length_app in Hfuel. simpl in Hfuel. lia.
    + rewrite !last_at_app. cbn [last_at].
      destruct (Nat.leb_spec i (e_level e)); [reflexivity|lia].
Qed.

Lemma find_path_spec fuel : forall i update,
  (i <= ml)%nat -> (length T < fuel)%nat -> length update = S ml ->
  exists update',
    find_path fuel h K i (last_at (S i) hd Tlt) update
      = Ok (last_at 0 hd Tlt, update') /\
    length update' = S ml /\
    (forall j, (j <= i)%nat -> update' !! j = Some (Some (last_at j hd Tlt))) /\
    (forall j, (i < j)%nat -> update' !! j = update !! j).
Proof.
  induction i as [|i IH]; intros update Hi Hfuel Hlen.
  - destruct (last_at_descend hd 0 Tlt) as (A & B & HA & ->).
    cbn [find_path]. rewrite (advance_spec 0 fuel A B HA Hi).
    2:{ rewrite HT, HA, !length_app in Hfuel. lia. }
    cbn [rbind]. unfold assign. rewrite decide_True by lia. cbn [rbind].
    eexists. split; [reflexivity|]. split; [rewrite length_insert; exact Hlen|].
    split.
    + intros j Hj. replace j with 0%nat by lia. apply list_lookup_insert_eq. lia.
    + intros j Hj. apply list_lookup_insert_ne. lia.
  - destruct (last_at_descend hd (S i) Tlt) as (A & B & HA & ->).
    cbn [find_path]. rewrite (advance_spec (S i) fuel A B HA Hi).
    2:{ rewrite HT, HA, !length_app in Hfuel. lia. }
    cbn [rbind]. unfold assign. rewrite decide_True by lia. cbn [rbind].
    destruct (IH (<[S i := Some (last_at (S i) hd Tlt)]> update))
      as (update' & Hrun & Hlen' & Hlow & Hhigh).
    { lia. } { exact Hfuel. } { rewrite length_insert. exact Hlen. }
    exists update'. split; [exact Hrun|]. split; [exact Hlen'|]. split.
    + intros j Hj. destruct (decide (j = S i)) as [->|Hne].
      * rewrite Hhigh by lia. apply list_lookup_insert_eq. lia.
      * apply Hlow. lia.
    + intros j Hj. rewrite Hhigh by lia. apply list_lookup_insert_ne. lia.
Qed.

Definition found : option entry :=
  match Tge with
  | e :: _ => if bool_decide (e_key e = K) then Some e else None
  | [] => None
  end.

Lemma successor_with_spec :
  successor_with h (last_at 0 hd Tlt) K = Ok (e_addr <$> found).
Proof.
  destruct (pred_node 0 Tlt [] (eq_sym (app_nil_r Tlt)) (Nat.le_0_l ml))
    as (f & p & _ & _ & _ & Hf & _ & Hf0).
  unfold successor_with, deref, index. rewrite Hf. cbn [rbind forward]. rewrite Hf0.
  cbn [rbind app]. unfold found. destruct Tge as [|e rest] eqn:HTge; [reflexivity|].
  cbn [next_at]. cbn [Nat.leb].
  destruct (entry_node e) as (fe & Hfe & _).
  { rewrite HT. apply elem_of_app. right. apply elem_of_cons. tauto. }
  rewrite Hfe. cbn [rbind SkipList.item_id].
  repeat case_bool_decide; try reflexivity; congruence.
Qed.

End Descent.

Lemma find_path_descend fuel h K : forall i c update r,
  find_path fuel h K i c update = Ok r -> descend fuel h K i c = Ok (fst r).
Proof.
  induction i as [|i IH]; intros c update r; cbn [find_path descend].
  - destruct (advance fuel h 0 K c) as [c'| |]; cbn [rbind]; try discriminate.
    destruct (assign update 0 (Some c')) as [u| |]; cbn [rbind]; try discriminate.
    intros [= <-]. reflexivity.
  - destruct (advance fuel h (S i) K c) as [c''| |]; cbn [rbind]; try discriminate.
    destruct (assign update (S i) (Some c'')) as [u| |]; cbn [rbind]; try discriminate.
    apply IH.
Qed.

Lemma found_in Tge K e : found Tge K = Some e -> exists rest, Tge = e :: rest /\ e_key e = K.
Proof.
  unfold found. destruct Tge as [|x rest]; [discriminate|].
  case_bool_decide; [|discriminate]. intros [= <-]. eauto.
Qed.

Lemma found_None Tlt Tge K :
  ascending (keys (Tlt ++ Tge)) ->
  Forall (fun e => before (e_key e) K) Tlt ->
  Forall (fun e => ~ before (e_key e) K) Tge ->
  found Tge K = None -> (K ∉ keys Tlt) /\ (K ∉ keys Tge).
Proof.
  intros Hs Hlt Hge Hf. split; [apply below_not_in; exact Hlt|].
  unfold found in Hf. destruct Tge as [|x rest].
  - intros Hin. apply elem_of_nil in Hin. exact Hin.
  - case_bool_decide; [discriminate|]. apply head_above.
    + rewrite keys_app in Hs. clear -Hs. induction (keys Tlt) as [|k l IH]; [exact Hs|].
      apply IH. simpl in Hs. inversion Hs; assumption.
    + inversion Hge; assumption.
    + assumption.
Qed.

Lemma key_inj T e e' :
  NoDup (keys T) -> e ∈ T -> e' ∈ T -> e_key e = e_key e' -> e = e'.
Proof.
  induction T as [|x T IH]; intros Hn He He' Hk.
  - apply elem_of_nil in He. contradiction.
  - simpl in Hn. apply NoDup_cons in Hn as [Hx Hn].
    assert (Hkey : forall y, y ∈ T -> e_key y ∈ keys T).
    { intros y Hy. unfold keys. apply list_elem_of_fmap. exists y. auto. }
    apply elem_of_cons in He as [->|He]; apply elem_of_cons in He' as [->|He'].
    + reflexivity.
    + exfalso. apply Hx. rewrite Hk. apply Hkey. exact He'.
    + exfalso. apply Hx. rewrite <- Hk. apply Hkey. exact He.
    + apply IH; assumption.
Qed.

(** The header stands in front of everything at the level above the list's. *)
Lemma last_at_top hd lvl T :
  Forall (fun e => (e_level e <= lvl)%nat) T -> last_at (S lvl) hd T = hd.
Proof.
  intros H. apply last_at_low. eapply Forall_impl; [exact H|].
  intros e He. simpl in *. lia.
Qed.

Section Abstraction.
Variable s : SkipListPurchaseHistory.
Variable T : list entry.
Hypothesis Hrep : rep s T.

Local Abbreviation hd := (header s).
Local Abbreviation ml := (max_level s).

(** What the descent to [K] yields in a well-formed list. *)
Lemma descend K :
  exists Tlt Tge update,
    T = Tlt ++ Tge /\
    Forall (fun e => before (e_key e) K) Tlt /\
    Forall (fun e => ~ before (e_key e) K) Tge /\
    find_path (loop_fuel s) (heap s) K (level s) hd (replicate (S ml) None)
      = Ok (last_at 0 hd Tlt, update) /\
    length update = S ml /\
    (forall j, (j <= level s)%nat -> update !! j = Some (Some (last_at j hd Tlt))) /\
    (forall j, (level s < j)%nat -> update !! j = replicate (S ml) None !! j) /\
    successor_with (heap s) (last_at 0 hd Tlt) K = Ok (e_addr <$> found Tge K).
Proof.
  destruct Hrep as [Hnd Hsorted Hnodes Hlevels Hlevel Hsize Hfresh Hfuel].
  destruct (split_at_key K T Hsorted) as (Tlt & Tge & HT & Hlt & Hge).
  destruct (find_path_spec (heap s) hd ml T Tlt Tge K Hnd Hnodes HT Hlt Hge
              (loop_fuel s) (level s) (replicate (S ml) None))
    as (update & Hrun & Hlen & Hlow & Hhigh).
  { exact Hlevel. } { unfold loop_fuel. lia. } { apply length_replicate. }
  exists Tlt, Tge, update. split; [exact HT|]. split; [exact Hlt|]. split; [exact Hge|].
  split.
  - rewrite <- Hrun. f_equal. symmetry. apply last_at_top.
    rewrite HT in Hlevels. apply Forall_app in Hlevels. tauto.
  - split; [exact Hlen|]. split; [exact Hlow|]. split; [exact Hhigh|].
    eapply successor_with_spec; eassumption.
Qed.

Lemma rep_entry e :
  e ∈ T ->
  exists f, heap s !! e_addr e = Some (mkNode (Some (e_key e)) (e_data e) f (e_level e)) /\
            length f = S (e_level e) /\
            forall i, (i <= e_level e)%nat -> f !! i = Some (ptr hd ml T e i).
Proof.
  apply entry_node; [apply (rep_nodup s T Hrep)|apply (rep_nodes s T Hrep)].
Qed.

Lemma search_found Tlt Tge K :
  T = Tlt ++ Tge ->
  Forall (fun e => before (e_key e) K) Tlt ->
  Forall (fun e => ~ before (e_key e) K) Tge ->
  (forall e, found Tge K = Some e -> e ∈ T /\ e_key e = K) /\
  (found Tge K = None -> K ∉ keys T).
Proof.
  intros HT Hlt Hge. split.
  - intros e He. apply found_in in He as (rest & -> & Hk). split; [|exact Hk].
    rewrite HT. apply elem_of_app. right. apply elem_of_cons. tauto.
  - intros Hf. pose proof (rep_sorted s T Hrep) as Hs. rewrite HT in Hs.
    destruct (found_None Tlt Tge K Hs Hlt Hge Hf) as [H1 H2].
    rewrite HT, keys_app, elem_of_app. tauto.
Qed.

Lemma search_purchase_spec K :
  exists r, search_purchase s K = Ok r /\
    match r with
    | Some d => exists e, e ∈ T /\ e_key e = K /\ e_data e = d
    | None => K ∉ keys T
    end.
Proof.
  destruct (descend K) as (Tlt & Tge & update & HT & Hlt & Hge & Hrun & _ & _ & _ & Hsucc).
  destruct (search_found Tlt Tge K HT Hlt Hge) as [Hsome Hnone].
  unfold search_purchase. rewrite (find_path_descend _ _ _ _ _ _ _ Hrun).
  cbn [rbind fst]. rewrite Hsucc. cbn [rbind].
  destruct (found Tge K) as [e|]; cbn [fmap option_fmap option_map].
  - destruct (Hsome e eq_refl) as [He Hk].
    destruct (rep_entry e He) as (f & Hf & _). unfold deref. rewrite Hf.
    cbn [rbind purchase_data]. eexists. split; [reflexivity|]. cbv beta iota. eauto.
  - eexists. split; [reflexivity|]. apply Hnone. reflexivity.
Qed.

Lemma search_purchase_absent K : K ∉ keys T -> search_purchase s K = Ok None.
Proof.
  intros Hni. destruct (search_purchase_spec K) as ([d|] & Hrun & Hr); [|exact Hrun].
  destruct Hr as (e & He & Hk & _). exfalso. apply Hni. rewrite <- Hk.
  unfold keys. apply list_elem_of_fmap. exists e. auto.
Qed.

Lemma search_purchase_present e :
  e ∈ T -> search_purchase s (e_key e) = Ok (Some (e_data e)).
Proof.
  intros He. destruct (search_purchase_spec (e_key e)) as ([d|] & Hrun & Hr).
  - destruct Hr as (e' & He' & Hk & Hd). rewrite Hrun, <- Hd. do 2 f_equal.
    f_equal. apply (key_inj T); [|assumption..].
    apply ascending_NoDup, (rep_sorted s T Hrep).
  - exfalso. apply Hr. unfold keys. apply list_elem_of_fmap. exists e. auto.
Qed.

Lemma collect_spec : forall rest A fuel,
  T = A ++ rest -> (length rest <= fuel)%nat ->
  collect fuel (heap s) (next_at 0 rest) = Ok (Some <$> keys rest).
Proof.
  induction rest as [|e rest IH]; intros A fuel HT Hfuel; [destruct fuel; reflexivity|].
  cbn [next_at Nat.leb]. destruct fuel as [|fuel]; [simpl in Hfuel; lia|].
  cbn [collect]. destruct (rep_entry e) as (f & Hf & _ & Hptr).
  { rewrite HT. apply elem_of_app. right. apply elem_of_cons. tauto. }
  unfold deref, index. rewrite Hf. cbn [rbind forward].
  rewrite (Hptr 0%nat) by lia. cbn [rbind]. unfold ptr.
  pose proof (rep_nodup s T Hrep) as Hnd. rewrite HT, full_app in Hnd |- *.
  rewrite after_split by exact Hnd.
  rewrite (IH (A ++ [e]) fuel).
  - reflexivity.
  - rewrite HT, <- app_assoc. reflexivity.
  - simpl in Hfuel. lia.
Qed.

Lemma header_node :
  exists f, heap s !! hd = Some (mkNode None empty_record f ml) /\
            length f = S ml /\
            forall i, (i <= ml)%nat -> f !! i = Some (next_at i T).
Proof.
  destruct (rep_nodes s T Hrep (mkEntry hd "" empty_record ml)) as (f & Hf & Hlen & Hptr).
  { apply elem_of_cons. tauto. }
  unfold id_of in Hf. cbn [e_addr e_data e_level] in *.
  rewrite decide_True in Hf by reflexivity.
  exists f. split; [exact Hf|]. split; [exact Hlen|].
  intros i Hi. rewrite (Hptr i Hi). unfold ptr. cbn [e_addr].
  rewrite after_full_hd. reflexivity.
Qed.

Lemma to_list_spec : to_list s = Ok (Some <$> keys T).
Proof.
  destruct header_node as (f & Hf & _ & Hptr).
  unfold to_list, deref, index. rewrite Hf. cbn [rbind forward].
  rewrite (Hptr 0%nat) by lia. cbn [rbind].
  apply (collect_spec T []); [reflexivity|].
  pose proof (rep_fuel s T Hrep). unfold loop_fuel. lia.
Qed.

End Abstraction.

(** *** Writing to the heap *)

Lemma set_forward_spec h a i t id d f lvl :
  h !! a = Some (mkNode id d f lvl) -> (i < length f)%nat ->
  set_forward h a i t = Ok (<[a := mkNode id d (<[i := t]> f) lvl]> h).
Proof.
  intros Hf Hi. unfold set_forward, deref, assign. rewrite Hf. cbn [rbind forward].
  rewrite decide_True by exact Hi. reflexivity.
Qed.

(** Slot [j] of the node at [b] is overwritten with [t]: what a node [x]
    looks like afterwards. *)
Lemma node_at_update h hd x P Q b id d f lvl j t :
  node_at h hd x P ->
  h !! b = Some (mkNode id d f lvl) ->
  (e_addr x = b -> Q j = t) ->
  (e_addr x <> b -> (j <= e_level x)%nat -> Q j = P j) ->
  (forall i, (i <= e_level x)%nat -> i <> j -> Q i = P i) ->
  node_at (<[b := mkNode id d (<[j := t]> f) lvl]> h) hd x Q.
Proof.
  intros (fx & Hfx & Hlen & Hptr) Hb Heq Hne Hother.
  destruct (decide (e_addr x = b)) as [Hxb|Hxb].
  - rewrite Hxb in Hfx. rewrite Hfx in Hb. injection Hb as <- <- <- <-.
    exists (<[j := t]> fx). rewrite Hxb, lookup_insert_eq.
    split; [reflexivity|]. split; [rewrite length_insert; exact Hlen|].
    intros i Hi. destruct (decide (i = j)) as [->|Hij].
    + rewrite list_lookup_insert_eq by lia. rewrite (Heq Hxb). reflexivity.
    + rewrite list_lookup_insert_ne by congruence. rewrite (Hptr i Hi).
      rewrite (Hother i Hi Hij). reflexivity.
  - exists fx. rewrite lookup_insert_ne by congruence.
    split; [exact Hfx|]. split; [exact Hlen|].
    intros i Hi. rewrite (Hptr i Hi). destruct (decide (i = j)) as [->|Hij].
    + rewrite (Hne Hxb Hi). reflexivity.
    + rewrite (Hother i Hi Hij). reflexivity.
Qed.

Lemma insert_fresh (h : gmap nat SkipListNode) b node bound :
  is_Some (h !! b) -> (forall a, is_Some (h !! a) -> (a < bound)%nat) ->
  forall a, is_Some (<[b := node]> h !! a) -> (a < bound)%nat.
Proof.
  intros Hb Hfresh a Ha. destruct (decide (a = b)) as [->|Hne].
  - apply Hfresh. exact Hb.
  - rewrite lookup_insert_ne in Ha by congruence. apply Hfresh. exact Ha.
Qed.

Lemma insert_size (h : gmap nat SkipListNode) b node :
  is_Some (h !! b) -> base.size (<[b := node]> h) = base.size h.
Proof. apply map_size_insert_Some. Qed.

(** *** Nodes that differ in their data only *)

Definition shape (T : list entry) : list (nat * nat) :=
  map (fun e => (e_addr e, e_level e)) T.

Lemma shape_next_at i T1 : forall T2, shape T1 = shape T2 -> next_at i T1 = next_at i T2.
Proof.
  induction T1 as [|x T1 IH]; intros [|y T2] Hs; try discriminate; [reflexivity|].
  simpl in Hs. injection Hs as Ha Hl Hs. simpl. rewrite Ha, Hl, (IH T2 Hs). reflexivity.
Qed.

Lemma shape_after a T1 : forall T2, shape T1 = shape T2 -> shape (after a T1) = shape (after a T2).
Proof.
  induction T1 as [|x T1 IH]; intros [|y T2] Hs; try discriminate; [reflexivity|].
  simpl in Hs. injection Hs as Ha Hl Hs. simpl. rewrite Ha.
  destruct (decide (e_addr y = a)); [exact Hs|apply IH; exact Hs].
Qed.

Lemma shape_addrs T1 T2 : shape T1 = shape T2 -> addrs T1 = addrs T2.
Proof.
  intros Hs. unfold addrs. change (map e_addr T1) with (map (fun e => fst (e_addr e, e_level e)) T1).
  change (map e_addr T2) with (map (fun e => fst (e_addr e, e_level e)) T2).
  rewrite <- !(map_map (fun e => (e_addr e, e_level e)) fst). unfold shape in Hs.
  rewrite Hs. reflexivity.
Qed.

Definition with_data (e : entry) (d : purchase_record) : entry :=
  {| e_addr := e_addr e; e_key := e_key e; e_data := d; e_level := e_level e |}.

Lemma random_level_loop_bound rng : forall remaining calls lvl,
  (fst (random_level_loop rng calls remaining lvl) <= lvl + remaining)%nat.
Proof.
  induction remaining as [|remaining IH]; intros calls lvl; simpl; [lia|].
  destruct (rng calls); simpl; [|lia].
  specialize (IH (S calls) (S lvl)). lia.
Qed.

Section AddExisting.
Variable s : SkipListPurchaseHistory.
Variable T : list entry.
Hypothesis Hrep : rep s T.
Variables (Tlt rest : list entry) (e : entry) (d : purchase_record).
Hypothesis HT : T = Tlt ++ e :: rest.

Definition replaced : SkipListPurchaseHistory :=
  {| max_level := max_level s; header := header s; level := level s;
     size := size s;
     heap := <[e_addr e := {| item_id := Some (e_key e);
                              purchase_data := d;
                              forward := default [] (forward <$> heap s !! e_addr e);
                              node_level := e_level e |}]> (heap s);
     next_object := next_object s |}.

Lemma replaced_rep : rep replaced (Tlt ++ with_data e d :: rest).
Proof.
  pose proof Hrep as [Hnd Hsorted Hnodes Hlevels Hlevel Hsize Hfresh Hfuel].
  assert (He : e ∈ T).
  { rewrite HT. apply elem_of_app. right. apply elem_of_cons. tauto. }
  destruct (rep_entry s T Hrep e He) as (f & Hf & Hlen & Hptr).
  assert (Hshape : shape (full (header s) (max_level s) (Tlt ++ with_data e d :: rest))
                   = shape (full (header s) (max_level s) T)).
  { rewrite HT. unfold shape, full. cbn [map]. rewrite !map_app. reflexivity. }
  assert (Hptr' : forall x i,
            ptr (header s) (max_level s) (Tlt ++ with_data e d :: rest) x i
            = ptr (header s) (max_level s) T x i).
  { intros x i. unfold ptr. apply shape_next_at, shape_after, Hshape. }
  split; cbn [max_level header level size heap next_object replaced].
  - rewrite (shape_addrs _ _ Hshape). exact Hnd.
  - rewrite HT in Hsorted. rewrite keys_app in *. exact Hsorted.
  - rewrite HT, full_app in Hnd.
    destruct (NoDup_addrs_middle _ _ _ Hnd) as [_ Hfresh_e].
    intros x Hx. rewrite full_app in Hx.
    eapply node_at_ext; [intros i _; symmetry; apply Hptr'|].
    assert (Hcase : x = with_data e d \/
                    (x ∈ full (header s) (max_level s) T /\ e_addr x <> e_addr e)).
    { apply elem_of_app in Hx as [Hx|Hx].
      - right. split.
        + rewrite HT, full_app. apply elem_of_app. tauto.
        + intros Heq. apply Hfresh_e. rewrite <- Heq, addrs_app.
          apply elem_of_app. left. apply elem_of_addrs. exact Hx.
      - apply elem_of_cons in Hx as [Hx|Hx]; [tauto|]. right. split.
        + rewrite HT, full_app. apply elem_of_app. right. apply elem_of_cons. tauto.
        + intros Heq. apply Hfresh_e. rewrite <- Heq, addrs_app.
          apply elem_of_app. right. apply elem_of_addrs. exact Hx. }
    destruct Hcase as [->|[HxT Hne]].
    + exists f. cbn [e_addr with_data e_data e_level]. rewrite lookup_insert_eq, Hf.
      cbn [fmap option_fmap option_map default forward].
      unfold id_of. cbn [e_addr e_key with_data].
      pose proof (id_of_entry _ _ _ _ (rep_nodup s T Hrep) He) as Hid.
      unfold id_of in Hid. rewrite Hid.
      split; [reflexivity|]. split; [exact Hlen|]. exact Hptr.
    + destruct (Hnodes x HxT) as (fx & Hfx & Hlx & Hpx).
      exists fx. rewrite lookup_insert_ne by congruence. auto.
  - rewrite HT in Hlevels. apply Forall_app in Hlevels as [H1 H2].
    apply Forall_app. split; [exact H1|]. inversion H2; subst. constructor; assumption.
  - exact Hlevel.
  - rewrite Hsize, HT, !length_app. reflexivity.
  - apply insert_fresh; [rewrite Hf; eauto|exact Hfresh].
  - rewrite insert_size by (rewrite Hf; eauto).
    rewrite HT, !length_app in Hfuel. rewrite !length_app. exact Hfuel.
Qed.

End AddExisting.

Lemma add_purchase_existing s T rng calls K d :
  rep s T -> K ∈ keys T ->
  exists Tlt e rest,
    T = Tlt ++ e :: rest /\ e_key e = K /\
    add_purchase s rng calls K d = Ok (replaced s e (default empty_record d), calls).
Proof.
  intros Hrep HK.
  destruct (descend s T Hrep K)
    as (Tlt & Tge & update & HT & Hlt & Hge & Hrun & _ & _ & _ & Hsucc).
  destruct (search_found s T Hrep Tlt Tge K HT Hlt Hge) as [Hsome Hnone].
  destruct (found Tge K) as [e|] eqn:Hfound; [|exfalso; apply Hnone; auto].
  destruct (found_in _ _ _ Hfound) as (rest & -> & Hk).
  destruct (Hsome e eq_refl) as [He _].
  destruct (rep_entry s T Hrep e He) as (f & Hf & _).
  exists Tlt, e, rest. split; [exact HT|]. split; [exact Hk|].
  unfold add_purchase. rewrite Hrun. cbn [rbind]. rewrite Hsucc.
  cbn [rbind fmap option_fmap option_map]. unfold deref, replaced. rewrite Hf.
  reflexivity.
Qed.

Lemma ltb_succ_ne i j : i <> j -> (i <? S j)%nat = (i <? j)%nat.
Proof.
  intros Hne. destruct (Nat.ltb_spec i (S j)), (Nat.ltb_spec i j); try reflexivity; lia.
Qed.

(** [for i in range(self.level + 1, new_level + 1): update[i] = self.header] *)
Lemma raise_update (hd ml : nat) : forall cnt start (update : list (option nat)),
  length update = S ml -> (start + cnt <= S ml)%nat ->
  exists update',
    foldM (fun update i => assign update i (Some hd)) (seq start cnt) update = Ok update' /\
    length update' = S ml /\
    (forall j, (start <= j < start + cnt)%nat -> update' !! j = Some (Some hd)) /\
    (forall j, (j < start)%nat -> update' !! j = update !! j).
Proof.
  induction cnt as [|cnt IH]; intros start update Hlen Hle.
  - exists update. split; [reflexivity|]. split; [exact Hlen|]. split; [lia|auto].
  - cbn [seq foldM]. unfold assign at 1. rewrite decide_True by lia. cbn [rbind].
    destruct (IH (S start) (<[start := Some hd]> update))
      as (update' & Hrun & Hlen' & Hin & Hout).
    { rewrite length_insert. exact Hlen. } { lia. }
    exists update'. split; [exact Hrun|]. split; [exact Hlen'|]. split.
    + intros j Hj. destruct (decide (j = start)) as [->|Hne].
      * rewrite Hout by lia. apply list_lookup_insert_eq. lia.
      * apply Hin. lia.
    + intros j Hj. rewrite Hout by lia. apply list_lookup_insert_ne. lia.
Qed.

Section AddNew.
Variable s : SkipListPurchaseHistory.
Variable T : list entry.
Hypothesis Hrep : rep s T.
Variables (Tlt Tge : list entry) (K : string) (d : purchase_record) (nl : nat).
Variable update : list (option nat).
Hypothesis HT : T = Tlt ++ Tge.
Hypothesis Hnl : (nl <= max_level s)%nat.
Hypothesis Hupdate :
  forall j, (j <= nl)%nat -> update !! j = Some (Some (last_at j (header s) Tlt)).

Local Abbreviation hd := (header s).
Local Abbreviation ml := (max_level s).
Local Abbreviation n := (next_object s).

Definition new_entry : entry := mkEntry n K d nl.

Definition grown : list entry := Tlt ++ new_entry :: Tge.

Lemma next_object_free : heap s !! n = None.
Proof.
  destruct (heap s !! n) eqn:Hn; [|reflexivity].
  pose proof (rep_fresh s T Hrep n) as H. rewrite Hn in H.
  specialize (H (ex_intro _ _ eq_refl)). lia.
Qed.

Lemma next_object_new x : x ∈ full hd ml T -> e_addr x <> n.
Proof.
  intros Hx Heq. destruct (rep_nodes s T Hrep x Hx) as (f & Hf & _).
  rewrite Heq, next_object_free in Hf. discriminate.
Qed.

Lemma grown_nodup : NoDup (addrs (full hd ml grown)).
Proof.
  pose proof (rep_nodup s T Hrep) as Hnd. unfold grown.
  rewrite HT in Hnd. rewrite full_app, addrs_app in *.
  change (addrs (new_entry :: Tge)) with (n :: addrs Tge).
  apply NoDup_app in Hnd as (H1 & H2 & H3).
  assert (Hn : forall a, a ∈ addrs (full hd ml T) -> a <> n).
  { intros a Ha. apply addrs_elem_of in Ha as (x & Hx & <-).
    apply next_object_new. exact Hx. }
  apply NoDup_app. split; [exact H1|]. split.
  - intros a Ha Ha'. apply elem_of_cons in Ha' as [->|Ha'].
    + apply (Hn n); [|reflexivity].
      rewrite HT, full_app, addrs_app. apply elem_of_app. tauto.
    + apply (H2 a Ha Ha').
  - apply NoDup_cons. split; [|exact H3]. intros Hin.
    apply (Hn n); [|reflexivity]. rewrite HT, full_app, addrs_app.
    apply elem_of_app. tauto.
Qed.

Definition old_ptrs (j : nat) (x : entry) (i : nat) : option nat :=
  if (i <? j)%nat then ptr hd ml grown x i else ptr hd ml T x i.

Definition new_ptrs (j i : nat) : option nat :=
  if (i <? j)%nat then next_at i Tge else None.

(** The heap after the rounds [0 .. j-1] of the splicing loop. *)
Record spliced (j : nat) (h : gmap nat SkipListNode) : Prop := {
  spliced_old : forall x, x ∈ full hd ml T -> node_at h hd x (old_ptrs j x);
  spliced_new : node_at h hd new_entry (new_ptrs j);
  spliced_fresh : forall a, is_Some (h !! a) -> (a < S n)%nat;
  spliced_size : base.size h = S (base.size (heap s))
}.

Lemma hd_not_new : hd <> n.
Proof.
  intros Heq. apply (next_object_new (mkEntry hd "" empty_record ml)); [|exact Heq].
  apply elem_of_cons. tauto.
Qed.

Lemma spliced_start :
  spliced 0 (<[n := _create_node nl (Some K) d]> (heap s)).
Proof.
  split.
  - intros x Hx. destruct (rep_nodes s T Hrep x Hx) as (f & Hf & Hlen & Hptr).
    exists f. rewrite lookup_insert_ne by (apply not_eq_sym, next_object_new; exact Hx).
    auto.
  - exists (replicate (S nl) None). cbn [e_addr new_entry]. rewrite lookup_insert_eq.
    unfold _create_node, id_of. cbn [e_addr e_key e_data e_level new_entry].
    rewrite decide_False by (apply not_eq_sym, hd_not_new).
    split; [reflexivity|]. split; [apply length_replicate|].
    intros i Hi. unfold new_ptrs. cbn [Nat.ltb Nat.leb].
    rewrite lookup_replicate_2 by lia. reflexivity.
  - intros a Ha. destruct (decide (a = n)) as [->|Hne]; [lia|].
    rewrite lookup_insert_ne in Ha by congruence.
    pose proof (rep_fresh s T Hrep a Ha). lia.
  - apply map_size_insert_None, next_object_free.
Qed.

Lemma old_ptrs_step j x :
  x ∈ full hd ml T -> (j <= e_level x)%nat ->
  old_ptrs (S j) x j =
    if decide ((j <= nl)%nat /\ e_addr x = last_at j hd Tlt) then Some n
    else old_ptrs j x j.
Proof.
  intros Hx Hj. unfold old_ptrs.
  rewrite Nat.ltb_irrefl. destruct (Nat.ltb_spec j (S j)); [|lia].
  unfold ptr, grown. rewrite HT. apply next_at_insert.
  - apply grown_nodup.
  - rewrite <- HT. exact Hx.
  - exact Hj.
Qed.

Lemma old_ptrs_other j x i : i <> j -> old_ptrs (S j) x i = old_ptrs j x i.
Proof. intros Hne. unfold old_ptrs. rewrite ltb_succ_ne by exact Hne. reflexivity. Qed.

Lemma splice_step j h :
  spliced j h -> (j <= nl)%nat ->
  exists h', splice n update h j = Ok h' /\ spliced (S j) h'.
Proof.
  intros [Hold Hnew Hfresh Hsize] Hj.
  pose proof (rep_nodup s T Hrep) as Hnd.
  destruct (last_at_entry hd ml j Tlt) as (p & Hp & Hpa & Hpl); [lia|].
  assert (HpT : p ∈ full hd ml T).
  { rewrite HT, full_app. apply elem_of_app. tauto. }
  pose proof (next_object_new p HpT) as Hpn.
  destruct (Hold p HpT) as (f & Hf & Hlen & Hptr).
  pose proof Hnew as (fN & HfN & HlenN & HptrN).
  cbn [e_addr e_data e_level new_entry] in HfN, HlenN, HptrN.
  assert (Hnext : f !! j = Some (next_at j Tge)).
  { rewrite (Hptr j Hpl). unfold old_ptrs. rewrite Nat.ltb_irrefl. unfold ptr.
    rewrite Hpa, HT.
    rewrite next_at_pred; [reflexivity|]. rewrite <- HT. exact Hnd. }
  set (h1 := <[n := mkNode (id_of hd new_entry) d (<[j := next_at j Tge]> fN) nl]> h).
  assert (Hf1 : h1 !! e_addr p = Some (mkNode (id_of hd p) (e_data p) f (e_level p))).
  { unfold h1. rewrite lookup_insert_ne by congruence. exact Hf. }
  set (h2 := <[e_addr p := mkNode (id_of hd p) (e_data p) (<[j := Some n]> f) (e_level p)]> h1).
  assert (Hrun : splice n update h j = Ok h2).
  { unfold splice, index. rewrite (Hupdate j Hj). cbn [rbind].
    unfold deref. rewrite <- Hpa, Hf. cbn [rbind forward]. rewrite Hnext. cbn [rbind].
    rewrite (set_forward_spec h n j (next_at j Tge) _ _ _ _ HfN) by lia. cbn [rbind].
    fold h1. rewrite (set_forward_spec h1 (e_addr p) j (Some n) _ _ _ _ Hf1) by lia.
    reflexivity. }
  exists h2. split; [exact Hrun|]. split.
  - intros x Hx. unfold h2.
    apply (node_at_update h1 hd x (old_ptrs j x) (old_ptrs (S j) x)).
    + unfold h1. apply (node_at_update h hd x (old_ptrs j x) (old_ptrs j x)).
      * apply Hold. exact Hx.
      * exact HfN.
      * intros Heq. exfalso. apply (next_object_new x Hx Heq).
      * reflexivity.
      * reflexivity.
    + exact Hf1.
    + intros Heq. destruct (Hold x Hx) as (fx & Hfx & _).
      rewrite Heq, Hf in Hfx. injection Hfx as _ _ _ Hlvl.
      rewrite old_ptrs_step by (try exact Hx; lia).
      rewrite decide_True; [reflexivity|]. split; [exact Hj|congruence].
    + intros Hne Hjx. rewrite old_ptrs_step by assumption.
      rewrite decide_False; [reflexivity|]. intros [_ Heq]. congruence.
    + intros i _ Hne. apply old_ptrs_other. exact Hne.
  - unfold h2.
    apply (node_at_update h1 hd new_entry (new_ptrs (S j)) (new_ptrs (S j))).
    + unfold h1. apply (node_at_update h hd new_entry (new_ptrs j) (new_ptrs (S j))).
      * exact Hnew.
      * exact HfN.
      * intros _. unfold new_ptrs. destruct (Nat.ltb_spec j (S j)); [reflexivity|lia].
      * intros Hne. exfalso. apply Hne. reflexivity.
      * intros i _ Hne. unfold new_ptrs. rewrite ltb_succ_ne by exact Hne. reflexivity.
    + exact Hf1.
    + intros Heq. exfalso. apply Hpn. symmetry. exact Heq.
    + reflexivity.
    + reflexivity.
  - unfold h2, h1. apply insert_fresh.
    + rewrite lookup_insert_ne by congruence. rewrite Hf. eauto.
    + apply insert_fresh; [rewrite HfN; eauto|exact Hfresh].
  - unfold h2, h1. rewrite insert_size.
    + rewrite insert_size; [exact Hsize|rewrite HfN; eauto].
    + rewrite lookup_insert_ne by congruence. rewrite Hf. eauto.
Qed.

Lemma splice_loop : forall cnt j h,
  (j + cnt = S nl)%nat -> spliced j h ->
  exists h', foldM (splice n update) (seq j cnt) h = Ok h' /\ spliced (S nl) h'.
Proof.
  induction cnt as [|cnt IH]; intros j h Hcnt Hinv.
  - replace (S nl) with j by lia. exists h. split; [reflexivity|exact Hinv].
  - cbn [seq foldM]. destruct (splice_step j h Hinv) as (h1 & Hrun & Hinv1); [lia|].
    rewrite Hrun. cbn [rbind]. apply IH; [lia|exact Hinv1].
Qed.

Definition inserted (h : gmap nat SkipListNode) : SkipListPurchaseHistory :=
  {| max_level := ml; header := hd;
     level := if (level s <? nl)%nat then nl else level s;
     size := size s + 1;
     heap := h;
     next_object := S n |}.

Hypothesis Hlt : Forall (fun e => before (e_key e) K) Tlt.
Hypothesis Hge : Forall (fun e => ~ before (e_key e) K) Tge.
Hypothesis HK : K ∉ keys T.

Lemma inserted_rep h : spliced (S nl) h -> rep (inserted h) grown.
Proof.
  intros [Hold Hnew Hfresh Hsize].
  pose proof Hrep as [Hnd Hsorted Hnodes Hlevels Hlevel Hsz Hfr Hfuel].
  split; cbn [max_level header level size heap next_object inserted].
  - apply grown_nodup.
  - unfold grown. rewrite keys_app. cbn [keys map]. apply ascending_insert.
    + rewrite HT, keys_app in Hsorted. exact Hsorted.
    + unfold keys. apply Forall_fmap. exact Hlt.
    + apply not_before_above; [exact Hge|].
      intros Hin. apply HK. rewrite HT, keys_app. apply elem_of_app. tauto.
  - intros x Hx. unfold grown in Hx. rewrite full_app in Hx.
    assert (Hcase : x = new_entry \/ x ∈ full hd ml T).
    { rewrite HT, full_app. rewrite elem_of_app, elem_of_cons in Hx.
      rewrite elem_of_app. tauto. }
    destruct Hcase as [->|HxT].
    + eapply node_at_ext; [|exact Hnew].
      intros i Hi. cbn [e_level new_entry] in Hi. unfold new_ptrs, ptr, grown.
      destruct (Nat.ltb_spec i (S nl)); [|lia].
      rewrite full_app, after_split; [reflexivity|].
      rewrite <- full_app. apply grown_nodup.
    + eapply node_at_ext; [|apply (Hold x HxT)].
      intros i Hi. unfold old_ptrs. destruct (Nat.ltb_spec i (S nl)); [reflexivity|].
      unfold ptr, grown. rewrite HT. symmetry.
      rewrite next_at_insert.
      * rewrite decide_False; [reflexivity|]. cbn [e_level new_entry]. lia.
      * apply grown_nodup.
      * rewrite <- HT. exact HxT.
      * exact Hi.
  - unfold grown. rewrite HT in Hlevels. apply Forall_app in Hlevels as [H1 H2].
    assert (Hmono : forall l, Forall (fun e => (e_level e <= level s)%nat) l ->
              Forall (fun e => (e_level e <= if (level s <? nl)%nat then nl else level s)%nat) l).
    { intros l Hl. eapply Forall_impl; [exact Hl|]. intros e He. cbv beta in *.
      destruct (Nat.ltb_spec (level s) nl); lia. }
    apply Forall_app. split; [apply Hmono, H1|]. constructor; [|apply Hmono, H2].
    cbn [e_level new_entry]. destruct (Nat.ltb_spec (level s) nl); lia.
  - destruct (Nat.ltb_spec (level s) nl); lia.
  - unfold grown. rewrite Hsz, HT, !length_app. cbn [length]. lia.
  - exact Hfresh.
  - rewrite Hsize. unfold grown. rewrite HT, !length_app in *. cbn [length]. lia.
Qed.

End AddNew.

Lemma add_purchase_new s T rng calls K d :
  rep s T -> K ∉ keys T ->
  exists s' calls' Tlt Tge e,
    T = Tlt ++ Tge /\ e_key e = K /\ e_data e = default empty_record d /\
    add_purchase s rng calls K d = Ok (s', calls') /\
    rep s' (Tlt ++ e :: Tge) /\
    size s' = size s + 1.
Proof.
  intros Hrep HK.
  destruct (descend s T Hrep K)
    as (Tlt & Tge & update & HT & Hlt & Hge & Hrun & Hlen & Hlow & _ & Hsucc).
  destruct (search_found s T Hrep Tlt Tge K HT Hlt Hge) as [Hsome Hnone].
  destruct (found Tge K) as [e|] eqn:Hfound.
  { exfalso. destruct (Hsome e eq_refl) as [He Hk]. apply HK. rewrite <- Hk.
    unfold keys. apply list_elem_of_fmap. exists e. auto. }
  destruct (_random_level s rng calls) as [nl calls'] eqn:Hrl.
  assert (Hnl : (nl <= max_level s)%nat).
  { pose proof (random_level_loop_bound rng (max_level s) calls 0) as Hb.
    unfold _random_level in Hrl. rewrite Hrl in Hb. simpl in Hb. lia. }
  assert (Hraise : exists update2,
    (if (level s <? nl)%nat
     then foldM (fun update i => assign update i (Some (header s)))
                (seq (S (level s)) (nl - level s)) update
     else Ok update) = Ok update2 /\
    forall j, (j <= nl)%nat -> update2 !! j = Some (Some (last_at j (header s) Tlt))).
  { destruct (Nat.ltb_spec (level s) nl) as [Hup|Hup].
    - destruct (raise_update (header s) (max_level s) (nl - level s) (S (level s)) update)
        as (update2 & Hr & _ & Hin & Hout); [exact Hlen|lia|].
      exists update2. split; [exact Hr|]. intros j Hj.
      destruct (Nat.le_gt_cases j (level s)) as [Hjl|Hjl].
      + rewrite Hout by lia. apply Hlow. exact Hjl.
      + rewrite Hin by lia. do 2 f_equal. symmetry. apply last_at_low.
        pose proof (rep_levels s T Hrep) as Hlv. rewrite HT in Hlv.
        apply Forall_app in Hlv as [Hlv _]. eapply Forall_impl; [exact Hlv|].
        intros x Hx. cbv beta in *. lia.
    - exists update. split; [reflexivity|]. intros j Hj. apply Hlow. lia. }
  destruct Hraise as (update2 & Hraise & Hupdate).
  destruct (splice_loop s T Hrep Tlt Tge K (default empty_record d) nl update2 HT Hnl
              Hupdate (S nl) 0%nat
              (<[next_object s := _create_node nl (Some K) (default empty_record d)]> (heap s)))
    as (h' & Hsplice & Hinv).
  { reflexivity. } { apply spliced_start; assumption. }
  exists (inserted s nl h'), calls', Tlt, Tge,
    (new_entry s K (default empty_record d) nl).
  split; [exact HT|]. split; [reflexivity|]. split; [reflexivity|]. split.
  - unfold add_purchase. rewrite Hrun. cbn [rbind]. rewrite Hsucc.
    cbn [rbind fmap option_fmap option_map]. rewrite Hrl. cbv zeta.
    rewrite Hraise. cbn [rbind]. rewrite Hsplice. reflexivity.
  - split; [|reflexivity].
    eapply inserted_rep; eassumption.
Qed.

(** *** Deletion *)

Lemma lower_level_spec f ml T : forall lvl,
  (forall i, (i <= ml)%nat -> f !! i = Some (next_at i T)) ->
  (lvl <= ml)%nat -> Forall (fun e => (e_level e <= lvl)%nat) T ->
  exists lvl', lower_level f lvl = Ok lvl' /\ (lvl' <= lvl)%nat /\
               Forall (fun e => (e_level e <= lvl')%nat) T.
Proof.
  induction lvl as [|lvl IH]; intros Hf Hle Hall.
  - exists 0%nat. split; [reflexivity|]. split; [lia|exact Hall].
  - cbn [lower_level]. unfold index. rewrite (Hf (S lvl) Hle). cbn [rbind].
    destruct (next_at (S lvl) T) as [a|] eqn:Hnext.
    + exists (S lvl). split; [reflexivity|]. split; [lia|exact Hall].
    + destruct IH as (lvl' & Hrun & Hle' & Hall'); [exact Hf|lia| |].
      * apply next_at_None in Hnext. eapply Forall_impl; [exact Hnext|].
        intros e He. cbv beta in *. lia.
      * exists lvl'. split; [exact Hrun|]. split; [lia|exact Hall'].
Qed.

Section Delete.
Variable s : SkipListPurchaseHistory.
Variable T : list entry.
Hypothesis Hrep : rep s T.
Variables (Tlt rest : list entry) (e : entry).
Variable update : list (option nat).
Hypothesis HT : T = Tlt ++ e :: rest.
Hypothesis Hupdate :
  forall j, (j <= level s)%nat -> update !! j = Some (Some (last_at j (header s) Tlt)).

Local Abbreviation hd := (header s).
Local Abbreviation ml := (max_level s).

Definition shrunk : list entry := Tlt ++ rest.

Definition mixed_ptrs (j : nat) (x : entry) (i : nat) : option nat :=
  if (i <? j)%nat then ptr hd ml shrunk x i else ptr hd ml T x i.

(** The heap after the rounds [0 .. j-1] of the unlinking loop. *)
Record unlinked (j : nat) (h : gmap nat SkipListNode) : Prop := {
  unlinked_nodes : forall x, x ∈ full hd ml shrunk -> node_at h hd x (mixed_ptrs j x);
  unlinked_target : h !! e_addr e = heap s !! e_addr e;
  unlinked_fresh : forall a, is_Some (h !! a) -> (a < next_object s)%nat;
  unlinked_size : base.size h = base.size (heap s)
}.

Lemma T_nodup : NoDup (addrs (full hd ml (Tlt ++ e :: rest))).
Proof. rewrite <- HT. apply (rep_nodup s T Hrep). Qed.

Lemma shrunk_in x : x ∈ full hd ml shrunk -> x ∈ full hd ml T /\ e_addr x <> e_addr e.
Proof.
  intros Hx. pose proof T_nodup as Hnd. rewrite full_app in Hnd.
  destruct (NoDup_addrs_middle _ _ _ Hnd) as [_ Hfresh].
  unfold shrunk in Hx. rewrite full_app in Hx. split.
  - rewrite HT, full_app. rewrite elem_of_app in *. rewrite elem_of_cons. tauto.
  - intros Heq. apply Hfresh. rewrite <- Heq. apply elem_of_addrs. exact Hx.
Qed.

Lemma e_in : e ∈ T.
Proof. rewrite HT. apply elem_of_app. right. apply elem_of_cons. tauto. Qed.

Lemma e_level_le : (e_level e <= level s)%nat.
Proof.
  pose proof (rep_levels s T Hrep) as Hall. rewrite Forall_forall in Hall.
  apply Hall, e_in.
Qed.

Lemma unlinked_start : unlinked 0 (heap s).
Proof.
  split; [|reflexivity|apply (rep_fresh s T Hrep)|reflexivity].
  intros x Hx. apply shrunk_in in Hx as [Hx _].
  apply (rep_nodes s T Hrep x Hx).
Qed.

Lemma mixed_ptrs_step j x :
  x ∈ full hd ml shrunk -> (j <= e_level x)%nat ->
  mixed_ptrs j x j =
    if decide ((j <= e_level e)%nat /\ e_addr x = last_at j hd Tlt) then Some (e_addr e)
    else mixed_ptrs (S j) x j.
Proof.
  intros Hx Hj. unfold mixed_ptrs.
  rewrite Nat.ltb_irrefl. destruct (Nat.ltb_spec j (S j)); [|lia].
  unfold ptr, shrunk. rewrite HT. apply next_at_insert; [apply T_nodup|exact Hx|exact Hj].
Qed.

Lemma mixed_ptrs_other j x i : i <> j -> mixed_ptrs (S j) x i = mixed_ptrs j x i.
Proof. intros Hne. unfold mixed_ptrs. rewrite ltb_succ_ne by exact Hne. reflexivity. Qed.

(** Above the deleted node's level nothing changes. *)
Lemma unlinked_done h :
  unlinked (S (e_level e)) h ->
  forall x, x ∈ full hd ml shrunk -> node_at h hd x (ptr hd ml shrunk x).
Proof.
  intros [Hnodes _ _ _] x Hx. eapply node_at_ext; [|apply (Hnodes x Hx)].
  intros i Hi. unfold mixed_ptrs. destruct (Nat.ltb_spec i (S (e_level e))); [reflexivity|].
  unfold ptr, shrunk. rewrite HT. rewrite next_at_insert.
  - rewrite decide_False; [reflexivity|]. lia.
  - apply T_nodup.
  - exact Hx.
  - exact Hi.
Qed.

Lemma unlink_loop : forall cnt j h,
  (j + cnt = S (level s))%nat -> (j <= S (e_level e))%nat -> unlinked j h ->
  exists h', unlink (e_addr e) update (seq j cnt) h = Ok h' /\
             unlinked (S (e_level e)) h'.
Proof.
  induction cnt as [|cnt IH]; intros j h Hcnt Hj Hinv.
  - pose proof e_level_le. replace (S (e_level e)) with j by lia.
    exists h. split; [reflexivity|exact Hinv].
  - pose proof Hinv as [Hnodes Htarget Hfresh Hsize].
    pose proof T_nodup as Hnd.
    pose proof (rep_level s T Hrep) as Hlevel.
    destruct (last_at_entry hd ml j Tlt) as (p & Hp & Hpa & Hpl); [lia|].
    assert (HpS : p ∈ full hd ml shrunk).
    { unfold shrunk. rewrite full_app. apply elem_of_app. tauto. }
    destruct (shrunk_in p HpS) as [HpT Hpe].
    destruct (Hnodes p HpS) as (f & Hf & Hlen & Hptr).
    destruct (rep_entry s T Hrep e e_in) as (fe & Hfe & Hlene & Hptre).
    assert (Hnext : f !! j = Some (next_at j (e :: rest))).
    { rewrite (Hptr j Hpl). unfold mixed_ptrs. rewrite Nat.ltb_irrefl. unfold ptr.
      rewrite Hpa, HT. rewrite next_at_pred; [reflexivity|exact Hnd]. }
    cbn [seq unlink]. unfold index. rewrite (Hupdate j) by lia. cbn [rbind].
    unfold deref. rewrite <- Hpa, Hf. cbn [rbind forward]. rewrite Hnext. cbn [rbind next_at].
    destruct (Nat.leb_spec j (e_level e)) as [Hje|Hje].
    + rewrite bool_decide_eq_true_2 by reflexivity.
      rewrite Htarget, Hfe. cbn [rbind forward].
      rewrite (Hptre j Hje). cbn [rbind]. unfold ptr at 1.
      rewrite HT, full_app, after_split by (rewrite <- full_app; exact Hnd).
      rewrite (set_forward_spec h (e_addr p) j (next_at j rest) _ _ _ _ Hf) by lia.
      cbn [rbind]. apply IH; [lia|lia|]. split.
      * intros x Hx.
        apply (node_at_update h hd x (mixed_ptrs j x) (mixed_ptrs (S j) x)).
        -- apply Hnodes. exact Hx.
        -- exact Hf.
        -- intros Heq. unfold mixed_ptrs. destruct (Nat.ltb_spec j (S j)); [|lia].
           unfold ptr, shrunk. rewrite Heq, Hpa. apply next_at_pred.
           apply (NoDup_addrs_middle (full hd ml Tlt) e rest). rewrite <- full_app. exact Hnd.
        -- intros Hne Hjx. rewrite (mixed_ptrs_step j x Hx Hjx).
           rewrite decide_False; [reflexivity|]. intros [_ Heq]. congruence.
        -- intros i _ Hne. apply mixed_ptrs_other. exact Hne.
      * rewrite lookup_insert_ne by exact Hpe. exact Htarget.
      * apply insert_fresh; [rewrite Hf; eauto|exact Hfresh].
      * rewrite insert_size by (rewrite Hf; eauto). exact Hsize.
    + rewrite bool_decide_eq_false_2.
      * exists h. split; [reflexivity|]. replace (S (e_level e)) with j by lia. exact Hinv.
      * intros Heq. rewrite full_app in Hnd. destruct (NoDup_addrs_middle _ _ _ Hnd) as [_ Hfr].
        apply Hfr. rewrite addrs_app. apply elem_of_app. right.
        eapply next_at_in. exact Heq.
Qed.

Definition deleted (h : gmap nat SkipListNode) (lvl : nat) : SkipListPurchaseHistory :=
  {| max_level := ml; header := hd; level := lvl; size := size s - 1;
     heap := h; next_object := next_object s |}.

Lemma deleted_rep h lvl :
  unlinked (S (e_level e)) h -> (lvl <= level s)%nat ->
  Forall (fun x => (e_level x <= lvl)%nat) shrunk ->
  rep (deleted h lvl) shrunk.
Proof.
  intros Hinv Hlvl Hall. pose proof Hinv as [_ _ Hfresh Hsize].
  pose proof Hrep as [Hnd Hsorted Hnodes Hlevels Hlevel Hsz Hfr Hfuel].
  split; cbn [max_level header level size heap next_object deleted].
  - apply (NoDup_addrs_middle (full hd ml Tlt) e rest). rewrite <- full_app. apply T_nodup.
  - unfold shrunk. rewrite HT, keys_app in Hsorted. rewrite keys_app.
    apply (ascending_delete _ (e_key e)). exact Hsorted.
  - apply unlinked_done. exact Hinv.
  - exact Hall.
  - lia.
  - unfold shrunk. rewrite Hsz, HT, !length_app. cbn [length]. lia.
  - exact Hfresh.
  - rewrite Hsize. unfold shrunk. rewrite HT, !length_app in *. cbn [length] in Hfuel. lia.
Qed.

End Delete.

Lemma delete_purchase_present s T K :
  rep s T -> K ∈ keys T ->
  exists s' Tlt e rest,
    T = Tlt ++ e :: rest /\ e_key e = K /\
    delete_purchase s K = Ok (s', true) /\
    rep s' (Tlt ++ rest) /\ size s' = size s - 1.
Proof.
  intros Hrep HK.
  destruct (descend s T Hrep K)
    as (Tlt & Tge & update & HT & Hlt & Hge & Hrun & _ & Hlow & _ & Hsucc).
  destruct (search_found s T Hrep Tlt Tge K HT Hlt Hge) as [Hsome Hnone].
  destruct (found Tge K) as [e|] eqn:Hfound; [|exfalso; apply Hnone; auto].
  destruct (found_in _ _ _ Hfound) as (rest & -> & Hk).
  destruct (unlink_loop s T Hrep Tlt rest e update HT Hlow (S (level s)) 0%nat (heap s))
    as (h' & Hunlink & Hinv).
  { reflexivity. } { lia. } { apply unlinked_start; assumption. }
  pose proof (unlinked_done s T Hrep Tlt rest e HT h' Hinv
                (mkEntry (header s) "" empty_record (max_level s))) as Hhd.
  destruct Hhd as (f & Hf & Hlen & Hptr); [apply elem_of_cons; tauto|].
  cbn [e_addr e_level] in Hf, Hlen, Hptr.
  destruct (lower_level_spec f (max_level s) (Tlt ++ rest) (level s))
    as (lvl' & Hlower & Hle & Hall).
  { intros i Hi. rewrite (Hptr i Hi). unfold ptr. cbn [e_addr].
    rewrite after_full_hd. reflexivity. }
  { apply (rep_level s T Hrep). }
  { pose proof (rep_levels s T Hrep) as Hlv. rewrite HT in Hlv.
    apply Forall_app in Hlv as [H1 H2]. apply Forall_app. split; [exact H1|].
    inversion H2; assumption. }
  exists (deleted s h' lvl'), Tlt, e, rest.
  split; [exact HT|]. split; [exact Hk|]. split.
  - unfold delete_purchase. rewrite Hrun. cbn [rbind]. rewrite Hsucc.
    cbn [rbind fmap option_fmap option_map]. rewrite Hunlink. cbn [rbind].
    unfold deref. rewrite Hf. cbn [rbind forward]. rewrite Hlower. reflexivity.
  - split; [|reflexivity]. eapply deleted_rep; eassumption.
Qed.

Lemma delete_purchase_absent s T K :
  rep s T -> K ∉ keys T -> delete_purchase s K = Ok (s, false).
Proof.
  intros Hrep HK.
  destruct (descend s T Hrep K)
    as (Tlt & Tge & update & HT & Hlt & Hge & Hrun & _ & _ & _ & Hsucc).
  destruct (search_found s T Hrep Tlt Tge K HT Hlt Hge) as [Hsome _].
  destruct (found Tge K) as [e|] eqn:Hfound.
  { exfalso. destruct (Hsome e eq_refl) as [He Hk]. apply HK. rewrite <- Hk.
    unfold keys. apply list_elem_of_fmap. exists e. auto. }
  unfold delete_purchase. rewrite Hrun. cbn [rbind]. rewrite Hsucc. reflexivity.
Qed.

(** *** Every operation keeps the list well formed *)

Lemma init_rep max_level : rep (init max_level) [].
Proof.
  split; cbn [SkipList.max_level header level size heap next_object init].
  - apply NoDup_singleton.
  - constructor.
  - intros e He. apply list_elem_of_singleton in He as ->.
    exists (replicate (S max_level) None). cbn [e_addr e_data e_level].
    rewrite lookup_singleton_eq. unfold _create_node, id_of. cbn [e_addr].
    rewrite decide_True by reflexivity.
    split; [reflexivity|]. split; [apply length_replicate|].
    intros i Hi. rewrite lookup_replicate_2 by lia. unfold ptr.
    rewrite after_full_hd. reflexivity.
  - constructor.
  - lia.
  - reflexivity.
  - intros a [x Ha]. apply lookup_singleton_Some in Ha as [<- _]. lia.
  - rewrite map_size_singleton. cbn [length]. lia.
Qed.

Lemma in_keys_dec (K : string) (T : list entry) : {K ∈ keys T} + {K ∉ keys T}.
Proof. destruct (decide (K ∈ keys T)); [left|right]; assumption. Qed.

Lemma add_purchase_rep s T rng calls K d :
  rep s T ->
  exists s' calls' T',
    add_purchase s rng calls K d = Ok (s', calls') /\ rep s' T' /\
    (exists e, e ∈ T' /\ e_key e = K /\ e_data e = default empty_record d) /\
    (K ∈ keys T -> keys T' = keys T /\ size s' = size s).
Proof.
  intros Hrep. destruct (in_keys_dec K T) as [HK|HK].
  - destruct (add_purchase_existing s T rng calls K d Hrep HK)
      as (Tlt & e & rest & HT & Hk & Hrun).
    exists (replaced s e (default empty_record d)), calls,
      (Tlt ++ with_data e (default empty_record d) :: rest).
    split; [exact Hrun|]. split; [apply replaced_rep with (T := T); assumption|].
    split.
    + exists (with_data e (default empty_record d)).
      split; [apply elem_of_app; right; apply elem_of_cons; tauto|]. auto.
    + intros _. split; [|reflexivity]. rewrite HT, !keys_app. reflexivity.
  - destruct (add_purchase_new s T rng calls K d Hrep HK)
      as (s' & calls' & Tlt & Tge & e & HT & Hk & Hd & Hrun & Hrep' & Hsize).
    exists s', calls', (Tlt ++ e :: Tge). split; [exact Hrun|]. split; [exact Hrep'|].
    split; [|contradiction].
    exists e. split; [apply elem_of_app; right; apply elem_of_cons; tauto|]. auto.
Qed.

Lemma delete_purchase_rep s T K :
  rep s T ->
  exists s' removed T',
    delete_purchase s K = Ok (s', removed) /\ rep s' T' /\ K ∉ keys T'.
Proof.
  intros Hrep. destruct (in_keys_dec K T) as [HK|HK].
  - destruct (delete_purchase_present s T K Hrep HK)
      as (s' & Tlt & e & rest & HT & Hk & Hrun & Hrep' & _).
    exists s', true, (Tlt ++ rest). split; [exact Hrun|]. split; [exact Hrep'|].
    pose proof (ascending_NoDup _ (rep_sorted s T Hrep)) as Hnd.
    rewrite HT, keys_app in Hnd. cbn [keys map] in Hnd. rewrite Hk in Hnd.
    apply NoDup_app in Hnd as (_ & Hd & Hn). apply NoDup_cons in Hn as [Hn _].
    rewrite keys_app. intros Hin. apply elem_of_app in Hin as [Hin|Hin].
    + apply (Hd K Hin). apply elem_of_cons. tauto.
    + apply Hn. exact Hin.
  - exists s, false, T. split; [apply (delete_purchase_absent s T K Hrep HK)|]. auto.
Qed.

Lemma run_rep max_level rng ops :
  exists s calls T, run max_level rng ops = Ok (s, calls) /\ rep s T.
Proof.
  unfold run.
  assert (Hgen : forall s calls T, rep s T ->
            exists s' calls' T', foldM (apply_op rng) ops (s, calls) = Ok (s', calls') /\
                                 rep s' T').
  { induction ops as [|o ops IH]; intros s calls T Hrep.
    - exists s, calls, T. split; [reflexivity|exact Hrep].
    - cbn [foldM]. destruct o as [K d|K]; cbn [apply_op fst snd].
      + destruct (add_purchase_rep s T rng calls K d Hrep)
          as (s' & calls' & T' & Hrun & Hrep' & _).
        rewrite Hrun. cbn [rbind]. apply (IH s' calls' T' Hrep').
      + destruct (delete_purchase_rep s T K Hrep) as (s' & removed & T' & Hrun & Hrep' & _).
        rewrite Hrun. cbn [rbind fst]. apply (IH s' calls T' Hrep'). }
  apply (Hgen (init max_level) 0%nat []). apply init_rep.
Qed.

(** C9: after any sequence of [add_purchase] and [delete_purchase] calls on a
    fresh skip list, whatever [random.random()] returns, every call has
    returned and [to_list()] is strictly ascending by item id, with [len]
    entries.  In that state, [add_purchase(k, d)] returns and leaves [k] in
    the list exactly once, with [search_purchase(k)] returning [d] (or the
    empty dict for [None]); if [k] was already in the list, [to_list()] and
    [len] are unchanged.  And [delete_purchase(k)] returns, after which
    [search_purchase(k)] returns [None]. *)
Theorem C9_skip_list_sorted_single_entry_and_absent_after_delete
    (max_level : nat) (rng : nat -> bool) (ops : list op) :
  exists s calls ks,
    run max_level rng ops = Ok (s, calls) /\
    to_list s = Ok (Some <$> ks) /\
    ascending ks /\
    __len__ s = Z.of_nat (length ks) /\
    (forall k d, exists s' calls' ks',
        add_purchase s rng calls k d = Ok (s', calls') /\
        to_list s' = Ok (Some <$> ks') /\
        k ∈ ks' /\ NoDup ks' /\
        search_purchase s' k = Ok (Some (default empty_record d)) /\
        (k ∈ ks -> ks' = ks /\ __len__ s' = __len__ s)) /\
    (forall k, exists s' removed,
        delete_purchase s k = Ok (s', removed) /\
        search_purchase s' k = Ok None).
Proof.
  destruct (run_rep max_level rng ops) as (s & calls & T & Hrun & Hrep).
  exists s, calls, (keys T). split; [exact Hrun|].
  split; [apply to_list_spec; exact Hrep|].
  split; [apply (rep_sorted s T Hrep)|].
  split; [unfold __len__, keys; rewrite length_map; apply (rep_size s T Hrep)|].
  split.
  - intros k d.
    destruct (add_purchase_rep s T rng calls k d Hrep)
      as (s' & calls' & T' & Hadd & Hrep' & (e & He & Hk & Hd) & Hsame).
    exists s', calls', (keys T'). split; [exact Hadd|].
    split; [apply to_list_spec; exact Hrep'|].
    split; [rewrite <- Hk; unfold keys; apply list_elem_of_fmap; exists e; auto|].
    split; [apply ascending_NoDup, (rep_sorted s' T' Hrep')|].
    split; [rewrite <- Hk, <- Hd; apply (search_purchase_present s' T' Hrep' e He)|].
    exact Hsame.
  - intros k.
    destruct (delete_purchase_rep s T k Hrep) as (s' & removed & T' & Hdel & Hrep' & Hk).
    exists s', removed. split; [exact Hdel|].
    apply (search_purchase_absent s' T' Hrep' k Hk).
Qed.

Definition sample_rng (call : nat) : bool := Nat.even call.

Definition sample_ops : list op :=
  [ Add "P3" None;
    Add "P1" (Some {| total_amount := Some (5 # 1); other_fields := [] |});
    Add "P2" None;
    Add "P1" (Some {| total_amount := Some (7 # 1); other_fields := [] |});
    Delete "P3";
    Add "P0" None ].

Example sample_run :
  (let* st := run 4 sample_rng sample_ops in
   let* l := to_list (fst st) in
   let* found := search_purchase (fst st) "P1" in
   let* gone := search_purchase (fst st) "P3" in
   Ok (l, total_amount <$> found, gone, __len__ (fst st)))
  = Ok ([Some "P0"; Some "P1"; Some "P2"], Some (Some (7 # 1)), None, 3).
Proof. vm_compute. reflexivity. Qed.

End SkipListProofs.

(** * Proofs: the hash table, return values, growth and the dunder methods *)

Module HashTableMoreProofs.
Import HashTable HashTableMore HashTableProofs.
Section WithValues.
Context {V : Type}.
Implicit Types (self t : OptimizedHashTable V) (key k : string)
  (value v : pyval V) (l : list (string * pyval V)).

Lemma assoc_None_keys k l : assoc k l = None <-> k ∉ l.*1.
Proof.
  split; [|apply assoc_not_in].
  induction l as [|[k0 v0] l IH]; simpl; [intros _; apply not_elem_of_nil|].
  destruct (decide (k0 = k)); [discriminate|]. intros H.
  rewrite not_elem_of_cons. split; [congruence|auto].
Qed.

(** Whether a pair is stored under the key. *)
Definition has t k : bool :=
  match assoc k (items t) with Some _ => true | None => false end.

Lemma has_keys t k : has t k = true <-> k ∈ keys t.
Proof.
  unfold has, keys. fold (items t).
  destruct (assoc k (items t)) eqn:E.
  - split; [intros _|reflexivity].
    destruct (decide (k ∈ (items t).*1)) as [|Hn]; [assumption|].
    apply assoc_None_keys in Hn. congruence.
  - apply assoc_None_keys in E. split; [discriminate|contradiction].
Qed.

Lemma has_false_keys t k : has t k = false <-> k ∉ keys t.
Proof. rewrite <- has_keys. destruct (has t k); split; congruence. Qed.

(** [insert] doubles the capacity exactly when the table is more than three
    quarters full. *)
Lemma insert_capacity fuel t k v t' b :
  table_ok t -> load_ok t -> k <> "" ->
  insert (S (S fuel)) t k v = Ok (t', b) ->
  capacity t' = if 3 * capacity t <? 4 * size t then 2 * capacity t else capacity t.
Proof.
  intros Hok Hload Hk Hins. pose proof Hok as [Hcap _ _ _ _].
  destruct (Z.ltb_spec (3 * capacity t) (4 * size t)) as [Hgt|Hle].
  - rewrite insert_unfold in Hins. destruct (decide (k = "")); [contradiction|].
    unfold get_load_factor in Hins.
    destruct (Z.eqb_spec (capacity t) 0); [lia|]. simpl in Hins.
    assert (E : Qltb load_factor_threshold (inject_Z (size t) / inject_Z (capacity t)) = true)
      by (apply load_check; [exact Hcap|lia]).
    rewrite E in Hins.
    destruct (resize_spec fuel t Hok Hload) as (t1 & Hres & Hok1 & Hcap1 & _).
    rewrite Hres in Hins. simpl in Hins.
    destruct (put_spec t1 k v Hok1 Hk) as (t2 & b2 & Hput & _ & Hcap2 & _).
    rewrite Hput in Hins. injection Hins as <- <-. lia.
  - rewrite insert_noresize in Hins by assumption.
    destruct (put_spec t k v Hok Hk) as (t2 & b2 & Hput & _ & Hcap2 & _).
    rewrite Hput in Hins. injection Hins as <- <-. exact Hcap2.
Qed.

Lemma has_insert t t' k v :
  (forall k', assoc k' (items t') =
              if decide (k' = k) then Some v else assoc k' (items t)) ->
  forall k', has t' k' = if decide (k = k') then true else has t k'.
Proof.
  intros Hg k'. unfold has. rewrite Hg.
  destruct (decide (k' = k)) as [->|Hne].
  - destruct (decide (k = k)); congruence.
  - destruct (decide (k = k')); [congruence|reflexivity].
Qed.

Lemma has_delete t t' k :
  (forall k', assoc k' (items t') =
              if decide (k' = k) then None else assoc k' (items t)) ->
  forall k', has t' k' = if decide (k = k') then false else has t k'.
Proof.
  intros Hg k'. unfold has. rewrite Hg.
  destruct (decide (k' = k)) as [->|Hne].
  - destruct (decide (k = k)); congruence.
  - destruct (decide (k = k')); [congruence|reflexivity].
Qed.

(** Along any accepted sequence the stored keys follow [stored_op] and the
    capacity is multiplied by a power of two. *)
Lemma run_keys fuel (ops : list (op V)) t :
  table_ok t -> load_ok t -> Forall accepted ops ->
  exists t' (n : nat),
    run (S (S fuel)) ops t = Ok t' /\ table_ok t' /\ load_ok t' /\
    (forall k, has t' k = fold_left (stored_op k) ops (has t k)) /\
    capacity t' = capacity t * 2 ^ Z.of_nat n.
Proof.
  intros Hok Hload Hacc. revert t Hok Hload.
  induction Hacc as [|o ops Ho _ IH]; intros t Hok Hload.
  - exists t, O. split; [reflexivity|]. split; [exact Hok|]. split; [exact Hload|].
    split; [reflexivity|]. simpl. lia.
  - unfold run. cbn [foldM]. fold (run (S (S fuel)) ops).
    destruct o as [k v|k]; unfold apply_op.
    + destruct (insert_spec fuel t k v Hok Hload Ho)
        as (t1 & b & Hins & Hok1 & Hload1 & Hg & _).
      pose proof (insert_capacity fuel t k v t1 b Hok Hload Ho Hins) as Hc1.
      rewrite Hins. cbn [rbind fst].
      destruct (IH t1 Hok1 Hload1) as (t' & n & Hrun & Hok' & Hload' & Hv & Hc).
      exists t', (if 3 * capacity t <? 4 * size t then S n else n).
      split; [exact Hrun|]. split; [exact Hok'|]. split; [exact Hload'|]. split.
      * intros k'. rewrite Hv. cbn [fold_left]. f_equal.
        rewrite (has_insert t t1 k v Hg). reflexivity.
      * rewrite Hc, Hc1. destruct (3 * capacity t <? 4 * size t); [|reflexivity].
        rewrite Nat2Z.inj_succ, Z.pow_succ_r by lia. lia.
    + destruct (delete_spec t k Hok) as (t1 & b & Hdel & Hok1 & Hcap1 & Hg & Hs).
      rewrite Hdel. cbn [rbind fst].
      assert (Hload1 : load_ok t1) by (unfold load_ok in *; lia).
      destruct (IH t1 Hok1 Hload1) as (t' & n & Hrun & Hok' & Hload' & Hv & Hc).
      exists t', n. split; [exact Hrun|]. split; [exact Hok'|]. split; [exact Hload'|].
      split.
      * intros k'. rewrite Hv. cbn [fold_left]. f_equal.
        rewrite (has_delete t t1 k Hg). reflexivity.
      * rewrite Hc, Hcap1. reflexivity.
Qed.

Lemma has_init (c : Z) k : has (init c : OptimizedHashTable V) k = false.
Proof. unfold has, init, items. simpl. rewrite concat_replicate_nil. reflexivity. Qed.

Lemma reachable_keys (initial_capacity : Z) (ops : list (op V)) (fuel : nat) :
  0 < initial_capacity -> Forall accepted ops -> (2 <= fuel)%nat ->
  exists t (n : nat),
    run fuel ops (init initial_capacity) = Ok t /\ table_ok t /\ load_ok t /\
    (forall k, k ∈ keys t <-> live k ops = true) /\
    capacity t = initial_capacity * 2 ^ Z.of_nat n.
Proof.
  intros Hc Hacc Hfuel. destruct fuel as [|[|fuel]]; [lia|lia|].
  destruct (init_ok (V := V) initial_capacity Hc) as [Hok Hload].
  destruct (run_keys fuel ops _ Hok Hload Hacc) as (t & n & Hrun & Hok' & Hload' & Hv & Hcap).
  exists t, n. split; [exact Hrun|]. split; [exact Hok'|]. split; [exact Hload'|].
  split; [|exact Hcap].
  intros k. rewrite <- has_keys, Hv, has_init. reflexivity.
Qed.

Lemma zip_fst_snd {A B} (l : list (A * B)) : zip l.*1 l.*2 = l.
Proof. induction l as [|[a b] l IH]; simpl; [reflexivity|]. f_equal. exact IH. Qed.

(** X20. After any sequence of inserts and deletes on a fresh table, [keys]
    lists exactly the keys whose most recent operation was an insert (also
    those inserted with the value [None]), each once; [len] is their number,
    and [values] is aligned with [keys]. *)
Theorem X20_hash_table_len_counts_the_stored_keys
    (initial_capacity : Z) (ops : list (op V)) (fuel : nat) :
  0 < initial_capacity -> Forall accepted ops -> (2 <= fuel)%nat ->
  exists t,
    run fuel ops (init initial_capacity) = Ok t /\
    NoDup (keys t) /\
    (forall k, k ∈ keys t <-> live k ops = true) /\
    __len__ t = Z.of_nat (length (keys t)) /\
    zip (keys t) (values t) = items t.
Proof.
  intros Hc Hacc Hfuel.
  destruct (reachable_keys initial_capacity ops fuel Hc Hacc Hfuel)
    as (t & n & Hrun & Hok & _ & Hlive & _).
  exists t. split; [exact Hrun|]. split; [apply Hok|]. split; [exact Hlive|].
  split.
  - unfold __len__, keys. rewrite length_fmap. apply Hok.
  - apply zip_fst_snd.
Qed.

(** X21. The capacity of a table only ever doubles: after any sequence of
    operations it is the initial capacity times a power of two, and the load
    factor is at most the threshold 0.75 plus the share of one pair. *)
Theorem X21_hash_table_capacity_doubles_and_load_is_bounded
    (initial_capacity : Z) (ops : list (op V)) (fuel : nat) :
  0 < initial_capacity -> Forall accepted ops -> (2 <= fuel)%nat ->
  exists t (n : nat) (load_factor : Q),
    run fuel ops (init initial_capacity) = Ok t /\
    capacity t = initial_capacity * 2 ^ Z.of_nat n /\
    get_load_factor t = Ok load_factor /\
    (load_factor <= load_factor_threshold + 1 / inject_Z (capacity t))%Q.
Proof.
  intros Hc Hacc Hfuel.
  destruct (reachable_keys initial_capacity ops fuel Hc Hacc Hfuel)
    as (t & n & Hrun & Hok & Hload & _ & Hcap).
  exists t, n, (inject_Z (size t) / inject_Z (capacity t))%Q.
  split; [exact Hrun|]. split; [exact Hcap|].
  pose proof (ok_capacity _ _ Hok) as Hpos.
  split.
  - unfold get_load_factor. destruct (Z.eqb_spec (capacity t) 0); [lia|reflexivity].
  - assert (Hq : (0 < inject_Z (capacity t))%Q) by (unfold Qlt; simpl; lia).
    apply Qle_shift_div_r; [exact Hq|].
    assert (E : ((load_factor_threshold + 1 / inject_Z (capacity t)) * inject_Z (capacity t)
                 == load_factor_threshold * inject_Z (capacity t) + 1)%Q).
    { field. intros H0. rewrite H0 in Hq. discriminate. }
    rewrite E. unfold load_ok in Hload.
    unfold load_factor_threshold, Qle, Qmult, Qplus, inject_Z; simpl. lia.
Qed.

(** X22. On a table reached by inserts and deletes, [insert] of a non-empty
    key returns [True] exactly when the key was not stored; [len] then
    grows by one and is unchanged otherwise; the key is stored afterwards
    and no other key appears or disappears; the capacity doubles exactly
    when the table was more than three quarters full before the call. *)
Theorem X22_hash_table_insert_reports_new_keys
    (initial_capacity : Z) (ops : list (op V)) (fuel : nat) (key : string)
    (value : pyval V) :
  0 < initial_capacity -> Forall accepted ops -> (2 <= fuel)%nat -> key <> "" ->
  exists t t' is_new,
    run fuel ops (init initial_capacity) = Ok t /\
    insert fuel t key value = Ok (t', is_new) /\
    (is_new = true <-> key ∉ keys t) /\
    __len__ t' = __len__ t + (if is_new then 1 else 0) /\
    (forall k, k ∈ keys t' <-> k = key \/ k ∈ keys t) /\
    capacity t' = (if 3 * capacity t <? 4 * __len__ t
                   then 2 * capacity t else capacity t).
Proof.
  intros Hc Hacc Hfuel Hk.
  destruct (reachable_keys initial_capacity ops fuel Hc Hacc Hfuel)
    as (t & n & Hrun & Hok & Hload & _ & _).
  destruct fuel as [|[|fuel]]; [lia|lia|].
  destruct (insert_spec fuel t key value Hok Hload Hk)
    as (t' & b & Hins & Hok' & _ & Hg & Hs & Hb).
  exists t, t', b. split; [exact Hrun|]. split; [exact Hins|].
  split; [rewrite Hb; apply assoc_None_keys|].
  split; [exact Hs|]. split.
  - intros k. rewrite <- !has_keys, (has_insert t t' key value Hg).
    destruct (decide (key = k)) as [->|Hne]; [tauto|].
    split; [tauto|]. intros [->|H]; [contradiction|exact H].
  - exact (insert_capacity fuel t key value t' b Hok Hload Hk Hins).
Qed.

(** X23. On a table reached by inserts and deletes, [delete] returns [True]
    exactly when the key was stored; [len] then drops by one, the key reads
    as absent and every other key keeps its value; a [delete] that returns
    [False] leaves the table as it was.  The capacity never shrinks. *)
Theorem X23_hash_table_delete_reports_stored_keys
    (initial_capacity : Z) (ops : list (op V)) (fuel : nat) (key : string) :
  0 < initial_capacity -> Forall accepted ops -> (2 <= fuel)%nat ->
  exists t t' found,
    run fuel ops (init initial_capacity) = Ok t /\
    delete t key = Ok (t', found) /\
    (found = true <-> key ∈ keys t) /\
    __len__ t' = __len__ t - (if found then 1 else 0) /\
    (forall k, k ∈ keys t' <-> k <> key /\ k ∈ keys t) /\
    get t' key = Ok None /\
    (forall k, k <> key -> get t' k = get t k) /\
    capacity t' = capacity t /\
    (found = false -> t' = t).
Proof.
  intros Hc Hacc Hfuel.
  destruct (reachable_keys initial_capacity ops fuel Hc Hacc Hfuel)
    as (t & n & Hrun & Hok & Hload & _ & _).
  destruct (delete_spec t key Hok) as (t' & b & Hdel & Hok' & Hcap & Hg & _).
  exists t, t', b. split; [exact Hrun|]. split; [exact Hdel|].
  assert (Hkeys : forall k, k ∈ keys t' <-> k <> key /\ k ∈ keys t).
  { intros k. rewrite <- !has_keys, (has_delete t t' key Hg).
    destruct (decide (key = k)) as [->|Hne]; [split; [discriminate|tauto]|].
    split; [intros H; split; [congruence|exact H]|tauto]. }
  assert (Hshape : (b = false /\ t' = t /\ key ∉ keys t) \/
                   (b = true /\ key ∈ keys t /\ size t' = size t - 1)).
  { destruct (decide (key = "")) as [->|Hk].
    - unfold delete in Hdel. simpl in Hdel. injection Hdel as <- <-.
      left. split; [reflexivity|]. split; [reflexivity|].
      apply (empty_key_absent t Hok).
    - destruct (delete_shape t key Hok Hk) as (t2 & b2 & Hdel2 & _ & _ & _ & Hcase).
      rewrite Hdel in Hdel2. injection Hdel2 as <- <-.
      destruct Hcase as [(-> & -> & Hni)|(-> & A & v0 & B & Hit & _ & Hs)].
      + left. auto.
      + right. split; [reflexivity|]. split; [|exact Hs].
        unfold keys. fold (items t). rewrite Hit, fmap_app, elem_of_app. right.
        simpl. apply elem_of_cons. left. reflexivity. }
  split.
  { destruct Hshape as [(-> & _ & Hni)|(-> & Hin & _)].
    - split; [discriminate|contradiction].
    - split; [intros _; exact Hin|reflexivity]. }
  split.
  { unfold __len__. destruct Hshape as [(-> & -> & _)|(-> & _ & Hs)]; lia. }
  split; [exact Hkeys|]. split.
  { rewrite get_spec by exact Hok'. rewrite Hg.
    destruct (decide (key = key)); [reflexivity|congruence]. }
  split.
  { intros k Hne. rewrite !get_spec by assumption. rewrite Hg.
    destruct (decide (k = key)); [contradiction|reflexivity]. }
  split; [exact Hcap|].
  intros ->. destruct Hshape as [(_ & -> & _)|(Hb & _)]; [reflexivity|discriminate].
Qed.

(** X24. The subscript protocol round trip on a reachable table: after
    [t[key] = value] with a value other than [None], [t[key]] is that value
    and [key in t] holds; after [del t[key]] both [t[key]] and a second
    [del t[key]] raise [KeyError] and [key in t] is false. *)
Theorem X24_hash_table_subscript_round_trip
    (initial_capacity : Z) (ops : list (op V)) (fuel : nat) (key : string)
    (value : V) :
  0 < initial_capacity -> Forall accepted ops -> (2 <= fuel)%nat -> key <> "" ->
  exists t t1 t2,
    run fuel ops (init initial_capacity) = Ok t /\
    __setitem__ fuel t key (Some value) = Ok t1 /\
    __getitem__ t1 key = Ok value /\
    __contains__ t1 key = Ok true /\
    __delitem__ t1 key = Ok t2 /\
    __getitem__ t2 key = Raise KeyError /\
    __contains__ t2 key = Ok false /\
    __delitem__ t2 key = Raise KeyError /\
    __len__ t2 = __len__ t1 - 1.
Proof.
  intros Hc Hacc Hfuel Hk.
  destruct (reachable_keys initial_capacity ops fuel Hc Hacc Hfuel)
    as (t & n & Hrun & Hok & Hload & _ & _).
  destruct fuel as [|[|fuel]]; [lia|lia|].
  destruct (insert_spec fuel t key (Some value) Hok Hload Hk)
    as (t1 & b & Hins & Hok1 & _ & Hg1 & _ & _).
  destruct (delete_shape t1 key Hok1 Hk) as (t2 & b2 & Hdel & _ & _ & _ & Hcase).
  destruct (delete_spec t1 key Hok1) as (t2' & b2' & Hdel' & Hok2 & _ & Hg2 & _).
  rewrite Hdel in Hdel'. injection Hdel' as <- <-.
  assert (Hstored : assoc key (items t1) = Some (Some value)).
  { rewrite Hg1. destruct (decide (key = key)); [reflexivity|congruence]. }
  assert (Hgone : assoc key (items t2) = None).
  { rewrite Hg2. destruct (decide (key = key)); [reflexivity|congruence]. }
  destruct Hcase as [(_ & _ & Hni)|(-> & _ & _ & _ & _ & _ & Hs)].
  { apply assoc_None_keys in Hni. congruence. }
  exists t, t1, t2. split; [exact Hrun|].
  split; [unfold __setitem__; rewrite Hins; reflexivity|].
  assert (Hget1 : get t1 key = Ok (Some value))
    by (rewrite get_spec, Hstored by exact Hok1; reflexivity).
  assert (Hget2 : get t2 key = Ok None)
    by (rewrite get_spec, Hgone by exact Hok2; reflexivity).
  split; [unfold __getitem__; rewrite Hget1; reflexivity|].
  split; [unfold __contains__, contains; rewrite Hget1; reflexivity|].
  split; [unfold __delitem__; rewrite Hdel; reflexivity|].
  split; [unfold __getitem__; rewrite Hget2; reflexivity|].
  split; [unfold __contains__, contains; rewrite Hget2; reflexivity|].
  split; [|exact Hs].
  destruct (delete_shape t2 key Hok2 Hk) as (t3 & b3 & Hdel3 & _ & _ & _ & Hcase).
  unfold __delitem__. rewrite Hdel3.
  destruct Hcase as [(-> & _ & _)|(_ & A & v0 & B & Hit & _)]; [reflexivity|].
  exfalso. rewrite Hit in Hgone. apply assoc_None_keys in Hgone. apply Hgone.
  rewrite fmap_app, elem_of_app. right. simpl. apply elem_of_cons. left. reflexivity.
Qed.

(** X25. A table created with a capacity of zero or less cannot be used:
    every [insert] and every [get] of a non-empty key raises, with
    [ZeroDivisionError] for capacity 0 and [IndexError] (no bucket to index)
    for a negative capacity. *)
Theorem X25_hash_table_needs_a_positive_capacity
    (initial_capacity : Z) (fuel : nat) (key : string) (value : pyval V) :
  initial_capacity <= 0 -> key <> "" ->
  let failure := if initial_capacity =? 0 then ZeroDivisionError else IndexError in
  insert (S fuel) (init initial_capacity) key value = Raise failure /\
  get (init initial_capacity : OptimizedHashTable V) key = Raise failure /\
  delete (init initial_capacity : OptimizedHashTable V) key = Raise failure.
Proof.
  intros Hc Hk. cbv zeta.
  assert (Hb : buckets (init initial_capacity : OptimizedHashTable V) = []).
  { unfold init; simpl. replace (Z.to_nat initial_capacity) with O by lia. reflexivity. }
  assert (Hidx : forall i, py_norm_index 0 i = Raise IndexError).
  { intros i. unfold py_norm_index. change (Z.of_nat 0) with 0. change (- 0) with 0.
    destruct (0 <=? i) eqn:E1; destruct (i <? 0) eqn:E2; simpl; try reflexivity.
    apply Z.leb_le in E1. apply Z.ltb_lt in E2. lia. }
  destruct (Z.eqb_spec initial_capacity 0) as [->|Hne].
  - repeat split.
    + rewrite insert_unfold. destruct (decide (key = "")); [contradiction|]. reflexivity.
    + unfold get, _hash. destruct (decide (key = "")); [contradiction|]. reflexivity.
    + unfold delete, _hash. destruct (decide (key = "")); [contradiction|]. reflexivity.
  - assert (Hh : _hash (init initial_capacity : OptimizedHashTable V) key
                 = Ok (fnv1a key mod initial_capacity)).
    { unfold _hash. destruct (decide (key = "")); [contradiction|]. simpl.
      destruct (Z.eqb_spec initial_capacity 0); [contradiction|reflexivity]. }
    repeat split.
    + rewrite insert_unfold. destruct (decide (key = "")); [contradiction|].
      unfold get_load_factor. simpl.
      destruct (Z.eqb_spec initial_capacity 0); [contradiction|]. simpl.
      unfold put. rewrite Hh. cbn [rbind]. rewrite Hb. cbn [length]. rewrite Hidx. reflexivity.
    + unfold get. destruct (decide (key = "")); [contradiction|].
      rewrite Hh. cbn [rbind]. rewrite Hb. cbn [length]. rewrite Hidx. reflexivity.
    + unfold delete. destruct (decide (key = "")); [contradiction|].
      rewrite Hh. cbn [rbind]. rewrite Hb. cbn [length]. rewrite Hidx. reflexivity.
Qed.

(** X26. [clear] empties a table and keeps its grown capacity; the cleared
    table is as good as a new one: after any further sequence of inserts and
    deletes every [get] returns the value of the key's most recent insert
    since the [clear]. *)
Theorem X26_hash_table_clear_starts_over
    (initial_capacity : Z) (ops later : list (op V)) (fuel : nat) :
  0 < initial_capacity -> Forall accepted ops -> Forall accepted later ->
  (2 <= fuel)%nat ->
  exists t t',
    run fuel ops (init initial_capacity) = Ok t /\
    __len__ (clear t) = 0 /\ keys (clear t) = [] /\
    capacity (clear t) = capacity t /\
    run fuel later (clear t) = Ok t' /\
    (forall k, get t' k = Ok (latest k later)) /\
    (forall k, k ∈ keys t' <-> live k later = true).
Proof.
  intros Hc Hacc Hlater Hfuel.
  destruct (reachable_keys initial_capacity ops fuel Hc Hacc Hfuel)
    as (t & n & Hrun & Hok & _ & _ & _).
  pose proof (ok_capacity _ _ Hok) as Hpos.
  change (clear t) with (init (capacity t) : OptimizedHashTable V).
  destruct (reachable_ok (capacity t) later fuel Hpos Hlater Hfuel)
    as (t' & Hrun' & Hok' & _ & Hv).
  destruct (reachable_keys (capacity t) later fuel Hpos Hlater Hfuel)
    as (t2 & _ & Hrun2 & _ & _ & Hlive & _).
  rewrite Hrun' in Hrun2. injection Hrun2 as <-.
  exists t, t'. split; [exact Hrun|]. split; [reflexivity|].
  split; [unfold keys, init; simpl; rewrite concat_replicate_nil; reflexivity|].
  split; [reflexivity|]. split; [exact Hrun'|].
  split; [|exact Hlive].
  intros k. rewrite get_spec by exact Hok'. f_equal. apply Hv.
Qed.

(** *** Statistics *)

Lemma sum_from (l : list Z) (a : Z) : fold_left Z.add l a = a + sum l.
Proof.
  unfold sum. revert a. induction l as [|x l IH]; intros a; cbn [fold_left]; [lia|].
  rewrite (IH (a + x)), (IH (0 + x)). lia.
Qed.

Lemma sum_cons (x : Z) (l : list Z) : sum (x :: l) = x + sum l.
Proof. unfold sum at 1. simpl. apply sum_from. Qed.

Definition bucket_size (bucket : list (string * pyval V)) : Z := Z.of_nat (length bucket).

Lemma sum_bucket_sizes (bs : list (list (string * pyval V))) :
  sum (bucket_size <$> bs) = Z.of_nat (length (concat bs)).
Proof.
  induction bs as [|b bs IH]; [reflexivity|].
  cbn [fmap list_fmap concat]. rewrite sum_cons, IH, length_app. unfold bucket_size. lia.
Qed.

Lemma max_from_bounds (l : list Z) (a : Z) :
  0 <= a -> Forall (fun x => 0 <= x) l ->
  a <= fold_left Z.max l a /\
  (forall x, x ∈ l -> x <= fold_left Z.max l a) /\
  fold_left Z.max l a <= a + sum l.
Proof.
  intros Ha Hl. revert a Ha. induction Hl as [|x l Hx _ IH]; intros a Ha.
  - simpl. split; [lia|]. split; [|unfold sum; simpl; lia].
    intros x Hin. apply elem_of_nil in Hin. contradiction.
  - simpl. rewrite sum_cons.
    destruct (IH (Z.max a x) ltac:(lia)) as (H1 & H2 & H3).
    split; [lia|]. split; [|lia].
    intros y Hy. apply elem_of_cons in Hy as [->|Hy]; [lia|]. apply H2, Hy.
Qed.

Lemma max_or_zero_bounds (l : list Z) :
  Forall (fun x => 0 <= x) l ->
  (forall x, x ∈ l -> x <= max_or_zero l) /\ max_or_zero l <= sum l.
Proof.
  intros Hl. destruct Hl as [|x l Hx Hl].
  - split; [|reflexivity]. intros x Hin. apply elem_of_nil in Hin. contradiction.
  - simpl. rewrite sum_cons.
    destruct (max_from_bounds l x Hx Hl) as (H1 & H2 & H3).
    split; [|exact H3].
    intros y Hy. apply elem_of_cons in Hy as [->|Hy]; [exact H1|]. apply H2, Hy.
Qed.

Definition is_empty (bucket : list (string * pyval V)) : bool :=
  match bucket with [] => true | _ => false end.

Lemma count_empty (bs : list (list (string * pyval V))) :
  let empty_buckets := sum ((fun _ => 1) <$> List.filter is_empty bs) in
  0 <= empty_buckets <= Z.of_nat (length bs) /\
  Z.of_nat (length bs) - Z.of_nat (length (concat bs)) <= empty_buckets.
Proof.
  cbv zeta. induction bs as [|b bs IH]; [unfold sum; simpl; lia|].
  cbn [List.filter concat length]. rewrite length_app.
  destruct b as [|kv b]; cbn [is_empty fmap list_fmap length].
  - rewrite sum_cons. lia.
  - lia.
Qed.

(** X27. The statistics of a reachable table fit together: [size] is the
    number of stored keys, the average bucket size equals the load factor,
    no bucket is longer than [max_bucket_size], which is at most [size], and
    at least capacity minus size buckets are empty. *)
Theorem X27_hash_table_stats_are_consistent
    (initial_capacity : Z) (ops : list (op V)) (fuel : nat) :
  0 < initial_capacity -> Forall accepted ops -> (2 <= fuel)%nat ->
  exists t st,
    run fuel ops (init initial_capacity) = Ok t /\
    get_stats t = Ok st /\
    stat_size st = Z.of_nat (length (keys t)) /\
    stat_capacity st = capacity t /\
    (stat_avg_bucket_size st == stat_load_factor st)%Q /\
    (forall bucket, bucket ∈ buckets t ->
                    Z.of_nat (length bucket) <= stat_max_bucket_size st) /\
    stat_max_bucket_size st <= stat_size st /\
    stat_capacity st - stat_size st <= stat_empty_buckets st <= stat_capacity st.
Proof.
  intros Hc Hacc Hfuel.
  destruct (reachable_keys initial_capacity ops fuel Hc Hacc Hfuel)
    as (t & n & Hrun & Hok & _ & _ & _).
  destruct Hok as [Hpos Hlen _ _ Hsize].
  assert (Hsum : sum (bucket_size <$> buckets t) = size t).
  { rewrite sum_bucket_sizes, Hsize. reflexivity. }
  assert (Hnonneg : Forall (fun x => 0 <= x) (bucket_size <$> buckets t)).
  { apply Forall_fmap, Forall_forall. intros b _. unfold bucket_size; simpl. lia. }
  destruct (max_or_zero_bounds _ Hnonneg) as [Hmax1 Hmax2].
  pose proof (count_empty (buckets t)) as Hempty. cbv zeta in Hempty.
  exists t. unfold get_stats, get_load_factor.
  destruct (Z.eqb_spec (capacity t) 0); [lia|]. cbn [rbind].
  eexists. split; [exact Hrun|]. split; [reflexivity|].
  cbn [stat_size stat_capacity stat_load_factor stat_max_bucket_size
       stat_avg_bucket_size stat_empty_buckets].
  split; [unfold keys; rewrite length_fmap; exact Hsize|].
  split; [reflexivity|]. split.
  - change (fun bucket : list (string * pyval V) => Z.of_nat (length bucket))
      with bucket_size.
    destruct (bucket_size <$> buckets t) as [|x sizes] eqn:E.
    + apply (f_equal length) in E. rewrite length_fmap, Hlen in E. simpl in E. lia.
    + cbv iota. rewrite Hsum. apply (f_equal length) in E.
      rewrite length_fmap, Hlen in E. rewrite <- E, Z2Nat.id by lia. reflexivity.
  - split.
    + intros bucket Hin. apply Hmax1. apply list_elem_of_fmap. exists bucket. auto.
    + split; [fold bucket_size; lia|].
      unfold items in Hsize. rewrite Hlen, Z2Nat.id, <- Hsize in Hempty by lia.
      change (fun bucket : list (string * pyval V) =>
                match bucket with [] => true | _ :: _ => false end) with is_empty.
      lia.
Qed.

End WithValues.

Lemma X20_witness :
  exists t,
    run 2 sample_ops (init 2) = Ok t /\
    NoDup (keys t) /\
    (forall k, k ∈ keys t <-> live k sample_ops = true) /\
    __len__ t = Z.of_nat (length (keys t)) /\
    zip (keys t) (values t) = items t.
Proof.
  apply (X20_hash_table_len_counts_the_stored_keys 2 sample_ops 2).
  - lia.
  - unfold sample_ops. repeat constructor; discriminate.
  - lia.
Defined.

Lemma X21_witness :
  exists t (n : nat) (load_factor : Q),
    run 2 sample_ops (init 2) = Ok t /\
    capacity t = 2 * 2 ^ Z.of_nat n /\
    get_load_factor t = Ok load_factor /\
    (load_factor <= load_factor_threshold + 1 / inject_Z (capacity t))%Q.
Proof.
  apply (X21_hash_table_capacity_doubles_and_load_is_bounded 2 sample_ops 2).
  - lia.
  - unfold sample_ops. repeat constructor; discriminate.
  - lia.
Defined.

Lemma X22_witness :
  exists t t' is_new,
    run 2 sample_ops (init 2) = Ok t /\
    insert 2 t "e" (Some 7%nat) = Ok (t', is_new) /\
    (is_new = true <-> "e" ∉ keys t) /\
    __len__ t' = __len__ t + (if is_new then 1 else 0) /\
    (forall k, k ∈ keys t' <-> k = "e" \/ k ∈ keys t) /\
    capacity t' = (if 3 * capacity t <? 4 * __len__ t
                   then 2 * capacity t else capacity t).
Proof.
  apply (X22_hash_table_insert_reports_new_keys 2 sample_ops 2 "e" (Some 7%nat)).
  - lia.
  - unfold sample_ops. repeat constructor; discriminate.
  - lia.
  - discriminate.
Defined.

Lemma X23_witness :
  exists t t' found,
    run 2 sample_ops (init 2) = Ok t /\
    delete t "b" = Ok (t', found) /\
    (found = true <-> "b" ∈ keys t) /\
    __len__ t' = __len__ t - (if found then 1 else 0) /\
    (forall k, k ∈ keys t' <-> k <> "b" /\ k ∈ keys t) /\
    get t' "b" = Ok None /\
    (forall k, k <> "b" -> get t' k = get t k) /\
    capacity t' = capacity t /\
    (found = false -> t' = t).
Proof.
  apply (X23_hash_table_delete_reports_stored_keys 2 sample_ops 2 "b").
  - lia.
  - unfold sample_ops. repeat constructor; discriminate.
  - lia.
Defined.

Lemma X24_witness :
  exists t t1 t2,
    run 2 sample_ops (init 2) = Ok t /\
    __setitem__ 2 t "e" (Some 7%nat) = Ok t1 /\
    __getitem__ t1 "e" = Ok 7%nat /\
    __contains__ t1 "e" = Ok true /\
    __delitem__ t1 "e" = Ok t2 /\
    __getitem__ t2 "e" = Raise KeyError /\
    __contains__ t2 "e" = Ok false /\
    __delitem__ t2 "e" = Raise KeyError /\
    __len__ t2 = __len__ t1 - 1.
Proof.
  apply (X24_hash_table_subscript_round_trip 2 sample_ops 2 "e" 7%nat).
  - lia.
  - unfold sample_ops. repeat constructor; discriminate.
  - lia.
  - discriminate.
Defined.

Lemma X25_witness :
  insert 1 (init (-3)) "a" (Some 1%nat) = Raise IndexError /\
  get (init (-3) : OptimizedHashTable nat) "a" = Raise IndexError /\
  delete (init (-3) : OptimizedHashTable nat) "a" = Raise IndexError.
Proof.
  apply (X25_hash_table_needs_a_positive_capacity (-3) 0 "a" (Some 1%nat)).
  - lia.
  - discriminate.
Defined.

Lemma X26_witness :
  exists t t',
    run 2 sample_ops (init 2) = Ok t /\
    __len__ (clear t) = 0 /\ keys (clear t) = [] /\
    capacity (clear t) = capacity t /\
    run 2 [Insert "a" (Some 9%nat)] (clear t) = Ok t' /\
    (forall k, get t' k = Ok (latest k [Insert "a" (Some 9%nat)])) /\
    (forall k, k ∈ keys t' <-> live k [Insert "a" (Some 9%nat)] = true).
Proof.
  apply (X26_hash_table_clear_starts_over 2 sample_ops [Insert "a" (Some 9%nat)] 2).
  - lia.
  - unfold sample_ops. repeat constructor; discriminate.
  - repeat constructor; discriminate.
  - lia.
Defined.

Lemma X27_witness :
  exists t st,
    run 2 sample_ops (init 2) = Ok t /\
    get_stats t = Ok st /\
    stat_size st = Z.of_nat (length (keys t)) /\
    stat_capacity st = capacity t /\
    (stat_avg_bucket_size st == stat_load_factor st)%Q /\
    (forall bucket, bucket ∈ buckets t ->
                    Z.of_nat (length bucket) <= stat_max_bucket_size st) /\
    stat_max_bucket_size st <= stat_size st /\
    stat_capacity st - stat_size st <= stat_empty_buckets st <= stat_capacity st.
Proof.
  apply (X27_hash_table_stats_are_consistent 2 sample_ops 2).
  - lia.
  - unfold sample_ops. repeat constructor; discriminate.
  - lia.
Defined.

End HashTableMoreProofs.

(** * Proofs: memberships of the bitmap index *)

Module BitmapQueriesProofs.
Import Bitmap BitmapQueries BitmapProofs.

(** The handle [add_item] uses for an item: its own, or the next free one. *)
Definition handle (self : BitmapIndex) (item_id : string) : Z :=
  default (index_counter self) (item_to_index self !! item_id).

Lemma members_handle self category x :
  index_ok self ->
  x ∈ members self category <->
  exists idx, item_to_index self !! x = Some idx /\ idx ∈ bitmap_of self category.
Proof.
  intros Hok. rewrite (members_spec self category x Hok).
  split; intros (idx & H1 & H2); exists idx.
  - split; [apply (ok_inverse self Hok); exact H2|exact H1].
  - split; [exact H2|apply (ok_inverse self Hok); exact H1].
Qed.

Lemma counter_fresh self category :
  index_ok self -> index_counter self ∉ bitmap_of self category.
Proof.
  intros Hok Hin. destruct (bitmap_of_known self category _ Hok Hin) as [x Hx].
  apply (ok_counter self Hok) in Hx. lia.
Qed.

Lemma add_item_handles self category item_id y :
  item_to_index (fst (add_item self category item_id)) !! y =
  if decide (y = item_id) then Some (handle self item_id) else item_to_index self !! y.
Proof.
  unfold add_item, handle.
  destruct (item_to_index self !! item_id) as [idx0|] eqn:E; cbn [fst item_to_index].
  - destruct (decide (y = item_id)) as [->|]; [exact E|reflexivity].
  - destruct (decide (y = item_id)) as [->|Hne].
    + apply lookup_insert_eq.
    + apply lookup_insert_ne. congruence.
Qed.

Lemma add_item_bitmap self category item_id c :
  bitmap_of (fst (add_item self category item_id)) c =
  if decide (c = category) then {[handle self item_id]} ∪ bitmap_of self category
  else bitmap_of self c.
Proof.
  unfold add_item, handle, bitmap_of.
  destruct (item_to_index self !! item_id) as [idx0|]; cbn [fst bitmaps];
    (destruct (decide (c = category)) as [->|Hne];
     [rewrite lookup_insert_eq; reflexivity|rewrite lookup_insert_ne by congruence; reflexivity]).
Qed.

Lemma add_item_new self category item_id :
  snd (add_item self category item_id) =
  bool_decide (handle self item_id ∉ bitmap_of self category).
Proof.
  unfold add_item, handle, bitmap_of.
  destruct (item_to_index self !! item_id) as [idx0|]; reflexivity.
Qed.

Lemma handle_member self category item_id :
  index_ok self ->
  handle self item_id ∈ bitmap_of self category <-> item_id ∈ members self category.
Proof.
  intros Hok. rewrite (members_handle self category item_id Hok). unfold handle.
  destruct (item_to_index self !! item_id) as [idx0|] eqn:E; cbn.
  - split; [eauto|]. intros (idx & [= <-] & Hin). exact Hin.
  - split.
    + intros Hin. exfalso. apply (counter_fresh self category Hok Hin).
    + intros (idx & Hidx & _). discriminate.
Qed.

Lemma handle_other self item_id y idx :
  index_ok self -> y <> item_id -> item_to_index self !! y = Some idx ->
  idx <> handle self item_id.
Proof.
  intros Hok Hne Hy Heq. unfold handle in Heq.
  destruct (item_to_index self !! item_id) as [idx0|] eqn:E; cbn in Heq.
  - subst idx0. apply (ok_inverse self Hok) in Hy, E. congruence.
  - apply (ok_inverse self Hok), (ok_counter self Hok) in Hy. lia.
Qed.

Lemma add_item_members self category item_id c :
  index_ok self ->
  members (fst (add_item self category item_id)) c =
  if decide (c = category) then members self category ∪ {[item_id]} else members self c.
Proof.
  intros Hok. pose proof (add_item_ok self category item_id Hok) as Hok'.
  apply set_eq. intros y. rewrite (members_handle _ c y Hok').
  rewrite add_item_handles, add_item_bitmap.
  destruct (decide (c = category)) as [->|Hc].
  - rewrite elem_of_union, elem_of_singleton.
    destruct (decide (y = item_id)) as [->|Hy].
    + split; [tauto|]. intros _. exists (handle self item_id).
      split; [reflexivity|]. apply elem_of_union. left. apply elem_of_singleton. reflexivity.
    + rewrite (members_handle self category y Hok). split.
      * intros (idx & Hidx & Hin). left. exists idx. split; [exact Hidx|].
        apply elem_of_union in Hin as [Hin|Hin]; [|exact Hin].
        apply elem_of_singleton in Hin. exfalso.
        apply (handle_other self item_id y idx Hok Hy Hidx Hin).
      * intros [(idx & Hidx & Hin)|Heq]; [|congruence].
        exists idx. split; [exact Hidx|]. apply elem_of_union. tauto.
  - destruct (decide (y = item_id)) as [->|Hy].
    + rewrite <- (handle_member self c item_id Hok). split.
      * intros (idx & [= <-] & Hin). exact Hin.
      * intros Hin. eauto.
    + symmetry. apply (members_handle self c y Hok).
Qed.

Lemma remove_item_handles self category item_id :
  item_to_index (fst (remove_item self category item_id)) = item_to_index self.
Proof.
  unfold remove_item. destruct (item_to_index self !! item_id); [|reflexivity].
  destruct (bitmaps self !! category); [|reflexivity].
  case_bool_decide; reflexivity.
Qed.

Lemma remove_item_bitmap self category item_id c :
  index_ok self ->
  bitmap_of (fst (remove_item self category item_id)) c =
  if decide (c = category) then bitmap_of self category ∖ {[handle self item_id]}
  else bitmap_of self c.
Proof.
  intros Hok. pose proof (counter_fresh self category Hok) as Hfresh. revert Hfresh.
  unfold remove_item, handle, bitmap_of.
  destruct (item_to_index self !! item_id) as [idx0|] eqn:E; cbn.
  - intros _. destruct (bitmaps self !! category) as [bm|] eqn:Ebm; cbn.
    + case_bool_decide as Hin; cbn [fst bitmaps].
      * case_bool_decide as Hempty.
        -- destruct (decide (c = category)) as [->|Hne].
           ++ rewrite lookup_delete_eq. cbn. symmetry. exact Hempty.
           ++ rewrite lookup_delete_ne by congruence. reflexivity.
        -- destruct (decide (c = category)) as [->|Hne].
           ++ rewrite lookup_insert_eq. reflexivity.
           ++ rewrite lookup_insert_ne by congruence. reflexivity.
      * destruct (decide (c = category)) as [->|Hne]; [|reflexivity].
        rewrite Ebm. cbn. apply set_eq. intros i.
        rewrite elem_of_difference, elem_of_singleton. split; [|tauto].
        intros Hi. split; [exact Hi|]. intros ->. contradiction.
    + destruct (decide (c = category)) as [->|Hne]; [|reflexivity].
      rewrite Ebm. cbn. apply set_eq. intros i.
      rewrite elem_of_difference. split; [|tauto]. intros Hi. apply elem_of_empty in Hi.
      contradiction.
  - destruct (decide (c = category)) as [->|Hne]; [|reflexivity].
    destruct (bitmaps self !! category) as [bm|] eqn:Ebm; cbn.
    + intros Hfresh. apply set_eq. intros i. rewrite elem_of_difference, elem_of_singleton.
      split; [|tauto]. intros Hi. split; [exact Hi|]. intros ->. contradiction.
    + intros _. apply set_eq. intros i. rewrite elem_of_difference. split; [|tauto].
      intros Hi. apply elem_of_empty in Hi. contradiction.
Qed.

Lemma remove_item_removed self category item_id :
  index_ok self ->
  snd (remove_item self category item_id) =
  bool_decide (item_id ∈ members self category).
Proof.
  intros Hok. pose proof (members_handle self category item_id Hok) as Hm.
  unfold remove_item, bitmap_of in *.
  destruct (item_to_index self !! item_id) as [idx0|] eqn:E.
  - destruct (bitmaps self !! category) as [bm|] eqn:Ebm; cbn in Hm.
    + case_bool_decide as Hin; cbn [snd]; symmetry.
      * apply bool_decide_eq_true. apply Hm. eauto.
      * apply bool_decide_eq_false. intros Hx. apply Hm in Hx as (idx & [= <-] & Hi).
        contradiction.
    + cbn [snd]. symmetry. apply bool_decide_eq_false. intros Hx.
      apply Hm in Hx as (idx & _ & Hi). apply elem_of_empty in Hi. contradiction.
  - cbn [snd]. symmetry. apply bool_decide_eq_false. intros Hx.
    apply Hm in Hx as (idx & Hidx & _). discriminate.
Qed.

Lemma remove_item_members self category item_id c :
  index_ok self ->
  members (fst (remove_item self category item_id)) c =
  if decide (c = category) then members self category ∖ {[item_id]} else members self c.
Proof.
  intros Hok. pose proof (remove_item_ok self category item_id Hok) as Hok'.
  apply set_eq. intros y. rewrite (members_handle _ c y Hok').
  rewrite remove_item_handles, remove_item_bitmap by exact Hok.
  destruct (decide (c = category)) as [->|Hc].
  - rewrite elem_of_difference, elem_of_singleton, (members_handle self category y Hok).
    split.
    + intros (idx & Hidx & Hin). apply elem_of_difference in Hin as [Hin Hne].
      split; [eauto|]. intros ->. apply Hne. apply elem_of_singleton.
      unfold handle. rewrite Hidx. reflexivity.
    + intros [(idx & Hidx & Hin) Hne]. exists idx. split; [exact Hidx|].
      apply elem_of_difference. split; [exact Hin|]. intros Heq.
      apply elem_of_singleton in Heq.
      apply (handle_other self item_id y idx Hok Hne Hidx Heq).
  - symmetry. apply (members_handle self c y Hok).
Qed.

(** X16. [add_item(category, item)] on an index reached by adds and removes
    returns [True] exactly when the item was not yet a member of the
    category; afterwards the item is a member, every other membership of
    every category is as before, and [get_total_items()] has grown by one
    exactly when the item id had never been added to any category. *)
Theorem X16_bitmap_add_item_adds_one_membership
    (ops : list op) (category item_id : string) :
  let self := run ops in
  let self' := fst (add_item self category item_id) in
  snd (add_item self category item_id) = bool_decide (item_id ∉ members self category) /\
  members self' category = members self category ∪ {[item_id]} /\
  (forall c, c <> category -> members self' c = members self c) /\
  get_total_items self' =
    get_total_items self +
      match item_to_index self !! item_id with Some _ => 0 | None => 1 end.
Proof.
  intros self self'. pose proof (run_ok ops) as Hok. fold self in Hok. split.
  - rewrite add_item_new. apply bool_decide_ext.
    rewrite (handle_member self category item_id Hok). reflexivity.
  - split.
    + unfold self'. rewrite add_item_members by exact Hok.
      rewrite decide_True by reflexivity. reflexivity.
    + split.
      * intros c Hne. unfold self'. rewrite add_item_members by exact Hok.
        rewrite decide_False by exact Hne. reflexivity.
      * unfold self', get_total_items, add_item.
        destruct (item_to_index self !! item_id); cbn [fst total_items]; lia.
Qed.

(** X17. [remove_item(category, item)] on an index reached by adds and
    removes returns [True] exactly when the item was a member of the
    category; afterwards it is not, every other membership of every category
    is as before, and [get_total_items()] is unchanged: the count of known
    item ids never goes down. *)
Theorem X17_bitmap_remove_item_removes_one_membership
    (ops : list op) (category item_id : string) :
  let self := run ops in
  let self' := fst (remove_item self category item_id) in
  snd (remove_item self category item_id) = bool_decide (item_id ∈ members self category) /\
  members self' category = members self category ∖ {[item_id]} /\
  (forall c, c <> category -> members self' c = members self c) /\
  get_total_items self' = get_total_items self.
Proof.
  intros self self'. pose proof (run_ok ops) as Hok. fold self in Hok. split.
  - apply remove_item_removed. exact Hok.
  - split.
    + unfold self'. rewrite remove_item_members by exact Hok.
      rewrite decide_True by reflexivity. reflexivity.
    + split.
      * intros c Hne. unfold self'. rewrite remove_item_members by exact Hok.
        rewrite decide_False by exact Hne. reflexivity.
      * unfold self', get_total_items, remove_item.
        destruct (item_to_index self !! item_id); [|reflexivity].
        destruct (bitmaps self !! category); [|reflexivity].
        case_bool_decide; reflexivity.
Qed.

(** *** Difference and counts *)

Lemma resolve_list_NoDup self (indices : list Z) items :
  index_ok self -> NoDup indices -> resolve_list self indices = Ok items ->
  NoDup items /\ length items = length indices.
Proof.
  intros Hok Hnd. revert items.
  induction Hnd as [|idx indices Hni Hnd IH]; intros items; cbn [resolve_list].
  - intros [= <-]. split; [constructor|reflexivity].
  - destruct (index_to_item self !! idx) as [x|] eqn:Hx; [|discriminate].
    destruct (resolve_list self indices) as [rest| |] eqn:Hrest; cbn [rbind]; try discriminate.
    intros [= <-]. destruct (IH rest eq_refl) as [Hndr Hlen].
    split; [|cbn [length]; lia]. constructor; [|exact Hndr].
    intros Hin.
    destruct (resolve_list_spec self indices) as (items' & Hrun & Hspec).
    { intros i Hi. clear -Hrest Hi. revert rest Hrest.
      induction indices as [|j indices IHl]; intros rest Hrest.
      - apply elem_of_nil in Hi. contradiction.
      - cbn [resolve_list] in Hrest.
        destruct (index_to_item self !! j) as [y|] eqn:Hy; [|discriminate].
        destruct (resolve_list self indices) as [r| |]; cbn [rbind] in Hrest;
          try discriminate.
        apply elem_of_cons in Hi as [->|Hi]; [eauto|]. apply (IHl Hi r eq_refl). }
    rewrite Hrest in Hrun. injection Hrun as <-.
    apply Hspec in Hin as (j & Hj & Hjx).
    assert (j = idx) by (apply (handle_unique self j idx x Hok); assumption).
    subst j. contradiction.
Qed.

Lemma get_items_count self category :
  index_ok self ->
  exists items,
    get_items self category = Ok items /\ NoDup items /\
    Z.of_nat (length items) = get_category_count self category.
Proof.
  intros Hok. destruct (get_items_spec self category Hok) as (items & Hrun & _).
  exists items. split; [exact Hrun|]. unfold get_items, get_category_count in *.
  destruct (bitmaps self !! category) as [bm|]; cbn.
  - unfold resolve in Hrun.
    destruct (resolve_list_NoDup self (elements bm) items Hok (NoDup_elements bm) Hrun)
      as [Hnd Hlen].
    split; [exact Hnd|]. rewrite Hlen. reflexivity.
  - injection Hrun as <-. split; [constructor|]. rewrite size_empty. reflexivity.
Qed.

Lemma difference_spec self category1 category2 :
  index_ok self ->
  exists items,
    get_items_difference self category1 category2 = Ok items /\
    NoDup items /\
    list_to_set items = members self category1 ∖ members self category2.
Proof.
  intros Hok. unfold get_items_difference.
  destruct (bitmaps self !! category1) as [b1|] eqn:E1.
  - set (diff := b1 ∖ default ∅ (bitmaps self !! category2)).
    assert (Hknown : forall idx, idx ∈ diff -> is_Some (index_to_item self !! idx)).
    { intros idx Hidx. apply elem_of_difference in Hidx as [Hidx _].
      apply (ok_known self Hok category1 b1 idx E1 Hidx). }
    destruct (resolve_spec self diff Hknown) as (items & Hrun & Hspec).
    exists items. split; [exact Hrun|]. split.
    + unfold resolve in Hrun.
      apply (resolve_list_NoDup self (elements diff) items Hok (NoDup_elements diff) Hrun).
    + apply set_eq. intros x. rewrite elem_of_list_to_set, Hspec, elem_of_difference.
      rewrite !(members_spec self _ x Hok). unfold bitmap_of. rewrite E1. cbn. split.
      * intros (idx & Hidx & Hx). apply elem_of_difference in Hidx as [H1 H2].
        split; [eauto|]. intros (j & Hj & Hjx).
        assert (j = idx) by (apply (handle_unique self j idx x Hok); assumption).
        subst j. contradiction.
      * intros [(idx & Hidx & Hx) Hn]. exists idx. split; [|exact Hx].
        apply elem_of_difference. split; [exact Hidx|]. intros H2. apply Hn. eauto.
  - exists []. split; [reflexivity|]. split; [constructor|].
    apply set_eq. intros x. rewrite elem_of_list_to_set, elem_of_difference.
    rewrite (members_spec self category1 x Hok). unfold bitmap_of. rewrite E1. cbn.
    split; [intros Hn; apply elem_of_nil in Hn; contradiction|].
    intros [(idx & Hidx & _) _]. apply elem_of_empty in Hidx. contradiction.
Qed.

(** X18. On an index reached by adds and removes, [get_items_difference(A, B)]
    returns, each once, exactly the members of [A] that are not members of
    [B]: nothing when [A] has no members, all of [A] when [B] has none; it
    never fails. *)
Theorem X18_bitmap_difference_is_set_difference
    (ops : list op) (category1 category2 : string) :
  let self := run ops in
  exists items,
    get_items_difference self category1 category2 = Ok items /\
    NoDup items /\
    list_to_set items = members self category1 ∖ members self category2 /\
    (members self category1 = ∅ -> items = []) /\
    (members self category2 = ∅ -> list_to_set items = members self category1).
Proof.
  intros self. destruct (difference_spec self category1 category2 (run_ok ops))
    as (items & Hrun & Hnd & Hset).
  exists items. split; [exact Hrun|]. split; [exact Hnd|]. split; [exact Hset|]. split.
  - intros Hempty. rewrite Hempty in Hset.
    destruct items as [|x items]; [reflexivity|]. exfalso.
    assert (Hx : x ∈ (list_to_set (x :: items) : gset string)).
    { apply elem_of_list_to_set. left. }
    rewrite Hset in Hx. apply elem_of_difference in Hx as [Hx _].
    apply elem_of_empty in Hx. exact Hx.
  - intros Hempty. rewrite Hset, Hempty. apply set_eq. intros x.
    rewrite elem_of_difference. split; [tauto|]. intros Hx. split; [exact Hx|].
    apply not_elem_of_empty.
Qed.

(** The item ids of the [Add] calls. *)
Definition added (ops : list op) : gset string :=
  list_to_set (omap (fun o => match o with Add _ item_id => Some item_id | _ => None end)
                    ops).

Lemma bitmap_run_snoc ops o : run (ops ++ [o]) = apply_op (run ops) o.
Proof. unfold run. rewrite fold_left_app. reflexivity. Qed.

Lemma elem_of_added ops y : y ∈ added ops <-> exists category, Add category y ∈ ops.
Proof.
  unfold added. rewrite elem_of_list_to_set, list_elem_of_omap. split.
  - intros ([c x|c x] & Ho & Hy); [|discriminate]. injection Hy as ->. eauto.
  - intros (c & Hin). exists (Add c y). auto.
Qed.

Lemma added_snoc ops o :
  added (ops ++ [o]) =
  match o with Add _ item_id => added ops ∪ {[item_id]} | Remove _ _ => added ops end.
Proof.
  apply set_eq. intros y. rewrite elem_of_added.
  destruct o as [c x|c x].
  - rewrite elem_of_union, elem_of_singleton, elem_of_added. split.
    + intros (c' & Hin). apply elem_of_app in Hin as [Hin|Hin]; [eauto|].
      apply list_elem_of_singleton in Hin. injection Hin as _ ->. tauto.
    + intros [(c' & Hin)| ->].
      * exists c'. apply elem_of_app. tauto.
      * exists c. apply elem_of_app. right. apply list_elem_of_singleton. reflexivity.
  - rewrite elem_of_added. split.
    + intros (c' & Hin). apply elem_of_app in Hin as [Hin|Hin]; [eauto|].
      apply list_elem_of_singleton in Hin. discriminate.
    + intros (c' & Hin). exists c'. apply elem_of_app. tauto.
Qed.

Record counted (ops : list op) (self : BitmapIndex) : Prop := {
  counted_handles : dom (item_to_index self) = added ops;
  counted_total : total_items self = Z.of_nat (base.size (item_to_index self));
  counted_counter : index_counter self = total_items self;
  counted_nonempty : forall category bitmap,
      bitmaps self !! category = Some bitmap -> bitmap <> ∅
}.

Lemma run_counted ops : counted ops (run ops).
Proof.
  induction ops as [|o ops IH] using rev_ind.
  - split; cbn.
    + unfold added. cbn. apply dom_empty_L.
    + rewrite map_size_empty. reflexivity.
    + reflexivity.
    + intros c b Hc. rewrite lookup_empty in Hc. discriminate.
  - destruct IH as [Hdom Htotal Hcounter Hne]. rewrite bitmap_run_snoc.
    pose proof (added_snoc ops o) as Hadded.
    destruct o as [c x|c x]; cbn [apply_op].
    + unfold add_item.
      destruct (item_to_index (run ops) !! x) as [idx|] eqn:E; cbn [fst].
      * split; cbn [item_to_index total_items index_counter bitmaps].
        -- rewrite Hadded, Hdom. apply set_eq. intros y.
           rewrite elem_of_union, elem_of_singleton.
           split; [tauto|]. intros [?| ->]; [assumption|].
           rewrite <- Hdom. apply elem_of_dom. eauto.
        -- exact Htotal.
        -- exact Hcounter.
        -- intros c' b Hc'. destruct (decide (c' = c)) as [->|Hcne].
           ++ rewrite lookup_insert_eq in Hc'. injection Hc' as <-.
              intros Hempty. assert (Hin : idx ∈ ({[idx]} ∪ default ∅ (bitmaps (run ops) !! c) : gset Z)).
              { apply elem_of_union. left. apply elem_of_singleton. reflexivity. }
              rewrite Hempty in Hin. apply elem_of_empty in Hin. exact Hin.
           ++ rewrite lookup_insert_ne in Hc' by congruence. apply (Hne c' b Hc').
      * split; cbn [item_to_index total_items index_counter bitmaps].
        -- rewrite Hadded, dom_insert_L, Hdom. apply set_eq. intros y.
           rewrite !elem_of_union, elem_of_singleton. tauto.
        -- rewrite map_size_insert_None by exact E. rewrite Htotal. lia.
        -- rewrite Hcounter. reflexivity.
        -- intros c' b Hc'. destruct (decide (c' = c)) as [->|Hcne].
           ++ rewrite lookup_insert_eq in Hc'. injection Hc' as <-.
              intros Hempty.
              assert (Hin : index_counter (run ops)
                            ∈ ({[index_counter (run ops)]}
                               ∪ default ∅ (bitmaps (run ops) !! c) : gset Z)).
              { apply elem_of_union. left. apply elem_of_singleton. reflexivity. }
              rewrite Hempty in Hin. apply elem_of_empty in Hin. exact Hin.
           ++ rewrite lookup_insert_ne in Hc' by congruence. apply (Hne c' b Hc').
    + rewrite <- Hadded in Hdom. unfold remove_item.
      destruct (item_to_index (run ops) !! x) as [idx|] eqn:E; [|split; assumption].
      destruct (bitmaps (run ops) !! c) as [bm|] eqn:Ebm; [|split; assumption].
      case_bool_decide as Hin; [|split; assumption].
      split; cbn [fst item_to_index total_items index_counter bitmaps]; try assumption.
      intros c' b Hc'. case_bool_decide as Hempty.
      * destruct (decide (c' = c)) as [->|Hcne].
        -- rewrite lookup_delete_eq in Hc'. discriminate.
        -- rewrite lookup_delete_ne in Hc' by congruence. apply (Hne c' b Hc').
      * destruct (decide (c' = c)) as [->|Hcne].
        -- rewrite lookup_insert_eq in Hc'. injection Hc' as <-. exact Hempty.
        -- rewrite lookup_insert_ne in Hc' by congruence. apply (Hne c' b Hc').
Qed.

(** X19. On an index reached by adds and removes, [get_total_items()] is the
    number of distinct item ids ever added, whatever was removed since;
    [get_category_count(c)] is the number of members of [c], which
    [get_items(c)] returns each once; and a category keeps a bitmap exactly
    while it has a member. *)
Theorem X19_bitmap_counts (ops : list op) (category : string) :
  let self := run ops in
  get_total_items self = Z.of_nat (base.size (added ops)) /\
  get_category_count self category = Z.of_nat (base.size (members self category)) /\
  (exists items,
     get_items self category = Ok items /\ NoDup items /\
     Z.of_nat (length items) = get_category_count self category) /\
  (bitmaps self !! category = None <-> members self category = ∅).
Proof.
  intros self. pose proof (run_ok ops) as Hok. pose proof (run_counted ops) as Hc.
  fold self in Hok, Hc. destruct Hc as [Hdom Htotal Hcounter Hne].
  destruct (get_items_count self category Hok) as (items & Hrun & Hnd & Hlen).
  assert (Hsize : get_category_count self category
                  = Z.of_nat (base.size (members self category))).
  { rewrite <- Hlen. unfold members. rewrite Hrun.
    rewrite size_list_to_set by exact Hnd. reflexivity. }
  split.
  - unfold get_total_items. rewrite Htotal, <- Hdom, size_dom. reflexivity.
  - split; [exact Hsize|]. split; [exists items; auto|].
    split.
    + intros Hnone. apply set_eq. intros x. rewrite (members_spec self category x Hok).
      rewrite (bitmap_of_absent self category Hnone). split.
      * intros (idx & Hidx & _). apply elem_of_empty in Hidx. contradiction.
      * intros Hx. apply elem_of_empty in Hx. contradiction.
    + intros Hempty. rewrite Hempty, size_empty in Hsize.
      unfold get_category_count in Hsize.
      destruct (bitmaps self !! category) as [bm|] eqn:E; [|reflexivity].
      exfalso. apply (Hne category bm E). cbn in Hsize.
      apply leibniz_equiv. apply size_empty_iff. lia.
Qed.

Example bitmap_queries_sample :
  let self := run [Add "books" "P1"; Add "books" "P2"; Add "sale" "P2";
                   Add "toys" "P9"; Remove "toys" "P9"] in
  get_items_difference self "books" "sale" = Ok ["P1"] /\
  get_items_difference self "toys" "books" = Ok [] /\
  get_category_count self "books" = 2 /\
  get_total_items self = 3.
Proof. vm_compute. repeat split. Qed.

End BitmapQueriesProofs.

(** * Proofs: purchase histories, users and stores built by their calls *)

Module ODictFacts.
Import ODictProofs.
Section WithTypes.
Context {K V : Type} `{EqDecision K}.
Implicit Types (d : odict K V) (k : K) (v : V).

Lemma get_elem_of_keys k d : k ∈ ODict.keys d <-> is_Some (ODict.get k d).
Proof.
  induction d as [|[k0 v0] d IH]; cbn [ODict.keys ODict.get fmap list_fmap fst].
  - split; [intros Hin; apply elem_of_nil in Hin; contradiction|].
    intros [x Hx]. discriminate.
  - rewrite elem_of_cons. destruct (decide (k0 = k)) as [->|Hne].
    + split; [eauto|tauto].
    + unfold ODict.keys in IH. rewrite IH. split; [intros [?|?]; [congruence|assumption]|tauto].
Qed.

Lemma get_None_keys k d : ODict.get k d = None <-> k ∉ ODict.keys d.
Proof.
  rewrite get_elem_of_keys. destruct (ODict.get k d).
  - split; [discriminate|]. intros Hn. exfalso. apply Hn. eauto.
  - split; [|reflexivity]. intros _ [x Hx]. discriminate.
Qed.

Lemma set_keys_NoDup k v d : NoDup (ODict.keys d) -> NoDup (ODict.keys (ODict.set k v d)).
Proof.
  intros Hnd. rewrite keys_set. destruct (ODict.mem k d) eqn:Hm; [exact Hnd|].
  apply NoDup_app. split; [exact Hnd|]. split; [|apply NoDup_singleton].
  intros x Hx Hx'. apply list_elem_of_singleton in Hx' as ->.
  apply get_elem_of_keys, mem_get in Hx. congruence.
Qed.

Lemma set_keys_elem k k' v d :
  k' ∈ ODict.keys (ODict.set k v d) <-> k' = k \/ k' ∈ ODict.keys d.
Proof.
  rewrite !get_elem_of_keys. destruct (decide (k = k')) as [->|Hne].
  - rewrite get_set_eq. split; [tauto|eauto].
  - rewrite get_set_ne by exact Hne. split; [tauto|]. intros [Heq|Hs]; [congruence|exact Hs].
Qed.

Lemma get_in_dict k v d : NoDup (ODict.keys d) -> (k, v) ∈ d -> ODict.get k d = Some v.
Proof.
  induction d as [|[k0 v0] d IH]; intros Hnd Hin.
  - apply elem_of_nil in Hin. contradiction.
  - cbn [ODict.keys fmap list_fmap fst] in Hnd. apply NoDup_cons in Hnd as [Hk0 Hnd].
    cbn [ODict.get]. apply elem_of_cons in Hin as [Heq|Hin].
    + injection Heq as -> ->. rewrite decide_True by reflexivity. reflexivity.
    + rewrite decide_False; [apply IH; assumption|].
      intros ->. apply Hk0. apply list_elem_of_fmap. exists (k, v). auto.
Qed.

Lemma get_Some_in k v d : ODict.get k d = Some v -> (k, v) ∈ d.
Proof.
  induction d as [|[k0 v0] d IH]; cbn [ODict.get]; [discriminate|].
  destruct (decide (k0 = k)) as [->|Hne].
  - intros [= ->]. apply elem_of_cons. tauto.
  - intros Hg. apply elem_of_cons. right. apply IH. exact Hg.
Qed.

End WithTypes.
End ODictFacts.

Module StoresQueriesProofs.
Import Stores Recommender StoresQueries ODictProofs ODictFacts.

(** *** The linked purchase history *)

(** [purchase_data or {}] is the record given, or the empty one. *)
Lemma stored_data purchase_data :
  (if truthy purchase_data then default empty_record purchase_data else empty_record)
  = default empty_record purchase_data.
Proof.
  destruct purchase_data as [[[a|] [|f fs]]|]; reflexivity.
Qed.

Definition record_calls (calls : list (string * option purchase_record))
  : LinkedPurchaseHistory :=
  fold_left (fun h c => history_add_purchase h (fst c) (snd c)) calls empty_history.

(** The data of the last call for an item id. *)
Definition last_data (item_id : string) (calls : list (string * option purchase_record))
  : option purchase_record :=
  fold_left (fun acc c => if decide (fst c = item_id)
                          then Some (default empty_record (snd c)) else acc)
            calls None.

Lemma recent_nodes_spec count nodes : forall recent,
  recent_nodes count nodes recent =
  recent ++ take (Z.to_nat count - length recent) nodes.*1.
Proof.
  induction nodes as [|[id data] nodes IH]; intros recent; cbn [recent_nodes].
  - cbn [fmap list_fmap]. rewrite take_nil, app_nil_r. reflexivity.
  - destruct (Z.ltb_spec (Z.of_nat (length recent)) count) as [Hlt|Hge].
    + rewrite IH, length_app. cbn [length].
      replace (Z.to_nat count - length recent)%nat
        with (S (Z.to_nat count - (length recent + 1)))%nat by lia.
      cbn [fmap list_fmap take fst]. rewrite <- app_assoc. reflexivity.
    + replace (Z.to_nat count - length recent)%nat with 0%nat by lia.
      cbn [take]. rewrite app_nil_r. reflexivity.
Qed.

Lemma get_recent_purchases_take self count :
  get_recent_purchases self count = take (Z.to_nat count) (to_list self).
Proof.
  unfold get_recent_purchases. rewrite recent_nodes_spec. cbn [app length].
  rewrite Nat.sub_0_r. reflexivity.
Qed.

Lemma search_nodes_keys item_id nodes :
  is_Some (search_nodes item_id nodes) <-> item_id ∈ nodes.*1.
Proof.
  induction nodes as [|[id data] nodes IH]; cbn [search_nodes fmap list_fmap fst].
  - split; [intros [x Hx]; discriminate|]. intros Hin. apply elem_of_nil in Hin. contradiction.
  - rewrite elem_of_cons. destruct (decide (id = item_id)) as [->|Hne].
    + split; [tauto|eauto].
    + rewrite IH. split; [tauto|]. intros [?|?]; [congruence|assumption].
Qed.

Lemma record_calls_state calls :
  head (record_calls calls) =
    rev (map (fun c => (fst c, default empty_record (snd c))) calls) /\
  size (record_calls calls) = Z.of_nat (length calls).
Proof.
  unfold record_calls.
  assert (Hgen : forall h,
            let h' := fold_left (fun h c => history_add_purchase h (fst c) (snd c)) calls h in
            head h' = rev (map (fun c => (fst c, default empty_record (snd c))) calls) ++ head h /\
            size h' = size h + Z.of_nat (length calls)).
  { induction calls as [|c calls IH]; intros h; cbn [fold_left map rev length].
    - split; [reflexivity|lia].
    - destruct (IH (history_add_purchase h (fst c) (snd c))) as [Hh Hs].
      cbv zeta in Hh, Hs. rewrite Hh, Hs. unfold history_add_purchase.
      cbn [head size]. rewrite stored_data, <- app_assoc. split; [reflexivity|lia]. }
  destruct (Hgen empty_history) as [Hh Hs]. cbv zeta in Hh, Hs.
  rewrite Hh, Hs, app_nil_r. cbn [size empty_history]. split; [reflexivity|lia].
Qed.

Lemma search_nodes_rev item_id (calls : list (string * option purchase_record)) :
  search_nodes item_id (rev (map (fun c => (fst c, default empty_record (snd c))) calls))
  = last_data item_id calls.
Proof.
  unfold last_data. induction calls as [|c calls IH] using rev_ind; [reflexivity|].
  rewrite map_app, rev_app_distr, fold_left_app. cbn [map rev app fold_left search_nodes].
  destruct (decide (fst c = item_id)); [reflexivity|exact IH].
Qed.

(** X6. A [LinkedPurchaseHistory] filled by [add_purchase] calls lists the
    item ids latest first and counts the calls in [len]; [search_purchase]
    returns the data of the latest purchase of the item (the empty dict when
    it was given none) and [None] exactly for an item never purchased;
    [get_recent_purchases(count)] is the first [count] ids of [to_list()],
    nothing for [count <= 0]. *)
Theorem X6_linked_history_lists_latest_first
    (calls : list (string * option purchase_record)) (count : Z) :
  let h := record_calls calls in
  to_list h = rev (map fst calls) /\
  __len__ h = Z.of_nat (length (to_list h)) /\
  (forall item_id, search_purchase h item_id = last_data item_id calls) /\
  (forall item_id, search_purchase h item_id = None <-> item_id ∉ to_list h) /\
  get_recent_purchases h count = take (Z.to_nat count) (to_list h).
Proof.
  intros h. destruct (record_calls_state calls) as [Hhead Hsize]. fold h in Hhead, Hsize.
  assert (Hlist : to_list h = rev (map fst calls)).
  { unfold to_list. rewrite Hhead. rewrite <- map_rev.
    change (fmap fst) with (map (@fst string purchase_record)).
    rewrite map_map. cbn [fst]. rewrite map_rev. reflexivity. }
  split; [exact Hlist|]. split.
  - unfold __len__. rewrite Hsize, Hlist, length_rev, length_map. reflexivity.
  - split; [intros item_id; unfold search_purchase; rewrite Hhead; apply search_nodes_rev|].
    split; [|apply get_recent_purchases_take].
    intros item_id. unfold search_purchase, to_list.
    rewrite <- search_nodes_keys. destruct (search_nodes item_id (head h)).
    + split; [discriminate|]. intros Hn. exfalso. apply Hn. eauto.
    + split; [|reflexivity]. intros _ [x Hx]. discriminate.
Qed.

(** *** A user's accounts *)

Lemma Qsum_snoc (l : list Q) (x : Q) : (Qsum (l ++ [x]) == Qsum l + x)%Q.
Proof. unfold Qsum. rewrite fold_left_app. reflexivity. Qed.

Definition call : Type := string * string * option purchase_record.
Definition call_item (c : call) : string := fst (fst c).
Definition call_category (c : call) : string := snd (fst c).
Definition call_amount (c : call) : Q := purchase_amount (snd c).

(** The user after [User.add_purchase(item, category, data)] for each call. *)
Definition user_after (user_id : string) (info : option (odict string string))
    (calls : list call) : User :=
  fold_left (fun u c => user_add_purchase u (call_item c) (call_category c) (snd c))
            calls (new_user user_id info).

Lemma user_after_snoc user_id info calls c :
  user_after user_id info (calls ++ [c]) =
  user_add_purchase (user_after user_id info calls) (call_item c) (call_category c) (snd c).
Proof. unfold user_after. rewrite fold_left_app. reflexivity. Qed.

Lemma user_after_history user_id info calls :
  purchase_history (user_after user_id info calls) =
  record_calls (map (fun c => (call_item c, snd c)) calls).
Proof.
  induction calls as [|c calls IH] using rev_ind; [reflexivity|].
  rewrite user_after_snoc. cbn [purchase_history user_add_purchase]. rewrite IH.
  unfold record_calls. rewrite map_app, fold_left_app. reflexivity.
Qed.

Lemma has_purchased_spec (u : User) (item_id : string) :
  has_purchased u item_id = bool_decide (item_id ∈ get_items u).
Proof.
  unfold has_purchased, search_purchase, get_items, to_list.
  pose proof (search_nodes_keys item_id (head (purchase_history u))) as Hk.
  destruct (search_nodes item_id (head (purchase_history u))).
  - rewrite bool_decide_eq_true_2; [reflexivity|]. apply Hk. eauto.
  - rewrite bool_decide_eq_false_2; [reflexivity|]. intros Hin. apply Hk in Hin.
    destruct Hin as [x Hx]. discriminate.
Qed.

Definition in_category (category : string) (c : call) : bool :=
  bool_decide (call_category c = category).

(** X7. A [User] whose purchases were all recorded by [add_purchase]:
    [get_items()] lists the items latest first and [has_purchased(i)] is true
    exactly for them; [total_spent] is the sum, taken in call order, of the
    amounts of all purchases (1 for a purchase without data, 0 for data
    without an amount); the preference weight of a category is the sum, in
    call order, of the amounts of its purchases, and the preferences and the
    category spendings are the same table. *)
Theorem X7_user_accounts_add_up
    (user_id : string) (info : option (odict string string)) (calls : list call) :
  let u := user_after user_id info calls in
  get_items u = rev (map call_item calls) /\
  (forall item_id, has_purchased u item_id = bool_decide (item_id ∈ get_items u)) /\
  (total_spent u == Qsum (map call_amount calls))%Q /\
  (forall category,
     (default 0 (ODict.get category (preferences u)) ==
      Qsum (map call_amount (List.filter (in_category category) calls)))%Q) /\
  preferences u = category_spending u.
Proof.
  intros u. split.
  - unfold u, get_items. rewrite user_after_history.
    destruct (record_calls_state (map (fun c => (call_item c, snd c)) calls)) as [Hh _].
    unfold to_list. rewrite Hh.
    change (fmap fst) with (map (@fst string purchase_record)).
    rewrite map_rev. f_equal. rewrite !map_map. apply map_ext. reflexivity.
  - split; [intros item_id; apply has_purchased_spec|]. unfold u. clear u.
    induction calls as [|c calls IH] using rev_ind.
    + cbn. split; [reflexivity|]. split; [intros; reflexivity|]. reflexivity.
    + destruct IH as (Htotal & Hpref & Hsame).
      rewrite user_after_snoc.
      cbn [total_spent preferences category_spending user_add_purchase].
      fold (call_amount c). split.
      * rewrite map_app. cbn [map]. rewrite Qsum_snoc, Htotal. reflexivity.
      * split.
        -- intros category. rewrite List.filter_app, map_app. cbn [List.filter].
           unfold in_category at 2.
           destruct (decide (call_category c = category)) as [Heq|Hne].
           ++ rewrite bool_decide_eq_true_2 by exact Heq. cbn [map]. rewrite Qsum_snoc.
              rewrite Heq, CollabProofs.bump_get_eq. unfold CollabProofs.score_of.
              cbn [default]. rewrite Hpref. reflexivity.
           ++ rewrite bool_decide_eq_false_2 by exact Hne. cbn [map]. rewrite app_nil_r.
              rewrite CollabProofs.bump_get_ne by exact Hne. apply Hpref.
        -- rewrite Hsame. reflexivity.
Qed.

Lemma Qsum_bounds (l : list Q) :
  Forall (fun w => 0 <= w)%Q l ->
  (0 <= Qsum l)%Q /\ Forall (fun w => w <= Qsum l)%Q l.
Proof.
  induction 1 as [|x l Hx Hl [IH1 IH2]].
  - split; [unfold Qsum; simpl; Lqa.lra|constructor].
  - split; [rewrite SimilarityProofs.Qsum_cons; Lqa.lra|].
    constructor; [rewrite SimilarityProofs.Qsum_cons; Lqa.lra|].
    eapply Forall_impl; [exact IH2|]. intros w Hw. cbv beta in Hw.
    rewrite SimilarityProofs.Qsum_cons. Lqa.lra.
Qed.

Lemma Qsum_zero_all (l : list Q) :
  Forall (fun w => 0 <= w)%Q l -> (Qsum l == 0)%Q -> Forall (fun w => w == 0)%Q l.
Proof.
  intros Hl Hz. destruct (Qsum_bounds l Hl) as [_ Hle].
  rewrite Forall_forall in Hl, Hle |- *. intros w Hw.
  specialize (Hl w Hw). specialize (Hle w Hw). cbv beta in *. Lqa.lra.
Qed.

Lemma Qsum_positive_some (l : list Q) :
  Forall (fun w => 0 <= w)%Q l -> ~ (Qsum l == 0)%Q -> Exists (fun w => 0 < w)%Q l.
Proof.
  induction 1 as [|x l Hx Hl IH]; intros Hnz.
  - exfalso. apply Hnz. reflexivity.
  - destruct (Qlt_le_dec 0 x) as [Hpos|Hle]; [left; exact Hpos|]. right. apply IH.
    intros Hz. apply Hnz. rewrite SimilarityProofs.Qsum_cons, Hz. Lqa.lra.
Qed.

Lemma get_map_share (t : Q) (d : odict string Q) (category : string) :
  ODict.get category (map (fun cs => (fst cs, (snd cs / t)%Q)) d)
  = (fun weight => (weight / t)%Q) <$> ODict.get category d.
Proof.
  induction d as [|[k q] d IH]; cbn [ODict.get map fst snd]; [reflexivity|].
  destruct (decide (k = category)); [reflexivity|exact IH].
Qed.

Lemma get_value (d : odict string Q) (category : string) (weight : Q) :
  ODict.get category d = Some weight -> weight ∈ ODict.values d.
Proof.
  intros Hget. apply get_Some_in in Hget. unfold ODict.values.
  apply list_elem_of_fmap. exists (category, weight). auto.
Qed.

(** X8. For a user whose preference weights are not negative,
    [get_preferences(normalized=True)] raises [ZeroDivisionError] exactly
    when the user has preferences and all their weights are 0.  Otherwise it
    keeps the categories in their order and divides every weight by the sum
    of all weights, taken in their order: every normalised weight lies
    between 0 and 1.  It returns the empty dict for a user without
    preferences. *)
Theorem X8_normalised_preferences_are_shares_of_the_total (u : User) :
  Forall (fun w => 0 <= w)%Q (ODict.values (preferences u)) ->
  match get_preferences u with
  | Ok prefs =>
      ODict.keys prefs = ODict.keys (preferences u) /\
      (forall category weight,
         ODict.get category (preferences u) = Some weight ->
         ODict.get category prefs =
           Some (weight / Qsum (ODict.values (preferences u)))%Q) /\
      (forall category share,
         ODict.get category prefs = Some share -> (0 <= share <= 1)%Q) /\
      (preferences u <> [] ->
       Exists (fun w => 0 < w)%Q (ODict.values (preferences u)))
  | Raise e =>
      e = ZeroDivisionError /\ preferences u <> [] /\
      Forall (fun w => w == 0)%Q (ODict.values (preferences u))
  | OutOfFuel => False
  end.
Proof.
  intros Hnonneg. unfold get_preferences. destruct (preferences u) as [|p prefs] eqn:Hp.
  - split; [reflexivity|]. split; [discriminate|]. split; [discriminate|].
    intros Hne. contradiction.
  - set (d := p :: prefs) in *. set (total := Qsum (ODict.values d)).
    destruct (Qsum_bounds _ Hnonneg) as [Htotal Hle]. fold total in Htotal, Hle.
    destruct (Qeq_bool total 0) eqn:Hz.
    + split; [reflexivity|]. split; [discriminate|].
      apply Qsum_zero_all; [exact Hnonneg|]. apply Qeq_bool_iff. exact Hz.
    + assert (Hnz : ~ (total == 0)%Q).
      { intros Heq. apply Qeq_bool_iff in Heq. congruence. }
      assert (Hpos : (0 < total)%Q) by Lqa.lra.
      split; [apply SimilarityProofs.map_snd_keys|]. split.
      { intros category weight Hget. rewrite get_map_share, Hget. reflexivity. }
      split.
      { intros category share. rewrite get_map_share.
        destruct (ODict.get category d) as [weight|] eqn:Hget; [|discriminate].
        intros [= <-]. pose proof (get_value _ _ _ Hget) as Hin.
        rewrite Forall_forall in Hnonneg, Hle.
        specialize (Hnonneg weight Hin). specialize (Hle weight Hin). cbv beta in *.
        split.
        - apply Qle_shift_div_l; [exact Hpos|]. Lqa.lra.
        - apply Qle_shift_div_r; [exact Hpos|]. Lqa.lra. }
      intros _. apply Qsum_positive_some; assumption.
Qed.

Lemma X8_witness :
  match get_preferences CollabProofs.sample_user with
  | Ok prefs =>
      ODict.keys prefs = ODict.keys (preferences CollabProofs.sample_user) /\
      (forall category weight,
         ODict.get category (preferences CollabProofs.sample_user) = Some weight ->
         ODict.get category prefs =
           Some (weight / Qsum (ODict.values (preferences CollabProofs.sample_user)))%Q) /\
      (forall category share,
         ODict.get category prefs = Some share -> (0 <= share <= 1)%Q) /\
      (preferences CollabProofs.sample_user <> [] ->
       Exists (fun w => 0 < w)%Q (ODict.values (preferences CollabProofs.sample_user)))
  | Raise e =>
      e = ZeroDivisionError /\ preferences CollabProofs.sample_user <> [] /\
      Forall (fun w => w == 0)%Q (ODict.values (preferences CollabProofs.sample_user))
  | OutOfFuel => False
  end.
Proof.
  apply (X8_normalised_preferences_are_shares_of_the_total CollabProofs.sample_user).
  vm_compute. repeat constructor; discriminate.
Defined.

(** *** User stores built by their calls *)

Lemma default_some {A} (d x : A) : default d (Some x) = x.
Proof. reflexivity. Qed.

Definition op_user (o : op) : string :=
  match o with
  | AddUser u _ | AddPurchase u _ _ _ | SetPreference u _ _ | UpdateUserInfo u _ _ => u
  end.

(** The category of a purchase call of [user_id]. *)
Definition op_category (user_id : string) (o : op) : option string :=
  match o with
  | AddPurchase u _ c _ => if decide (u = user_id) then Some c else None
  | _ => None
  end.

Definition categories_of (ops : list op) (user_id : string) : list string :=
  omap (op_category user_id) ops.

Definition bought_categories (ops : list op) (user_id : string) : gset string :=
  list_to_set (categories_of ops user_id).

Lemma store_run_snoc ops o : run (ops ++ [o]) = apply_op (run ops) o.
Proof. unfold run. rewrite fold_left_app. reflexivity. Qed.

Lemma add_user_categories self user_id info :
  user_categories (add_user self user_id info) = user_categories self.
Proof. unfold add_user. destruct (ODict.mem user_id (users self)); reflexivity. Qed.

Lemma add_user_mem self user_id info :
  ODict.mem user_id (users (add_user self user_id info)) = true.
Proof.
  destruct (StoresProofs.add_user_get self user_id info) as (u & Hu & _).
  unfold ODict.mem. rewrite Hu. reflexivity.
Qed.

Lemma apply_op_user_keys self o :
  ODict.keys (users (apply_op self o)) =
  if ODict.mem (op_user o) (users self) then ODict.keys (users self)
  else ODict.keys (users self) ++ [op_user o].
Proof.
  destruct o as [u i|u i c d|u c q|u k v]; cbn [apply_op op_user].
  - apply StoresProofs.add_user_keys.
  - unfold add_purchase. cbn [users]. rewrite keys_set, add_user_mem.
    apply StoresProofs.add_user_keys.
  - unfold set_preference. cbn [users]. rewrite keys_set, add_user_mem.
    apply StoresProofs.add_user_keys.
  - unfold update_user_info. cbn [users]. rewrite keys_set, add_user_mem.
    apply StoresProofs.add_user_keys.
Qed.

Definition extend (category : string) (categories : list string) : list string :=
  if bool_decide (category ∈ categories) then categories else categories ++ [category].

Lemma apply_op_categories self o :
  user_categories (apply_op self o) =
  match o with
  | AddPurchase u _ c _ =>
      ODict.set u (extend c (default [] (ODict.get u (user_categories self))))
                (user_categories self)
  | _ => user_categories self
  end.
Proof.
  destruct o as [u i|u i c d|u c q|u k v]; cbn [apply_op].
  - apply add_user_categories.
  - unfold add_purchase. cbn [user_categories]. rewrite add_user_categories. reflexivity.
  - unfold set_preference. cbn [user_categories]. apply add_user_categories.
  - unfold update_user_info. cbn [user_categories]. apply add_user_categories.
Qed.

Lemma elem_of_extend c c' cats : c' ∈ extend c cats <-> c' = c \/ c' ∈ cats.
Proof.
  unfold extend. case_bool_decide as Hin.
  - split; [tauto|]. intros [->|?]; assumption.
  - rewrite elem_of_app, list_elem_of_singleton. tauto.
Qed.

Lemma categories_of_snoc ops o user_id c :
  c ∈ categories_of (ops ++ [o]) user_id <->
  c ∈ categories_of ops user_id \/ op_category user_id o = Some c.
Proof.
  unfold categories_of. rewrite !list_elem_of_omap. split.
  - intros (x & Hx & Hc). apply elem_of_app in Hx as [Hx|Hx]; [left; eauto|].
    apply list_elem_of_singleton in Hx as ->. right. exact Hc.
  - intros [(x & Hx & Hc)|Hc].
    + exists x. split; [apply elem_of_app; tauto|exact Hc].
    + exists o. split; [|exact Hc]. apply elem_of_app. right.
      apply list_elem_of_singleton. reflexivity.
Qed.

(** What a store built by its calls holds. *)
Record built (ops : list op) (self : UserStore) : Prop := {
  built_users_nodup : NoDup (ODict.keys (users self));
  built_categories_nodup : NoDup (ODict.keys (user_categories self));
  built_users : forall u, u ∈ ODict.keys (users self) <-> u ∈ map op_user ops;
  built_categories : forall u c,
      c ∈ default [] (ODict.get u (user_categories self)) <-> c ∈ categories_of ops u;
  built_known : forall u,
      u ∈ ODict.keys (user_categories self) -> u ∈ ODict.keys (users self)
}.

Lemma run_built ops : built ops (run ops).
Proof.
  induction ops as [|o ops IH] using rev_ind.
  - split.
    + constructor.
    + constructor.
    + intros u. reflexivity.
    + intros u c. reflexivity.
    + intros u Hu. exact Hu.
  - destruct IH as [Hun Hcn Hu Hc Hk]. rewrite store_run_snoc.
    assert (Hkeys : forall u, u ∈ ODict.keys (users (apply_op (run ops) o)) <->
                              u = op_user o \/ u ∈ ODict.keys (users (run ops))).
    { intros u. rewrite apply_op_user_keys.
      destruct (ODict.mem (op_user o) (users (run ops))) eqn:Hm.
      - split; [tauto|]. intros [->|?]; [|assumption].
        apply get_elem_of_keys, mem_get. exact Hm.
      - rewrite elem_of_app, list_elem_of_singleton. tauto. }
    split.
    + rewrite apply_op_user_keys.
      destruct (ODict.mem (op_user o) (users (run ops))) eqn:Hm; [exact Hun|].
      apply NoDup_app. split; [exact Hun|]. split; [|apply NoDup_singleton].
      intros x Hx Hx'. apply list_elem_of_singleton in Hx' as ->.
      apply get_elem_of_keys, mem_get in Hx. congruence.
    + rewrite apply_op_categories. destruct o; try exact Hcn.
      apply set_keys_NoDup. exact Hcn.
    + intros u. rewrite Hkeys, Hu, map_app, elem_of_app. cbn [map].
      rewrite list_elem_of_singleton. tauto.
    + intros u c. rewrite categories_of_snoc, <- Hc, apply_op_categories.
      destruct o as [u0 i|u0 i c0 d|u0 c0 q|u0 k v]; cbn [op_category];
        try (split; [tauto|intros [?|?]; [assumption|discriminate]]).
      destruct (decide (u0 = u)) as [->|Hne].
      * rewrite get_set_eq, default_some, elem_of_extend.
        split; [intros [->|?]; tauto|]. intros [?|[= ->]]; tauto.
      * rewrite get_set_ne by exact Hne.
        split; [tauto|intros [?|?]; [assumption|discriminate]].
    + intros u. rewrite apply_op_categories, Hkeys.
      destruct o as [u0 i|u0 i c0 d|u0 c0 q|u0 k v]; cbn [op_user];
        try (intros Hin; right; apply Hk; exact Hin).
      rewrite set_keys_elem. intros [->|Hin]; [tauto|]. right. apply Hk. exact Hin.
Qed.

Lemma bought_default ops u :
  list_to_set (default [] (ODict.get u (user_categories (run ops))))
  = bought_categories ops u.
Proof.
  apply set_eq. intros c. unfold bought_categories. rewrite !elem_of_list_to_set.
  apply (built_categories ops (run ops) (run_built ops)).
Qed.

Lemma bought_known ops u c :
  c ∈ bought_categories ops u -> u ∈ ODict.keys (users (run ops)).
Proof.
  unfold bought_categories. rewrite elem_of_list_to_set. intros Hc.
  apply (built_users ops (run ops) (run_built ops)).
  unfold categories_of in Hc. apply list_elem_of_omap in Hc as (o & Ho & Hcat).
  apply list_elem_of_fmap. exists o. split; [|exact Ho].
  destruct o as [u0 i0|u0 i0 c0 d0|u0 c0 q0|u0 k0 v0];
    cbn [op_category] in Hcat; try discriminate.
  destruct (decide (u0 = u)); [|discriminate]. cbn [op_user]. congruence.
Qed.

Lemma size_two_nonempty (X : gset string) : (2 <= base.size X)%nat -> exists c, c ∈ X.
Proof.
  intros Hs. apply size_pos_elem_of. lia.
Qed.

Lemma get_similar_users_spec ops u o :
  o ∈ get_similar_users (run ops) u <->
  o <> u /\ (2 <= base.size (bought_categories ops u ∩ bought_categories ops o))%nat.
Proof.
  pose proof (run_built ops) as [Hun Hcn Hu Hc Hk].
  unfold get_similar_users. destruct (ODict.mem u (users (run ops))) eqn:Hm; cbn [negb].
  - rewrite list_elem_of_fmap. split.
    + intros ([o' cats] & -> & Hin). cbn [fst].
      apply list_elem_of_In, filter_In in Hin as [Hin Hf]. cbn [fst snd] in Hf.
      apply andb_true_iff in Hf as [Hne Hsize].
      apply negb_true_iff, bool_decide_eq_false in Hne. split; [exact Hne|].
      apply Z.leb_le in Hsize. rewrite bought_default in Hsize.
      apply list_elem_of_In in Hin. apply (get_in_dict _ _ _ Hcn) in Hin.
      rewrite <- (bought_default ops o'), Hin, default_some. lia.
    + intros [Hne Hsize].
      destruct (size_two_nonempty _ Hsize) as [c Hc0].
      apply elem_of_intersection in Hc0 as [_ Hco].
      destruct (ODict.get o (user_categories (run ops))) as [cats|] eqn:Hg.
      * exists (o, cats). split; [reflexivity|].
        apply list_elem_of_In, filter_In. split.
        -- apply list_elem_of_In, get_Some_in. exact Hg.
        -- cbn [fst snd]. apply andb_true_iff. split.
           ++ apply negb_true_iff, bool_decide_eq_false. exact Hne.
           ++ apply Z.leb_le. rewrite bought_default.
              rewrite <- (bought_default ops o), Hg, default_some in Hsize. lia.
      * rewrite <- (bought_default ops o), Hg in Hco. cbn in Hco.
        apply elem_of_empty in Hco. contradiction.
  - split; [intros Hin; apply elem_of_nil in Hin; contradiction|].
    intros [_ Hsize]. exfalso.
    destruct (size_two_nonempty _ Hsize) as [c Hc0].
    apply elem_of_intersection in Hc0 as [Hcu _].
    apply bought_known, get_elem_of_keys, mem_get in Hcu. congruence.
Qed.

Lemma filter_keys_NoDup {V} (p : string * V -> bool) (d : odict string V) :
  NoDup (ODict.keys d) -> NoDup (List.filter p d).*1.
Proof.
  intros Hnd.
  assert (Hsub : (List.filter p d).*1 `sublist_of` ODict.keys d).
  { clear Hnd. unfold ODict.keys. induction d as [|x d IH]; [constructor|].
    cbn [List.filter]. destruct (p x); cbn [fmap list_fmap].
    - apply sublist_skip. exact IH.
    - apply sublist_cons. exact IH. }
  eapply sublist_NoDup; eassumption.
Qed.

(** X9. In a user store built by [add_user], [add_purchase],
    [set_preference] and [update_user_info] calls, [get_similar_users(u)]
    lists, each once, exactly the other users who share at least two
    purchase categories with [u]; the relation is symmetric, and nobody is
    listed for a user without two purchase categories or an unknown user. *)
Theorem X9_similar_users_share_two_purchase_categories (ops : list op) (u o : string) :
  let self := run ops in
  (o ∈ get_similar_users self u <->
     o <> u /\
     (2 <= base.size (bought_categories ops u ∩ bought_categories ops o))%nat) /\
  (o ∈ get_similar_users self u <-> u ∈ get_similar_users self o) /\
  NoDup (get_similar_users self u) /\
  ((base.size (bought_categories ops u) < 2)%nat -> get_similar_users self u = []) /\
  (user_store_contains self u = false -> get_similar_users self u = []).
Proof.
  intros self. split; [apply get_similar_users_spec|]. split.
  - unfold self. rewrite !get_similar_users_spec.
    rewrite (comm_L (∩) (bought_categories ops o)). split; intros [Hne Hs]; auto.
  - split.
    + unfold self, get_similar_users. destruct (negb _); [constructor|].
      apply filter_keys_NoDup. apply (built_categories_nodup ops (run ops) (run_built ops)).
    + split.
      * intros Hsmall. destruct (get_similar_users self u) as [|x l] eqn:Hl; [reflexivity|].
        exfalso. assert (Hx : x ∈ get_similar_users self u) by (rewrite Hl; left).
        apply get_similar_users_spec in Hx as [_ Hs].
        pose proof (subseteq_size (bought_categories ops u ∩ bought_categories ops x)
                      (bought_categories ops u)) as Hle.
        assert (Hsub : bought_categories ops u ∩ bought_categories ops x
                       ⊆ bought_categories ops u).
        { intros c Hc. apply elem_of_intersection in Hc. tauto. }
        specialize (Hle Hsub). lia.
      * intros Hm. unfold self, get_similar_users, user_store_contains in *.
        rewrite Hm. reflexivity.
Qed.

(** X10. In a user store built by its calls, [get_users_by_category(c)]
    lists, each once, exactly the users with a purchase recorded in
    category [c]; users that were only added, or only given preferences, are
    not listed. *)
Theorem X10_users_by_category_are_the_buyers (ops : list op) (category u : string) :
  (u ∈ get_users_by_category (run ops) category <->
     exists item_id purchase_data,
       AddPurchase u item_id category purchase_data ∈ ops) /\
  NoDup (get_users_by_category (run ops) category).
Proof.
  pose proof (run_built ops) as [Hun Hcn Hu Hc Hk]. split.
  - assert (Hcat : category ∈ categories_of ops u <->
                   exists item_id purchase_data,
                     AddPurchase u item_id category purchase_data ∈ ops).
    { unfold categories_of. rewrite list_elem_of_omap. split.
      - intros (o & Ho & Hcat).
        destruct o as [u0 i0|u0 i0 c0 d0|u0 c0 q0|u0 k0 v0];
          cbn [op_category] in Hcat; try discriminate.
        destruct (decide (u0 = u)) as [->|]; [|discriminate].
        injection Hcat as ->. eauto.
      - intros (i & d & Hin). exists (AddPurchase u i category d). split; [exact Hin|].
        cbn [op_category]. rewrite decide_True by reflexivity. reflexivity. }
    rewrite <- Hcat, <- Hc. unfold get_users_by_category. rewrite list_elem_of_fmap. split.
    + intros ([u' cats] & -> & Hin). cbn [fst].
      apply list_elem_of_In, filter_In in Hin as [Hin Hf]. cbn [snd] in Hf.
      apply bool_decide_eq_true in Hf. apply list_elem_of_In in Hin.
      rewrite (get_in_dict _ _ _ Hcn Hin). exact Hf.
    + intros Hin. destruct (ODict.get u (user_categories (run ops))) as [cats|] eqn:Hg.
      * exists (u, cats). split; [reflexivity|]. apply list_elem_of_In, filter_In.
        split; [apply list_elem_of_In, get_Some_in; exact Hg|].
        cbn [snd]. apply bool_decide_eq_true. exact Hin.
      * cbn in Hin. apply elem_of_nil in Hin. contradiction.
  - apply filter_keys_NoDup. exact Hcn.
Qed.

(** *** Product stores built by [add_product] calls *)

Definition product_call : Type := string * string * option product_info.
Definition call_id (c : product_call) : string := fst (fst c).
Definition call_cat (c : product_call) : string := snd (fst c).

Lemma load_products_snoc calls c :
  load_products (calls ++ [c]) =
  add_product (load_products calls) (call_id c) (call_cat c) (snd c).
Proof. unfold load_products. rewrite fold_left_app. reflexivity. Qed.

Lemma index_append_get_ne key key' item_id index :
  key <> key' ->
  ODict.get key' (index_append key item_id index) = ODict.get key' index.
Proof. intros Hne. unfold index_append. apply get_set_ne. exact Hne. Qed.

(** One round of indexing: the list under [key'] after appending [item_id]
    under [key]. *)
Lemma index_append_list key key' item_id index :
  default [] (ODict.get key' (index_append key item_id index)) =
  default [] (ODict.get key' index) ++ (if decide (key = key') then [item_id] else []).
Proof.
  destruct (decide (key = key')) as [->|Hne].
  - rewrite StoresProofs.index_append_get. reflexivity.
  - rewrite index_append_get_ne by exact Hne. rewrite app_nil_r. reflexivity.
Qed.

(** The brand and the price range a call is indexed under, if any. *)
Definition call_brand (c : product_call) : option string :=
  if info_truthy (snd c)
  then Some (default "unknown" (brand (default empty_info (snd c))))
  else None.

Definition call_price_range (c : product_call) : option string :=
  if info_truthy (snd c)
  then Some (_get_price_range (default 0%Q (price (default empty_info (snd c)))))
  else None.

Definition calls_under {A} `{EqDecision A} (key_of : product_call -> A) (key : A)
    (calls : list product_call) : list string :=
  map call_id (List.filter (fun c => bool_decide (key_of c = key)) calls).

Lemma calls_under_snoc {A} `{EqDecision A} (key_of : product_call -> A) key calls c :
  calls_under key_of key (calls ++ [c]) =
  calls_under key_of key calls ++ (if decide (key_of c = key) then [call_id c] else []).
Proof.
  unfold calls_under. rewrite List.filter_app, map_app. cbn [List.filter].
  destruct (decide (key_of c = key)) as [Heq|Hne].
  - rewrite bool_decide_eq_true_2 by exact Heq. reflexivity.
  - rewrite bool_decide_eq_false_2 by exact Hne. reflexivity.
Qed.

(** The record of the last call for an item id. *)
Definition last_product (item_id : string) (calls : list product_call) : option Product :=
  fold_left (fun acc c => if decide (call_id c = item_id)
                          then Some (new_product (call_id c) (call_cat c) (snd c))
                          else acc)
            calls None.

(** X11. In a [ProductStore] filled by [add_product] calls, [get_product]
    returns the record of the latest call for the id ([get_category] its
    category, or ["unknown"] for an id never added), while every index keeps
    one entry per call, in call order: [get_items_by_category(c)] lists the
    ids of all calls with category [c], so a product added twice is listed
    twice and a product added again under another category stays listed
    under the old one; [get_items_by_brand(b)] lists the ids of the calls
    with a non-empty info whose brand (["unknown"] when missing) is [b]. *)
Theorem X11_product_indexes_keep_one_entry_per_call (calls : list product_call) :
  let self := load_products calls in
  (forall item_id, get_product self item_id = last_product item_id calls) /\
  (forall item_id,
     get_category self item_id =
       match last_product item_id calls with
       | Some product => category product
       | None => "unknown"
       end) /\
  (forall item_id,
     product_store_contains self item_id = bool_decide (item_id ∈ map call_id calls)) /\
  (forall c, get_items_by_category self c = calls_under call_cat c calls) /\
  (forall b, get_items_by_brand self b = calls_under call_brand (Some b) calls) /\
  (forall r, default [] (ODict.get r (price_range_index self)) =
             calls_under call_price_range (Some r) calls).
Proof.
  intros self.
  assert (Hprod : forall item_id, get_product self item_id = last_product item_id calls).
  { unfold self. clear self. intros item_id.
    induction calls as [|c calls IH] using rev_ind; [reflexivity|].
    rewrite load_products_snoc. unfold last_product. rewrite fold_left_app. cbn [fold_left].
    fold (last_product item_id calls). rewrite <- IH.
    unfold get_product, add_product.
    destruct (info_truthy (snd c)); cbn [items];
      (destruct (decide (call_id c = item_id)) as [<-|Hne];
       [apply get_set_eq|apply get_set_ne; exact Hne]). }
  split; [exact Hprod|]. split.
  - intros item_id. rewrite <- Hprod. reflexivity.
  - split.
    + intros item_id. unfold product_store_contains, ODict.mem.
      change (ODict.get item_id (items self)) with (get_product self item_id).
      rewrite Hprod. clear. induction calls as [|c calls IH] using rev_ind; [reflexivity|].
      unfold last_product. rewrite fold_left_app. cbn [fold_left].
      fold (last_product item_id calls). rewrite map_app. cbn [map].
      destruct (decide (call_id c = item_id)) as [<-|Hne].
      * rewrite bool_decide_eq_true_2; [reflexivity|].
        apply elem_of_app. right. apply list_elem_of_singleton. reflexivity.
      * rewrite IH. apply bool_decide_ext. rewrite elem_of_app, list_elem_of_singleton.
        split; [tauto|]. intros [?|?]; [assumption|congruence].
    + unfold self. clear. induction calls as [|c calls IH] using rev_ind.
      * split; [|split]; intros; reflexivity.
      * destruct IH as (Hcat & Hbrand & Hprice). rewrite load_products_snoc.
        split; [|split].
        -- intros k. rewrite calls_under_snoc, <- Hcat.
           unfold get_items_by_category, add_product.
           destruct (info_truthy (snd c)); cbn [category_index]; apply index_append_list.
        -- intros b. rewrite calls_under_snoc, <- Hbrand.
           unfold get_items_by_brand, add_product, call_brand.
           destruct (info_truthy (snd c)); cbn [brand_index].
           ++ rewrite index_append_list.
              destruct (decide (default "unknown" (brand (default empty_info (snd c))) = b))
                as [Heq|Hne].
              ** rewrite decide_True by congruence. reflexivity.
              ** rewrite decide_False by congruence. reflexivity.
           ++ rewrite decide_False by discriminate. rewrite app_nil_r. reflexivity.
        -- intros r. rewrite calls_under_snoc, <- Hprice.
           unfold add_product, call_price_range.
           destruct (info_truthy (snd c)); cbn [price_range_index].
           ++ rewrite index_append_list.
              destruct (decide (_get_price_range
                                  (default 0%Q (price (default empty_info (snd c)))) = r))
                as [Heq|Hne].
              ** rewrite decide_True by congruence. reflexivity.
              ** rewrite decide_False by congruence. reflexivity.
           ++ rewrite decide_False by discriminate. rewrite app_nil_r. reflexivity.
Qed.

End StoresQueriesProofs.

(** * Proofs: what the recommendation methods never return *)

Module RecommenderMoreProofs.
Import Stores Recommender StoresQueries RecommenderMore.
Import ODictProofs ODictFacts RecommenderProofs CollabProofs StoresQueriesProofs.

(** *** Content-based recommendations *)

Definition fresh_item (self : RecommenderSystem) (user_items : list string)
    (x : string) : Prop :=
  (x ∉ user_items) /\ _is_item_available self x = true.

Lemma wanted_fresh_item self user_items recs item :
  wanted self user_items recs item = true -> fresh_item self user_items item.
Proof.
  unfold wanted. intros Hw. apply andb_true_iff in Hw as [Hw Ha].
  apply andb_true_iff in Hw as [Hu _].
  apply negb_true_iff, bool_decide_eq_false in Hu. split; assumption.
Qed.

Lemma scan_items_all_elem self user_items items : forall recs x,
  x ∈ scan_items_all self user_items items recs ->
  x ∈ recs \/ (x ∈ items /\ fresh_item self user_items x).
Proof.
  induction items as [|item items IH]; intros recs x; cbn [scan_items_all]; [tauto|].
  intros Hx. apply IH in Hx. destruct Hx as [Hx|[Hx Hf]].
  - destruct (wanted self user_items recs item) eqn:Hw; [|tauto].
    apply elem_of_app in Hx as [Hx|Hx]; [tauto|].
    apply list_elem_of_singleton in Hx as ->. right.
    split; [apply elem_of_cons; tauto|]. eapply wanted_fresh_item. exact Hw.
  - right. split; [apply elem_of_cons; tauto|exact Hf].
Qed.

Lemma scan_categories_all_elem self user_items cats : forall recs x,
  x ∈ scan_categories_all self user_items cats recs ->
  x ∈ recs \/
  exists c, c ∈ cats.*1 /\ x ∈ get_items_by_category (product_store self) c /\
            fresh_item self user_items x.
Proof.
  induction cats as [|c cats IH]; intros recs x; cbn [scan_categories_all]; [tauto|].
  intros Hx. apply IH in Hx. destruct Hx as [Hx|(c' & Hc' & Hx & Hf)].
  - apply scan_items_all_elem in Hx as [Hx|[Hx Hf]]; [tauto|].
    right. exists (fst c). split; [apply elem_of_cons; tauto|]. tauto.
  - right. exists c'. split; [apply elem_of_cons; tauto|]. tauto.
Qed.

Lemma take_NoDup {A} (n : nat) (l : list A) : NoDup l -> NoDup (take n l).
Proof. intros Hnd. eapply sublist_NoDup; [exact Hnd|apply sublist_take]. Qed.

Lemma elem_of_take_list {A} (n : nat) (l : list A) (x : A) : x ∈ take n l -> x ∈ l.
Proof. intros Hx. eapply elem_of_sublist; [exact Hx|apply sublist_take]. Qed.

Lemma recommend_by_category_failure self user_id top_k :
  match recommend_by_category self user_id top_k with
  | Ok _ => True
  | Raise e => e = ZeroDivisionError
  | OutOfFuel => False
  end.
Proof.
  unfold recommend_by_category.
  destruct (ODict.get user_id (users (user_store self))) as [user|]; [|exact I].
  destruct (SimilarityProofs.get_preferences_cases user) as [[prefs Hp]|Hp];
    rewrite Hp; cbn [rbind]; [exact I|reflexivity].
Qed.

(** X12. [recommend_by_category] never returns an item twice, an item the
    user has purchased, or an unavailable item, and never more than [top_k]
    items; every item it returns is indexed under a category the user has a
    preference for.  It returns nothing for an unknown user, and fails only
    with the [ZeroDivisionError] of the normalisation. *)
Theorem X12_content_recommendations_are_new_and_available
    (self : RecommenderSystem) (user_id : string) (top_k : Z) :
  match recommend_by_category self user_id top_k with
  | Ok recs =>
      NoDup recs /\ (length recs <= Z.to_nat top_k)%nat /\
      (ODict.get user_id (users (user_store self)) = None -> recs = []) /\
      (forall item, item ∈ recs ->
         exists user category,
           ODict.get user_id (users (user_store self)) = Some user /\
           category ∈ ODict.keys (preferences user) /\
           item ∈ get_items_by_category (product_store self) category /\
           (item ∉ get_items user) /\ _is_item_available self item = true)
  | Raise e => e = ZeroDivisionError
  | OutOfFuel => False
  end.
Proof.
  rewrite recommend_by_category_prefix.
  destruct (content_all self user_id) as [all| |] eqn:Hall; cbn [rbind].
  - split; [apply take_NoDup, (content_all_NoDup self user_id); exact Hall|].
    split; [rewrite length_take; lia|].
    unfold content_all in Hall.
    destruct (ODict.get user_id (users (user_store self))) as [user|].
    + split; [discriminate|]. intros item Hitem. apply elem_of_take_list in Hitem.
      destruct (get_preferences user) as [prefs| |] eqn:Hp; cbn [rbind] in Hall;
        try discriminate.
      injection Hall as <-. apply scan_categories_all_elem in Hitem.
      destruct Hitem as [Hitem|(c & Hc & Hx & Hnew & Hav)].
      { apply elem_of_nil in Hitem. contradiction. }
      exists user, c. split; [reflexivity|]. split; [|tauto].
      rewrite <- (SimilarityProofs.get_preferences_keys user prefs Hp).
      unfold ODict.keys. rewrite <- (sort_desc_perm by_score prefs). exact Hc.
    + injection Hall as <-. split; [intros _; apply take_nil|].
      intros item Hitem. rewrite take_nil in Hitem. apply elem_of_nil in Hitem. contradiction.
  - unfold content_all in Hall.
    destruct (ODict.get user_id (users (user_store self))) as [user|]; [|discriminate].
    destruct (SimilarityProofs.get_preferences_cases user) as [[prefs Hp]|Hp];
      rewrite Hp in Hall; cbn [rbind] in Hall; congruence.
  - unfold content_all in Hall.
    destruct (ODict.get user_id (users (user_store self))) as [user|]; [|discriminate].
    destruct (SimilarityProofs.get_preferences_cases user) as [[prefs Hp]|Hp];
      rewrite Hp in Hall; cbn [rbind] in Hall; discriminate.
Qed.

(** *** Collaborative recommendations *)

Lemma built_forallb ops :
  forallb (fun o => ODict.mem o (users (run ops)))
          (ODict.keys (user_categories (run ops))) = true.
Proof.
  apply forallb_forall. intros o Ho. apply mem_get, get_elem_of_keys.
  apply (built_known ops (run ops) (run_built ops)). apply list_elem_of_In. exact Ho.
Qed.

Lemma top_scored_items top_k (item_scores : odict string Q) :
  NoDup (ODict.keys item_scores) ->
  NoDup (top_scored top_k item_scores) /\
  (length (top_scored top_k item_scores) <= Z.to_nat top_k)%nat /\
  forall x, x ∈ top_scored top_k item_scores -> x ∈ ODict.keys item_scores.
Proof.
  intros Hnd. destruct (top_scored_ranked top_k item_scores) as (ranking & Hperm & _ & ->).
  assert (Hkeys : ranking.*1 ≡ₚ ODict.keys item_scores).
  { unfold ODict.keys. rewrite Hperm. reflexivity. }
  rewrite fmap_take. split.
  - apply take_NoDup. rewrite Hkeys. exact Hnd.
  - split; [rewrite length_take; lia|].
    intros x Hx. apply elem_of_take_list in Hx. rewrite <- Hkeys. exact Hx.
Qed.

(** X13. On a user store built by its calls, with any product store,
    [recommend_by_similar_users] always returns (no [KeyError]); it never
    returns an item twice, an item the user has purchased or an unavailable
    item, never more than [top_k] items, and every item it returns was
    purchased by one of the user's similar users. *)
Theorem X13_collaborative_recommendations_are_new_and_available
    (ops : list op) (products : ProductStore) (user_id : string) (top_k : Z) :
  let self := {| user_store := run ops; product_store := products |} in
  exists recs,
    recommend_by_similar_users self user_id top_k = Ok recs /\
    NoDup recs /\ (length recs <= Z.to_nat top_k)%nat /\
    (user_store_contains (run ops) user_id = false -> recs = []) /\
    (forall item, item ∈ recs ->
       _is_item_available self item = true /\
       (item ∉ get_user_items (run ops) user_id) /\
       exists other, other ∈ get_similar_users (run ops) user_id /\
                     item ∈ get_user_items (run ops) other).
Proof.
  intros self. unfold recommend_by_similar_users. cbn [user_store self].
  unfold user_store_contains, ODict.mem, get_user_items.
  destruct (ODict.get user_id (users (run ops))) as [user|] eqn:Huser.
  - destruct (score_similar_total self (get_items user)
                (map (fun o => (o, 1%Q)) (get_similar_users (run ops) user_id)) [])
      as [T HT].
    { intros o w Hin. apply list_elem_of_fmap in Hin as (o' & Heq & Hin).
      injection Heq as -> ->.
      apply (get_similar_users_known (run ops) user_id); [apply built_forallb|exact Hin]. }
    rewrite HT. cbn [rbind].
    destruct (score_similar_scored_as self _ _ _ HT) as [Hnd Hcand].
    destruct (top_scored_items top_k T Hnd) as (Hnodup & Hlen & Hsub).
    exists (top_scored top_k T). split; [reflexivity|]. split; [exact Hnodup|].
    split; [exact Hlen|]. split; [discriminate|].
    intros item Hitem. apply Hsub, Hcand in Hitem.
    destruct Hitem as (other & w & other_user & Hin & Hother & Hx & Hnew & Hav).
    split; [exact Hav|]. split; [exact Hnew|].
    apply list_elem_of_fmap in Hin as (o' & Heq & Hin). injection Heq as -> ->.
    exists o'. split; [exact Hin|]. cbn [user_store self] in Hother.
    rewrite Hother. exact Hx.
  - exists []. split; [reflexivity|]. split; [constructor|]. split; [cbn; lia|].
    split; [reflexivity|]. intros item Hitem. apply elem_of_nil in Hitem. contradiction.
Qed.

(** *** Hybrid recommendations *)

Lemma fold_bump_keys {A} (key : A -> string) (delta : A -> Q) (l : list A) :
  forall (T : odict string Q),
    NoDup (ODict.keys T) ->
    let T' := fold_left (fun scored a => bump (key a) (delta a) scored) l T in
    NoDup (ODict.keys T') /\
    forall x, x ∈ ODict.keys T' <-> x ∈ ODict.keys T \/ x ∈ map key l.
Proof.
  induction l as [|a l IH]; intros T Hnd; cbn [fold_left map].
  - split; [exact Hnd|]. intros x. split; [tauto|].
    intros [?|Hn]; [assumption|apply elem_of_nil in Hn; contradiction].
  - destruct (IH (bump (key a) (delta a) T)) as [Hnd' Hk].
    { unfold bump. apply set_NoDup. exact Hnd. }
    split; [exact Hnd'|]. intros x. cbv zeta in Hk. rewrite Hk, bump_keys, elem_of_cons.
    tauto.
Qed.

Lemma add_position_scores_keys weight recs (T : odict string Q) :
  NoDup (ODict.keys T) ->
  NoDup (ODict.keys (add_position_scores weight recs T)) /\
  forall x, x ∈ ODict.keys (add_position_scores weight recs T) <->
            x ∈ ODict.keys T \/ x ∈ recs.
Proof.
  intros Hnd. rewrite add_position_scores_fold.
  destruct (fold_bump_keys snd (fun ix => position_score weight (length recs) (fst ix))
              (imap (fun i item => (i, item)) recs) T Hnd) as [Hnd' Hk].
  split; [exact Hnd'|]. intros x. cbv zeta in Hk. unfold score_step. rewrite Hk.
  assert (Hsnd : map snd (imap (fun i item => (i, item)) recs) = recs).
  { assert (Hg : forall (f : nat -> nat) (l : list string),
               map snd (imap (fun i item => (f i, item)) l) = l).
    { intros f l. revert f. induction l as [|y l IH]; intros f; [reflexivity|].
      cbn [imap map snd]. f_equal. apply (IH (f ∘ S)). }
    apply (Hg (fun i => i)). }
  rewrite Hsnd. reflexivity.
Qed.

Lemma score_similar_failure self user_items similar_users : forall T,
  match score_similar self user_items similar_users T with
  | Ok _ => True
  | Raise e => e = KeyError
  | OutOfFuel => False
  end.
Proof.
  induction similar_users as [|[o w] rest IH]; intros T; cbn [score_similar]; [exact I|].
  destruct (ODict.get o (users (user_store self))); [apply IH|reflexivity].
Qed.

(** X14. [recommend_hybrid], whatever the weights, returns only items that
    [recommend_by_category] or [recommend_by_similar_users] return for
    [2 * top_k], none twice and at most [top_k] of them; it fails only where
    one of the two fails ([ZeroDivisionError] of the normalisation,
    [KeyError] for a category list without a user). *)
Theorem X14_hybrid_recommendations_come_from_both_methods
    (self : RecommenderSystem) (user_id : string) (top_k : Z)
    (content_weight collab_weight : Q) :
  match recommend_hybrid self user_id top_k content_weight collab_weight with
  | Ok recs =>
      NoDup recs /\ (length recs <= Z.to_nat top_k)%nat /\
      exists content collab,
        recommend_by_category self user_id (top_k * 2) = Ok content /\
        recommend_by_similar_users self user_id (top_k * 2) = Ok collab /\
        forall item, item ∈ recs -> item ∈ content \/ item ∈ collab
  | Raise e => e = ZeroDivisionError \/ e = KeyError
  | OutOfFuel => False
  end.
Proof.
  unfold recommend_hybrid.
  pose proof (recommend_by_category_failure self user_id (top_k * 2)) as Hcontent.
  destruct (recommend_by_category self user_id (top_k * 2)) as [content|e|];
    cbn [rbind]; [|left; exact Hcontent|exact Hcontent].
  clear Hcontent.
  assert (Hcollab : match recommend_by_similar_users self user_id (top_k * 2) with
                    | Ok _ => True | Raise e => e = KeyError | OutOfFuel => False end).
  { unfold recommend_by_similar_users.
    destruct (ODict.get user_id (users (user_store self))) as [user|]; [|exact I].
    pose proof (score_similar_failure self (get_items user)
                  (map (fun o => (o, 1%Q)) (get_similar_users (user_store self) user_id)) [])
      as Hs.
    destruct (score_similar self (get_items user) _ []); cbn [rbind]; [exact I|exact Hs|exact Hs]. }
  destruct (recommend_by_similar_users self user_id (top_k * 2)) as [collab|e|];
    cbn [rbind]; [|right; exact Hcollab|exact Hcollab].
  unfold hybrid_merge, nlargest.
  destruct (add_position_scores_keys content_weight content [] (NoDup_nil_2))
    as [Hnd1 Hk1].
  destruct (add_position_scores_keys collab_weight collab _ Hnd1) as [Hnd2 Hk2].
  set (scored := add_position_scores collab_weight collab
                   (add_position_scores content_weight content [])) in *.
  assert (Hperm : (sort_desc by_score scored).*1 ≡ₚ ODict.keys scored).
  { unfold ODict.keys. rewrite (sort_desc_perm by_score scored). reflexivity. }
  rewrite fmap_take. split; [apply take_NoDup; rewrite Hperm; exact Hnd2|].
  split; [rewrite length_take; lia|].
  exists content, collab. split; [reflexivity|]. split; [reflexivity|].
  intros item Hitem. apply elem_of_take_list in Hitem. rewrite Hperm in Hitem.
  apply Hk2 in Hitem as [Hitem|Hitem]; [|tauto].
  apply Hk1 in Hitem as [Hitem|Hitem]; [|tauto].
  apply elem_of_nil in Hitem. contradiction.
Qed.

(** *** Recommendations from the favourite categories *)

Definition scored_zero (preferred : list string) : list (string * Q) :=
  map (fun c => (c, 0%Q)) preferred.

Lemma scan_preferred_categories self top_k user_items preferred : forall recs,
  scan_preferred self top_k user_items preferred recs =
  scan_categories self top_k user_items (scored_zero preferred) recs.
Proof.
  induction preferred as [|c preferred IH]; intros recs; [reflexivity|].
  cbn [scan_preferred scan_categories scored_zero map].
  destruct (top_k <=? Z.of_nat (length recs)); [reflexivity|]. apply IH.
Qed.

Lemma favourites_prefix self user_id top_k :
  recommend_based_on_preferences self user_id top_k =
  match ODict.get user_id (users (user_store self)) with
  | None => []
  | Some user =>
      take (Z.to_nat top_k)
           (scan_categories_all self (get_items user)
              (scored_zero (preferred_categories user)) [])
  end.
Proof.
  unfold recommend_based_on_preferences.
  destruct (ODict.get user_id (users (user_store self))) as [user|]; [|reflexivity].
  rewrite scan_preferred_categories.
  destruct (Z_le_gt_dec top_k 0) as [Hk|Hk].
  - rewrite scan_categories_nonpositive by exact Hk.
    replace (Z.to_nat top_k) with 0%nat by lia.
    unfold py_prefix. destruct (0 <=? top_k); rewrite take_nil; reflexivity.
  - unfold py_prefix. destruct (Z.leb_spec 0 top_k); [|lia].
    assert (Hn : top_k = Z.of_nat (Z.to_nat top_k)) by lia.
    generalize dependent (Z.to_nat top_k). intros n Hn. subst top_k.
    rewrite scan_categories_take by (simpl; lia).
    rewrite take_take. f_equal. lia.
Qed.

Lemma elem_of_preferred_categories (user : User) (category : string) :
  category ∈ preferred_categories user <->
  category <> "" /\
  exists key, key ∈ ["Favorite_Category_1"; "Favorite_Category_2"; "Favorite_Category_3"] /\
              get_info user key = Some category.
Proof.
  unfold preferred_categories. rewrite list_elem_of_omap. split.
  - intros (key & Hkey & Hc). destruct (get_info user key) as [c|] eqn:Hg; [|discriminate].
    destruct (decide (c = "")) as [|Hne]; [discriminate|]. injection Hc as <-.
    split; [exact Hne|]. exists key. auto.
  - intros (Hne & key & Hkey & Hg). exists key. split; [exact Hkey|].
    rewrite Hg. rewrite decide_False by exact Hne. reflexivity.
Qed.

(** X15. [recommend_based_on_preferences] returns only available items the
    user has not purchased, none twice and at most [top_k], each indexed
    under one of the user's favourite categories, that is a non-empty value
    of ['Favorite_Category_1'] to ['Favorite_Category_3'] in the user's
    info; it returns nothing for an unknown user or a user without such a
    value. *)
Theorem X15_favourite_category_recommendations_are_new_and_available
    (self : RecommenderSystem) (user_id : string) (top_k : Z) :
  let recs := recommend_based_on_preferences self user_id top_k in
  NoDup recs /\ (length recs <= Z.to_nat top_k)%nat /\
  (forall item, item ∈ recs ->
     exists user category key,
       ODict.get user_id (users (user_store self)) = Some user /\
       key ∈ ["Favorite_Category_1"; "Favorite_Category_2"; "Favorite_Category_3"] /\
       get_info user key = Some category /\ category <> "" /\
       item ∈ get_items_by_category (product_store self) category /\
       (item ∉ get_items user) /\ _is_item_available self item = true) /\
  (ODict.get user_id (users (user_store self)) = None -> recs = []) /\
  (forall user, ODict.get user_id (users (user_store self)) = Some user ->
                preferred_categories user = [] -> recs = []).
Proof.
  intros recs. unfold recs. clear recs. rewrite favourites_prefix.
  destruct (ODict.get user_id (users (user_store self))) as [user|].
  - split; [apply take_NoDup, scan_categories_all_NoDup; constructor|].
    split; [rewrite length_take; lia|]. split.
    + intros item Hitem. apply elem_of_take_list, scan_categories_all_elem in Hitem.
      destruct Hitem as [Hitem|(c & Hc & Hx & Hnew & Hav)].
      { apply elem_of_nil in Hitem. contradiction. }
      assert (Hpref : c ∈ preferred_categories user).
      { unfold scored_zero in Hc. apply list_elem_of_fmap in Hc as ([c' q] & -> & Hc).
        apply list_elem_of_fmap in Hc as (c'' & Heq & Hc). injection Heq as -> _.
        exact Hc. }
      apply elem_of_preferred_categories in Hpref as (Hne & key & Hkey & Hg).
      exists user, c, key. auto 10.
    + split; [discriminate|]. intros user' [= <-] Hnone. rewrite Hnone.
      cbn. apply take_nil.
  - split; [constructor|]. split; [cbn; lia|]. split.
    + intros item Hitem. apply elem_of_nil in Hitem. contradiction.
    + split; [reflexivity|]. discriminate.
Qed.

End RecommenderMoreProofs.

(** * Proofs: the product store over hash tables *)

Module OptimizedStoresProofs.
Import Stores OptimizedStores HashTableProofs ODictProofs ODictFacts.

(** *** One table, seen through [get] *)

Section Tables.
Context {V : Type}.
Implicit Types (t : HashTable.OptimizedHashTable V) (k : string).

Definition good t : Prop := HashTable.table_ok t /\ HashTable.load_ok t.

Lemma get_view t k : good t -> HashTable.get t k = Ok (view t k).
Proof. intros [Hok _]. rewrite get_spec by exact Hok. reflexivity. Qed.

Lemma view_empty_key t : good t -> view t "" = None.
Proof.
  intros [Hok _]. unfold view. rewrite assoc_not_in; [reflexivity|].
  apply empty_key_absent, Hok.
Qed.

Lemma view_init (c : Z) k : view (HashTable.init c : HashTable.OptimizedHashTable V) k = None.
Proof.
  unfold view, HashTable.init, HashTable.items. simpl.
  rewrite concat_replicate_nil. reflexivity.
Qed.

Lemma insert_view fuel t k (v : option V) :
  good t -> k <> "" ->
  exists t' b,
    HashTable.insert (S (S fuel)) t k v = Ok (t', b) /\ good t' /\
    forall k', view t' k' = if decide (k' = k) then v else view t k'.
Proof.
  intros [Hok Hload] Hk.
  destruct (insert_spec fuel t k v Hok Hload Hk) as (t' & b & Hins & Hok' & Hload' & Hg & _).
  exists t', b. split; [exact Hins|]. split; [split; assumption|].
  intros k'. unfold view. rewrite Hg. destruct (decide (k' = k)); reflexivity.
Qed.

Lemma delete_view t k :
  good t ->
  exists t' b,
    HashTable.delete t k = Ok (t', b) /\ good t' /\
    (forall k', view t' k' = if decide (k' = k) then None else view t k') /\
    (b = false -> t' = t /\ view t k = None) /\
    (b = true -> HashTable.assoc k (HashTable.items t) <> None).
Proof.
  intros [Hok Hload].
  destruct (delete_spec t k Hok) as (t' & b & Hdel & Hok' & Hcap & Hg & Hs).
  exists t', b. split; [exact Hdel|]. split.
  { split; [exact Hok'|]. unfold HashTable.load_ok in *. lia. }
  split.
  { intros k'. unfold view. rewrite Hg. destruct (decide (k' = k)); reflexivity. }
  destruct (decide (k = "")) as [->|Hk].
  - unfold HashTable.delete in Hdel. simpl in Hdel. injection Hdel as <- <-.
    split; [|discriminate]. intros _. split; [reflexivity|].
    apply view_empty_key. split; assumption.
  - destruct (delete_shape t k Hok Hk) as (t2 & b2 & Hdel2 & _ & _ & _ & Hcase).
    rewrite Hdel in Hdel2. injection Hdel2 as <- <-.
    destruct Hcase as [(-> & -> & Hni)|(-> & A & v0 & B & Hit & _)].
    + split; [|discriminate]. intros _. split; [reflexivity|].
      unfold view. rewrite assoc_not_in by exact Hni. reflexivity.
    + split; [discriminate|]. intros _ Hnone.
      assert (Hin : k ∈ (HashTable.items t).*1).
      { rewrite Hit, fmap_app, elem_of_app. right. simpl. apply elem_of_cons. tauto. }
      revert Hin. generalize (HashTable.items t) Hnone. clear.
      intros l. induction l as [|[k0 v0] l IH]; simpl.
      * intros _ Hin. apply elem_of_nil in Hin. contradiction.
      * destruct (decide (k0 = k)); [discriminate|]. intros Hn Hin.
        apply elem_of_cons in Hin as [->|Hin]; [congruence|]. exact (IH Hn Hin).
Qed.

Lemma good_init (c : Z) : 0 < c -> good (HashTable.init c : HashTable.OptimizedHashTable V).
Proof. apply init_ok. Qed.

End Tables.

(** *** An index table: lists of identifiers under a key *)

Definition listing (index : HashTable.OptimizedHashTable (list string)) (key : string)
  : list string :=
  or_empty (view index key).

Lemma or_empty_Some (l : list string) : or_empty (Some l) = l.
Proof. destruct l; reflexivity. Qed.

Lemma list_remove_absent item_id l : item_id ∉ l -> list_remove item_id l = l.
Proof.
  induction l as [|x l IH]; simpl; [reflexivity|].
  rewrite not_elem_of_cons. intros [Hne Hni].
  destruct (decide (x = item_id)); [congruence|]. rewrite IH by exact Hni. reflexivity.
Qed.

Lemma update_index_spec fuel index key item_id :
  good index -> key <> "" ->
  exists index',
    update_index (S (S fuel)) index key item_id = Ok index' /\ good index' /\
    forall k, listing index' k =
              if decide (k = key)
              then (if bool_decide (item_id ∈ listing index key) then listing index key
                    else listing index key ++ [item_id])
              else listing index k.
Proof.
  intros Hgood Hkey. unfold update_index. rewrite get_view by exact Hgood. cbn [rbind].
  unfold listing.
  destruct (view index key) as [existing|] eqn:Ev.
  - rewrite or_empty_Some. case_bool_decide as Hin.
    + exists index. split; [reflexivity|]. split; [exact Hgood|].
      intros k. destruct (decide (k = key)) as [->|]; [|reflexivity].
      rewrite Ev, or_empty_Some. reflexivity.
    + destruct (insert_view fuel index key (Some (existing ++ [item_id])) Hgood Hkey)
        as (index' & b & Hins & Hgood' & Hv).
      rewrite Hins. exists index'. split; [reflexivity|]. split; [exact Hgood'|].
      intros k. rewrite Hv.
      destruct (decide (k = key)); [apply or_empty_Some|reflexivity].
  - destruct (insert_view fuel index key (Some [item_id]) Hgood Hkey)
      as (index' & b & Hins & Hgood' & Hv).
    rewrite Hins. exists index'. split; [reflexivity|]. split; [exact Hgood'|].
    intros k. rewrite Hv.
    destruct (decide (k = key)); [|reflexivity].
    cbn [or_empty]. rewrite bool_decide_eq_false_2 by apply not_elem_of_nil. reflexivity.
Qed.

Lemma remove_from_index_spec fuel index key item_id :
  good index ->
  exists index',
    _remove_from_index (S (S fuel)) index key item_id = Ok index' /\ good index' /\
    forall k, listing index' k =
              if decide (k = key) then list_remove item_id (listing index key)
              else listing index k.
Proof.
  intros Hgood. unfold _remove_from_index. rewrite get_view by exact Hgood. cbn [rbind].
  assert (Hsame : forall l, listing index key = l -> list_remove item_id l = l ->
            exists index', Ok index = Ok index' /\ good index' /\
              forall k, listing index' k =
                        if decide (k = key) then list_remove item_id (listing index key)
                        else listing index k).
  { intros l Hl Hrm. exists index. split; [reflexivity|]. split; [exact Hgood|].
    intros k. destruct (decide (k = key)) as [->|]; [|reflexivity]. congruence. }
  destruct (view index key) as [[|x rest]|] eqn:Ev.
  - apply (Hsame []); [unfold listing; rewrite Ev; reflexivity|reflexivity].
  - assert (Hl : listing index key = x :: rest) by (unfold listing; rewrite Ev; reflexivity).
    assert (Hkey : key <> "").
    { intros ->. rewrite view_empty_key in Ev by exact Hgood. discriminate. }
    case_bool_decide as Hin.
    + destruct (list_remove item_id (x :: rest)) as [|y remaining] eqn:Erm.
      * destruct (delete_view index key Hgood) as (index' & b & Hdel & Hgood' & Hv & _).
        rewrite Hdel. exists index'. split; [reflexivity|]. split; [exact Hgood'|].
        intros k. unfold listing at 1. rewrite Hv, Hl, Erm.
        destruct (decide (k = key)); reflexivity.
      * destruct (insert_view fuel index key (Some (y :: remaining)) Hgood Hkey)
          as (index' & b & Hins & Hgood' & Hv).
        rewrite Hins. exists index'. split; [reflexivity|]. split; [exact Hgood'|].
        intros k. unfold listing at 1. rewrite Hv, Hl, Erm.
        destruct (decide (k = key)); reflexivity.
    + apply (Hsame (x :: rest)); [exact Hl|]. apply list_remove_absent, Hin.
  - apply (Hsame []); [unfold listing; rewrite Ev; reflexivity|reflexivity].
Qed.

(** *** Identifiers of the catalogue entries that satisfy a test *)

Definition ids (f : Product -> bool) (cat : odict string Product) : list string :=
  (List.filter (fun kv => f (snd kv)) cat).*1.

Lemma ids_snoc f cat id p :
  ids f (cat ++ [(id, p)]) = ids f cat ++ (if f p then [id] else []).
Proof.
  unfold ids. rewrite List.filter_app, fmap_app. simpl. destruct (f p); reflexivity.
Qed.

Lemma ids_keys f cat x : x ∈ ids f cat -> x ∈ ODict.keys cat.
Proof.
  unfold ids, ODict.keys. intros Hin.
  apply list_elem_of_fmap in Hin as (kv & -> & Hin).
  apply list_elem_of_In, List.filter_In in Hin as [Hin _].
  apply list_elem_of_fmap. exists kv. split; [reflexivity|]. apply list_elem_of_In, Hin.
Qed.

Lemma remove_absent (id : string) (cat : odict string Product) :
  ODict.get id cat = None -> ODict.remove id cat = cat.
Proof.
  induction cat as [|[k p] cat IH]; simpl; [reflexivity|].
  destruct (decide (k = id)); [discriminate|]. intros H. rewrite IH by exact H. reflexivity.
Qed.

Lemma ids_remove f cat id p :
  NoDup (ODict.keys cat) -> ODict.get id cat = Some p ->
  ids f (ODict.remove id cat) = if f p then list_remove id (ids f cat) else ids f cat.
Proof.
  induction cat as [|[k q] cat IH]; cbn [ODict.get ODict.remove ODict.keys fmap list_fmap fst];
    [discriminate|].
  intros Hnd Hget. apply NoDup_cons in Hnd as [Hk Hnd].
  destruct (decide (k = id)) as [->|Hne].
  - injection Hget as ->. unfold ids. cbn [List.filter snd].
    destruct (f p); [|reflexivity].
    cbn [fmap list_fmap fst list_remove]. rewrite decide_True by reflexivity. reflexivity.
  - specialize (IH Hnd Hget). unfold ids in *. cbn [List.filter snd].
    destruct (f q); cbn [fmap list_fmap fst]; [|exact IH].
    destruct (f p).
    + cbn [list_remove]. rewrite decide_False by exact Hne. rewrite IH. reflexivity.
    + rewrite IH. reflexivity.
Qed.

Lemma get_snoc (cat : odict string Product) id p k :
  ODict.get id cat = None ->
  ODict.get k (cat ++ [(id, p)]) = if decide (k = id) then Some p else ODict.get k cat.
Proof.
  intros Hnone. induction cat as [|[k0 q] cat IH]; cbn [ODict.get app].
  - destruct (decide (id = k)) as [->|Hne].
    + rewrite decide_True by reflexivity. reflexivity.
    + rewrite decide_False by congruence. reflexivity.
  - cbn [ODict.get] in Hnone. destruct (decide (k0 = id)) as [|Hne0]; [discriminate|].
    destruct (decide (k0 = k)) as [->|Hne].
    + rewrite decide_False by exact Hne0. reflexivity.
    + apply IH, Hnone.
Qed.

Lemma get_remove (cat : odict string Product) id k :
  NoDup (ODict.keys cat) ->
  ODict.get k (ODict.remove id cat) = if decide (k = id) then None else ODict.get k cat.
Proof.
  induction cat as [|[k0 q] cat IH]; cbn [ODict.get ODict.remove ODict.keys fmap list_fmap fst].
  - intros _. destruct (decide (k = id)); reflexivity.
  - intros Hnd. apply NoDup_cons in Hnd as [Hk Hnd].
    destruct (decide (k0 = id)) as [->|Hne0].
    + destruct (decide (k = id)) as [->|Hne].
      * apply get_None_keys. exact Hk.
      * rewrite decide_False by congruence. reflexivity.
    + cbn [ODict.get]. destruct (decide (k0 = k)) as [->|Hne].
      * rewrite decide_False by exact Hne0. reflexivity.
      * apply IH, Hnd.
Qed.

Lemma remove_keys_sublist (cat : odict string Product) id :
  ODict.keys (ODict.remove id cat) `sublist_of` ODict.keys cat.
Proof.
  induction cat as [|[k q] cat IH]; cbn [ODict.remove ODict.keys fmap list_fmap fst];
    [constructor|].
  destruct (decide (k = id)).
  - apply sublist_cons. reflexivity.
  - cbn [fmap list_fmap fst]. apply sublist_skip. exact IH.
Qed.

Lemma remove_sublist (cat : odict string Product) id : ODict.remove id cat `sublist_of` cat.
Proof.
  induction cat as [|[k q] cat IH]; cbn [ODict.remove]; [constructor|].
  destruct (decide (k = id)).
  - apply sublist_cons. reflexivity.
  - apply sublist_skip. exact IH.
Qed.

(** *** The store against the catalogue *)

Record store_ok (s : OptimizedProductStore) : Prop := mkStoreOk {
  ok_items : good (items s);
  ok_category : good (category_index s);
  ok_brand : good (brand_index s);
  ok_price : good (price_index s)
}.

Definition in_category (c : string) (p : Product) : bool := bool_decide (category p = c).
Definition of_brand (b : string) (p : Product) : bool :=
  bool_decide (brand (product_details p) = Some b).

Lemma by_category_ids c cat : by_category c cat = ids (in_category c) cat.
Proof. reflexivity. Qed.

Lemma by_brand_ids b cat : by_brand b cat = ids (of_brand b) cat.
Proof. reflexivity. Qed.

Record agrees (cat : odict string Product) (s : OptimizedProductStore) : Prop := mkAgrees {
  agrees_items : forall id, view (items s) id = ODict.get id cat;
  agrees_category : forall c, listing (category_index s) c = by_category c cat;
  agrees_brand : forall b, listing (brand_index s) b = by_brand b cat
}.

Record cat_ok (cat : odict string Product) : Prop := mkCatOk {
  cat_nodup : NoDup (ODict.keys cat);
  cat_brand : forall id p, (id, p) ∈ cat -> brand (product_details p) <> Some ""
}.

Lemma brand_truthy (d : product_info) b : brand d = Some b -> info_truthy (Some d) = true.
Proof. destruct d as [[?|] ? ? ? ?]; simpl; [reflexivity|discriminate]. Qed.

Lemma add_product_present fuel s cat id c info :
  store_ok s -> agrees cat s -> ODict.mem id cat = true ->
  add_product fuel s id c info = Ok s.
Proof.
  intros Hs Ha Hmem. unfold add_product, HashTable.contains.
  rewrite get_view by apply Hs. cbn [rbind]. rewrite (agrees_items _ _ Ha).
  apply mem_get in Hmem as [p Hp]. rewrite Hp. reflexivity.
Qed.

Lemma add_product_step fuel s cat id c info :
  store_ok s -> cat_ok cat -> agrees cat s -> accepted (AddProduct id c info) ->
  exists s',
    add_product (S (S fuel)) s id c info = Ok s' /\ store_ok s' /\
    cat_ok (catalog_op cat (AddProduct id c info)) /\
    agrees (catalog_op cat (AddProduct id c info)) s'.
Proof.
  intros Hs Hc Ha (Hid & Hcat & Hbrand). cbn [catalog_op].
  destruct (ODict.mem id cat) eqn:Hmem.
  { exists s. split; [eapply add_product_present; eassumption|]. auto. }
  assert (Hnone : ODict.get id cat = None).
  { unfold ODict.mem in Hmem. destruct (ODict.get id cat); [discriminate|reflexivity]. }
  assert (Hfresh : forall f, id ∉ ids f cat).
  { intros f Hin. apply ids_keys in Hin. apply get_None_keys in Hnone. contradiction. }
  assert (Hfc : forall k, id ∉ by_category k cat)
    by (intros k; rewrite by_category_ids; apply Hfresh).
  assert (Hfb : forall k, id ∉ by_brand k cat)
    by (intros k; rewrite by_brand_ids; apply Hfresh).
  destruct Hs as [Hi Hci Hbi Hpi]. destruct Ha as [Hai Hac Hab].
  unfold add_product, HashTable.contains. rewrite get_view by exact Hi. cbn [rbind].
  rewrite Hai, Hnone.
  set (product := new_product id c info).
  destruct (insert_view fuel (items s) id (Some product) Hi Hid)
    as (items' & b & Hins & Hi' & Hvi).
  rewrite Hins. cbn [rbind fst].
  unfold _update_category_index. cbn [category_index items brand_index price_index].
  destruct (update_index_spec fuel (category_index s) c id Hci Hcat)
    as (categories & Hupd & Hci' & Hvc).
  rewrite Hupd. cbn [rbind].
  (* the brand index *)
  assert (Hb : exists brands,
    (if info_truthy info then
       match brand (default empty_info info) with
       | Some b0 =>
           _update_brand_index (S (S fuel))
             {| items := items'; category_index := categories;
                brand_index := brand_index s; price_index := price_index s |} b0 id
       | None => Ok {| items := items'; category_index := categories;
                       brand_index := brand_index s; price_index := price_index s |}
       end
     else Ok {| items := items'; category_index := categories;
                brand_index := brand_index s; price_index := price_index s |})
    = Ok {| items := items'; category_index := categories;
            brand_index := brands; price_index := price_index s |} /\
    good brands /\
    forall k, listing brands k =
              by_brand k cat ++ (if of_brand k product then [id] else [])).
  { assert (Hkeep : forall k, of_brand k product = false ->
              listing (brand_index s) k = by_brand k cat ++ (if of_brand k product then [id] else [])).
    { intros k ->. rewrite app_nil_r. apply Hab. }
    unfold of_brand, product, new_product in *. cbn [product_details] in *.
    destruct (info_truthy info) eqn:Et.
    - destruct info as [i|]; [|discriminate]. cbn [default from_option] in *.
      change (Datatypes.id i) with i in *.
      destruct (brand i) as [b0|] eqn:Eb.
      + assert (Hb0 : b0 <> "") by congruence.
        unfold _update_brand_index. cbn [brand_index items category_index price_index].
        destruct (update_index_spec fuel (brand_index s) b0 id Hbi Hb0)
          as (brands & Hupdb & Hbi' & Hvb).
        rewrite Hupdb. exists brands. split; [reflexivity|]. split; [exact Hbi'|].
        intros k. rewrite Hvb, !Hab. destruct (decide (k = b0)) as [->|Hne].
        * rewrite bool_decide_eq_false_2 by apply Hfb.
          rewrite bool_decide_eq_true_2 by reflexivity. reflexivity.
        * rewrite bool_decide_eq_false_2 by congruence. rewrite app_nil_r. reflexivity.
      + exists (brand_index s). split; [reflexivity|]. split; [exact Hbi|].
        intros k. apply Hkeep. apply bool_decide_eq_false_2. discriminate.
    - exists (brand_index s). split; [reflexivity|]. split; [exact Hbi|].
      intros k. apply Hkeep. apply bool_decide_eq_false_2. discriminate. }
  destruct Hb as (brands & -> & Hbi' & Hvb). cbn [rbind].
  (* the price index *)
  assert (Hp : exists prices,
    (if info_truthy info then
       match price (default empty_info info) with
       | Some p =>
           _update_price_index (S (S fuel))
             {| items := items'; category_index := categories;
                brand_index := brands; price_index := price_index s |} p id
       | None => Ok {| items := items'; category_index := categories;
                       brand_index := brands; price_index := price_index s |}
       end
     else Ok {| items := items'; category_index := categories;
                brand_index := brands; price_index := price_index s |})
    = Ok {| items := items'; category_index := categories;
            brand_index := brands; price_index := prices |} /\
    good prices).
  { destruct (info_truthy info); [|eauto].
    destruct (price (default empty_info info)) as [p|]; [|eauto].
    unfold _update_price_index. cbn [brand_index items category_index price_index].
    assert (Hrange : _get_price_range p <> "").
    { unfold _get_price_range. repeat destruct (Qltb p _); discriminate. }
    destruct (update_index_spec fuel (price_index s) (_get_price_range p) id Hpi Hrange)
      as (prices & Hupdp & Hpi' & _).
    rewrite Hupdp. eauto. }
  destruct Hp as (prices & -> & Hpi').
  eexists. split; [reflexivity|]. split; [constructor; assumption|]. split.
  - destruct Hc as [Hnd Hbr]. constructor.
    + unfold ODict.keys in *. rewrite fmap_app. apply NoDup_app. split; [exact Hnd|].
      split; [|apply NoDup_singleton].
      intros x Hx Hx'. simpl in Hx'. apply list_elem_of_singleton in Hx' as ->.
      apply get_None_keys in Hnone. contradiction.
    + intros id' p Hin. apply elem_of_app in Hin as [Hin|Hin]; [eapply Hbr; exact Hin|].
      apply list_elem_of_singleton in Hin. injection Hin as -> ->.
      unfold product, new_product. cbn [product_details].
      destruct info as [i|]; [|discriminate].
      destruct (info_truthy (Some i)); [exact Hbrand|discriminate].
  - constructor; cbn [items category_index brand_index].
    + intros k. rewrite Hvi, get_snoc by exact Hnone.
      destruct (decide (k = id)); [reflexivity|apply Hai].
    + intros k. rewrite Hvc, by_category_ids, ids_snoc, <- by_category_ids, !Hac.
      destruct (decide (k = c)) as [->|Hne].
      * rewrite bool_decide_eq_false_2 by apply Hfc.
        unfold in_category, product. cbn [new_product category].
        rewrite bool_decide_eq_true_2 by reflexivity. reflexivity.
      * unfold in_category, product. cbn [new_product category].
        rewrite bool_decide_eq_false_2 by congruence. rewrite app_nil_r. reflexivity.
    + intros k. rewrite Hvb, (by_brand_ids k (cat ++ _)), ids_snoc, <- by_brand_ids.
      reflexivity.
Qed.

Lemma delete_product_step fuel s cat id :
  store_ok s -> cat_ok cat -> agrees cat s ->
  exists s' found,
    delete_product (S (S fuel)) s id = Ok (s', found) /\ store_ok s' /\
    cat_ok (ODict.remove id cat) /\ agrees (ODict.remove id cat) s' /\
    found = ODict.mem id cat /\ (found = false -> s' = s).
Proof.
  intros Hs Hc Ha. pose proof Hs as [Hi Hci Hbi Hpi]. pose proof Ha as [Hai Hac Hab].
  unfold delete_product, get_product. rewrite get_view by exact Hi. cbn [rbind].
  rewrite Hai. unfold ODict.mem.
  destruct (ODict.get id cat) as [p|] eqn:Hget.
  2:{ exists s, false. rewrite remove_absent by exact Hget. auto 10. }
  destruct Hc as [Hnd Hbr].
  pose proof (get_Some_in _ _ _ Hget) as Hin.
  destruct (remove_from_index_spec fuel (category_index s) (category p) id Hci)
    as (categories & -> & Hci' & Hvc). cbn [rbind].
  assert (Hb : exists brands,
    (if info_truthy (Some (product_details p)) then
       match brand (product_details p) with
       | Some b =>
           if decide (b = "") then Ok (brand_index s)
           else _remove_from_index (S (S fuel)) (brand_index s) b id
       | None => Ok (brand_index s)
       end
     else Ok (brand_index s)) = Ok brands /\ good brands /\
    forall k, listing brands k = by_brand k (ODict.remove id cat)).
  { assert (Hkeep : brand (product_details p) = None ->
              forall k, listing (brand_index s) k = by_brand k (ODict.remove id cat)).
    { intros Hnb k. rewrite by_brand_ids, (ids_remove _ _ _ _ Hnd Hget).
      unfold of_brand. rewrite Hnb, bool_decide_eq_false_2 by discriminate. apply Hab. }
    destruct (brand (product_details p)) as [b|] eqn:Eb.
    - rewrite (brand_truthy _ _ Eb).
      destruct (decide (b = "")) as [->|Hne]; [exfalso; exact (Hbr _ _ Hin Eb)|].
      destruct (remove_from_index_spec fuel (brand_index s) b id Hbi)
        as (brands & -> & Hbi' & Hvb).
      exists brands. split; [reflexivity|]. split; [exact Hbi'|].
      intros k. rewrite Hvb, by_brand_ids, (ids_remove _ _ _ _ Hnd Hget).
      unfold of_brand at 1. rewrite Eb, !Hab.
      destruct (decide (k = b)) as [->|Hnk].
      + rewrite bool_decide_eq_true_2 by reflexivity. reflexivity.
      + rewrite bool_decide_eq_false_2 by congruence. reflexivity.
    - exists (brand_index s). split; [destruct (info_truthy _); reflexivity|].
      split; [exact Hbi|]. apply Hkeep. reflexivity. }
  destruct Hb as (brands & -> & Hbi' & Hvb). cbn [rbind].
  assert (Hp : exists prices,
    (if info_truthy (Some (product_details p)) then
       match price (product_details p) with
       | Some q =>
           if Qeq_bool q 0 then Ok (price_index s)
           else _remove_from_index (S (S fuel)) (price_index s) (_get_price_range q) id
       | None => Ok (price_index s)
       end
     else Ok (price_index s)) = Ok prices /\ good prices).
  { destruct (info_truthy _); [|eauto].
    destruct (price (product_details p)) as [q|]; [|eauto].
    destruct (Qeq_bool q 0); [eauto|].
    destruct (remove_from_index_spec fuel (price_index s) (_get_price_range q) id Hpi)
      as (prices & -> & Hpi' & _). eauto. }
  destruct Hp as (prices & -> & Hpi'). cbn [rbind].
  destruct (delete_view (items s) id Hi) as (items' & b & -> & Hi' & Hvi & Hfalse & _).
  cbn [rbind fst snd].
  assert (b = true) as ->.
  { destruct b; [reflexivity|]. destruct (Hfalse eq_refl) as [_ Hv].
    rewrite Hai, Hget in Hv. discriminate. }
  eexists _, true. split; [reflexivity|]. split; [constructor; assumption|].
  split.
  { constructor.
    - eapply sublist_NoDup; [exact Hnd|]. apply remove_keys_sublist.
    - intros id' q Hq. eapply Hbr. eapply elem_of_sublist; [exact Hq|apply remove_sublist]. }
  split; [|split; [reflexivity|discriminate]].
  constructor; cbn [items category_index brand_index].
  - intros k. rewrite Hvi, get_remove by exact Hnd.
    destruct (decide (k = id)); [reflexivity|apply Hai].
  - intros k. rewrite Hvc, by_category_ids, (ids_remove _ _ _ _ Hnd Hget).
    unfold in_category at 1. rewrite !Hac.
    destruct (decide (k = category p)) as [->|Hnk].
    + rewrite bool_decide_eq_true_2 by reflexivity. reflexivity.
    + rewrite bool_decide_eq_false_2 by congruence. reflexivity.
  - exact Hvb.
Qed.

Lemma run_agrees fuel (ops : list op) s cat :
  store_ok s -> cat_ok cat -> agrees cat s -> Forall accepted ops ->
  exists s',
    run (S (S fuel)) ops s = Ok s' /\ store_ok s' /\
    cat_ok (fold_left catalog_op ops cat) /\ agrees (fold_left catalog_op ops cat) s'.
Proof.
  intros Hs Hc Ha Hacc. revert s cat Hs Hc Ha.
  induction Hacc as [|o ops Ho _ IH]; intros s cat Hs Hc Ha.
  - exists s. simpl. auto.
  - unfold run. cbn [foldM fold_left]. fold (run (S (S fuel)) ops).
    destruct o as [id c info|id]; cbn [apply_op].
    + destruct (add_product_step fuel s cat id c info Hs Hc Ha Ho)
        as (s1 & -> & Hs1 & Hc1 & Ha1).
      cbn [rbind]. apply IH; assumption.
    + destruct (delete_product_step fuel s cat id Hs Hc Ha)
        as (s1 & found & -> & Hs1 & Hc1 & Ha1 & _).
      cbn [rbind fst]. apply IH; assumption.
Qed.

Lemma reachable_store (initial_capacity : Z) (ops : list op) (fuel : nat) :
  0 < initial_capacity -> Forall accepted ops -> (2 <= fuel)%nat ->
  exists s,
    run fuel ops (init initial_capacity) = Ok s /\ store_ok s /\
    cat_ok (catalog ops) /\ agrees (catalog ops) s.
Proof.
  intros Hcap Hacc Hfuel. destruct fuel as [|[|fuel]]; [lia|lia|].
  apply run_agrees; [| | |exact Hacc].
  - constructor; apply good_init; exact Hcap.
  - constructor; [constructor|]. intros id p Hin. apply elem_of_nil in Hin. contradiction.
  - constructor; intros k; unfold listing; cbn [init items category_index brand_index];
      rewrite view_init; reflexivity.
Qed.

(** X28. After any sequence of [add_product] and [delete_product] calls
    with non-empty identifiers, categories and brands, the store answers
    from the catalogue the calls describe: [get_product] returns the product
    as it was first added since its last deletion (a later [add_product] of
    a stored identifier changes nothing), and [get_items_by_category] and
    [get_items_by_brand] list exactly the stored products of that category
    or brand, each once, in the order they were added. *)
Theorem X28_optimized_product_store_answers_from_its_catalogue
    (initial_capacity : Z) (ops : list op) (fuel : nat) :
  0 < initial_capacity -> Forall accepted ops -> (2 <= fuel)%nat ->
  exists s,
    run fuel ops (init initial_capacity) = Ok s /\
    NoDup (ODict.keys (catalog ops)) /\
    (forall item_id, get_product s item_id = Ok (ODict.get item_id (catalog ops))) /\
    (forall c, get_items_by_category s c = Ok (by_category c (catalog ops))) /\
    (forall b, get_items_by_brand s b = Ok (by_brand b (catalog ops))).
Proof.
  intros Hcap Hacc Hfuel.
  destruct (reachable_store initial_capacity ops fuel Hcap Hacc Hfuel)
    as (s & Hrun & [Hi Hci Hbi Hpi] & [Hnd _] & [Hai Hac Hab]).
  exists s. split; [exact Hrun|]. split; [exact Hnd|]. split; [|split].
  - intros id. unfold get_product. rewrite get_view by exact Hi. rewrite Hai. reflexivity.
  - intros c. unfold get_items_by_category. rewrite get_view by exact Hci.
    cbn [rbind]. f_equal. apply Hac.
  - intros b. unfold get_items_by_brand. rewrite get_view by exact Hbi.
    cbn [rbind]. f_equal. apply Hab.
Qed.

(** X29. On a store reached by such calls, [delete_product] returns [True]
    exactly when the identifier is stored and otherwise leaves the store as
    it is; afterwards the product is gone from [get_product] and from every
    category and brand listing.  [add_product] of a stored identifier
    returns the store unchanged, whatever category and attributes it is
    given. *)
Theorem X29_optimized_product_store_delete_and_repeated_add
    (initial_capacity : Z) (ops : list op) (fuel : nat) (item_id : string) :
  0 < initial_capacity -> Forall accepted ops -> (2 <= fuel)%nat ->
  exists s s' found,
    run fuel ops (init initial_capacity) = Ok s /\
    delete_product fuel s item_id = Ok (s', found) /\
    found = ODict.mem item_id (catalog ops) /\
    (found = false -> s' = s) /\
    get_product s' item_id = Ok None /\
    (forall c, exists l, get_items_by_category s' c = Ok l /\ item_id ∉ l) /\
    (forall b, exists l, get_items_by_brand s' b = Ok l /\ item_id ∉ l) /\
    (found = true ->
     forall category info, add_product fuel s item_id category info = Ok s).
Proof.
  intros Hcap Hacc Hfuel.
  destruct (reachable_store initial_capacity ops fuel Hcap Hacc Hfuel)
    as (s & Hrun & Hs & Hc & Ha).
  destruct fuel as [|[|fuel]]; [lia|lia|].
  destruct (delete_product_step fuel s (catalog ops) item_id Hs Hc Ha)
    as (s' & found & Hdel & [Hi Hci Hbi Hpi] & [Hnd' _] & [Hai Hac Hab] & Hfound & Hsame).
  exists s, s', found. split; [exact Hrun|]. split; [exact Hdel|].
  split; [exact Hfound|]. split; [exact Hsame|].
  assert (Hgone : forall f, item_id ∉ ids f (ODict.remove item_id (catalog ops))).
  { intros f Hin. apply ids_keys in Hin. apply get_elem_of_keys in Hin as [p Hp].
    rewrite get_remove in Hp by apply Hc.
    rewrite decide_True in Hp by reflexivity. discriminate. }
  split.
  { unfold get_product. rewrite get_view by exact Hi. rewrite Hai, get_remove by apply Hc.
    rewrite decide_True by reflexivity. reflexivity. }
  split.
  { intros c. unfold get_items_by_category. rewrite get_view by exact Hci.
    cbn [rbind]. eexists. split; [reflexivity|]. fold (listing (category_index s') c).
    rewrite Hac, by_category_ids. apply Hgone. }
  split.
  { intros b. unfold get_items_by_brand. rewrite get_view by exact Hbi.
    cbn [rbind]. eexists. split; [reflexivity|]. fold (listing (brand_index s') b).
    rewrite Hab, by_brand_ids. apply Hgone. }
  intros -> category info. symmetry in Hfound.
  eapply add_product_present; eassumption.
Qed.

Definition sample_info (b : string) (p : Q) : option product_info :=
  Some {| brand := Some b; price := Some p; stock := None; availability := None;
          other_info := [] |}.

Definition sample_ops : list op :=
  [AddProduct "P1" "Books" (sample_info "Acme" 20);
   AddProduct "P2" "Books" (sample_info "Zenith" 0);
   AddProduct "P3" "Toys" None;
   AddProduct "P1" "Toys" (sample_info "Zenith" 700);
   DeleteProduct "P2";
   AddProduct "P4" "Books" (sample_info "Acme" 5)].

Lemma sample_ops_accepted : Forall accepted sample_ops.
Proof. unfold sample_ops. repeat constructor; discriminate. Qed.

Example optimized_product_store_sample :
  (let* s := run 2 sample_ops (init 2) in
   let* books := get_items_by_category s "Books" in
   let* toys := get_items_by_category s "Toys" in
   let* acme := get_items_by_brand s "Acme" in
   let* zenith := get_items_by_brand s "Zenith" in
   Ok (books, toys, acme, zenith))
  = Ok (["P1"; "P4"], ["P3"], ["P1"; "P4"], []).
Proof. vm_compute. reflexivity. Qed.

Lemma X28_witness :
  exists s,
    run 2 sample_ops (init 2) = Ok s /\
    NoDup (ODict.keys (catalog sample_ops)) /\
    (forall item_id, get_product s item_id = Ok (ODict.get item_id (catalog sample_ops))) /\
    (forall c, get_items_by_category s c = Ok (by_category c (catalog sample_ops))) /\
    (forall b, get_items_by_brand s b = Ok (by_brand b (catalog sample_ops))).
Proof.
  apply (X28_optimized_product_store_answers_from_its_catalogue 2 sample_ops 2).
  - lia.
  - exact sample_ops_accepted.
  - lia.
Defined.

Lemma X29_witness :
  exists s s' found,
    run 2 sample_ops (init 2) = Ok s /\
    delete_product 2 s "P1" = Ok (s', found) /\
    found = ODict.mem "P1" (catalog sample_ops) /\
    (found = false -> s' = s) /\
    get_product s' "P1" = Ok None /\
    (forall c, exists l, get_items_by_category s' c = Ok l /\ "P1" ∉ l) /\
    (forall b, exists l, get_items_by_brand s' b = Ok l /\ "P1" ∉ l) /\
    (found = true ->
     forall category info, add_product 2 s "P1" category info = Ok s).
Proof.
  apply (X29_optimized_product_store_delete_and_repeated_add 2 sample_ops 2 "P1").
  - lia.
  - exact sample_ops_accepted.
  - lia.
Defined.

End OptimizedStoresProofs.

(** * Proofs: content-based recommendations with caching *)

Module RecommenderCachedProofs.
Import Stores Recommender RecommenderCached CacheProofs.

Lemma cached_preferences_cold c now user_id user :
  Cache.user_preference_cache c !! user_id = None \/
  Cache._is_cache_valid c now ("prefs_" +:+ user_id) = false ->
  cached_preferences c now user_id user =
  let* preferences := get_preferences user in
  Ok (preferences,
      Cache._update_cache_timestamp (store_preferences c user_id preferences)
        now ("prefs_" +:+ user_id)).
Proof.
  intros Hcold. unfold cached_preferences.
  destruct (Cache.user_preference_cache c !! user_id) as [p|]; [|reflexivity].
  destruct Hcold as [Hnone|Hinvalid]; [discriminate|]. rewrite Hinvalid. reflexivity.
Qed.

(** X30. When neither a result nor the user's preferences are validly
    cached, [recommend_by_category_cached] returns what the uncached
    [recommend_by_category] returns on the same stores (and fails where it
    fails).  For a known user the result is then cached: every call for the
    same user and count less than [cache_ttl] seconds later returns the same
    list, whatever has happened to the user and product stores meanwhile.
    For an unknown user nothing is cached. *)
Theorem X30_cached_content_recommendations_are_served_until_expiry
    (self : OptimizedRecommenderSystem) (now : Q) (user_id : string) (top_k : Z) :
  Cache.cache_lookup (caches self) now (cache_key "content" user_id top_k) = None ->
  (Cache.user_preference_cache (caches self) !! user_id = None \/
   Cache._is_cache_valid (caches self) now ("prefs_" +:+ user_id) = false) ->
  match recommend_by_category (base self) user_id top_k with
  | Ok recs =>
      exists self',
        recommend_by_category_cached self now user_id top_k = Ok (recs, self') /\
        base self' = base self /\
        (ODict.get user_id (users (user_store (base self))) = None -> self' = self) /\
        (ODict.get user_id (users (user_store (base self))) <> None ->
         forall (later : Q) (stores : RecommenderSystem)
                (matrix : option (odict (string * string) Q)),
           (later - now < Cache.cache_ttl (caches self))%Q ->
           let changed := {| base := stores; caches := caches self';
                             similarity_matrix := matrix |} in
           recommend_by_category_cached changed later user_id top_k = Ok (recs, changed))
  | Raise e => recommend_by_category_cached self now user_id top_k = Raise e
  | OutOfFuel => False
  end.
Proof.
  intros Hmiss Hcold. unfold recommend_by_category, recommend_by_category_cached.
  rewrite Hmiss.
  destruct (ODict.get user_id (users (user_store (base self)))) as [user|] eqn:Hu.
  2:{ exists self. split; [reflexivity|]. split; [reflexivity|].
      split; [reflexivity|]. intros Hn. contradiction. }
  rewrite (cached_preferences_cold _ _ _ _ Hcold).
  destruct (get_preferences user) as [preferences| |] eqn:Hp; cbn [rbind fst snd].
  - eexists. split; [reflexivity|]. split; [reflexivity|]. split; [discriminate|].
    intros _ later stores matrix Hlater. cbv zeta. cbn [caches with_caches].
    rewrite store_lookup. cbn [Cache.cache_ttl Cache._update_cache_timestamp store_preferences].
    apply Qltb_lt in Hlater. rewrite Hlater. reflexivity.
  - reflexivity.
  - unfold get_preferences in Hp.
    destruct (preferences user); [discriminate|].
    destruct (Qeq_bool _ _); discriminate.
Qed.

Lemma X30_witness :
  match recommend_by_category (base CollabProofs.sample_optimized) "U1" 2 with
  | Ok recs =>
      exists self',
        recommend_by_category_cached CollabProofs.sample_optimized 0 "U1" 2
          = Ok (recs, self') /\
        base self' = base CollabProofs.sample_optimized /\
        (ODict.get "U1" (users (user_store (base CollabProofs.sample_optimized))) = None ->
         self' = CollabProofs.sample_optimized) /\
        (ODict.get "U1" (users (user_store (base CollabProofs.sample_optimized))) <> None ->
         forall (later : Q) (stores : RecommenderSystem)
                (matrix : option (odict (string * string) Q)),
           (later - 0 < Cache.cache_ttl (caches CollabProofs.sample_optimized))%Q ->
           let changed := {| base := stores; caches := caches self';
                             similarity_matrix := matrix |} in
           recommend_by_category_cached changed later "U1" 2 = Ok (recs, changed))
  | Raise e =>
      recommend_by_category_cached CollabProofs.sample_optimized 0 "U1" 2 = Raise e
  | OutOfFuel => False
  end.
Proof.
  apply (X30_cached_content_recommendations_are_served_until_expiry
           CollabProofs.sample_optimized 0 "U1" 2).
  - vm_compute. reflexivity.
  - left. vm_compute. reflexivity.
Defined.

Example cached_content_sample :
  (let* r := recommend_by_category_cached CollabProofs.sample_optimized 0 "U1" 2 in
   let* again := recommend_by_category_cached
                   {| base := {| user_store := empty_user_store;
                                 product_store := empty_product_store |};
                      caches := caches (snd r); similarity_matrix := None |}
                   3599 "U1" 2 in
   let* expired := recommend_by_category_cached
                     {| base := {| user_store := empty_user_store;
                                   product_store := empty_product_store |};
                        caches := caches (snd r); similarity_matrix := None |}
                     3600 "U1" 2 in
   Ok (fst r, fst again, fst expired))
  = Ok (["P2"], ["P2"], []).
Proof. vm_compute. reflexivity. Qed.

End RecommenderCachedProofs.

(** * Proofs: the skip list as a sorted map, and its queries *)

Module SkipListQueriesProofs.
Import Stores SkipList SkipListQueries StringOrder SkipListProofs.

(** The data stored under a key in the list of towers. *)
Fixpoint data_of (K : string) (T : list entry) : option purchase_record :=
  match T with
  | [] => None
  | e :: T' => if decide (e_key e = K) then Some (e_data e) else data_of K T'
  end.

Lemma data_of_app K A B :
  data_of K (A ++ B) = match data_of K A with Some d => Some d | None => data_of K B end.
Proof.
  induction A as [|e A IH]; simpl; [reflexivity|].
  destruct (decide (e_key e = K)); [reflexivity|exact IH].
Qed.

Lemma data_of_absent K T : K ∉ keys T -> data_of K T = None.
Proof.
  induction T as [|e T IH]; simpl; intros Hni; [reflexivity|].
  rewrite elem_of_cons in Hni. rewrite decide_False by (intros Heq; apply Hni; auto).
  apply IH. tauto.
Qed.

Lemma data_of_present K T : K ∈ keys T -> is_Some (data_of K T).
Proof.
  induction T as [|e T IH]; simpl; intros Hin.
  - apply elem_of_nil in Hin. contradiction.
  - destruct (decide (e_key e = K)); [eauto|].
    apply IH. apply elem_of_cons in Hin as [Hin|Hin]; [congruence|exact Hin].
Qed.

Lemma data_of_keys K T : K ∈ keys T <-> is_Some (data_of K T).
Proof.
  split; [apply data_of_present|].
  intros Hs. destruct (decide (K ∈ keys T)) as [Hin|Hni]; [exact Hin|].
  rewrite (data_of_absent K T Hni) in Hs. destruct Hs as [x Hx]. discriminate.
Qed.

Lemma data_of_middle K K' A e (B : list entry) :
  e_key e = K -> K ∉ keys A ->
  data_of K' (A ++ e :: B) =
    if decide (K' = K) then Some (e_data e) else data_of K' (A ++ B).
Proof.
  intros Hk Hni. rewrite !data_of_app. cbn [data_of]. rewrite Hk.
  destruct (decide (K' = K)) as [->|Hne].
  - rewrite (data_of_absent K A Hni). rewrite decide_True by reflexivity. reflexivity.
  - rewrite decide_False by congruence. reflexivity.
Qed.

Lemma search_data_of s T K : rep s T -> search_purchase s K = Ok (data_of K T).
Proof.
  intros Hrep. destruct (decide (K ∈ keys T)) as [Hin|Hni].
  - unfold keys in Hin. apply list_elem_of_fmap in Hin as (e & -> & He).
    rewrite (search_purchase_present s T Hrep e He). f_equal.
    pose proof (ascending_NoDup _ (rep_sorted s T Hrep)) as Hnd.
    clear Hrep. induction T as [|x T IH]; [apply elem_of_nil in He; contradiction|].
    cbn [data_of]. simpl in Hnd. apply NoDup_cons in Hnd as [Hx Hnd].
    apply elem_of_cons in He as [->|He].
    + rewrite decide_True by reflexivity. reflexivity.
    + rewrite decide_False; [apply IH; assumption|].
      intros Heq. apply Hx. rewrite Heq. unfold keys. apply list_elem_of_fmap.
      exists e. auto.
  - rewrite (search_purchase_absent s T Hrep K Hni), (data_of_absent K T Hni).
    reflexivity.
Qed.

Lemma middle_key_fresh A (e : entry) B :
  NoDup (keys (A ++ e :: B)) -> (e_key e ∉ keys A) /\ (e_key e ∉ keys B).
Proof.
  rewrite keys_app. cbn [keys map]. intros Hnd.
  apply NoDup_app in Hnd as (_ & Hd & Hn). apply NoDup_cons in Hn as [Hn _].
  split; [|exact Hn]. intros Hin. apply (Hd _ Hin). apply elem_of_cons. tauto.
Qed.

Lemma filter_fresh (K : string) (l : list string) :
  K ∉ l -> List.filter (fun k => negb (bool_decide (k = K))) l = l.
Proof.
  induction l as [|x l IH]; intros Hni; [reflexivity|].
  rewrite elem_of_cons in Hni. cbn [List.filter].
  rewrite bool_decide_eq_false_2 by (intros Heq; apply Hni; auto).
  cbn [negb]. rewrite IH by tauto. reflexivity.
Qed.

(** [add_purchase] changes the data under its key and nothing else. *)
Lemma add_purchase_frame s T rng calls K d :
  rep s T ->
  exists s' calls' T',
    add_purchase s rng calls K d = Ok (s', calls') /\ rep s' T' /\
    (forall K', data_of K' T' =
                if decide (K' = K) then Some (default empty_record d) else data_of K' T) /\
    size s' = size s + (if bool_decide (K ∈ keys T) then 0 else 1).
Proof.
  intros Hrep. pose proof (ascending_NoDup _ (rep_sorted s T Hrep)) as Hnd.
  destruct (in_keys_dec K T) as [HK|HK].
  - destruct (add_purchase_existing s T rng calls K d Hrep HK)
      as (Tlt & e & rest & HT & Hk & Hrun).
    exists (replaced s e (default empty_record d)), calls,
      (Tlt ++ with_data e (default empty_record d) :: rest).
    split; [exact Hrun|]. split; [apply replaced_rep with (T := T); assumption|].
    rewrite HT in Hnd. destruct (middle_key_fresh _ _ _ Hnd) as [Hlt _].
    rewrite Hk in Hlt. split.
    + intros K'. rewrite HT.
      rewrite (data_of_middle K K' Tlt (with_data e (default empty_record d)) rest Hk Hlt).
      rewrite (data_of_middle K K' Tlt e rest Hk Hlt).
      destruct (decide (K' = K)); reflexivity.
    + rewrite bool_decide_eq_true_2 by exact HK. cbn [size replaced]. lia.
  - destruct (add_purchase_new s T rng calls K d Hrep HK)
      as (s' & calls' & Tlt & Tge & e & HT & Hk & Hd & Hrun & Hrep' & Hsize).
    exists s', calls', (Tlt ++ e :: Tge). split; [exact Hrun|]. split; [exact Hrep'|].
    split.
    + intros K'. rewrite (data_of_middle K K' Tlt e Tge Hk).
      * rewrite Hd, HT. reflexivity.
      * intros Hin. apply HK. rewrite HT, keys_app. apply elem_of_app. tauto.
    + rewrite bool_decide_eq_false_2 by exact HK. exact Hsize.
Qed.

(** [delete_purchase] removes its key and nothing else. *)
Lemma delete_purchase_frame s T K :
  rep s T ->
  exists s' removed T',
    delete_purchase s K = Ok (s', removed) /\ rep s' T' /\
    removed = bool_decide (K ∈ keys T) /\
    keys T' = List.filter (fun k => negb (bool_decide (k = K))) (keys T) /\
    (forall K', data_of K' T' = if decide (K' = K) then None else data_of K' T) /\
    size s' = size s - (if removed then 1 else 0).
Proof.
  intros Hrep. pose proof (ascending_NoDup _ (rep_sorted s T Hrep)) as Hnd.
  destruct (in_keys_dec K T) as [HK|HK].
  - destruct (delete_purchase_present s T K Hrep HK)
      as (s' & Tlt & e & rest & HT & Hk & Hrun & Hrep' & Hsize).
    exists s', true, (Tlt ++ rest). split; [exact Hrun|]. split; [exact Hrep'|].
    rewrite HT in Hnd. destruct (middle_key_fresh _ _ _ Hnd) as [Hlt Hrest].
    rewrite Hk in Hlt, Hrest.
    split; [rewrite bool_decide_eq_true_2 by exact HK; reflexivity|]. split.
    + rewrite HT, !keys_app. cbn [keys map]. rewrite List.filter_app. cbn [List.filter].
      rewrite Hk, bool_decide_eq_true_2 by reflexivity. cbn [negb].
      rewrite !filter_fresh by assumption. reflexivity.
    + split; [|exact Hsize]. intros K'. rewrite HT.
      rewrite (data_of_middle K K' Tlt e rest Hk Hlt).
      destruct (decide (K' = K)) as [->|Hne]; [|reflexivity].
      apply data_of_absent. rewrite keys_app. intros Hin.
      apply elem_of_app in Hin as [Hin|Hin]; tauto.
  - exists s, false, T. split; [apply (delete_purchase_absent s T K Hrep HK)|].
    split; [exact Hrep|].
    split; [rewrite bool_decide_eq_false_2 by exact HK; reflexivity|].
    split; [symmetry; apply filter_fresh; exact HK|]. split; [|lia].
    intros K'. destruct (decide (K' = K)) as [->|Hne]; [|reflexivity].
    apply data_of_absent. exact HK.
Qed.

Lemma run_latest max_level rng ops :
  exists s calls T,
    run max_level rng ops = Ok (s, calls) /\ rep s T /\
    forall K, data_of K T = latest K ops.
Proof.
  unfold run, latest.
  assert (Hgen : forall s calls T (acc : string -> option purchase_record),
            rep s T -> (forall K, data_of K T = acc K) ->
            exists s' calls' T',
              foldM (apply_op rng) ops (s, calls) = Ok (s', calls') /\ rep s' T' /\
              forall K, data_of K T' = fold_left (record_op K) ops (acc K)).
  { induction ops as [|o ops IH]; intros s calls T acc Hrep Hacc.
    - exists s, calls, T. split; [reflexivity|]. split; [exact Hrep|exact Hacc].
    - cbn [foldM fold_left]. destruct o as [k d|k]; cbn [apply_op fst snd].
      + destruct (add_purchase_frame s T rng calls k d Hrep)
          as (s' & calls' & T' & Hrun & Hrep' & Hdata & _).
        rewrite Hrun. cbn [rbind].
        apply (IH s' calls' T' (fun K => record_op K (acc K) (Add k d)) Hrep').
        intros K. rewrite Hdata. cbn [record_op].
        destruct (decide (K = k)) as [->|Hne].
        * rewrite decide_True by reflexivity. reflexivity.
        * rewrite decide_False by congruence. apply Hacc.
      + destruct (delete_purchase_frame s T k Hrep)
          as (s' & removed & T' & Hrun & Hrep' & _ & _ & Hdata & _).
        rewrite Hrun. cbn [rbind fst].
        apply (IH s' calls T' (fun K => record_op K (acc K) (Delete k)) Hrep').
        intros K. rewrite Hdata. cbn [record_op].
        destruct (decide (K = k)) as [->|Hne].
        * rewrite decide_True by reflexivity. reflexivity.
        * rewrite decide_False by congruence. apply Hacc. }
  destruct (Hgen (init max_level) 0%nat [] (fun _ => None)) as (s & calls & T & H).
  - apply init_rep.
  - reflexivity.
  - exists s, calls, T. exact H.
Qed.

(** *** The level-0 walks *)

Section Walks.
Variable s : SkipListPurchaseHistory.
Variable T : list entry.
Hypothesis Hrep : rep s T.

Lemma walk_step A e rest :
  T = A ++ e :: rest ->
  exists f,
    heap s !! e_addr e = Some (mkNode (Some (e_key e)) (e_data e) f (e_level e)) /\
    f !! 0%nat = Some (next_at 0 rest).
Proof.
  intros HT. destruct (rep_entry s T Hrep e) as (f & Hf & _ & Hptr).
  { rewrite HT. apply elem_of_app. right. apply elem_of_cons. tauto. }
  exists f. split; [exact Hf|]. rewrite (Hptr 0%nat) by lia. f_equal. unfold ptr.
  pose proof (rep_nodup s T Hrep) as Hnd. rewrite HT, full_app in Hnd |- *.
  rewrite after_split by exact Hnd. reflexivity.
Qed.

Lemma recent_loop_spec count : forall rest A fuel recent,
  T = A ++ rest -> (length rest <= fuel)%nat ->
  recent_loop fuel (heap s) count (next_at 0 rest) recent =
    Ok (recent ++ (Some <$> keys (take (Z.to_nat count - length recent) rest))).
Proof.
  induction rest as [|e rest IH]; intros A fuel recent HT Hfuel.
  - destruct fuel; cbn [recent_loop next_at]; rewrite take_nil, app_nil_r; reflexivity.
  - cbn [next_at Nat.leb]. destruct fuel as [|fuel]; [simpl in Hfuel; lia|].
    cbn [recent_loop].
    destruct (Z.ltb_spec (Z.of_nat (length recent)) count) as [Hlt|Hge].
    + destruct (walk_step A e rest HT) as (f & Hf & Hf0).
      unfold deref, index. rewrite Hf. cbn [rbind forward]. rewrite Hf0. cbn [rbind].
      rewrite (IH (A ++ [e]) fuel).
      * cbn [SkipList.item_id]. rewrite length_app. cbn [length].
        replace (Z.to_nat count - length recent)%nat
          with (S (Z.to_nat count - (length recent + 1)))%nat by lia.
        cbn [take keys map fmap list_fmap]. rewrite <- app_assoc. reflexivity.
      * rewrite HT, <- app_assoc. reflexivity.
      * simpl in Hfuel. lia.
    + replace (Z.to_nat count - length recent)%nat with 0%nat by lia.
      cbn [take keys map fmap list_fmap]. rewrite app_nil_r. reflexivity.
Qed.

Lemma get_recent_purchases_spec count :
  get_recent_purchases s count = Ok (Some <$> take (Z.to_nat count) (keys T)).
Proof.
  destruct (header_node s T Hrep) as (f & Hf & _ & Hptr).
  unfold get_recent_purchases, deref, index. rewrite Hf. cbn [rbind forward].
  rewrite (Hptr 0%nat) by lia. cbn [rbind].
  rewrite (recent_loop_spec count T [] (loop_fuel s) []).
  - cbn [app length]. rewrite Nat.sub_0_r. unfold keys.
    rewrite <- fmap_take. reflexivity.
  - reflexivity.
  - pose proof (rep_fuel s T Hrep). unfold loop_fuel. lia.
Qed.

Definition upto (end_item : string) (e : entry) : bool := String.leb (e_key e) end_item.

Fixpoint take_while {A} (p : A -> bool) (l : list A) : list A :=
  match l with
  | [] => []
  | x :: l' => if p x then x :: take_while p l' else []
  end.

Lemma range_loop_spec end_item : forall rest A fuel items,
  T = A ++ rest -> (length rest <= fuel)%nat ->
  range_loop fuel (heap s) end_item (next_at 0 rest) items =
    Ok (items ++ (Some <$> keys (take_while (upto end_item) rest))).
Proof.
  induction rest as [|e rest IH]; intros A fuel items HT Hfuel.
  - destruct fuel; cbn [range_loop next_at take_while keys map fmap list_fmap];
      rewrite app_nil_r; reflexivity.
  - cbn [next_at Nat.leb]. destruct fuel as [|fuel]; [simpl in Hfuel; lia|].
    cbn [range_loop take_while].
    destruct (walk_step A e rest HT) as (f & Hf & Hf0).
    unfold deref, index. rewrite Hf. cbn [rbind forward SkipList.item_id]. unfold upto at 1.
    destruct (String.leb (e_key e) end_item).
    + rewrite Hf0. cbn [rbind]. rewrite (IH (A ++ [e]) fuel).
      * cbn [keys map fmap list_fmap]. rewrite <- app_assoc. reflexivity.
      * rewrite HT, <- app_assoc. reflexivity.
      * simpl in Hfuel. lia.
    + cbn [keys map fmap list_fmap]. rewrite app_nil_r. reflexivity.
Qed.

End Walks.

(** [a <= b] is [not (b < a)]. *)
Lemma string_leb_ltb (a b : string) : String.leb a b = negb (String.ltb b a).
Proof.
  unfold String.leb, String.ltb. rewrite (String.compare_antisym b a).
  destruct (String.compare a b); reflexivity.
Qed.

Definition in_range (start_item end_item : string) (k : string) : bool :=
  String.leb start_item k && String.leb k end_item.

Lemma range_below start_item end_item T :
  Forall (fun e => before (e_key e) start_item) T ->
  List.filter (in_range start_item end_item) (keys T) = [].
Proof.
  induction 1 as [|e T He _ IH]; [reflexivity|].
  cbn [keys map List.filter]. unfold in_range at 1.
  rewrite string_leb_ltb. unfold before in He. rewrite He. cbn [negb andb]. exact IH.
Qed.

Lemma range_from start_item end_item T :
  ascending (keys T) ->
  Forall (fun e => ~ before (e_key e) start_item) T ->
  List.filter (in_range start_item end_item) (keys T) =
    keys (take_while (upto end_item) T).
Proof.
  intros Hs Hge. induction Hge as [|e T He Hge IH]; [reflexivity|].
  cbn [keys map List.filter take_while]. unfold in_range at 1, upto at 1.
  assert (Hstart : String.leb start_item (e_key e) = true).
  { rewrite string_leb_ltb. unfold before in He.
    destruct (String.ltb (e_key e) start_item); [exfalso; apply He; reflexivity|reflexivity]. }
  rewrite Hstart. cbn [andb]. simpl in Hs. inversion Hs as [|? ? Hs' Hall]; subst.
  destruct (String.leb (e_key e) end_item) eqn:Hend.
  - cbn [keys map]. f_equal. apply IH. exact Hs'.
  - cbn [keys map]. clear IH Hs He Hstart.
    induction T as [|x T IHT]; [reflexivity|].
    cbn [map List.filter]. unfold in_range at 1.
    assert (Hx : String.leb x.(e_key) end_item = false).
    { inversion Hall as [|? ? Hex _]; subst.
      destruct (String.leb (e_key x) end_item) eqn:Hxe; [|reflexivity].
      rewrite string_leb_ltb in Hend. rewrite string_leb_ltb in Hxe.
      apply negb_false_iff in Hend. apply negb_true_iff in Hxe.
      unfold before in Hex. pose proof (string_ltb_trans _ _ _ Hend Hex). congruence. }
    rewrite Hx, andb_false_r. apply IHT.
    + inversion Hge; assumption.
    + simpl in Hs'. inversion Hs'; assumption.
    + inversion Hall; assumption.
Qed.

Lemma get_purchases_in_range_spec s T start_item end_item :
  rep s T ->
  get_purchases_in_range s start_item end_item =
    Ok (Some <$> List.filter (in_range start_item end_item) (keys T)).
Proof.
  intros Hrep.
  destruct (SkipListProofs.descend s T Hrep start_item)
    as (Tlt & Tge & update & HT & Hlt & Hge & Hrun & _ & _ & _ & _).
  destruct (pred_node (heap s) (header s) (max_level s) T Tlt Tge
              (rep_nodup s T Hrep) (rep_nodes s T Hrep) HT 0%nat Tlt []
              (eq_sym (app_nil_r Tlt)) (Nat.le_0_l _))
    as (f & p & _ & _ & _ & Hf & _ & Hf0).
  unfold get_purchases_in_range. rewrite (find_path_descend _ _ _ _ _ _ _ Hrun).
  cbn [rbind fst]. unfold deref, index. rewrite Hf. cbn [rbind forward].
  rewrite Hf0. cbn [rbind app].
  rewrite (range_loop_spec s T Hrep end_item Tge Tlt (loop_fuel s) [] HT).
  - cbn [app]. do 2 f_equal. rewrite HT, keys_app, List.filter_app.
    rewrite (range_below _ _ _ Hlt). cbn [app]. symmetry. apply range_from; [|exact Hge].
    pose proof (rep_sorted s T Hrep) as Hs. rewrite HT, keys_app in Hs.
    clear -Hs. induction (keys Tlt) as [|k l IH]; [exact Hs|].
    apply IH. simpl in Hs. inversion Hs; assumption.
  - pose proof (rep_fuel s T Hrep) as Hfuel. rewrite HT, length_app in Hfuel.
    unfold loop_fuel. lia.
Qed.

Lemma contains_spec s T k : rep s T -> __contains__ s k = Ok (bool_decide (k ∈ keys T)).
Proof.
  intros Hrep. unfold __contains__. rewrite (search_data_of s T k Hrep). cbn [rbind].
  f_equal. destruct (data_of k T) as [d|] eqn:Hd.
  - rewrite bool_decide_eq_true_2; [reflexivity|]. apply data_of_keys. rewrite Hd. eauto.
  - rewrite bool_decide_eq_false_2; [reflexivity|]. intros Hin.
    apply data_of_keys in Hin. rewrite Hd in Hin. destruct Hin as [x Hx]. discriminate.
Qed.

(** X1. The skip list is a map from item ids to purchase data: after any
    sequence of [add_purchase] and [delete_purchase] calls on a fresh list,
    [search_purchase(k)] returns what the last [add_purchase(k, d)] stored
    ([d], or the empty dict for [None]) unless a later [delete_purchase(k)]
    removed it, and [None] otherwise; [to_list()] holds exactly the ids for
    which that is not [None], and [k in list] is true exactly for them. *)
Theorem X1_skip_list_search_returns_latest_data
    (max_level : nat) (rng : nat -> bool) (ops : list op) :
  exists s calls ks,
    run max_level rng ops = Ok (s, calls) /\
    (forall k, search_purchase s k = Ok (latest k ops)) /\
    to_list s = Ok (Some <$> ks) /\
    (forall k, k ∈ ks <-> is_Some (latest k ops)) /\
    (forall k, __contains__ s k = Ok (bool_decide (k ∈ ks))).
Proof.
  destruct (run_latest max_level rng ops) as (s & calls & T & Hrun & Hrep & Hdata).
  exists s, calls, (keys T). split; [exact Hrun|]. split.
  - intros k. rewrite <- Hdata. apply search_data_of. exact Hrep.
  - split; [apply to_list_spec; exact Hrep|]. split.
    + intros k. rewrite <- Hdata. apply data_of_keys.
    + intros k. apply contains_spec. exact Hrep.
Qed.

(** X2. [delete_purchase(k)] on any list reached by adds and deletes returns
    [True] exactly when [k] is in [to_list()]; afterwards [to_list()] is the
    old list without [k], [len] has dropped by one exactly in that case, and
    every other id is found with the data it had. *)
Theorem X2_skip_list_delete_removes_only_its_key
    (max_level : nat) (rng : nat -> bool) (ops : list op) (k : string) :
  exists s calls ks s' removed,
    run max_level rng ops = Ok (s, calls) /\
    to_list s = Ok (Some <$> ks) /\
    delete_purchase s k = Ok (s', removed) /\
    removed = bool_decide (k ∈ ks) /\
    to_list s' = Ok (Some <$> List.filter (fun x => negb (bool_decide (x = k))) ks) /\
    __len__ s' = __len__ s - (if removed then 1 else 0) /\
    (forall k', k' <> k -> search_purchase s' k' = search_purchase s k').
Proof.
  destruct (run_latest max_level rng ops) as (s & calls & T & Hrun & Hrep & _).
  destruct (delete_purchase_frame s T k Hrep)
    as (s' & removed & T' & Hdel & Hrep' & Hrem & Hkeys & Hdata & Hsize).
  exists s, calls, (keys T), s', removed. split; [exact Hrun|].
  split; [apply to_list_spec; exact Hrep|]. split; [exact Hdel|]. split; [exact Hrem|].
  split; [rewrite <- Hkeys; apply to_list_spec; exact Hrep'|]. split; [exact Hsize|].
  intros k' Hne. rewrite (search_data_of s' T' k' Hrep'), (search_data_of s T k' Hrep).
  rewrite Hdata, decide_False by exact Hne. reflexivity.
Qed.

(** X3. [add_purchase(k, d)] on any list reached by adds and deletes grows
    [len] by one exactly when [k] was not in the list, stores [d] under [k]
    and leaves the data of every other id as it was. *)
Theorem X3_skip_list_add_keeps_other_entries
    (max_level : nat) (rng : nat -> bool) (ops : list op) (k : string)
    (d : option purchase_record) :
  exists s calls ks s' calls',
    run max_level rng ops = Ok (s, calls) /\
    to_list s = Ok (Some <$> ks) /\
    add_purchase s rng calls k d = Ok (s', calls') /\
    __len__ s' = __len__ s + (if bool_decide (k ∈ ks) then 0 else 1) /\
    search_purchase s' k = Ok (Some (default empty_record d)) /\
    (forall k', k' <> k -> search_purchase s' k' = search_purchase s k').
Proof.
  destruct (run_latest max_level rng ops) as (s & calls & T & Hrun & Hrep & _).
  destruct (add_purchase_frame s T rng calls k d Hrep)
    as (s' & calls' & T' & Hadd & Hrep' & Hdata & Hsize).
  exists s, calls, (keys T), s', calls'. split; [exact Hrun|].
  split; [apply to_list_spec; exact Hrep|]. split; [exact Hadd|]. split; [exact Hsize|].
  split.
  - rewrite (search_data_of s' T' k Hrep'), Hdata, decide_True by reflexivity. reflexivity.
  - intros k' Hne. rewrite (search_data_of s' T' k' Hrep'), (search_data_of s T k' Hrep).
    rewrite Hdata, decide_False by exact Hne. reflexivity.
Qed.

(** X4. [get_purchases_in_range(a, b)] returns, in ascending order, exactly
    the ids [k] of [to_list()] with [a <= k <= b] (nothing when [b < a]). *)
Theorem X4_skip_list_range_query_is_the_filtered_list
    (max_level : nat) (rng : nat -> bool) (ops : list op) (start_item end_item : string) :
  exists s calls ks,
    run max_level rng ops = Ok (s, calls) /\
    to_list s = Ok (Some <$> ks) /\
    get_purchases_in_range s start_item end_item =
      Ok (Some <$> List.filter
                     (fun k => String.leb start_item k && String.leb k end_item) ks).
Proof.
  destruct (run_latest max_level rng ops) as (s & calls & T & Hrun & Hrep & _).
  exists s, calls, (keys T). split; [exact Hrun|].
  split; [apply to_list_spec; exact Hrep|].
  apply get_purchases_in_range_spec. exact Hrep.
Qed.

(** X5. [get_recent_purchases(count)] of the skip list returns the first
    [count] ids of [to_list()], that is the [count] smallest ids in
    ascending order whatever the order of the purchases; it returns the
    whole list when [count] exceeds [len] and nothing for [count <= 0]. *)
Theorem X5_skip_list_recent_purchases_are_the_smallest_ids
    (max_level : nat) (rng : nat -> bool) (ops : list op) (count : Z) :
  exists s calls ks,
    run max_level rng ops = Ok (s, calls) /\
    to_list s = Ok (Some <$> ks) /\
    ascending ks /\
    get_recent_purchases s count = Ok (Some <$> take (Z.to_nat count) ks) /\
    (__len__ s <= count -> get_recent_purchases s count = to_list s) /\
    (count <= 0 -> get_recent_purchases s count = Ok []).
Proof.
  destruct (run_latest max_level rng ops) as (s & calls & T & Hrun & Hrep & _).
  exists s, calls, (keys T). split; [exact Hrun|].
  pose proof (to_list_spec s T Hrep) as Hlist.
  pose proof (get_recent_purchases_spec s T Hrep count) as Hrecent.
  split; [exact Hlist|]. split; [apply (rep_sorted s T Hrep)|]. split; [exact Hrecent|].
  split.
  - intros Hlen. rewrite Hrecent, Hlist. do 2 f_equal. apply take_ge.
    unfold __len__ in Hlen. rewrite (rep_size s T Hrep) in Hlen.
    unfold keys. rewrite length_map. lia.
  - intros Hle. rewrite Hrecent. replace (Z.to_nat count) with 0%nat by lia. reflexivity.
Qed.

Example skip_list_queries_sample :
  (let* st := run 4 sample_rng sample_ops in
   let* range := get_purchases_in_range (fst st) "P1" "P2" in
   let* recent := get_recent_purchases (fst st) 2 in
   let* present := __contains__ (fst st) "P0" in
   let* absent := __contains__ (fst st) "P3" in
   Ok (range, recent, present, absent))
  = Ok ([Some "P1"; Some "P2"], [Some "P0"; Some "P1"], true, false).
Proof. vm_compute. reflexivity. Qed.

End SkipListQueriesProofs.

(** * Proofs: the hybrid list with content weight 1 and collaborative weight 0 *)

Module HybridProofs.
Import Stores Recommender RecommenderCached RecommenderHybrid RecommenderProofs.

(** With weights 1 and 0 the merge lists the content-based items in their
    order, then the collaborative items that are not among them, in theirs. *)
Lemma hybrid_merge_content_only (top_k : Z) (content collab : list string) :
  NoDup content ->
  hybrid_merge top_k 1 0 content collab
  = take (Z.to_nat top_k) (content ++ unseen content collab).
Proof.
  intros Hnd. unfold hybrid_merge. rewrite !add_position_scores_fold.
  pose proof (fold_scores_fresh 1 (length content) content 0 [] [] Hnd) as H1.
  simpl app in H1.
  assert (H1' : Forall2 eqv
            (fold_left (score_step 1 (length content))
               (imap (fun i item => (i, item)) content) [])
            (ref_scores 1 (length content) 0 content)).
  { apply H1; [|constructor]. intros x _. apply not_elem_of_nil. }
  clear H1.
  pose proof (fold_scores_zero (length collab) collab 0 _ _ H1') as HE.
  simpl plus in HE. rewrite (eqv_keys _ _ H1'), ref_scores_keys in HE.
  unfold nlargest. rewrite sort_desc_descending.
  - rewrite fmap_take. f_equal.
    rewrite (eqv_keys _ _ HE), fmap_app, ref_scores_keys, zeros_keys. reflexivity.
  - eapply descending_eqv; [exact HE|]. apply descending_ref. simpl. lia.
Qed.

Lemma take_app_same {A} (n : nat) (l extra : list A) :
  take n (l ++ extra) = take n l <-> (n <= length l)%nat \/ extra = [].
Proof.
  split.
  - intros Heq. destruct extra as [|e extra]; [tauto|]. left.
    apply (f_equal length) in Heq. rewrite !length_take, length_app in Heq.
    simpl in Heq. lia.
  - intros [Hle| ->]; [apply take_app_le; exact Hle|rewrite app_nil_r; reflexivity].
Qed.

(** With nothing valid in the caches the cached content-based method returns
    the list of the uncached one. *)
Lemma content_cached_cold (self : OptimizedRecommenderSystem) (now : Q)
    (user_id : string) (top_k : Z) (content : list string) :
  Cache.cache_lookup (caches self) now (cache_key "content" user_id top_k) = None ->
  (Cache.user_preference_cache (caches self) !! user_id = None \/
   Cache._is_cache_valid (caches self) now ("prefs_" +:+ user_id) = false) ->
  recommend_by_category (base self) user_id top_k = Ok content ->
  exists self', recommend_by_category_cached self now user_id top_k = Ok (content, self').
Proof.
  intros Hmiss Hcold. unfold recommend_by_category, recommend_by_category_cached.
  rewrite Hmiss.
  destruct (ODict.get user_id (users (user_store (base self)))) as [user|].
  - rewrite (RecommenderCachedProofs.cached_preferences_cold _ _ _ _ Hcold).
    destruct (get_preferences user) as [preferences| |]; cbn [rbind fst snd];
      try discriminate.
    intros [= <-]. eexists. reflexivity.
  - intros [= <-]. eexists. reflexivity.
Qed.

Section WithCosine.
Variable cosine : string -> string -> res Q.
Variable str_weight : Q -> string.

(** C2 (amended). With content weight 1 and collaborative weight 0
    [recommend_hybrid] returns the first [top_k] entries of the content-based
    list for [2 * top_k] followed by the collaborative items for
    [2 * top_k] that are not in it, in their order.  The content-based list
    for [top_k] is therefore always a prefix of the hybrid list, and the two
    are equal exactly when the content-based request for [2 * top_k] yields
    at least [top_k] items or the collaborative request yields nothing
    outside it.  [recommend_hybrid_optimized] returns the list cached for
    its key while that is valid, whatever it is; otherwise it merges in the
    same way the lists that [recommend_by_category_cached] and
    [recommend_by_similar_users_cached] return (the first without
    duplicates), which for the first is the uncached content-based list when
    nothing valid is cached for it, and caches the merged list. *)
Theorem C2_hybrid_with_content_weight_only
    (self : OptimizedRecommenderSystem) (user_id : string) (top_k : Z)
    (content collab : list string) :
  recommend_by_category (base self) user_id (top_k * 2) = Ok content ->
  recommend_by_similar_users (base self) user_id (top_k * 2) = Ok collab ->
  let k := Z.to_nat top_k in
  let key := hybrid_key str_weight user_id top_k 1 0 in
  recommend_by_category (base self) user_id top_k = Ok (take k content) /\
  recommend_hybrid (base self) user_id top_k 1 0
    = Ok (take k (content ++ unseen content collab)) /\
  (forall x, x ∈ unseen content collab <-> x ∈ collab /\ x ∉ content) /\
  take k content `prefix_of` take k (content ++ unseen content collab) /\
  (recommend_hybrid (base self) user_id top_k 1 0
     = recommend_by_category (base self) user_id top_k <->
   (k <= length content)%nat \/ unseen content collab = []) /\
  (forall (warm : OptimizedRecommenderSystem) (now at_content at_collab at_store : Q)
          (cached : list string),
     Cache.cache_lookup (caches warm) now key = Some cached ->
     recommend_hybrid_optimized cosine str_weight warm now at_content at_collab at_store
       user_id top_k 1 0 = Ok (cached, warm)) /\
  (forall (now at_content at_collab at_store : Q) (cached_content cached_collab : list string)
          (self1 self2 : OptimizedRecommenderSystem),
     Cache.cache_lookup (caches self) now key = None ->
     recommend_by_category_cached self at_content user_id (top_k * 2)
       = Ok (cached_content, self1) ->
     recommend_by_similar_users_cached cosine self1 at_collab user_id (top_k * 2)
       = Ok (cached_collab, self2) ->
     NoDup cached_content ->
     let result := take k (cached_content ++ unseen cached_content cached_collab) in
     recommend_hybrid_optimized cosine str_weight self now at_content at_collab at_store
       user_id top_k 1 0
     = Ok (result, with_caches self2 (Cache.cache_store (caches self2) at_store key result))) /\
  (forall (at_content : Q),
     Cache.cache_lookup (caches self) at_content (cache_key "content" user_id (top_k * 2))
       = None ->
     (Cache.user_preference_cache (caches self) !! user_id = None \/
      Cache._is_cache_valid (caches self) at_content ("prefs_" +:+ user_id) = false) ->
     exists self1,
       recommend_by_category_cached self at_content user_id (top_k * 2)
       = Ok (content, self1)).
Proof.
  intros Hcontent Hcollab k key.
  pose proof Hcontent as Hcontent'.
  rewrite recommend_by_category_prefix in Hcontent.
  destruct (content_all (base self) user_id) as [all| |] eqn:Hall; simpl in Hcontent;
    try discriminate.
  injection Hcontent as <-.
  assert (Hnd : NoDup (take (Z.to_nat (top_k * 2)) all)).
  { apply (sublist_NoDup _ all); [|apply sublist_take].
    eapply content_all_NoDup; exact Hall. }
  set (content := take (Z.to_nat (top_k * 2)) all) in *.
  assert (Hk : recommend_by_category (base self) user_id top_k = Ok (take k content)).
  { rewrite recommend_by_category_prefix, Hall. simpl. f_equal.
    unfold content, k. rewrite take_take. f_equal. lia. }
  assert (Hh : recommend_hybrid (base self) user_id top_k 1 0
               = Ok (take k (content ++ unseen content collab))).
  { unfold recommend_hybrid. rewrite Hcontent'. cbn [rbind]. rewrite Hcollab. cbn [rbind].
    rewrite hybrid_merge_content_only by exact Hnd. reflexivity. }
  split; [exact Hk|]. split; [exact Hh|].
  split; [intros x; apply elem_of_unseen|].
  split; [rewrite take_app; apply prefix_app_r; reflexivity|].
  split.
  { rewrite Hh, Hk. rewrite <- take_app_same. split; [intros [= H]; exact H|congruence]. }
  split.
  { intros warm now at_content at_collab at_store cached Hhit.
    unfold recommend_hybrid_optimized. fold key. rewrite Hhit. reflexivity. }
  split.
  { intros now at_content at_collab at_store cached_content cached_collab self1 self2
      Hmiss Hc1 Hc2 Hnd1. cbv zeta.
    unfold recommend_hybrid_optimized. fold key. rewrite Hmiss, Hc1. cbn [rbind fst snd].
    rewrite Hc2. cbn [rbind fst snd].
    rewrite hybrid_merge_content_only by exact Hnd1. reflexivity. }
  intros at_content Hmiss Hcold.
  exact (content_cached_cold self at_content user_id (top_k * 2) content Hmiss Hcold Hcontent').
Qed.

End WithCosine.

(** The text of a weight: its numerator, enough for the weights 1 and 0. *)
Definition sample_str (q : Q) : string := pretty (Qnum q).

Lemma C2_witness :
  let k := Z.to_nat 2 in
  let key := hybrid_key sample_str "U1" 2 1 0 in
  recommend_by_category (base CollabProofs.sample_optimized) "U1" 2 = Ok (take k ["P2"]) /\
  recommend_hybrid (base CollabProofs.sample_optimized) "U1" 2 1 0
    = Ok (take k (["P2"] ++ unseen ["P2"] ["X2"; "X1"; "P2"])) /\
  (forall x, x ∈ unseen ["P2"] ["X2"; "X1"; "P2"] <->
             x ∈ ["X2"; "X1"; "P2"] /\ x ∉ ["P2"]) /\
  take k ["P2"] `prefix_of` take k (["P2"] ++ unseen ["P2"] ["X2"; "X1"; "P2"]) /\
  (recommend_hybrid (base CollabProofs.sample_optimized) "U1" 2 1 0
     = recommend_by_category (base CollabProofs.sample_optimized) "U1" 2 <->
   (k <= length ["P2"])%nat \/ unseen ["P2"] ["X2"; "X1"; "P2"] = []) /\
  (forall (warm : OptimizedRecommenderSystem) (now at_content at_collab at_store : Q)
          (cached : list string),
     Cache.cache_lookup (caches warm) now key = Some cached ->
     recommend_hybrid_optimized CollabProofs.half sample_str warm now at_content at_collab
       at_store "U1" 2 1 0 = Ok (cached, warm)) /\
  (forall (now at_content at_collab at_store : Q) (cached_content cached_collab : list string)
          (self1 self2 : OptimizedRecommenderSystem),
     Cache.cache_lookup (caches CollabProofs.sample_optimized) now key = None ->
     recommend_by_category_cached CollabProofs.sample_optimized at_content "U1" (2 * 2)
       = Ok (cached_content, self1) ->
     recommend_by_similar_users_cached CollabProofs.half self1 at_collab "U1" (2 * 2)
       = Ok (cached_collab, self2) ->
     NoDup cached_content ->
     let result := take k (cached_content ++ unseen cached_content cached_collab) in
     recommend_hybrid_optimized CollabProofs.half sample_str CollabProofs.sample_optimized
       now at_content at_collab at_store "U1" 2 1 0
     = Ok (result, with_caches self2 (Cache.cache_store (caches self2) at_store key result))) /\
  (forall (at_content : Q),
     Cache.cache_lookup (caches CollabProofs.sample_optimized) at_content
       (cache_key "content" "U1" (2 * 2)) = None ->
     (Cache.user_preference_cache (caches CollabProofs.sample_optimized) !! "U1" = None \/
      Cache._is_cache_valid (caches CollabProofs.sample_optimized) at_content
        ("prefs_" +:+ "U1") = false) ->
     exists self1,
       recommend_by_category_cached CollabProofs.sample_optimized at_content "U1" (2 * 2)
       = Ok (["P2"], self1)).
Proof.
  apply (C2_hybrid_with_content_weight_only CollabProofs.half sample_str
           CollabProofs.sample_optimized "U1" 2 ["P2"] ["X2"; "X1"; "P2"]).
  - vm_compute. reflexivity.
  - vm_compute. reflexivity.
Defined.

(** The claim as stated fails.  The content-based list has one item, and the
    hybrid list fills its second place with a collaborative item of score 0,
    in both hybrid methods.  And with a valid cached list
    [recommend_hybrid_optimized] returns that list: here the one cached at
    time 0 for a user and a catalogue that are gone at time 3599. *)
Lemma C2_counterexample :
  recommend_hybrid sample_system "U1" 2 1 0 = Ok ["P2"; "X2"] /\
  recommend_by_category sample_system "U1" 2 = Ok ["P2"] /\
  (let* r := recommend_hybrid_optimized CollabProofs.half sample_str
               CollabProofs.sample_optimized 0 0 0 0 "U1" 2 1 0 in
   let* c := recommend_by_category_cached (snd r) 0 "U1" 2 in
   let emptied := {| base := {| user_store := empty_user_store;
                                product_store := empty_product_store |};
                     caches := caches (snd r); similarity_matrix := None |} in
   let* later := recommend_hybrid_optimized CollabProofs.half sample_str emptied
                   3599 3599 3599 3599 "U1" 2 1 0 in
   let* content_later := recommend_by_category_cached emptied 3599 "U1" 5 in
   Ok (fst r, fst c, fst later, fst content_later))
  = Ok (["P2"; "X2"], ["P2"], ["P2"; "X2"], []).
Proof. split; [|split]; vm_compute; reflexivity. Qed.

End HybridProofs.
